(* ===== verification/_CoqProject ===== *)
-Q . S2P
Prelude.v
Utf8.v
Wire.v
Events.v
ClassifySpec.v
Scenario.v
State.v
StateLemmas.v
StateEvents.v
StateQueue.v
StateTx.v
StateExtended.v
Trace.v
TraceProps.v
Proxy.v
ProxyLemmas.v
RelayLemmas.v
Delivery.v
Window.v
RelayTotal.v
ProxyProps.v
Session.v
Startup.v
Negotiation.v
StartupProps.v
Serve.v
ServeProps.v
System.v
Tls.v
Cli.v
CliProps.v
