(* ===== verification/Prelude.v ===== *)
(** * pgfault: a verification development

    pgfault is a proxy between a PostgreSQL client and its server.  It decodes the
    frames of both directions, follows the protocol with an observer that turns
    frames into semantic events ([transaction.commit.completed], [result.row], ...),
    and lets scenarios fire on these events: suppress a message, disconnect, delay,
    or truncate a result.  Everything is recorded in a trace from which the faults
    can be replayed.  This library models the six library crates and the command
    line under src/crates/ and proves what makes them correct.

    ** The parts and their files

    Each definition carries the name of the function or type it translates; the
    sources are src/crates/pgfault-<crate>/src/lib.rs unless another is named.

    - [Prelude]: bytes, machine integers, [outcome] (value, error, panic), slices,
      tactics.  [Utf8]: the [str] and [String] operations the crates call.
    - [Wire] (crate wire): [decode], [FrameReader::next] as [next] over the reads of
      a socket, [startup], [cstr], [text], [frame].
    - [Events] (crate events): the event vocabulary, statements, and [classify] with
      its indices.  [ClassifySpec]: its equivalence with a lexer.
    - [Scenario] (crate scenario): scenario data, [validate], [selects], and the
      matcher with [observe] and [needs_gate].
    - [State] (crate state): [ConnectionState], with [frontend], [backend],
      [forwarded] and [completion_boundary].  [StateLemmas], [StateEvents],
      [StateQueue], [StateTx], [StateExtended]: its theorems.
    - [Trace] (crate trace): records, the recorder on the contents of a file,
      [replay].  [TraceProps]: its theorems.
    - [Proxy] (crate proxy): [apply] and the two branches of the relay loop of
      [connection], as programs of effects.  [ProxyLemmas], [RelayLemmas],
      [Delivery], [Window], [RelayTotal], [ProxyProps]: the reasoning on effects and
      the theorems.  [Session]: the loop with its two frame readers, on bytes, and
      that it is the relay of the frames they yield.
    - [Startup] (crates proxy and tls.rs): [metadata], the negotiation, the upstream
      connection, a whole [connection].  [Negotiation]: what a client may say, and
      that the loop computes it.  [StartupProps]: the other theorems.
    - [Serve] (crate proxy): the accept loop [serve] as a step relation on its tasks
      and the trace file they share.  [ServeProps]: its theorems.
    - [System]: programs of system calls.  [Tls] (proxy/src/tls.rs): streams over
      descriptors, certificates, keys, verifiers.  [Cli] (pgfault-cli/src/main.rs,
      with [Scenario::load], [Recorder::create], the opening of a trace and [bind]):
      [main] and [probe].  [CliProps]: its theorems.

    They interact as the crates do: [Proxy.on_client] and [Proxy.on_server] feed a
    frame of [Wire] to the observer of [State], pass its events to the matchers of
    [Scenario] through [apply], which records them with [Trace]; [Startup.connection]
    runs [Session.session] on the client's bytes behind the startup packet; [Serve.step] interleaves connections; [Cli.main]
    serves with the scenarios it has loaded or replayed.

    ** What the theorems show

    - The completion gate.  [gate_announces_completion]: for the last CommandComplete
      of a cycle, the boundary computed there announces the completion event of the
      ReadyForQuery (commit, rollback or implicit), and what makes it happen.
      [commit_ack_withheld]: a scenario that fires on a completion and suppresses or
      disconnects leaves the client without either message, under every
      interleaving and every failure of the network.  [gate_bounded]: what is held.
    - Delivery.  [relay_transparent], [bytes_transparent], [connection_delivers]:
      without a fault both sides receive exactly what was sent, as frames, as bytes
      cut in any way, and over a whole connection, inside TLS or not.
      [relay_integrity]: with faults and failures, a subsequence of it.
      [truncation_exact], [passthrough].
    - Refinement.  [relay_refines_observer]: the trace of a run is a run of the
      observer with the firings of the matchers.  [trace_file_faithful]: so is the
      part of the shared trace file about one connection.  [observer_refines_queue]:
      the cycles of the observer are an abstract queue.
    - The observer.  [completion_event_iff], [ready_fifo], [views_reconcile],
      [reliability_step], [execute_describes_statement], [rows_numbered],
      [occurrences_number_events], [event_vocabulary].
    - Scenarios.  [matcher_fires_on_target], [faults_exact] (and [faults_once]),
      [validate_spec], [valid_scenarios_never_fail]; replay: [replay_of_recorded],
      [replay_fires_where_recorded].
    - The classifier.  [classify_total]: it ends, stays in its buffer and agrees with
      a lexer; [classify_commit]: what counts as a commit.
    - Framing.  [frame_decode_roundtrip], [decode_spec], [fragmentation_invisible],
      [next_cancel_safe]; startup: [metadata_spec], [negotiation_spec],
      [cancel_forwarded].
    - The process.  [shutdown_terminates], [serves_validated_scenarios],
      [probe_order], [tls_as_asked], [substitute_spec].
    - Behaviours worth knowing.  [second_ssl_request_panics] and
      [one_panic_stops_all]: a second SSLRequest inside TLS panics, and a panic ends
      every connection.  [unsynced_query_desynchronises],
      [commit_then_statement_unreported], [pipelined_execute_depends_on_timing],
      [replay_of_second_result_fires_first], [classify_hidden_statement]: inputs on
      which the observer, the replay or the classifier is misled.

    ** How the code is modelled

    Integers are [Z], with the wrap-around of their width written out where the code
    adds ([u64_add], [u32_wrap]); the release build's arithmetic is meant.  Strings
    are the UTF-8 bytes of a [string].  Maps are [gmap].  A function that can fail
    returns an [outcome]; one that can panic says so, and theorems state that it does
    not.  Mutable variables are records passed along ([Conn], [ConnectionState]).
    Effects on sockets and the trace go through the monad [IO] of [Proxy], where
    each may fail, a write after any prefix; [Sys] of [System] does the same for
    system calls, whose answers are arbitrary.

    Loops whose recursion is not structural take fuel: [classify] takes one more
    than the length of the text and [classify_total] proves that enough; [metadata]
    one more than the length of the packet, enough by [metadata_spec]; [negotiate]
    takes its fuel as an argument: any number above the length of the client's bytes
    and of what comes out of a TLS handshake is enough by [negotiation_spec], and one
    always exists ([enough_exists]).  The loop of [session] is a recursion on the
    branches that complete, any number of them in any order; so is that of [relay], on
    the frames they take.

    Third-party code is a class argument: [Sha256], [Humantime], [Json], [Yaml],
    [TlsStack] and [Rustls], [Sockets], [Webpki], [Logging].  No theorem assumes anything of
    them except [replay_of_recorded], which asks that the JSON of a record reads
    back as the record, on one line, and that different scenarios print differently.

    A frame has a total [tag] and [body] next to the ones that panic on a short frame
    ([frame_tag], [frame_body]); [decode_spec] and [bytes_transparent] show that they
    agree on every frame the loop takes.  A write to the trace that fails leaves the
    first bytes of its line ([TracePart]); the shared file of [Serve] is the list of
    the records written whole.  A TLS handshake yields bytes or an error; one that
    never ends is a task of [Serve] that makes no further step until it is aborted.

    ** Not modelled

    The parsing of arguments by clap (its result is a [Command], with what its
    attributes guarantee in [Cli.requires]); the texts of the log messages; the signal
    handlers of [main]; the installation of a crypto provider and the list of
    signature schemes in tls.rs, which only call rustls; the unused [local_addr]; the
    tests, the harness, the documents and the scripts. *)

From Stdlib Require Export ZArith Lia.
From Stdlib.Strings Require Byte String.
From stdpp Require Export prelude strings list gmap fin_maps.

Export Corelib.Init.Byte (byte(..)).
Export Corelib.Init.Byte.ByteSyntaxNotations.

Declare Scope pg_scope.
Delimit Scope pg_scope with pg.
Delimit Scope byte_scope with byte.
#[global] Open Scope pg_scope.
#[export] Set Warnings "-clear-no-such-hyp,-level-tolerance".

(** Facts that close side conditions about bytes, frames and counters. *)
Create HintDb pg.
Create Rewrite HintDb pg.

(** ** Bytes and machine integers *)

#[global] Instance byte_eq_decision : EqDecision byte := Byte.byte_eq_dec.

#[global] Instance byte_countable : Countable byte :=
  inj_countable Byte.to_N Byte.of_N Byte.of_to_N.

Abbreviation bytes := (list byte).

(** The bytes of a source literal such as [b"COMMIT"]. *)
Definition bs (s : string) : bytes := String.list_byte_of_string s.

(** A byte as a number of [0, 256), and back by [as u8] truncation. *)
Definition byte_val (b : byte) : Z := Z.of_N (Byte.to_N b).
Definition byte_of (z : Z) : byte := default x00 (Byte.of_N (Z.to_N (z mod 256))).

(** [+=] on [u64] and [as u32] wrap around, as they do in a release build. *)
Definition u32_wrap (z : Z) : Z := z mod 2 ^ 32.
Definition u64_add (x y : Z) : Z := (x + y) mod 2 ^ 64.

(** [Vec::len] and friends, as a number. *)
Definition zlen {A} (l : list A) : Z := Z.of_nat (length l).

(** ** Outcomes: values, errors and panics *)

(** [std::io::ErrorKind], the kinds the program makes or meets. *)
Inductive io_kind := InvalidData | UnexpectedEof | OtherIo.

(** [anyhow::Error] and [std::io::Error]: what [?] propagates. *)
Inductive error :=
  | Io (kind : io_kind) (msg : string)
  | Elapsed
  | Bail (msg : string)
  | Ctx (msg : string) (source : error).

(** A fallible computation of the source: it returns, fails with an error or
    panics (slice out of range, [unwrap], [unreachable!]). *)
Inductive outcome (A : Type) :=
  | Ret (a : A)
  | Fail (e : error)
  | Panic (msg : string).
Arguments Ret {A} a.
Arguments Fail {A} e.
Arguments Panic {A} msg.

#[global] Instance io_kind_eq_dec : EqDecision io_kind.
Proof. solve_decision. Defined.
#[global] Instance error_eq_dec : EqDecision error.
Proof. solve_decision. Defined.
#[global] Instance outcome_eq_dec A `{EqDecision A} : EqDecision (outcome A).
Proof. solve_decision. Defined.

#[global] Instance outcome_ret : MRet outcome := @Ret.
#[global] Instance outcome_bind : MBind outcome := λ A B f m,
  match m with Ret a => f a | Fail e => Fail e | Panic s => Panic s end.
#[global] Instance outcome_map : FMap outcome := λ A B f m,
  match m with Ret a => Ret (f a) | Fail e => Fail e | Panic s => Panic s end.

(** [.context("...")] on an [Option] and on a [Result]. *)
Definition ok_or {A} (msg : string) (o : option A) : outcome A :=
  match o with Some a => Ret a | None => Fail (Bail msg) end.
Definition context {A} (msg : string) (o : outcome A) : outcome A :=
  match o with Fail e => Fail (Ctx msg e) | _ => o end.

Definition is_panic {A} (o : outcome A) : bool :=
  match o with Panic _ => true | _ => false end.
Definition is_ret {A} (o : outcome A) : bool :=
  match o with Ret _ => true | _ => false end.

(** ** Slices *)

(** [&s[i..]] and [s[i]]: a panic past the end. *)
Definition slice_from {A} (s : list A) (i : nat) : outcome (list A) :=
  if bool_decide (i ≤ length s) then Ret (drop i s)
  else Panic "range start index out of range".
Definition slice {A} (s : list A) (i j : nat) : outcome (list A) :=
  if bool_decide (i ≤ j ∧ j ≤ length s) then Ret (take (j - i) (drop i s))
  else Panic "range end index out of range for slice".
Definition index {A} (s : list A) (i : nat) : outcome A :=
  match s !! i with Some a => Ret a | None => Panic "index out of bounds" end.

(** [s.starts_with(p)]. *)
Fixpoint starts_with (s p : bytes) {struct p} : bool :=
  match p, s with
  | [], _ => true
  | _ :: _, [] => false
  | y :: p', x :: s' => Byte.eqb x y && starts_with s' p'
  end.

(** ** Tactics *)

(** Split every [match] and [if] of the goal and the hypotheses. *)
Ltac split_match := repeat (case_match; simplify_eq/=).

(** Run a bind whose first computation has returned. *)
Ltac run_ret := cbn [mbind outcome_bind fmap outcome_map].

(** Boolean tests as propositions. *)
Ltac to_prop :=
  repeat match goal with
  | H : Byte.eqb _ _ = true |- _ => apply Byte.byte_dec_bl in H
  | H : Byte.eqb _ _ = false |- _ => apply Byte.eqb_false in H
  | H : (_ && _) = true |- _ => apply andb_true_iff in H as [? ?]
  | H : (_ || _) = false |- _ => apply orb_false_iff in H as [? ?]
  | H : negb _ = true |- _ => apply negb_true_iff in H
  | H : negb _ = false |- _ => apply negb_false_iff in H
  | H : bool_decide _ = true |- _ => apply bool_decide_eq_true in H
  | H : bool_decide _ = false |- _ => apply bool_decide_eq_false in H
  | H : Z.eqb _ _ = true |- _ => apply Z.eqb_eq in H
  | H : Z.eqb _ _ = false |- _ => apply Z.eqb_neq in H
  | H : Z.ltb _ _ = true |- _ => apply Z.ltb_lt in H
  | H : Z.ltb _ _ = false |- _ => apply Z.ltb_ge in H
  | H : Z.leb _ _ = true |- _ => apply Z.leb_le in H
  | H : Z.leb _ _ = false |- _ => apply Z.leb_gt in H
  end.

(** ** Shared lemmas *)

Lemma byte_val_range b : (0 ≤ byte_val b < 256)%Z.
Proof.
  unfold byte_val. pose proof (Byte.to_N_bounded b). lia.
Qed.

Lemma byte_of_val b : byte_of (byte_val b) = b.
Proof.
  unfold byte_of. rewrite Z.mod_small by apply byte_val_range.
  unfold byte_val. rewrite N2Z.id, Byte.of_to_N. done.
Qed.

Lemma byte_val_of z : byte_val (byte_of z) = (z mod 256)%Z.
Proof.
  unfold byte_of, byte_val.
  pose proof (Z.mod_pos_bound z 256 ltac:(lia)) as Hb.
  destruct (Byte.of_N (Z.to_N (z mod 256))) as [b|] eqn:E; simpl.
  - apply Byte.to_of_N in E. rewrite E. lia.
  - apply Byte.of_N_None_iff in E. lia.
Qed.

Lemma byte_eqb_refl b : Byte.eqb b b = true.
Proof. by apply Byte.byte_dec_lb. Qed.

Lemma byte_eqb_spec x y : reflect (x = y) (Byte.eqb x y).
Proof.
  destruct (Byte.eqb x y) eqn:E; constructor.
  - by apply Byte.byte_dec_bl.
  - by apply Byte.eqb_false.
Qed.

Lemma byte_eqb_ne x y : x ≠ y → Byte.eqb x y = false.
Proof. by destruct (byte_eqb_spec x y). Qed.

Lemma zlen_nonneg {A} (l : list A) : (0 ≤ zlen l)%Z.
Proof. unfold zlen. lia. Qed.

Lemma zlen_app {A} (l k : list A) : zlen (l ++ k) = (zlen l + zlen k)%Z.
Proof. unfold zlen. rewrite length_app. lia. Qed.

Lemma zlen_cons {A} (x : A) l : zlen (x :: l) = (zlen l + 1)%Z.
Proof. unfold zlen. simpl. lia. Qed.

Lemma u64_add_small x y : (0 ≤ x)%Z → (0 ≤ y)%Z → (x + y < 2 ^ 64)%Z →
  u64_add x y = (x + y)%Z.
Proof. intros. unfold u64_add. apply Z.mod_small. lia. Qed.

Lemma u64_add_range x y : (0 ≤ u64_add x y < 2 ^ 64)%Z.
Proof. unfold u64_add. apply Z.mod_pos_bound. lia. Qed.

Lemma starts_with_app s p : starts_with (p ++ s) p = true.
Proof. induction p as [|b p IH]; simpl; [done|]. by rewrite byte_eqb_refl. Qed.

Lemma starts_with_true s p : starts_with s p = true ↔ take (length p) s = p.
Proof.
  revert s. induction p as [|y p IH]; intros [|x s]; simpl; try done.
  destruct (byte_eqb_spec x y); simpl.
  - rewrite IH. subst. split; congruence.
  - split; [done|]. congruence.
Qed.

Lemma slice_ok {A} (s : list A) i j : i ≤ j → j ≤ length s → slice s i j = Ret (take (j - i) (drop i s)).
Proof. intros. unfold slice. by rewrite bool_decide_eq_true_2. Qed.
Lemma slice_from_ok {A} (s : list A) i : i ≤ length s → slice_from s i = Ret (drop i s).
Proof. intros. unfold slice_from. by rewrite bool_decide_eq_true_2. Qed.

Lemma index_ok {A} (s : list A) i x : s !! i = Some x → index s i = Ret x.
Proof. unfold index. by intros ->. Qed.

Lemma bs_of_byte_string l : bs (String.string_of_list_byte l) = l.
Proof. apply String.list_byte_of_string_of_list_byte. Qed.

Lemma string_of_bs s : String.string_of_list_byte (bs s) = s.
Proof. apply String.string_of_list_byte_of_string. Qed.

#[export] Hint Resolve byte_val_range zlen_nonneg u64_add_range : pg.
#[export] Hint Rewrite @zlen_app @zlen_cons byte_of_val byte_val_of : pg.
