(* ===== verification/Utf8.v ===== *)
(** * Strings of the Rust standard library

    The operations on [str] and [String] the crates call, on the UTF-8 bytes of
    the string: [String::from_utf8_lossy], [to_ascii_uppercase], the ASCII
    classification of [u8], [trim().is_empty()] and [rsplit_once].  A [String]
    is a [string] holding its UTF-8 bytes. *)

From S2P Require Import Prelude.

(** ** [u8] classification *)

Definition in_range (lo hi : Z) (b : byte) : bool := (lo <=? byte_val b)%Z && (byte_val b <=? hi)%Z.
Definition is_ascii (b : byte) : bool := (byte_val b <? 128)%Z.
(** [u8::is_ascii_whitespace]: space, tab, line feed, form feed, carriage return. *)
Definition is_ascii_whitespace (b : byte) : bool :=
  Byte.eqb b x20 || Byte.eqb b x09 || Byte.eqb b x0a || Byte.eqb b x0c || Byte.eqb b x0d.
Definition is_ascii_uppercase (b : byte) : bool := in_range 65 90 b.
Definition is_ascii_lowercase (b : byte) : bool := in_range 97 122 b.
Definition is_ascii_alphabetic (b : byte) : bool := is_ascii_uppercase b || is_ascii_lowercase b.
Definition is_ascii_digit (b : byte) : bool := in_range 48 57 b.
Definition is_ascii_alphanumeric (b : byte) : bool := is_ascii_alphabetic b || is_ascii_digit b.
Definition to_ascii_uppercase (b : byte) : byte :=
  if is_ascii_lowercase b then byte_of (byte_val b - 32) else b.

(** ** [String::from_utf8_lossy] *)

(** U+FFFD in UTF-8. *)
Definition replacement : bytes := [xef; xbf; xbd].
Definition is_cont (b : byte) : bool := in_range 128 191 b.
(** The second bytes [Utf8Chunks] accepts after a three- or four-byte lead. *)
Definition second3 (b c : byte) : bool :=
  (Byte.eqb b xe0 && in_range 160 191 c) || (in_range 225 236 b && is_cont c)
  || (Byte.eqb b xed && in_range 128 159 c) || (in_range 238 239 b && is_cont c).
Definition second4 (b c : byte) : bool :=
  (Byte.eqb b xf0 && in_range 144 191 c) || (in_range 241 243 b && is_cont c)
  || (Byte.eqb b xf4 && in_range 128 143 c).

(** Each maximal invalid prefix becomes one U+FFFD; valid characters are kept. *)
Fixpoint lossy (s : bytes) : bytes :=
  match s with
  | [] => []
  | b :: r =>
    if is_ascii b then b :: lossy r
    else if in_range 194 223 b then
      match r with
      | c :: r1 => if is_cont c then b :: c :: lossy r1 else replacement ++ lossy r
      | [] => replacement
      end
    else if in_range 224 239 b then
      match r with
      | c :: r1 =>
        if second3 b c then
          match r1 with
          | d :: r2 => if is_cont d then b :: c :: d :: lossy r2 else replacement ++ lossy r1
          | [] => replacement
          end
        else replacement ++ lossy r
      | [] => replacement
      end
    else if in_range 240 244 b then
      match r with
      | c :: r1 =>
        if second4 b c then
          match r1 with
          | d :: r2 =>
            if is_cont d then
              match r2 with
              | e :: r3 => if is_cont e then b :: c :: d :: e :: lossy r3 else replacement ++ lossy r2
              | [] => replacement
              end
            else replacement ++ lossy r1
          | [] => replacement
          end
        else replacement ++ lossy r
      | [] => replacement
      end
    else replacement ++ lossy r
  end.

Definition from_utf8_lossy (s : bytes) : string := String.string_of_list_byte (lossy s).

(** ** [str::trim] *)

(** The UTF-8 bytes left after one leading [White_Space] character, if there is one. *)
Definition strip_white (s : bytes) : option bytes :=
  match s with
  | b :: r =>
    if in_range 9 13 b || Byte.eqb b x20 then Some r else
    match r with
    | c :: r1 =>
      if Byte.eqb b xc2 && (Byte.eqb c x85 || Byte.eqb c xa0) then Some r1 else
      match r1 with
      | d :: r2 =>
        if (Byte.eqb b xe1 && Byte.eqb c x9a && Byte.eqb d x80)
           || (Byte.eqb b xe2 && Byte.eqb c x80
               && (in_range 128 138 d || Byte.eqb d xa8 || Byte.eqb d xa9 || Byte.eqb d xaf))
           || (Byte.eqb b xe2 && Byte.eqb c x81 && Byte.eqb d x9f)
           || (Byte.eqb b xe3 && Byte.eqb c x80 && Byte.eqb d x80)
        then Some r2 else None
      | [] => None
      end
    | [] => None
    end
  | [] => None
  end.

Fixpoint blank (fuel : nat) (s : bytes) : bool :=
  match s, fuel with
  | [], _ => true
  | _, 0 => false
  | _, S n => match strip_white s with Some r => blank n r | None => false end
  end.

(** [s.trim().is_empty()]: every character is white space. *)
Definition trim_is_empty (s : string) : bool := let b := bs s in blank (length b) b.

(** [s.rsplit_once(c).map_or(s, |(h, _)| h)]: what precedes the last [c]. *)
Fixpoint before_last (c : byte) (s : bytes) : option bytes :=
  match s with
  | [] => None
  | b :: r =>
    match before_last c r with
    | Some h => Some (b :: h)
    | None => if Byte.eqb b c then Some [] else None
    end
  end.

(** ** Lemmas *)

Lemma in_range_spec lo hi b : in_range lo hi b = true ↔ (lo ≤ byte_val b ≤ hi)%Z.
Proof. unfold in_range. rewrite andb_true_iff, !Z.leb_le. lia. Qed.

(** ASCII text is kept as it is. *)
Lemma lossy_ascii s : forallb is_ascii s = true → lossy s = s.
Proof.
  induction s as [|b s IH]; simpl; [done|].
  intros [-> H]%andb_true_iff. by rewrite IH.
Qed.

(** ASCII output comes from the same ASCII input: no other byte string decodes to it. *)
Lemma lossy_ascii_inv s t : lossy s = t → forallb is_ascii t = true → s = t.
Proof.
  revert t. induction s as [|b s IH]; intros t; simpl; [by intros <-|].
  destruct (is_ascii b) eqn:Hb.
  - intros <-. simpl. intros [_ H]%andb_true_iff. f_equal. by apply IH.
  - intros <- Ha. exfalso.
    repeat case_match; simpl in Ha; rewrite ?Hb in Ha; done.
Qed.

Lemma from_utf8_lossy_ascii s t :
  forallb is_ascii (bs t) = true → from_utf8_lossy s = t ↔ s = bs t.
Proof.
  intros Ha. unfold from_utf8_lossy. split.
  - intros <-. rewrite bs_of_byte_string in *. by apply (lossy_ascii_inv s _ eq_refl).
  - intros ->. rewrite lossy_ascii by done. apply string_of_bs.
Qed.

Lemma to_ascii_uppercase_range b :
  is_ascii_alphabetic b = true → is_ascii_uppercase (to_ascii_uppercase b) = true.
Proof.
  unfold is_ascii_alphabetic, to_ascii_uppercase, is_ascii_uppercase, is_ascii_lowercase.
  destruct (in_range 97 122 b) eqn:E; [|by rewrite orb_false_r].
  intros _. apply in_range_spec in E. apply in_range_spec.
  rewrite byte_val_of, Z.mod_small by lia. lia.
Qed.

Lemma strip_white_shorter s r : strip_white s = Some r → length r < length s.
Proof. unfold strip_white. intros H. split_match; simpl; lia. Qed.
