(* ===== verification/Wire.v ===== *)
(** * pgfault-wire: framing

    [crates/pgfault-wire/src/lib.rs].  A frame is a tag byte, a big-endian
    [u32] length that counts itself and the body, and the body.  [decode] cuts
    one frame off the front of a buffer, [FrameReader::next] fills the buffer
    from a socket, [startup] reads the untagged first packet, [cstr] and [text]
    read NUL-terminated strings. *)

From S2P Require Import Prelude Utf8.

(** ** Constants *)

Definition MAX_FRAME : Z := 64 * 1024 * 1024.
Definition SSL_REQUEST : Z := 80877103.
Definition GSS_REQUEST : Z := 80877104.
Definition CANCEL_REQUEST : Z := 80877102.
Definition PROTOCOL_V3 : Z := 196608.

(** ** Frames *)

Record Frame := mk_frame { raw : bytes }.

#[global] Instance Frame_eq_dec : EqDecision Frame.
Proof. solve_decision. Defined.

(** [self.0[0]] and [&self.0[5..]], which panic on a frame shorter than they need... *)
Definition frame_tag (f : Frame) : outcome byte := index (raw f) 0.
Definition frame_body (f : Frame) : outcome bytes := slice_from (raw f) 5.

(** ...and the same without the panic, for frames of at least five bytes
    ([wf_frame], which [decode] and [frame] establish). *)
Definition tag (f : Frame) : byte := default x00 (head (raw f)).
Definition body (f : Frame) : bytes := drop 5 (raw f).
Definition wf_frame (f : Frame) : Prop := 5 ≤ length (raw f).

(** [u32::from_be_bytes] of the first four bytes, and [u32::to_be_bytes]. *)
Definition u32_from_be_bytes (s : bytes) : Z :=
  foldl (λ acc b, acc * 256 + byte_val b)%Z 0%Z (take 4 s).
Definition u32_to_be_bytes (z : Z) : bytes :=
  [byte_of (z / 2 ^ 24); byte_of (z / 2 ^ 16); byte_of (z / 2 ^ 8); byte_of z].

Definition invalid (msg : string) : error := Io InvalidData msg.

(** [BytesMut::split_to]: the bytes cut off and the bytes left; it panics beyond the end. *)
Definition split_to (buf : bytes) (n : nat) : outcome (bytes * bytes) :=
  if bool_decide (n ≤ length buf) then Ret (take n buf, drop n buf) else Panic "split_to out of bounds".

(** [decode]: the frame cut off the buffer, if it is complete, and the buffer left. *)
Definition decode (buf : bytes) : outcome (option Frame * bytes) :=
  if (zlen buf <? 5)%Z then Ret (None, buf) else
  header ← slice buf 1 5;
  let len := u32_from_be_bytes header in
  if negb ((4 <=? len)%Z && (len <=? MAX_FRAME)%Z) then Fail (invalid "invalid PostgreSQL frame length")
  else if (zlen buf <? len + 1)%Z then Ret (None, buf)
  else '(frame, rest) ← split_to buf (Z.to_nat (len + 1)); Ret (Some (mk_frame frame), rest).

(** What one [read_buf] yields: bytes (none of them at end of file) or an error. *)
Inductive read := RdBytes (s : bytes) | RdErr (e : error).

(** [FrameReader::next] over the reads the socket delivers.  The first component
    is [None] while the future is pending, that is when the reads are used up;
    the buffer and the reads left are what cancelling the future leaves behind. *)
Fixpoint next (buffer : bytes) (rs : list read) : option (outcome (option Frame)) * bytes * list read :=
  match decode buffer with
  | Ret (Some f, buffer') => (Some (Ret (Some f)), buffer', rs)
  | Ret (None, buffer') =>
    match rs with
    | [] => (None, buffer', [])
    | RdErr e :: rs' => (Some (Fail e), buffer', rs')
    | RdBytes [] :: rs' =>
      (Some (if bool_decide (buffer' = []) then Ret None
             else Fail (invalid "EOF inside PostgreSQL frame")), buffer', rs')
    | RdBytes s :: rs' => next (buffer' ++ s) rs'
    end
  | Fail e => (Some (Fail e), buffer, rs)
  | Panic m => (Some (Panic m), buffer, rs)
  end.

(** [startup] on the bytes the socket delivers up to its end of file: the packet
    and what follows it. *)
Definition startup (s : bytes) : outcome (bytes * bytes) :=
  if (zlen s <? 4)%Z then Fail (Io UnexpectedEof "early eof") else
  let len := u32_from_be_bytes (take 4 s) in
  if negb ((8 <=? len)%Z && (len <=? 1024 * 1024)%Z) then Fail (invalid "invalid startup length") else
  let rest := drop 4 s in
  let n := Z.to_nat (len - 4) in
  if (zlen rest <? len - 4)%Z then Fail (Io UnexpectedEof "early eof")
  else Ret (u32_to_be_bytes len ++ take n rest, drop n rest).

Fixpoint cstr (s : bytes) : option (bytes * bytes) :=
  match s with
  | [] => None
  | b :: r =>
    if Byte.eqb b x00 then Some ([], r)
    else match cstr r with Some (n, t) => Some (b :: n, t) | None => None end
  end.

Definition text (s : bytes) : option string := from_utf8_lossy ∘ fst <$> cstr s.

Definition frame (t : byte) (body : bytes) : Frame :=
  mk_frame (t :: u32_to_be_bytes (u32_wrap (zlen body + 4)) ++ body).

(** ** Reading everything a buffer holds *)

(** The frames [decode] cuts off a buffer until it asks for more or fails. *)
Fixpoint decode_upto (n : nat) (buf : bytes) : list Frame * bytes * option error :=
  match n with
  | 0 => ([], buf, None)
  | S n =>
    match decode buf with
    | Ret (Some f, r) => let '(fs, rest, e) := decode_upto n r in (f :: fs, rest, e)
    | Ret (None, r) => ([], r, None)
    | Fail e => ([], buf, Some e)
    | Panic _ => ([], buf, None)
    end
  end.
Definition decode_all (buf : bytes) : list Frame * bytes * option error :=
  decode_upto (S (length buf)) buf.

(** The same buffer filled one chunk at a time, decoded after each. *)
Fixpoint feed (buf : bytes) (chunks : list bytes) : list Frame * bytes * option error :=
  match chunks with
  | [] => ([], buf, None)
  | c :: cs =>
    match decode_all (buf ++ c) with
    | (fs, rest, None) => let '(gs, rest', e) := feed rest cs in (fs ++ gs, rest', e)
    | (fs, rest, Some e) => (fs, rest, Some e)
    end
  end.

(** ** Lemmas: integers *)

Lemma length_u32_to_be_bytes z : length (u32_to_be_bytes z) = 4.
Proof. done. Qed.

Lemma u32_from_to_be z r :
  (0 ≤ z < 2 ^ 32)%Z → u32_from_be_bytes (u32_to_be_bytes z ++ r) = z.
Proof.
  intros Hz. unfold u32_from_be_bytes, u32_to_be_bytes. simpl.
  rewrite !byte_val_of.
  pose proof (Z.div_mod z 256 ltac:(lia)) as H0.
  pose proof (Z.div_mod (z / 256) 256 ltac:(lia)) as H1.
  pose proof (Z.div_mod (z / 256 / 256) 256 ltac:(lia)) as H2.
  pose proof (Z.mod_pos_bound z 256 ltac:(lia)).
  change (2 ^ 24)%Z with (256 * 256 * 256)%Z. change (2 ^ 16)%Z with (256 * 256)%Z.
  change (2 ^ 8)%Z with 256%Z. rewrite <-!Z.div_div by lia.
  rewrite (Z.mod_small (z / 256 / 256 / 256)); [lia|].
  rewrite !Z.div_div by lia. split; [apply Z.div_pos; lia|].
  apply Z.div_lt_upper_bound; lia.
Qed.

Lemma u32_to_from_be s :
  length s = 4 → u32_to_be_bytes (u32_from_be_bytes s) = s.
Proof.
  destruct s as [|b0 [|b1 [|b2 [|b3 [|]]]]]; try done. intros _.
  unfold u32_from_be_bytes. simpl.
  pose proof (byte_val_range b0). pose proof (byte_val_range b1).
  pose proof (byte_val_range b2). pose proof (byte_val_range b3).
  assert (Hb : ∀ b z, (byte_val b = z mod 256)%Z → byte_of z = b).
  { intros b z Hz. rewrite <-(byte_of_val b). unfold byte_of. rewrite Hz.
    by rewrite Z.mod_mod by lia. }
  unfold u32_to_be_bytes.
  repeat (f_equal; [apply Hb; Z.div_mod_to_equations; lia|]). f_equal.
  apply Hb. Z.div_mod_to_equations; lia.
Qed.

Lemma u32_from_be_range s : (0 ≤ u32_from_be_bytes s < 2 ^ 32)%Z.
Proof.
  unfold u32_from_be_bytes.
  destruct s as [|b0 [|b1 [|b2 [|b3 s]]]]; simpl; rewrite ?take_0; simpl;
    repeat match goal with |- context [byte_val ?b] =>
      pose proof (byte_val_range b); generalize dependent (byte_val b); intros
    end; lia.
Qed.

(** ** Lemmas: strings *)

Lemma cstr_app n r : x00 ∉ n → cstr (n ++ x00 :: r) = Some (n, r).
Proof.
  induction n as [|b n IH]; simpl; [done|]. intros Hn.
  rewrite byte_eqb_ne by set_solver. rewrite IH by set_solver. done.
Qed.

Lemma cstr_Some s n r : cstr s = Some (n, r) → s = n ++ x00 :: r ∧ x00 ∉ n.
Proof.
  revert n. induction s as [|b s IH]; intros n; simpl; [done|].
  destruct (byte_eqb_spec b x00) as [->|Hb].
  - intros [= <- <-]. split; [done | apply not_elem_of_nil].
  - destruct (cstr s) as [[m t]|]; [|done]. intros [= <- <-].
    destruct (IH m eq_refl) as [-> ?]. split; [done | set_solver].
Qed.

Lemma cstr_None s : cstr s = None ↔ x00 ∉ s.
Proof.
  induction s as [|b s IH]; simpl; [set_solver|].
  destruct (byte_eqb_spec b x00) as [->|Hb]; [set_solver|].
  destruct (cstr s) as [[m t]|]; set_solver.
Qed.

(** ** Lemmas: decoding *)

(** The slices are within the buffer: the guards before them see to it. *)
Lemma decode_eq buf :
  decode buf =
    if (zlen buf <? 5)%Z then Ret (None, buf) else
    if negb ((4 <=? u32_from_be_bytes (take 4 (drop 1 buf)))%Z && (u32_from_be_bytes (take 4 (drop 1 buf)) <=? MAX_FRAME)%Z)
    then Fail (invalid "invalid PostgreSQL frame length")
    else if (zlen buf <? u32_from_be_bytes (take 4 (drop 1 buf)) + 1)%Z then Ret (None, buf)
    else Ret (Some (mk_frame (take (Z.to_nat (u32_from_be_bytes (take 4 (drop 1 buf)) + 1)) buf)),
              drop (Z.to_nat (u32_from_be_bytes (take 4 (drop 1 buf)) + 1)) buf).
Proof.
  unfold decode. destruct (zlen buf <? 5)%Z eqn:H5; [done|]. to_prop. unfold zlen in *.
  rewrite slice_ok by lia. change (5 - 1) with 4. run_ret. cbv zeta.
  destruct (negb _); [done|]. destruct (_ <? _ + 1)%Z eqn:Hl; [done|]. to_prop.
  unfold split_to. by rewrite bool_decide_eq_true_2 by lia.
Qed.

Lemma decode_inv buf r :
  decode buf = r →
  (r = Ret (None, buf) ∧
     ((zlen buf < 5)%Z ∨ (zlen buf < u32_from_be_bytes (take 4 (drop 1 buf)) + 1)%Z)) ∨
  (r = Fail (invalid "invalid PostgreSQL frame length") ∧ (5 ≤ zlen buf)%Z ∧
     ¬ (4 ≤ u32_from_be_bytes (take 4 (drop 1 buf)) ≤ MAX_FRAME)%Z) ∨
  (∃ f rest, r = Ret (Some f, rest) ∧ buf = raw f ++ rest ∧
     zlen (raw f) = (u32_from_be_bytes (take 4 (drop 1 buf)) + 1)%Z ∧
     (5 ≤ zlen (raw f) ≤ MAX_FRAME + 1)%Z).
Proof.
  intros <-. rewrite decode_eq.
  destruct (zlen buf <? 5)%Z eqn:H5; [to_prop; auto|].
  set (len := u32_from_be_bytes _).
  destruct (negb _) eqn:Hr; to_prop.
  - right; left. split_and!; [done|done|].
    intros [? ?]. rewrite andb_false_iff in Hr.
    destruct Hr as [Hr|Hr]; to_prop; lia.
  - destruct (zlen buf <? len + 1)%Z eqn:Hl; [to_prop; auto|]. to_prop.
    right; right. eexists _, _. split; [done|]. simpl.
    unfold zlen in *. rewrite take_drop, length_take. split; [done|]. lia.
Qed.

Ltac decode_cases H :=
  apply decode_inv in H as [[? ?]|[(?&?&?)|(?&?&?&?&?&?)]]; simplify_eq/=.

Lemma decode_wf buf f r : decode buf = Ret (Some f, r) → wf_frame f.
Proof. intros H. decode_cases H. unfold wf_frame, zlen in *. lia. Qed.

Lemma decode_split buf f r : decode buf = Ret (Some f, r) → buf = raw f ++ r.
Proof. intros H. by decode_cases H. Qed.

Lemma decode_none buf r : decode buf = Ret (None, r) → r = buf.
Proof. intros H. by decode_cases H. Qed.

Lemma decode_no_panic buf m : decode buf ≠ Panic m.
Proof. intros H. decode_cases H. Qed.

Lemma decode_shorter buf f r : decode buf = Ret (Some f, r) → length r < length buf.
Proof.
  intros H. pose proof (decode_wf _ _ _ H). apply decode_split in H as ->.
  unfold wf_frame in *. rewrite length_app. lia.
Qed.

Lemma decode_header (buf x : bytes) :
  (5 ≤ zlen buf)%Z → take 4 (drop 1 (buf ++ x)) = take 4 (drop 1 buf).
Proof. unfold zlen. intros. rewrite drop_app_le, take_app_le by (rewrite ?length_drop; lia). done. Qed.

(** More bytes behind the ones at hand change neither the frame nor the error. *)
Lemma decode_app buf x f r :
  decode buf = Ret (Some f, r) → decode (buf ++ x) = Ret (Some f, r ++ x).
Proof.
  rewrite (decode_eq buf), (decode_eq (buf ++ x)).
  destruct (zlen buf <? 5)%Z eqn:H5; [done|]. to_prop.
  rewrite zlen_app, decode_header by done. pose proof (zlen_nonneg x).
  rewrite (proj2 (Z.ltb_ge _ 5)) by lia.
  destruct (negb _) eqn:Hn; [done|].
  destruct (zlen buf <? _)%Z eqn:Hl; [done|]. to_prop. intros [= <- <-].
  rewrite (proj2 (Z.ltb_ge _ _)) by lia. unfold zlen in *.
  rewrite take_app_le, drop_app_le by lia. done.
Qed.

Lemma decode_app_fail buf x e : decode buf = Fail e → decode (buf ++ x) = Fail e.
Proof.
  rewrite (decode_eq buf), (decode_eq (buf ++ x)).
  destruct (zlen buf <? 5)%Z eqn:H5; [done|]. to_prop.
  rewrite zlen_app, decode_header by done. pose proof (zlen_nonneg x).
  rewrite (proj2 (Z.ltb_ge _ 5)) by lia.
  destruct (negb _) eqn:Hn; [done|]. by case_match.
Qed.

Lemma tag_frame t b : tag (frame t b) = t.
Proof. done. Qed.
Lemma body_frame t b : body (frame t b) = b.
Proof. done. Qed.

Lemma decode_frame t b r :
  (zlen b + 4 ≤ MAX_FRAME)%Z → decode (raw (frame t b) ++ r) = Ret (Some (frame t b), r).
Proof.
  intros Hb. pose proof (zlen_nonneg b) as H0. unfold MAX_FRAME in Hb.
  assert (Hw : u32_wrap (zlen b + 4) = (zlen b + 4)%Z) by (apply Z.mod_small; lia).
  assert (Hl : u32_from_be_bytes (take 4 (drop 1 (raw (frame t b) ++ r))) = (zlen b + 4)%Z).
  { unfold frame. rewrite Hw. apply (u32_from_to_be _ []). lia. }
  assert (Hr : zlen (raw (frame t b)) = (zlen b + 5)%Z).
  { unfold frame, zlen. simpl. lia. }
  rewrite decode_eq. rewrite zlen_app, Hl, Hr. pose proof (zlen_nonneg r).
  rewrite (proj2 (Z.ltb_ge _ 5)), (proj2 (Z.ltb_ge _ (_ + 4 + 1))) by lia.
  rewrite !(proj2 (Z.leb_le _ _)) by (unfold MAX_FRAME; lia). simpl negb. cbv iota.
  unfold zlen in Hr. replace (Z.to_nat (_ + 4 + 1)) with (length (raw (frame t b))) by (unfold zlen; lia).
  rewrite take_app_length, drop_app_length. by destruct (frame t b).
Qed.

(** ** Lemmas: draining a buffer *)

Lemma decode_upto_enough n m buf :
  length buf < n → n ≤ m → decode_upto m buf = decode_upto n buf.
Proof.
  revert m buf. induction n as [|n IH]; intros m buf Hn Hm; [lia|].
  destruct m as [|m]; [lia|]. simpl.
  destruct (decode buf) as [[[f|] r]| |] eqn:E; try done.
  apply decode_shorter in E. rewrite (IH m r) by lia. done.
Qed.

(** [decode_all], one frame at a time. *)
Lemma decode_all_eq buf :
  decode_all buf =
    match decode buf with
    | Ret (Some f, r) => let '(fs, rest, e) := decode_all r in (f :: fs, rest, e)
    | Ret (None, r) => ([], r, None)
    | Fail e => ([], buf, Some e)
    | Panic _ => ([], buf, None)
    end.
Proof.
  unfold decode_all at 1. simpl.
  destruct (decode buf) as [[[f|] r]| |] eqn:E; try done.
  apply decode_shorter in E. unfold decode_all.
  rewrite (decode_upto_enough (S (length r)) (length buf)) by lia. done.
Qed.

(** Induction over the frames of a buffer. *)
Lemma decode_all_ind (P : bytes → Prop) :
  (∀ buf, (∀ f r, decode buf = Ret (Some f, r) → P r) → P buf) → ∀ buf, P buf.
Proof.
  intros HP. enough (∀ n buf, length buf < n → P buf) by eauto.
  induction n as [|n IH]; intros buf Hn; [lia|].
  apply HP. intros f r H. apply IH. apply decode_shorter in H. lia.
Qed.

Lemma decode_all_wf buf fs rest e : decode_all buf = (fs, rest, e) → Forall wf_frame fs.
Proof.
  revert fs rest e. induction buf as [buf IH] using decode_all_ind; intros fs rest e.
  rewrite decode_all_eq. destruct (decode buf) as [[[f|] r]|x|] eqn:E;
    [|by intros [= <- _ _]; constructor..].
  destruct (decode_all r) as [[gs rest'] e'] eqn:Er. intros [= <- <- <-].
  constructor; eauto using decode_wf.
Qed.

Lemma decode_all_split buf fs rest e :
  decode_all buf = (fs, rest, e) → buf = concat (raw <$> fs) ++ rest.
Proof.
  revert fs rest e. induction buf as [buf IH] using decode_all_ind; intros fs rest e.
  rewrite decode_all_eq. destruct (decode buf) as [[[f|] r]|x|] eqn:E.
  - destruct (decode_all r) as [[gs rest'] e'] eqn:Er. intros [= <- <- <-]. csimpl.
    rewrite <-app_assoc, <-(IH f r eq_refl gs rest' e') by done. by apply decode_split.
  - apply decode_none in E as ->. by intros [= <- <- _].
  - by intros [= <- <- _].
  - by intros [= <- <- _].
Qed.

(** Decoding a longer buffer continues where decoding its beginning stopped. *)
Lemma decode_all_app buf x :
  decode_all (buf ++ x) =
    match decode_all buf with
    | (fs, rest, None) => let '(gs, rest', e) := decode_all (rest ++ x) in (fs ++ gs, rest', e)
    | (fs, rest, Some e) => (fs, rest ++ x, Some e)
    end.
Proof.
  induction buf as [buf IH] using decode_all_ind.
  rewrite (decode_all_eq buf).
  destruct (decode buf) as [[[f|] r]|e|m] eqn:E.
  - rewrite decode_all_eq, (decode_app _ _ _ _ E), (IH f r) by done.
    destruct (decode_all r) as [[gs rest] [e|]]; [done|].
    by destruct (decode_all (rest ++ x)) as [[hs rest'] e'].
  - apply decode_none in E as ->. by destruct (decode_all _) as [[gs rest'] e'].
  - by rewrite decode_all_eq, (decode_app_fail _ _ _ E).
  - by apply decode_no_panic in E.
Qed.

Lemma decode_all_idle buf fs rest :
  decode_all buf = (fs, rest, None) → decode rest = Ret (None, rest).
Proof.
  revert fs. induction buf as [buf IH] using decode_all_ind; intros fs.
  rewrite decode_all_eq. destruct (decode buf) as [[[f|] r]|e|m] eqn:E; try done.
  - destruct (decode_all r) as [[gs rest'] e'] eqn:Er. intros [= <- <- ->]. by eapply IH.
  - pose proof (decode_none _ _ E) as ->. by intros [= <- <-].
  - by apply decode_no_panic in E.
Qed.

Lemma feed_decode_all buf chunks fs rest e :
  decode buf = Ret (None, buf) →
  feed buf chunks = (fs, rest, e) →
  ∃ rest', decode_all (buf ++ concat chunks) = (fs, rest', e) ∧ (e = None → rest' = rest).
Proof.
  revert buf fs rest e. induction chunks as [|c cs IH]; intros buf fs rest e Hbuf; simpl.
  { intros [= <- <- <-]. rewrite app_nil_r, decode_all_eq, Hbuf. eauto. }
  rewrite app_assoc, (decode_all_app (buf ++ c)).
  destruct (decode_all (buf ++ c)) as [[gs r] [e'|]] eqn:E.
  - intros [= <- <- <-]. by eexists.
  - destruct (feed r cs) as [[hs r'] e''] eqn:Ef. intros [= <- <- <-].
    destruct (IH _ _ _ _ (decode_all_idle _ _ _ E) Ef) as (r''&->&Hr). eauto.
Qed.

(** ** Lemmas: the frame reader *)

Lemma next_pending buffer rs buffer' rs' :
  next buffer rs = (None, buffer', rs') → rs' = [] ∧ decode buffer' = Ret (None, buffer').
Proof.
  revert buffer. induction rs as [|r rs IH]; intros buffer; simpl.
  - destruct (decode buffer) as [[[f|] b]| |] eqn:E; try done.
    pose proof (decode_none _ _ E) as ->. by intros [= <- <-].
  - destruct (decode buffer) as [[[f|] b]| |] eqn:E; try done.
    destruct r as [[|c s]|e]; try done. apply IH.
Qed.

Lemma next_app buffer rs1 rs2 :
  next buffer (rs1 ++ rs2) =
    match next buffer rs1 with
    | (None, buffer', _) => next buffer' rs2
    | (Some o, buffer', rs) => (Some o, buffer', rs ++ rs2)
    end.
Proof.
  revert buffer. induction rs1 as [|r rs1 IH]; intros buffer; simpl.
  - destruct rs2 as [|r rs2]; simpl;
      destruct (decode buffer) as [[[f|] b]| |] eqn:E; try done;
      pose proof (decode_none _ _ E) as ->; by rewrite ?E.
  - destruct (decode buffer) as [[[f|] b]| |] eqn:E; try done.
    destruct r as [[|c s]|e]; try done.
Qed.

Lemma frame_tag_wf f : wf_frame f → frame_tag f = Ret (tag f).
Proof. destruct f as [[|b s]]; [|done]. unfold wf_frame. simpl. lia. Qed.

Lemma frame_body_wf f : wf_frame f → frame_body f = Ret (body f).
Proof. apply slice_from_ok. Qed.

#[local] Opaque u32_to_be_bytes.

Lemma startup_inv s p rest :
  startup s = Ret (p, rest) →
  s = p ++ rest ∧ zlen p = u32_from_be_bytes s ∧ (8 ≤ zlen p ≤ 1024 * 1024)%Z.
Proof.
  unfold startup. destruct (zlen s <? 4)%Z eqn:H4; [done|]. to_prop.
  assert (Ht : u32_from_be_bytes (take 4 s) = u32_from_be_bytes s).
  { unfold u32_from_be_bytes. by rewrite take_take. }
  rewrite Ht. destruct (negb _) eqn:Hr; [done|]. to_prop.
  destruct (zlen (drop 4 s) <? _)%Z eqn:Hl; [done|]. to_prop. intros [= <- <-].
  assert (H4' : length (take 4 s) = 4) by (unfold zlen in *; rewrite length_take; lia).
  rewrite <-Ht, (u32_to_from_be (take 4 s)), Ht by done.
  rewrite <-app_assoc, take_drop, take_drop. unfold zlen in *.
  rewrite length_app, H4', length_take. split_and!; [done|lia..].
Qed.

#[local] Transparent u32_to_be_bytes.

Lemma text_ascii s t :
  forallb is_ascii (bs t) = true → x00 ∉ bs t →
  text s = Some t ↔ ∃ r, s = bs t ++ x00 :: r.
Proof.
  intros Ha H0. unfold text. split.
  - destruct (cstr s) as [[n r]|] eqn:E; [|done]. simpl. intros [= Hn].
    apply (from_utf8_lossy_ascii _ _ Ha) in Hn. apply cstr_Some in E as [-> _].
    exists r. by rewrite Hn.
  - intros [r ->]. rewrite (cstr_app _ _ H0). simpl. f_equal.
    by apply (from_utf8_lossy_ascii _ _ Ha).
Qed.

#[export] Hint Resolve decode_wf frame_tag_wf frame_body_wf : pg.

(** ** Properties *)

(** C27. What [frame] builds, [decode] reads back: the frame, with the tag and
    the body it was built from, and the bytes behind it, for every body the
    size limit admits. *)
Theorem frame_decode_roundtrip t b r :
  (zlen b + 4 ≤ MAX_FRAME)%Z →
  decode (raw (frame t b) ++ r) = Ret (Some (frame t b), r) ∧
  frame_tag (frame t b) = Ret t ∧ frame_body (frame t b) = Ret b.
Proof.
  intros H. split_and!; [by apply decode_frame | done |].
  rewrite frame_body_wf; [done|]. unfold wf_frame. simpl. lia.
Qed.

Lemma frame_decode_roundtrip_witness :
  decode (raw (frame "Q"%byte (bs "SELECT 1" ++ [x00])) ++ bs "rest")
  = Ret (Some (frame "Q"%byte (bs "SELECT 1" ++ [x00])), bs "rest").
Proof. apply (frame_decode_roundtrip "Q"%byte (bs "SELECT 1" ++ [x00]) (bs "rest")). by vm_compute. Defined.

(** C28. [decode] on every buffer: it never panics; it asks for more exactly when
    the buffer lacks the five header bytes or the length they announce; it fails
    exactly on a length outside [4, MAX_FRAME]; and a frame it returns is a
    verbatim prefix of the buffer, of the announced length, on which [tag] and
    [body] do not panic. *)
Theorem decode_spec buf :
  let len := u32_from_be_bytes (take 4 (drop 1 buf)) in
  match decode buf with
  | Ret (None, rest) => rest = buf ∧ ((zlen buf < 5)%Z ∨ (4 ≤ len ≤ MAX_FRAME ∧ zlen buf < len + 1)%Z)
  | Ret (Some f, rest) =>
    buf = raw f ++ rest ∧ zlen (raw f) = (len + 1)%Z ∧ (4 ≤ len ≤ MAX_FRAME)%Z ∧
    frame_tag f = Ret (tag f) ∧ frame_body f = Ret (body f)
  | Fail e => e = invalid "invalid PostgreSQL frame length" ∧ (5 ≤ zlen buf)%Z ∧ ¬ (4 ≤ len ≤ MAX_FRAME)%Z
  | Panic _ => False
  end.
Proof.
  intros len. destruct (decode buf) as [[[f|] rest]|e|m] eqn:E.
  - pose proof (decode_wf _ _ _ E). decode_cases E.
    split_and!; auto with pg; unfold len; lia.
  - rewrite decode_eq in E. fold len in E. destruct (zlen buf <? 5)%Z eqn:H5; simplify_eq; to_prop.
    { auto. }
    destruct (negb _) eqn:Hr; [done|]. to_prop.
    destruct (zlen buf <? _)%Z eqn:Hl; [|done]. to_prop. simplify_eq. auto.
  - by decode_cases E.
  - by apply decode_no_panic in E.
Qed.

(** C29. Fragmentation is invisible: a [FrameReader] buffer filled by any sequence
    of partial reads yields the frames (and the framing error, if any) that
    decoding the whole byte stream at once yields, and the same bytes are left. *)
Theorem fragmentation_invisible chunks :
  let '(fs, rest, e) := feed [] chunks in
  ∃ rest', decode_all (concat chunks) = (fs, rest', e) ∧ (e = None → rest' = rest) ∧
    concat chunks = concat (raw <$> fs) ++ rest' ∧ Forall wf_frame fs.
Proof.
  destruct (feed [] chunks) as [[fs rest] e] eqn:E.
  destruct (feed_decode_all [] chunks fs rest e eq_refl E) as (rest'&Hd&Hr).
  exists rest'. split_and!; eauto using decode_all_split, decode_all_wf.
Qed.

(** C30. [FrameReader::next] is cancellation safe: cancelled while pending after
    some reads and called again on the buffer it left, it behaves on the reads to
    come as if it had not been cancelled; and it is only ever pending with every
    read consumed and no complete frame in the buffer. *)
Theorem next_cancel_safe buffer rs1 rs2 :
  next buffer (rs1 ++ rs2) =
    match next buffer rs1 with
    | (None, buffer', _) => next buffer' rs2
    | (Some o, buffer', rs) => (Some o, buffer', rs ++ rs2)
    end ∧
  ∀ buffer' rs', next buffer rs1 = (None, buffer', rs') →
    rs' = [] ∧ decode buffer' = Ret (None, buffer').
Proof. split; [apply next_app | intros; by eapply next_pending]. Qed.

(** The startup packet is the exact prefix of the client's bytes that its
    length field announces, between 8 bytes and 1 MiB, so the code's accesses
    [packet[4..8]] and [packet[8..]] are in range. *)
Theorem startup_exact s p rest :
  startup s = Ret (p, rest) →
  s = p ++ rest ∧ zlen p = u32_from_be_bytes s ∧ (8 ≤ zlen p ≤ 1024 * 1024)%Z ∧
  slice_from p 4 = Ret (drop 4 p) ∧ slice_from p 8 = Ret (drop 8 p).
Proof.
  intros (?&?&?)%startup_inv. unfold zlen in *.
  split_and!; try done; try lia; apply slice_from_ok; lia.
Qed.

Definition sample_startup : bytes :=
  u32_to_be_bytes 23 ++ u32_to_be_bytes PROTOCOL_V3 ++ bs "user" ++ [x00] ++ bs "postgres" ++ [x00; x00].

Lemma startup_exact_witness :
  startup (sample_startup ++ bs "Q") = Ret (sample_startup, bs "Q") ∧
  slice_from sample_startup 8 = Ret (drop 8 sample_startup).
Proof.
  split; [by vm_compute|]. apply (startup_exact (sample_startup ++ bs "Q") sample_startup (bs "Q")).
  by vm_compute.
Defined.
