(* ===== verification/Events.v ===== *)
(** * pgfault-events: statements and events

    [crates/pgfault-events/src/lib.rs].  [classify] is translated with its
    indices: every access goes through [index] or [slice_from], which panic out
    of range, and every [while] loop takes fuel.  [lex] is a reference lexer on
    what is left of the text; [ClassifySpec.v] proves the two agree. *)

From S2P Require Import Prelude Utf8.

(** ** Data *)

Module StatementClass.
Inductive t :=
  Begin | Commit | Rollback | Select | Insert | Update | Delete | Merge | Ddl | Other.
#[export] Instance t_eq_dec : EqDecision t.
Proof. solve_decision. Defined.
#[export] Instance t_inhabited : Inhabited t := populate Other.
End StatementClass.

Export (hints) StatementClass.

Record StartupMetadata := mk_startup {
  user : option string;
  database : option string;
  application_name : option string
}.

Record Statement := mk_statement {
  class : StatementClass.t;
  fingerprint : string
}.

Record Event := mk_event {
  connection_id : Z;
  semantic_reliable : bool;
  startup_meta : StartupMetadata;
  transaction_epoch : Z;
  query_cycle : Z;
  statement_index : Z;
  statement_class : StatementClass.t;
  sql_fingerprint : string;
  event_name : string;
  occurrence : Z;
  row_index : option Z
}.

#[global] Instance StartupMetadata_eq_dec : EqDecision StartupMetadata.
Proof. solve_decision. Defined.
#[global] Instance Statement_eq_dec : EqDecision Statement.
Proof. solve_decision. Defined.
#[global] Instance Event_eq_dec : EqDecision Event.
Proof. solve_decision. Defined.

(** [#[derive(Default)]] *)
Definition StartupMetadata_default : StartupMetadata := mk_startup None None None.
Definition Statement_default : Statement := mk_statement StatementClass.Other "".

Definition EVENTS : list string := [
  "query.received"; "query.forwarded"; "statement.execution_started";
  "statement.execution_completed"; "transaction.begin.requested";
  "transaction.commit.requested"; "transaction.commit.completed";
  "transaction.rollback.requested"; "transaction.rollback.completed";
  "transaction.implicit.completed"; "transaction.failed"; "result.started";
  "result.row"; "result.completed"; "connection.ready"; "frontend.execute";
  "frontend.sync"; "backend.error"; "backend.command_complete"; "backend.ready"
]%string.

(** ** [classify] *)

(** [sql[i].is_ascii_alphanumeric() || sql[i] == b'_'] *)
Definition is_word_byte (b : byte) : bool := is_ascii_alphanumeric b || Byte.eqb b "_"%byte.

(** The loop bounds below are never met: see [ClassifySpec.classify_total]. *)
Definition out_of_fuel {A} : outcome A := Panic "out of fuel".

(** [while i < sql.len() && sql[i] != b'\n' { i += 1 }] *)
Fixpoint skip_line (fuel : nat) (sql : bytes) (i : nat) : outcome nat :=
  match fuel with
  | 0 => out_of_fuel
  | S fuel =>
    if i <? length sql then
      b ← index sql i;
      if Byte.eqb b x0a then Ret i else skip_line fuel sql (i + 1)
    else Ret i
  end.

(** The nested block comment: [while i < sql.len() && depth > 0 { ... }]. *)
Fixpoint skip_comment (fuel : nat) (sql : bytes) (i depth : nat) : outcome (nat * nat) :=
  match fuel with
  | 0 => out_of_fuel
  | S fuel =>
    if (i <? length sql) && (0 <? depth) then
      s ← slice_from sql i;
      if starts_with s (bs "/*") then skip_comment fuel sql (i + 2) (depth + 1)
      else if starts_with s (bs "*/") then skip_comment fuel sql (i + 2) (depth - 1)
      else skip_comment fuel sql (i + 1) depth
    else Ret (i, depth)
  end.

(** The quoted string or identifier after its opening quote: the index and [closed]. *)
Fixpoint skip_quoted (fuel : nat) (sql : bytes) (quote : byte) (i : nat) : outcome (nat * bool) :=
  match fuel with
  | 0 => out_of_fuel
  | S fuel =>
    if i <? length sql then
      b ← index sql i;
      if Byte.eqb b "\"%byte then skip_quoted fuel sql quote ((i + 2) `min` length sql)
      else if Byte.eqb b quote then
        let i := i + 1 in
        if i <? length sql then
          c ← index sql i;
          if Byte.eqb c quote then skip_quoted fuel sql quote (i + 1) else Ret (i, true)
        else Ret (i, true)
      else skip_quoted fuel sql quote (i + 1)
    else Ret (i, false)
  end.

(** [while j < sql.len() && is_word_byte(sql[j]) { j += 1 }] *)
Fixpoint skip_word (fuel : nat) (sql : bytes) (j : nat) : outcome nat :=
  match fuel with
  | 0 => out_of_fuel
  | S fuel =>
    if j <? length sql then
      b ← index sql j;
      if is_word_byte b then skip_word fuel sql (j + 1) else Ret j
    else Ret j
  end.

(** [s.windows(delim.len()).position(|w| w == delim)] *)
Fixpoint position_window (s delim : bytes) : option nat :=
  if starts_with s delim then Some 0
  else match s with [] => None | _ :: r => S <$> position_window r delim end.

(** [String::from_utf8_lossy(..).to_ascii_uppercase()] *)
Definition upper_word (s : bytes) : string :=
  String.string_of_list_byte (to_ascii_uppercase <$> lossy s).

(** One turn of the outer [while]: go on with [i], [words], [ended], or return. *)
Inductive turn :=
  | Continue (i : nat) (words : list string) (ended : bool)
  | Return (c : StatementClass.t).

Definition scan_word (sql : bytes) (i : nat) (b : byte) (words : list string) (ended : bool) : outcome turn :=
  if is_ascii_alphabetic b then
    j ← skip_word (S (length sql)) sql i;
    Ret (Continue j (words ++ [upper_word (take (j - i) (drop i sql))]) ended)
  else Ret (Continue (i + 1) words ended).

Definition scan_dollar (sql : bytes) (i : nat) (b : byte) (words : list string) (ended : bool) : outcome turn :=
  j ← skip_word (S (length sql)) sql (i + 1);
  if j <? length sql then
    c ← index sql j;
    if Byte.eqb c "$"%byte then
      let delim := take (S j - i) (drop i sql) in
      let start := j + 1 in
      s ← slice_from sql start;
      match position_window s delim with
      | Some n => Ret (Continue (start + n + length delim) words ended)
      | None => Ret (Return StatementClass.Other)
      end
    else scan_word sql i b words ended
  else scan_word sql i b words ended.

Definition scan_turn (sql : bytes) (i : nat) (words : list string) (ended : bool) : outcome turn :=
  b ← index sql i;
  if is_ascii_whitespace b then Ret (Continue (i + 1) words ended) else
  s ← slice_from sql i;
  if starts_with s (bs "--") then
    j ← skip_line (S (length sql)) sql i; Ret (Continue j words ended)
  else if starts_with s (bs "/*") then
    '(j, depth) ← skip_comment (S (length sql)) sql (i + 2) 1;
    if 0 <? depth then Ret (Return StatementClass.Other) else Ret (Continue j words ended)
  else if ended : bool then Ret (Return StatementClass.Other)
  else if Byte.eqb b ";"%byte then Ret (Continue (i + 1) words true)
  else if Byte.eqb b "'"%byte || Byte.eqb b x22 then
    '(j, closed) ← skip_quoted (S (length sql)) sql b (i + 1);
    if closed : bool then Ret (Continue j words ended) else Ret (Return StatementClass.Other)
  else if Byte.eqb b "$"%byte then scan_dollar sql i b words ended
  else scan_word sql i b words ended.

(** The [match words.first()] that ends [classify]. *)
Definition class_of_words (words : list string) : StatementClass.t :=
  let any ws := existsb (λ w, bool_decide (w ∈ ws)) words in
  match head words with
  | None => StatementClass.Other
  | Some w =>
    if bool_decide (w ∈ ["BEGIN"; "START"]) then StatementClass.Begin
    else if bool_decide (w ∈ ["COMMIT"; "END"]) && negb (any ["PREPARED"; "CHAIN"]) then StatementClass.Commit
    else if bool_decide (w ∈ ["ROLLBACK"; "ABORT"]) && negb (any ["TO"; "PREPARED"; "CHAIN"]) then StatementClass.Rollback
    else if bool_decide (w ∈ ["SELECT"; "VALUES"; "TABLE"]) then StatementClass.Select
    else if bool_decide (w = "INSERT") then StatementClass.Insert
    else if bool_decide (w = "UPDATE") then StatementClass.Update
    else if bool_decide (w = "DELETE") then StatementClass.Delete
    else if bool_decide (w = "MERGE") then StatementClass.Merge
    else if bool_decide (w ∈ ["CREATE"; "ALTER"; "DROP"; "TRUNCATE"]) then StatementClass.Ddl
    else StatementClass.Other
  end%string.

Fixpoint classify_loop (fuel : nat) (sql : bytes) (i : nat) (words : list string) (ended : bool)
    : outcome StatementClass.t :=
  match fuel with
  | 0 => out_of_fuel
  | S fuel =>
    if i <? length sql then
      t ← scan_turn sql i words ended;
      match t with
      | Continue i words ended => classify_loop fuel sql i words ended
      | Return c => Ret c
      end
    else Ret (class_of_words words)
  end.

Definition classify (sql : bytes) : outcome StatementClass.t :=
  classify_loop (S (length sql)) sql 0 [] false.

(** [classify] as a value; the other branch is unreachable ([ClassifySpec.classify_total]). *)
Definition classified (sql : bytes) : StatementClass.t :=
  match classify sql with Ret c => c | _ => StatementClass.Other end.

(** ** [Statement::new] *)

(** [format!("{:x}", Sha256::digest(sql))], of the crate [sha2]. *)
Class Sha256 := sha256_hex : bytes → string.

Definition Statement_new `{Sha256} (sql : bytes) : Statement :=
  mk_statement (classified sql) (sha256_hex sql).

(** ** The reference lexer *)

Inductive token := TWord (w : string) | TSemi | TOther.

Fixpoint line_rest (s : bytes) : bytes :=
  match s with [] => [] | b :: r => if Byte.eqb b x0a then s else line_rest r end.

(** What follows the end of a comment that is [depth] deep. *)
Fixpoint comment_rest (depth : nat) (s : bytes) : option bytes :=
  match depth with
  | 0 => Some s
  | S d =>
    match s with
    | x :: t =>
      match t with
      | y :: r =>
        if Byte.eqb x "/"%byte && Byte.eqb y "*"%byte then comment_rest (S depth) r
        else if Byte.eqb x "*"%byte && Byte.eqb y "/"%byte then comment_rest d r
        else comment_rest depth t
      | [] => None
      end
    | [] => None
    end
  end.

Fixpoint quoted_rest (quote : byte) (s : bytes) : option bytes :=
  match s with
  | [] => None
  | b :: r =>
    if Byte.eqb b "\"%byte then match r with [] => None | _ :: r' => quoted_rest quote r' end
    else if Byte.eqb b quote then
      match r with
      | c :: r' => if Byte.eqb c quote then quoted_rest quote r' else Some r
      | [] => Some []
      end
    else quoted_rest quote r
  end.

Fixpoint word_span (s : bytes) : bytes * bytes :=
  match s with
  | b :: r => if is_word_byte b then let '(w, t) := word_span r in (b :: w, t) else ([], s)
  | [] => ([], [])
  end.

Fixpoint after_delim (delim s : bytes) : option bytes :=
  if starts_with s delim then Some (drop (length delim) s)
  else match s with [] => None | _ :: r => after_delim delim r end.

Definition lex_word (b : byte) (r : bytes) : token * bytes :=
  if is_ascii_alphabetic b then let '(w, t) := word_span (b :: r) in (TWord (upper_word w), t)
  else (TOther, r).

(** The token a text that starts with neither a blank nor a comment starts with;
    [None] is an unterminated string or dollar-quoted string. *)
Definition lex_token (b : byte) (r : bytes) : option (token * bytes) :=
  if Byte.eqb b ";"%byte then Some (TSemi, r)
  else if Byte.eqb b "'"%byte || Byte.eqb b x22 then pair TOther <$> quoted_rest b r
  else if Byte.eqb b "$"%byte then
    let '(w, t) := word_span r in
    match t with
    | c :: t' =>
      if Byte.eqb c "$"%byte then pair TOther <$> after_delim (b :: w ++ [c]) t'
      else Some (TOther, r)
    | [] => Some (TOther, r)
    end
  else Some (lex_word b r).

(** One lexical item off a nonempty text: blanks and comments carry no token;
    [None] is an unterminated comment or token. *)
Definition lex_step (b : byte) (r : bytes) : option (option token * bytes) :=
  if is_ascii_whitespace b then Some (None, r)
  else if starts_with (b :: r) (bs "--") then Some (None, line_rest (b :: r))
  else if starts_with (b :: r) (bs "/*") then pair None <$> comment_rest 1 (drop 1 r)
  else prod_map Some id <$> lex_token b r.

Fixpoint lex_upto (n : nat) (s : bytes) : option (list token) :=
  match n, s with
  | _, [] => Some []
  | 0, _ => None
  | S n, b :: r =>
    match lex_step b r with
    | None => None
    | Some (None, r') => lex_upto n r'
    | Some (Some t, r') => cons t <$> lex_upto n r'
    end
  end.
Definition lex (s : bytes) : option (list token) := lex_upto (length s) s.

(** Nothing after a top-level semicolon. *)
Fixpoint single_statement (ts : list token) : bool :=
  match ts with
  | [] => true
  | TSemi :: ts => match ts with [] => true | _ => false end
  | _ :: ts => single_statement ts
  end.
Definition words_of (ts : list token) : list string :=
  omap (λ t, match t with TWord w => Some w | _ => None end) ts.

Definition classify_ref (sql : bytes) : StatementClass.t :=
  match lex sql with
  | Some ts => if single_statement ts then class_of_words (words_of ts) else StatementClass.Other
  | None => StatementClass.Other
  end.

(** The cases of the crate's own test [conservative_sql]. *)
Example conservative_sql :
  classify (bs " /* outer /* nested */ x */ -- hi" ++ [x0a] ++ bs "COMMIT;") = Ret StatementClass.Commit ∧
  classify (bs "BEGIN; INSERT INTO x VALUES(1); COMMIT") = Ret StatementClass.Other ∧
  classify (bs "COMMIT PREPARED 'x'") = Ret StatementClass.Other ∧
  classify (bs "ROLLBACK TO SAVEPOINT x") = Ret StatementClass.Other ∧
  classify (bs "COMMIT AND CHAIN") = Ret StatementClass.Other ∧
  classify (bs "/* unterminated") = Ret StatementClass.Other ∧
  classify (bs "SELECT ';', $$a;b$$;") = Ret StatementClass.Select.
Proof. vm_compute. done. Qed.
