(* ===== verification/ClassifySpec.v ===== *)
(** * The statement classifier against its reference lexer

    [Events.classify] scans by index; [Events.lex] cuts tokens off the front of
    what is left.  Each loop of the first is shown to land where its counterpart
    in the second does, so the whole classifier is total, in bounds and equal to
    [Events.classify_ref]; the properties of the classifier follow from the lexer. *)

From S2P Require Import Prelude Utf8 Events.

(** ** Positions *)

Lemma drop_cons_inv {A} (l : list A) i b r :
  drop i l = b :: r → l !! i = Some b ∧ i < length l ∧ drop (i + 1) l = r.
Proof.
  intros H. assert (i < length l).
  { destruct (decide (i < length l)); [done|]. rewrite drop_ge in H by lia. done. }
  split_and!; [|done|].
  - by rewrite <-(Nat.add_0_r i), <-lookup_drop, H.
  - by rewrite <-drop_drop, H.
Qed.

Lemma drop_nil_inv {A} (l : list A) i : drop i l = [] → length l ≤ i.
Proof. intros H%(f_equal length). rewrite length_drop in H. simpl in H. lia. Qed.

(** Evaluate the loop guard, the access and the slice at a position whose suffix is known. *)
Ltac at_cons H :=
  let Hl := fresh "Hl" in let Hi := fresh "Hi" in let Hd := fresh "Hd" in
  pose proof (drop_cons_inv _ _ _ _ H) as (Hl & Hi & Hd);
  rewrite ?(proj2 (Nat.ltb_lt _ _) Hi), ?(index_ok _ _ _ Hl); simpl.
Ltac at_nil H :=
  let Hi := fresh "Hi" in
  pose proof (drop_nil_inv _ _ H) as Hi; rewrite ?(proj2 (Nat.ltb_ge _ _) Hi); simpl.

Section loops.
Context (sql : bytes).

(** [j] is a position of the text whose suffix is [s]. *)
Definition lands (j : nat) (s : bytes) : Prop := j ≤ length sql ∧ drop j sql = s.

Lemma lands_step i b r : lands i (b :: r) → lands (i + 1) r.
Proof. intros [Hi H]. at_cons H. split; [lia | done]. Qed.

Lemma lands_slice i s : lands i s → slice_from sql i = Ret s.
Proof. intros [Hi <-]. by apply slice_from_ok. Qed.

Lemma lands_length i s : lands i s → i + length s = length sql.
Proof. intros [Hi <-]. rewrite length_drop. lia. Qed.

Lemma skip_line_spec fuel i s :
  length s < fuel → lands i s → ∃ j, skip_line fuel sql i = Ret j ∧ lands j (line_rest s).
Proof.
  revert i s. induction fuel as [|fuel IH]; intros i s Hf Hs; [lia|]. simpl.
  destruct s as [|b r]; destruct Hs as [Hi H].
  - at_nil H. by eexists.
  - at_cons H. destruct (Byte.eqb b x0a); [by eexists|].
    apply IH; [simpl in Hf; lia | by split; [lia|]].
Qed.

Lemma skip_comment_spec fuel i depth s :
  length s < fuel → lands i s →
  ∃ j d, skip_comment fuel sql i depth = Ret (j, d) ∧
    match comment_rest depth s with Some t => d = 0 ∧ lands j t | None => 0 < d end.
Proof.
  revert i depth s. induction fuel as [|fuel IH]; intros i depth s Hf Hs; [lia|]. simpl.
  destruct depth as [|d].
  { rewrite andb_false_r. exists i, 0. by destruct s. }
  rewrite andb_true_r. destruct s as [|x t].
  { destruct Hs as [Hi0 H]. at_nil H. eexists _, _. split; [done|]. simpl. lia. }
  rewrite (lands_slice _ _ Hs). pose proof (lands_step _ _ _ Hs) as Ht.
  pose proof Hs as [Hi0 H]. at_cons H. clear H Hl Hi Hd.
  destruct t as [|y r].
  - rewrite !andb_false_r. apply (IH (i + 1) (S d) []); [simpl in *; lia | done].
  - rewrite !andb_true_r. pose proof (lands_step _ _ _ Ht) as Hr.
    replace (i + 1 + 1) with (i + 2) in Hr by lia. simpl in Hf.
    destruct (Byte.eqb x "/"%byte && Byte.eqb y "*"%byte).
    { replace (d + 1) with (S d) by lia. apply IH; [lia | done]. }
    destruct (Byte.eqb x "*"%byte && Byte.eqb y "/"%byte).
    { rewrite Nat.sub_0_r. apply IH; [lia | done]. }
    apply (IH _ (S d) (y :: r)); [simpl; lia | done].
Qed.

Lemma skip_quoted_spec fuel quote i s :
  length s < fuel → lands i s →
  ∃ j c, skip_quoted fuel sql quote i = Ret (j, c) ∧
    match quoted_rest quote s with Some t => c = true ∧ lands j t | None => c = false end.
Proof.
  revert i s. induction fuel as [|fuel IH]; intros i s Hf Hs; [lia|]. simpl.
  destruct s as [|b r].
  { destruct Hs as [Hi0 H]. at_nil H. by eexists _, _. }
  pose proof (lands_step _ _ _ Hs) as Hr. pose proof (lands_length _ _ Hs) as Hlen.
  destruct Hs as [Hi1 H]. at_cons H. clear H Hl Hd. simpl in *.
  destruct (Byte.eqb b "\"%byte).
  { destruct r as [|c r'].
    - rewrite Nat.min_r by (simpl in *; lia).
      apply (IH _ []); [simpl; lia|]. split; [lia | by rewrite drop_all].
    - rewrite Nat.min_l by (simpl in *; lia).
      replace (i + 2) with (i + 1 + 1) by lia.
      apply IH; [simpl in *; lia | by eapply lands_step]. }
  destruct (Byte.eqb b quote); [|apply IH; [lia | done]].
  destruct r as [|c r'].
  { pose proof Hr as [Hi0 H]. at_nil H. by eexists _, _. }
  pose proof (lands_step _ _ _ Hr) as Hr'. pose proof Hr as [Hi0 H]. at_cons H.
  destruct (Byte.eqb c quote); [apply IH; [simpl in *; lia | done] | by eexists _, _].
Qed.

Lemma skip_word_spec fuel i s :
  length s < fuel → lands i s →
  ∃ j, skip_word fuel sql i = Ret j ∧ lands j (word_span s).2 ∧
    j = i + length (word_span s).1 ∧ take (j - i) s = (word_span s).1.
Proof.
  revert i s. induction fuel as [|fuel IH]; intros i s Hf Hs; [lia|]. simpl.
  pose proof Hs as [Hi0 H]. destruct s as [|b r].
  - at_nil H. exists i. simpl. rewrite Nat.sub_diag. auto.
  - at_cons H. destruct (is_word_byte b); simpl.
    + destruct (IH (i + 1) r) as (j & -> & Hj & -> & Ht); [simpl in Hf; lia | by split; [lia|]|].
      exists (i + 1 + length (word_span r).1).
      destruct (word_span r) as [w t]; simpl in *. split_and!; [done|done|lia|].
      replace (i + 1 + length w - i) with (S (i + 1 + length w - (i + 1))) by lia.
      simpl. by rewrite Ht.
    + exists i. rewrite Nat.sub_diag. auto.
Qed.
End loops.

Lemma word_span_app s : (word_span s).1 ++ (word_span s).2 = s.
Proof.
  induction s as [|b r IH]; simpl; [done|].
  destruct (is_word_byte b); [|done]. destruct (word_span r). simpl in *. congruence.
Qed.

Lemma position_after delim s :
  match position_window s delim with
  | Some n => n + length delim ≤ length s ∧ after_delim delim s = Some (drop (n + length delim) s)
  | None => after_delim delim s = None
  end.
Proof.
  induction s as [|b r IH]; simpl.
  - destruct (starts_with [] delim) eqn:E; [|done].
    apply starts_with_true in E. rewrite take_nil in E. subst. simpl. auto.
  - destruct (starts_with (b :: r) delim) eqn:E.
    + apply starts_with_true, (f_equal length) in E. rewrite length_take in E. simpl in *.
      split; [lia | done].
    + destruct (position_window r delim); simpl; [|done]. destruct IH. split; [lia | done].
Qed.

(** ** The reference lexer makes progress *)

Lemma line_rest_le s : length (line_rest s) ≤ length s.
Proof. induction s as [|b r IH]; simpl; [lia|]. case_match; simpl; lia. Qed.

Lemma comment_rest_le depth s t : comment_rest depth s = Some t → length t ≤ length s.
Proof.
  revert depth t. induction s as [[|x [|y r]] IH] using (induction_ltof1 _ length);
    unfold ltof in IH; intros [|d] t; simpl; try (intros [= <-]; simpl; lia); try done.
  repeat case_match; try done; intros Hr; try (simplify_eq/=; lia);
    eapply IH in Hr; simpl in *; lia.
Qed.

Lemma quoted_rest_le q s t : quoted_rest q s = Some t → length t ≤ length s.
Proof.
  revert t. induction s as [[|x r] IH] using (induction_ltof1 _ length);
    unfold ltof in IH; intros t; simpl; [done|].
  repeat case_match; try done; intros Hr; try (simplify_eq/=; lia);
    eapply IH in Hr; simpl in *; lia.
Qed.

Lemma word_span_le s : length (word_span s).2 ≤ length s.
Proof. rewrite <-(word_span_app s) at 2. rewrite length_app. lia. Qed.

Lemma lex_token_shorter b r t s : lex_token b r = Some (t, s) → length s ≤ length r.
Proof.
  unfold lex_token, lex_word.
  destruct (Byte.eqb b ";"%byte); [by intros [= _ <-]|].
  destruct (_ || _).
  { destruct (quoted_rest _ _) eqn:Eq; [|done]. intros [= _ <-]. by eapply quoted_rest_le. }
  pose proof (word_span_le r) as Hw. destruct (Byte.eqb b "$"%byte).
  - destruct (word_span r) as [w [|c t']]; simpl in Hw; [by intros [= _ <-]|].
    destruct (Byte.eqb c "$"%byte); [|by intros [= _ <-]].
    pose proof (position_after (b :: w ++ [c]) t') as Hp.
    destruct (position_window t' _); [destruct Hp as [? ->] | by rewrite Hp].
    intros [= _ <-]. rewrite length_drop. lia.
  - destruct (is_ascii_alphabetic b) eqn:Ea; [|by intros [= _ <-]].
    simpl. unfold is_word_byte, is_ascii_alphanumeric.
    rewrite Ea. simpl. destruct (word_span r). by intros [= _ <-].
Qed.

Lemma lex_step_shorter b r o s : lex_step b r = Some (o, s) → length s ≤ length r.
Proof.
  unfold lex_step. destruct (is_ascii_whitespace b); [by intros [= _ <-]|].
  destruct (starts_with _ (bs "--")) eqn:E.
  { intros [= _ <-]. apply starts_with_true in E. injection E as -> E. apply line_rest_le. }
  destruct (starts_with _ (bs "/*")).
  { destruct (comment_rest _ _) eqn:Ec; [|done]. intros [= _ <-].
    apply comment_rest_le in Ec. rewrite length_drop in Ec. lia. }
  destruct (lex_token b r) as [[t s']|] eqn:Et; [|done].
  intros [= _ <-]. by apply lex_token_shorter in Et.
Qed.

Lemma lex_upto_enough n m s : length s ≤ n → n ≤ m → lex_upto m s = lex_upto n s.
Proof.
  revert m s. induction n as [|n IH]; intros m s Hn Hm.
  { destruct s; [by destruct m | simpl in Hn; lia]. }
  destruct m as [|m]; [lia|]. destruct s as [|b r]; [done|]. simpl in *.
  destruct (lex_step b r) as [[[t|] s]|] eqn:E; [|apply lex_step_shorter in E; apply IH; lia|done].
  apply lex_step_shorter in E. f_equal. apply IH; lia.
Qed.

(** [lex], one item at a time. *)
Lemma lex_cons b r :
  lex (b :: r) =
    match lex_step b r with
    | None => None
    | Some (None, s) => lex s
    | Some (Some t, s) => cons t <$> lex s
    end.
Proof.
  unfold lex at 1. simpl. destruct (lex_step b r) as [[[t|] s]|] eqn:E; [| |done];
    apply lex_step_shorter in E; unfold lex; by rewrite (lex_upto_enough (length s) (length r)).
Qed.

(** ** One turn of the scanner is one item of the lexer *)

#[global] Instance token_eq_dec : EqDecision token.
Proof. solve_decision. Defined.

Definition turn_spec (sql : bytes) (words : list string) (ended : bool)
    (o : option (option token * bytes)) (t : turn) : Prop :=
  match o with
  | None => t = Return StatementClass.Other
  | Some (None, s) => ∃ j, t = Continue j words ended ∧ lands sql j s
  | Some (Some tok, s) =>
    if ended then t = Return StatementClass.Other else
    ∃ j, lands sql j s ∧ t = Continue j (words ++ words_of [tok]) (bool_decide (tok = TSemi))
  end.

(** The same for a token alone, before the end of the statement. *)
Definition token_spec (sql : bytes) (words : list string) (o : option (token * bytes)) (t : turn) : Prop :=
  match o with
  | None => t = Return StatementClass.Other
  | Some (tok, s) =>
    ∃ j, lands sql j s ∧ t = Continue j (words ++ words_of [tok]) (bool_decide (tok = TSemi))
  end.

Lemma token_turn_spec sql words o t :
  token_spec sql words o t → turn_spec sql words false (prod_map Some id <$> o) t.
Proof. by destruct o as [[tok s]|]. Qed.

Section turn.
Context (sql : bytes) (words : list string).

Lemma scan_word_spec i b r :
  lands sql i (b :: r) →
  ∃ t, scan_word sql i b words false = Ret t ∧ token_spec sql words (Some (lex_word b r)) t.
Proof.
  intros Hs. unfold scan_word, lex_word. destruct (is_ascii_alphabetic b).
  - destruct (skip_word_spec sql (S (length sql)) i (b :: r)) as (j & -> & Hj & _ & Ht).
    { apply lands_length in Hs. simpl in *. lia. }
    { done. }
    run_ret. rewrite (proj2 Hs), Ht. destruct (word_span (b :: r)) as [w s].
    simpl in *. eauto 6.
  - eexists. split; [done|]. simpl. exists (i + 1).
    rewrite app_nil_r. eauto using lands_step.
Qed.

Lemma scan_dollar_spec i r :
  lands sql i ("$"%byte :: r) →
  ∃ t, scan_dollar sql i "$"%byte words false = Ret t ∧
    token_spec sql words (lex_token "$"%byte r) t.
Proof.
  intros Hs. pose proof (lands_step _ _ _ _ Hs) as Hr.
  pose proof (lands_length _ _ _ Hr) as Hlen.
  unfold scan_dollar, lex_token. cbn [Byte.eqb orb andb].
  pose proof (scan_word_spec _ _ _ Hs) as Hw. simpl in Hw.
  destruct (skip_word_spec sql (S (length sql)) (i + 1) r) as (j & -> & Hj & Hij & _); [lia|done|].
  pose proof (word_span_app r) as Hr'.
  destruct (word_span r) as [w [|c t]]; simpl in *.
  - pose proof Hj as [_ H]. at_nil H. done.
  - pose proof Hj as [_ H]. pose proof (lands_step _ _ _ _ Hj) as Ht. at_cons H. clear Hl Hd H.
    destruct (byte_eqb_spec c "$"%byte) as [->|]; [|done].
    rewrite (lands_slice _ _ _ Ht). simpl.
    assert (take (S j - i) (drop i sql) = "$"%byte :: w ++ ["$"%byte]) as ->.
    { rewrite (proj2 Hs), <-Hr', Hij. replace (S (i + 1 + length w) - i) with (S (S (length w))) by lia.
      simpl. rewrite take_app, take_ge by lia.
      replace (S (length w) - length w) with 1 by lia. done. }
    pose proof (position_after ("$"%byte :: w ++ ["$"%byte]) t) as Hp.
    apply lands_length in Ht as Htl. simpl length in *.
    destruct (position_window t _) as [n|]; [destruct Hp as [Hn ->] | rewrite Hp]; simpl.
    + eexists. split; [done|]. simpl. eexists. split; [|by rewrite app_nil_r].
      split; [simpl; lia|]. rewrite <-(proj2 Ht), drop_drop. f_equal. simpl. lia.
    + by eexists.
Qed.

Lemma scan_turn_spec i ended b r :
  lands sql i (b :: r) →
  ∃ t, scan_turn sql i words ended = Ret t ∧ turn_spec sql words ended (lex_step b r) t.
Proof.
  intros Hs. pose proof (lands_step _ _ _ _ Hs) as Hr.
  pose proof (lands_length _ _ _ Hs) as Hlen. simpl in Hlen.
  unfold scan_turn, lex_step.
  rewrite (index_ok _ _ _ (proj1 (drop_cons_inv _ _ _ _ (proj2 Hs)))). run_ret.
  destruct (is_ascii_whitespace b).
  { eexists. split; [done|]. simpl. eauto. }
  rewrite (lands_slice _ _ _ Hs). run_ret.
  destruct (starts_with (b :: r) (bs "--")).
  { destruct (skip_line_spec sql (S (length sql)) i (b :: r)) as (j & -> & Hj); [simpl; lia|done|].
    eexists. split; [done|]. simpl. eauto. }
  destruct (starts_with (b :: r) (bs "/*")) eqn:Ec.
  { assert (lands sql (i + 2) (drop 1 r)).
    { apply starts_with_true, (f_equal length) in Ec. destruct r as [|y r]; [done|].
      simpl. replace (i + 2) with (i + 1 + 1) by lia. by eapply lands_step. }
    destruct (skip_comment_spec sql (S (length sql)) (i + 2) 1 (drop 1 r)) as (j & d & -> & Hj).
    { rewrite length_drop. lia. } { done. }
    run_ret. destruct (comment_rest 1 (drop 1 r)); simpl;
      [destruct Hj as [-> ?] | rewrite (proj2 (Nat.ltb_lt 0 d)) by done]; simpl; eauto. }
  destruct ended.
  { eexists. split; [done|]. by destruct (lex_token b r) as [[]|]. }
  enough (∃ t, (if Byte.eqb b ";"%byte then Ret (Continue (i + 1) words true)
    else if Byte.eqb b "'"%byte || Byte.eqb b x22 then
      '(j, closed) ← skip_quoted (S (length sql)) sql b (i + 1);
      if closed : bool then Ret (Continue j words false) else Ret (Return StatementClass.Other)
    else if Byte.eqb b "$"%byte then scan_dollar sql i b words false
    else scan_word sql i b words false) = Ret t ∧ token_spec sql words (lex_token b r) t)
    as (t & Ht & Hspec) by eauto using token_turn_spec.
  destruct (byte_eqb_spec b "$"%byte) as [->|]; [by apply scan_dollar_spec|].
  unfold lex_token. rewrite (byte_eqb_ne b "$"%byte) by done.
  destruct (byte_eqb_spec b ";"%byte) as [->|].
  { eexists. split; [done|]. simpl. rewrite app_nil_r. eauto. }
  destruct (_ || _); [|by apply scan_word_spec].
  destruct (skip_quoted_spec sql (S (length sql)) b (i + 1) r) as (j & c & -> & Hj); [lia|done|].
  run_ret. destruct (quoted_rest b r); simpl; [destruct Hj as [-> ?] | subst];
    eexists; (split; [done|]); simpl; rewrite ?app_nil_r; eauto.
Qed.
End turn.

(** ** The whole scanner *)

Definition finish (words : list string) (ended : bool) (o : option (list token)) : StatementClass.t :=
  match o with
  | None => StatementClass.Other
  | Some ts =>
    if (if ended then bool_decide (ts = []) else single_statement ts)
    then class_of_words (words ++ words_of ts) else StatementClass.Other
  end.

Lemma classify_loop_spec sql fuel i words ended s :
  length s < fuel → lands sql i s →
  classify_loop fuel sql i words ended = Ret (finish words ended (lex s)).
Proof.
  revert i words ended s. induction fuel as [|fuel IH]; intros i words ended s Hf Hs; [lia|].
  cbn [classify_loop]. pose proof Hs as [Hi0 H]. destruct s as [|b r].
  { at_nil H. simpl. rewrite app_nil_r. by destruct ended. }
  pose proof (drop_cons_inv _ _ _ _ H) as (_ & Hi & _). rewrite (proj2 (Nat.ltb_lt _ _) Hi).
  destruct (scan_turn_spec sql words i ended b r Hs) as (t & -> & Ht). run_ret.
  rewrite lex_cons. simpl in Hf.
  destruct (lex_step b r) as [[[tok|] s]|] eqn:E; simpl in Ht.
  - apply lex_step_shorter in E. destruct ended.
    { subst t. by destruct (lex s). }
    destruct Ht as (j & Hj & ->). rewrite (IH _ _ _ s) by (done || lia).
    f_equal. destruct (lex s) as [ts|]; [|done]. simpl.
    destruct tok; simpl; rewrite <-?app_assoc; try done. by destruct ts.
  - apply lex_step_shorter in E. destruct Ht as (j & -> & Hj). apply IH; [lia | done].
  - by subst t.
Qed.

Lemma classify_ref_eq sql : classify sql = Ret (classify_ref sql).
Proof.
  unfold classify. rewrite (classify_loop_spec sql _ 0 [] false sql) by (try split; (done || lia)).
  done.
Qed.

Lemma classified_ref sql : classified sql = classify_ref sql.
Proof. unfold classified. by rewrite classify_ref_eq. Qed.

(** ** What the lexer skips *)

Lemma lex_blank b s : is_ascii_whitespace b = true → lex (b :: s) = lex s.
Proof. intros Hb. rewrite lex_cons. unfold lex_step. by rewrite Hb. Qed.

Lemma line_rest_app c s : x0a ∉ c → line_rest (c ++ x0a :: s) = x0a :: s.
Proof.
  induction c as [|b c IH]; intros Hc; [done|].
  apply not_elem_of_cons in Hc as [Hb Hc].
  change ((b :: c) ++ x0a :: s) with (b :: (c ++ x0a :: s)). cbn [line_rest].
  rewrite byte_eqb_ne by done. by apply IH.
Qed.

Lemma lex_line_comment c s : x0a ∉ c → lex (bs "--" ++ c ++ x0a :: s) = lex s.
Proof.
  intros Hc. rewrite <-(lex_blank x0a s) by done.
  change (bs "--" ++ c ++ x0a :: s) with ("-"%byte :: "-"%byte :: c ++ x0a :: s).
  rewrite lex_cons. unfold lex_step. simpl. by rewrite line_rest_app.
Qed.

Lemma comment_rest_cons d x y r :
  comment_rest (S d) (x :: y :: r) =
    if Byte.eqb x "/"%byte && Byte.eqb y "*"%byte then comment_rest (S (S d)) r
    else if Byte.eqb x "*"%byte && Byte.eqb y "/"%byte then comment_rest d r
    else comment_rest (S d) (y :: r).
Proof. done. Qed.

Lemma comment_rest_app d c r s :
  comment_rest d c = Some r → comment_rest d (c ++ s) = Some (r ++ s).
Proof.
  revert d r. induction c as [c IH] using (induction_ltof1 _ length); unfold ltof in IH.
  intros [|d] r.
  { destruct c; simpl; intros [= <-]; by destruct s. }
  destruct c as [|x [|y t]]; [done..|].
  change ((x :: y :: t) ++ s) with (x :: y :: t ++ s). rewrite !comment_rest_cons.
  repeat case_match; intros Hr.
  - by apply IH; [simpl; lia|].
  - by apply IH; [simpl; lia|].
  - by apply (IH (y :: t)); [simpl; lia|].
Qed.

Lemma lex_block_comment c s : comment_rest 1 c = Some [] → lex (bs "/*" ++ c ++ s) = lex s.
Proof.
  intros Hc. apply (comment_rest_app _ _ _ s) in Hc.
  change (bs "/*" ++ c ++ s) with ("/"%byte :: "*"%byte :: c ++ s).
  rewrite lex_cons. unfold lex_step.
  change (drop 1 ("*"%byte :: c ++ s)) with (c ++ s). by rewrite Hc.
Qed.

(** ** The keyword table *)

Lemma any_word_false (words ws : list string) :
  existsb (λ w, bool_decide (w ∈ ws)) words = false ↔ (∀ w, w ∈ ws → w ∉ words).
Proof.
  rewrite <-not_true_iff_false, existsb_exists. setoid_rewrite bool_decide_eq_true.
  setoid_rewrite <-list_elem_of_In. naive_solver.
Qed.

Lemma class_of_words_commit words :
  class_of_words words = StatementClass.Commit ↔
  (∃ w, head words = Some w ∧ w ∈ ["COMMIT"; "END"]%string) ∧
  "PREPARED"%string ∉ words ∧ "CHAIN"%string ∉ words.
Proof.
  unfold class_of_words. destruct (head words) as [w|] eqn:Hw; [|naive_solver].
  split.
  - repeat case_match; try done. intros _. to_prop.
    match goal with H : existsb _ _ = false |- _ => rewrite any_word_false in H; rename H into Hany end.
    split_and!; [eauto | apply Hany; set_solver..].
  - intros ((w' & [= <-] & Hin) & Hp & Hc).
    rewrite (bool_decide_eq_false_2 (w ∈ ["BEGIN"; "START"]%string)) by set_solver.
    rewrite (bool_decide_eq_true_2 (w ∈ _)) by done. simpl andb.
    rewrite (proj2 (any_word_false _ ["PREPARED"; "CHAIN"]%string)) by set_solver. done.
Qed.

Lemma class_of_words_rollback words :
  class_of_words words = StatementClass.Rollback ↔
  (∃ w, head words = Some w ∧ w ∈ ["ROLLBACK"; "ABORT"]%string) ∧
  "TO"%string ∉ words ∧ "PREPARED"%string ∉ words ∧ "CHAIN"%string ∉ words.
Proof.
  unfold class_of_words. destruct (head words) as [w|] eqn:Hw; [|naive_solver].
  split.
  - repeat case_match; try done. intros _. to_prop.
    match goal with
      H : existsb (λ w, bool_decide (w ∈ ["TO"; _; _]%string)) _ = false |- _ =>
      rewrite any_word_false in H; rename H into Hany end.
    split_and!; [eauto | apply Hany; set_solver..].
  - intros ((w' & [= <-] & Hin) & Ht & Hp & Hc).
    rewrite (bool_decide_eq_false_2 (w ∈ ["BEGIN"; "START"]%string)) by set_solver.
    rewrite (bool_decide_eq_false_2 (w ∈ ["COMMIT"; "END"]%string)) by set_solver. simpl andb.
    rewrite (bool_decide_eq_true_2 (w ∈ _)) by done. simpl andb.
    rewrite (proj2 (any_word_false _ ["TO"; "PREPARED"; "CHAIN"]%string)) by set_solver. done.
Qed.

Lemma single_statement_iff ts :
  single_statement ts = true ↔ (∀ ts1 t ts2, ts ≠ ts1 ++ TSemi :: t :: ts2).
Proof.
  split.
  - intros H ts1 t ts2 ->. induction ts1 as [|[w| |] ts1 IH]; simpl in H; try by auto. by destruct ts1.
  - induction ts as [|x ts IH]; [done|]. intros H.
    assert (single_statement ts = true).
    { apply IH. intros ts1 t ts2 ->. by apply (H (x :: ts1) t ts2). }
    destruct x; [done| |done]. destruct ts as [|t ts]; [done|]. by destruct (H [] t ts).
Qed.

(** ** Properties *)

(** C14. The classifier is total and in bounds: on every byte string its loops end
    within the fuel given, no index or slice of it panics, and the class it
    returns is the one the reference lexer determines. *)
Theorem classify_total sql : classify sql = Ret (classify_ref sql).
Proof. apply classify_ref_eq. Qed.

(** C15. What classifies as COMMIT is one statement: its text lexes completely, no
    token follows a top-level semicolon, its first word is COMMIT or END in any
    case, and it holds neither PREPARED nor CHAIN; and every such text does. *)
Theorem classify_commit sql :
  classified sql = StatementClass.Commit ↔
  (∃ ts, lex sql = Some ts ∧
    (∀ ts1 t ts2, ts ≠ ts1 ++ TSemi :: t :: ts2) ∧
    (∃ w, head (words_of ts) = Some w ∧ w ∈ ["COMMIT"; "END"]%string) ∧
    "PREPARED"%string ∉ words_of ts ∧ "CHAIN"%string ∉ words_of ts).
Proof.
  rewrite classified_ref. unfold classify_ref. split.
  - destruct (lex sql) as [ts|]; [|done]. destruct (single_statement ts) eqn:Hs; [|done].
    intros H%class_of_words_commit. exists ts. split_and!; [done| |naive_solver..].
    by apply single_statement_iff.
  - intros (ts & -> & Hs & Hc). rewrite (proj2 (single_statement_iff ts)) by done.
    by apply class_of_words_commit.
Qed.

Lemma classify_commit_witness :
  classified (bs "-- done" ++ [x0a] ++ bs "commit work;") = StatementClass.Commit.
Proof.
  apply (classify_commit (bs "-- done" ++ [x0a] ++ bs "commit work;")).
  exists [TWord "COMMIT"; TWord "WORK"; TSemi].
  split_and!.
  - by vm_compute.
  - apply single_statement_iff. by vm_compute.
  - exists "COMMIT"%string. split; [done | apply list_elem_of_here].
  - apply (bool_decide_unpack _). by vm_compute.
  - apply (bool_decide_unpack _). by vm_compute.
Defined.

(** What classifies as ROLLBACK is one complete statement whose first word is
    ROLLBACK or ABORT and which holds none of TO, PREPARED and CHAIN: a rollback
    to a savepoint never counts as the end of the transaction. *)
Theorem classify_rollback sql :
  classified sql = StatementClass.Rollback ↔
  (∃ ts, lex sql = Some ts ∧
    (∀ ts1 t ts2, ts ≠ ts1 ++ TSemi :: t :: ts2) ∧
    (∃ w, head (words_of ts) = Some w ∧ w ∈ ["ROLLBACK"; "ABORT"]%string) ∧
    "TO"%string ∉ words_of ts ∧ "PREPARED"%string ∉ words_of ts ∧ "CHAIN"%string ∉ words_of ts).
Proof.
  rewrite classified_ref. unfold classify_ref. split.
  - destruct (lex sql) as [ts|]; [|done]. destruct (single_statement ts) eqn:Hs; [|done].
    intros H%class_of_words_rollback. exists ts. split_and!; [done| |naive_solver..].
    by apply single_statement_iff.
  - intros (ts & -> & Hs & Hc). rewrite (proj2 (single_statement_iff ts)) by done.
    by apply class_of_words_rollback.
Qed.

(** Leading white space, a line comment and a block comment, nested ones
    included, do not change how a statement is classified. *)
Theorem classify_ignores_comments sql :
  (∀ b, is_ascii_whitespace b = true → classify (b :: sql) = classify sql) ∧
  (∀ c, x0a ∉ c → classify (bs "--" ++ c ++ x0a :: sql) = classify sql) ∧
  (∀ c, comment_rest 1 c = Some [] → classify (bs "/*" ++ c ++ sql) = classify sql).
Proof.
  assert (Heq : ∀ s, lex s = lex sql → classify s = classify sql).
  { intros s H. rewrite !classify_ref_eq. unfold classify_ref. by rewrite H. }
  split_and!; intros; apply Heq; auto using lex_blank, lex_line_comment, lex_block_comment.
Qed.

Lemma classify_ignores_comments_witness :
  classify (bs "/*" ++ bs " a /* b */ c */" ++ bs "COMMIT") = Ret StatementClass.Commit.
Proof.
  rewrite (proj2 (proj2 (classify_ignores_comments (bs "COMMIT"))) (bs " a /* b */ c */")); by vm_compute.
Defined.

(** A text with a token after a top-level semicolon, or whose comment, string
    or dollar-quoted string is not terminated, classifies as Other, as the
    comment on [classify] says. *)
Theorem classify_other sql :
  (lex sql = None ∨ ∃ ts1 t ts2, lex sql = Some (ts1 ++ TSemi :: t :: ts2)) →
  classify sql = Ret StatementClass.Other.
Proof.
  rewrite classify_ref_eq. unfold classify_ref. intros [-> | (ts1 & t & ts2 & ->)]; [done|].
  destruct (single_statement _) eqn:Hs; [|done].
  by destruct (proj1 (single_statement_iff _) Hs ts1 t ts2).
Qed.

Lemma classify_other_witness :
  classify (bs "BEGIN; COMMIT") = Ret StatementClass.Other ∧
  classify (bs "COMMIT /* open") = Ret StatementClass.Other.
Proof.
  split; apply classify_other.
  - right. exists [TWord "BEGIN"], (TWord "COMMIT"), []. by vm_compute.
  - left. by vm_compute.
Defined.

(** The scanner takes a backslash for an escape in every quoted string and a
    dollar sign inside an identifier for an opening quote, so two texts that hold
    a COMMIT of their own, [SELECT '\'; COMMIT; --'] (a complete string under
    standard_conforming_strings) and [SELECT a$b$; COMMIT; SELECT c$b$], classify
    as one SELECT. *)
Theorem classify_hidden_statement :
  classify (bs "SELECT '\'; COMMIT; --'") = Ret StatementClass.Select ∧
  classify (bs "SELECT a$b$; COMMIT; SELECT c$b$") = Ret StatementClass.Select.
Proof. split; by vm_compute. Qed.
