(* ===== verification/Scenario.v ===== *)
(** * pgfault-scenario: scenarios and matchers

    [crates/pgfault-scenario/src/lib.rs]: the scenario data, its validation, the
    selection of events, and the matcher that decides when a scenario fires.
    The YAML reading of [Scenario::load] is the crate [serde_yaml]'s. *)

From stdpp Require Import pretty.
From S2P Require Import Prelude Utf8 Events.

(** ** Data *)

Module Selector.
Record t := mk {
  application_name : option string;
  user : option string;
  database : option string;
  connection_ordinal : option Z;
  transaction : option Z;
  query_cycle : option Z;
  statement : option Z;
  sql_fingerprint : option string
}.
Definition default : t := mk None None None None None None None None.
#[export] Instance t_eq_dec : EqDecision t.
Proof. solve_decision. Defined.
End Selector.

Module When.
Record t := mk {
  event : string;
  occurrence : option Z;
  statement_class : list StatementClass.t;
  row : option Z
}.
#[export] Instance t_eq_dec : EqDecision t.
Proof. solve_decision. Defined.
End When.

Module Side.
Inductive t := Frontend | Upstream.
#[export] Instance t_eq_dec : EqDecision t.
Proof. solve_decision. Defined.
End Side.

Module Mode.
Inductive t := Close | Reset.
#[export] Instance t_eq_dec : EqDecision t.
Proof. solve_decision. Defined.
End Mode.

Module Direction.
Inductive t := Upstream | Downstream.
#[export] Instance t_eq_dec : EqDecision t.
Proof. solve_decision. Defined.
End Direction.

Export (hints) Selector When Side Mode Direction.

Record Suppress := mk_suppress { current : bool }.
Record Disconnect := mk_disconnect { side : Side.t; mode : Mode.t }.
Record Delay := mk_delay { direction : Direction.t; duration : string }.
Record Truncate := mk_truncate { after_rows : Z }.

#[global] Instance Suppress_eq_dec : EqDecision Suppress.
Proof. solve_decision. Defined.
#[global] Instance Disconnect_eq_dec : EqDecision Disconnect.
Proof. solve_decision. Defined.
#[global] Instance Delay_eq_dec : EqDecision Delay.
Proof. solve_decision. Defined.
#[global] Instance Truncate_eq_dec : EqDecision Truncate.
Proof. solve_decision. Defined.

Module Action.
Record t := mk {
  suppress : option Suppress;
  disconnect : option Disconnect;
  delay : option Delay;
  truncate_result : option Truncate
}.
#[export] Instance t_eq_dec : EqDecision t.
Proof. solve_decision. Defined.
End Action.

Export (hints) Action.

Record Scenario := mk_scenario {
  version : Z;
  name : string;
  selector : Selector.t;
  when : When.t;
  action : Action.t
}.

#[global] Instance Scenario_eq_dec : EqDecision Scenario.
Proof. solve_decision. Defined.

(** ** [Scenario::validate] *)

(** [humantime::parse_duration], of the crate [humantime]: nanoseconds, or its error. *)
Class Humantime := parse_duration : string → error + Z.

(** [Duration::from_secs(86400)] in nanoseconds. *)
Definition max_delay : Z := 86400 * 10 ^ 9.

(** The events a client frame causes, as [validate] lists them. *)
Definition upstream_events : list string := [
  "query.received"; "query.forwarded"; "statement.execution_started";
  "transaction.begin.requested"; "transaction.commit.requested";
  "transaction.rollback.requested"; "frontend.execute"; "frontend.sync"
]%string.

Definition bail {A} (msg : string) : outcome A := Fail (Bail msg).

Section validate.
Context `{Humantime}.

Definition validate_delay (s : Scenario) : outcome unit :=
  match Action.delay (action s) with
  | None => Ret tt
  | Some d =>
    match parse_duration (duration d) with
    | inl e => Fail (Ctx "invalid delay duration" e)
    | inr n =>
      if (max_delay <? n)%Z then bail "delay exceeds 24 hours"
      else if bool_decide
        (bool_decide (When.event (when s) ∈ upstream_events)
         ≠ bool_decide (direction d = Direction.Upstream))
      then bail "delay direction must match the event direction"
      else Ret tt
    end
  end.

Definition validate (s : Scenario) : outcome unit :=
  if bool_decide (version s ≠ 1%Z) then
    bail ("unsupported scenario version " +:+ pretty (version s))
  else if trim_is_empty (name s) then bail "scenario name is empty"
  else if negb (bool_decide (When.event (when s) ∈ EVENTS)) then
    bail ("unknown semantic event: " +:+ When.event (when s))
  else if bool_decide (When.occurrence (when s) = Some 0%Z) || bool_decide (When.row (when s) = Some 0%Z)
  then bail "occurrence and row are one-based"
  else if bool_decide (Selector.connection_ordinal (selector s) = Some 0%Z)
  then bail "connection_ordinal is one-based"
  else
    _ ← validate_delay s;
    let a := action s in
    if bool_decide (Action.suppress a = None) && bool_decide (Action.disconnect a = None)
       && bool_decide (Action.delay a = None) && bool_decide (Action.truncate_result a = None)
    then bail "scenario has no action"
    else if bool_decide (Action.truncate_result a ≠ None)
            && bool_decide (When.event (when s) ≠ "result.started"%string)
    then bail "truncate_result must target result.started"
    else Ret tt.
End validate.

(** ** [Scenario::selects] *)

(** [o.is_none_or(|x| p(x))] *)
Definition is_none_or {A} (o : option A) (p : A → bool) : bool :=
  match o with None => true | Some x => p x end.

Definition selects (s : Scenario) (e : Event) : bool :=
  let m := selector s in
  is_none_or (Selector.application_name m) (λ x, bool_decide (application_name (startup_meta e) = Some x))
  && is_none_or (Selector.user m) (λ x, bool_decide (user (startup_meta e) = Some x))
  && is_none_or (Selector.database m) (λ x, bool_decide (database (startup_meta e) = Some x))
  && is_none_or (Selector.connection_ordinal m) (λ n, bool_decide (connection_id e = n))
  && is_none_or (Selector.transaction m) (λ n, bool_decide (transaction_epoch e = n))
  && is_none_or (Selector.query_cycle m) (λ n, bool_decide (query_cycle e = n))
  && is_none_or (Selector.statement m) (λ n, bool_decide (statement_index e = n))
  && is_none_or (Selector.sql_fingerprint m) (λ x, bool_decide (sql_fingerprint e = x))
  && (bool_decide (When.statement_class (when s) = [])
      || bool_decide (statement_class e ∈ When.statement_class (when s)))
  && is_none_or (When.row (when s)) (λ n, bool_decide (row_index e = Some n)).

(** ** [Matcher] *)

Record Matcher := mk_matcher { scenario : Scenario; seen : Z; fired : bool }.

Definition matcher_new (s : Scenario) : Matcher := mk_matcher s 0 false.

Definition observe (m : Matcher) (e : Event) : bool * Matcher :=
  if negb (semantic_reliable e) || fired m
     || negb (bool_decide (event_name e = When.event (when (scenario m))))
     || negb (selects (scenario m) e)
  then (false, m)
  else
    let n := u64_add (seen m) 1 in
    if bool_decide (n = default 1%Z (When.occurrence (when (scenario m))))
    then (true, mk_matcher (scenario m) n true)
    else (false, mk_matcher (scenario m) n (fired m)).

Definition needs_gate (m : Matcher) (boundary : string) : bool :=
  negb (fired m) && bool_decide (When.event (when (scenario m)) = boundary).

(** A matcher along a sequence of events: the answers of [observe]. *)
Fixpoint observe_all (m : Matcher) (es : list Event) : list bool * Matcher :=
  match es with
  | [] => ([], m)
  | e :: es => let '(b, m1) := observe m e in let '(bs, m2) := observe_all m1 es in (b :: bs, m2)
  end.

(** What a matcher counts: reliable events of the scenario's kind that it selects. *)
Definition hit (s : Scenario) (e : Event) : bool :=
  semantic_reliable e && bool_decide (event_name e = When.event (when s)) && selects s e.

Definition hits (s : Scenario) (es : list Event) : Z :=
  zlen (filter (λ e, hit s e = true) es).

Definition target (s : Scenario) : Z := default 1%Z (When.occurrence (when s)).

(** ** Lemmas *)

Lemma observe_scenario m e : scenario (observe m e).2 = scenario m.
Proof. unfold observe. by repeat case_match. Qed.

Lemma observe_fired_mono m e : fired m = true → (observe m e) = (false, m).
Proof. unfold observe. intros ->. by rewrite orb_true_r. Qed.

Lemma observe_hit m e :
  observe m e =
    if fired m then (false, m)
    else if hit (scenario m) e then
      let n := u64_add (seen m) 1 in
      let b := bool_decide (n = target (scenario m)) in (b, mk_matcher (scenario m) n b)
    else (false, m).
Proof.
  unfold observe, hit, target.
  destruct (semantic_reliable e), (fired m) eqn:Hf, (bool_decide (event_name e = _)),
    (selects (scenario m) e); simpl; try done; by destruct (bool_decide _).
Qed.

Lemma observe_true m e m' :
  observe m e = (true, m') →
  fired m = false ∧ hit (scenario m) e = true ∧ fired m' = true ∧ scenario m' = scenario m.
Proof.
  rewrite observe_hit. destruct (fired m); [done|].
  destruct (hit (scenario m) e); [|done]. simpl. intros [= Hb <-]. by rewrite Hb.
Qed.

Lemma observe_all_fired m es : fired m = true → observe_all m es = (replicate (length es) false, m).
Proof.
  intros Hm. induction es as [|e es IH]; simpl; [done|].
  by rewrite observe_fired_mono, IH.
Qed.

Lemma hits_cons s e es : hits s (e :: es) = ((if hit s e then 1 else 0) + hits s es)%Z.
Proof.
  unfold hits. rewrite filter_cons. destruct (hit s e) eqn:E.
  - rewrite decide_True by done. rewrite zlen_cons. lia.
  - rewrite decide_False by done. lia.
Qed.

Lemma hits_nonneg s es : (0 ≤ hits s es)%Z.
Proof. apply zlen_nonneg. Qed.

Lemma hits_take s es i : (hits s (take i es) ≤ hits s es)%Z.
Proof.
  revert i. induction es as [|e es IH]; intros [|i]; simpl; try lia.
  - apply hits_nonneg.
  - rewrite !hits_cons. specialize (IH i). lia.
Qed.

(** Where a matcher that has not fired yet fires. *)
Lemma observe_all_spec m es i :
  fired m = false → (0 ≤ seen m)%Z → (seen m + hits (scenario m) es < 2 ^ 64)%Z →
  (seen m < target (scenario m))%Z →
  (observe_all m es).1 !! i = Some true ↔
  ∃ e, es !! i = Some e ∧ hit (scenario m) e = true ∧
    (seen m + hits (scenario m) (take i es) + 1 = target (scenario m))%Z.
Proof.
  revert m i. induction es as [|e es IH]; intros m i Hf H0 Hb Ht; [naive_solver|].
  cbn [observe_all]. rewrite observe_hit, Hf. rewrite hits_cons in Hb.
  pose proof (hits_nonneg (scenario m) es).
  destruct (hit (scenario m) e) eqn:Hh.
  - cbn zeta. rewrite u64_add_small by lia.
    destruct (decide (seen m + 1 = target (scenario m))%Z) as [He|He].
    + rewrite bool_decide_eq_true_2 by done.
      rewrite observe_all_fired by done. destruct i as [|i]; simpl.
      * split; [intros _|done]. exists e. unfold hits, zlen. simpl. split_and!; [done|done|lia].
      * rewrite lookup_replicate. split; [naive_solver|].
        intros (e' & He' & _ & Hc). rewrite hits_cons, Hh in Hc.
        pose proof (hits_nonneg (scenario m) (take i es)). lia.
    + rewrite bool_decide_eq_false_2 by done.
      specialize (IH (mk_matcher (scenario m) (seen m + 1) false)). simpl in IH.
      destruct (observe_all _ es) as [l m']. destruct i as [|i]; simpl in *.
      * split; [done|]. intros (e' & [= <-] & _ & Hc). unfold hits, zlen in Hc. simpl in Hc. lia.
      * rewrite IH by (done || lia). setoid_rewrite hits_cons. rewrite Hh.
        split; intros (e' & ? & ? & ?); exists e'; split_and!; try done; lia.
  - specialize (IH m). destruct (observe_all m es) as [l m']. destruct i as [|i]; simpl in *.
    + split; [done|]. intros (e' & [= <-] & Hc & _). congruence.
    + rewrite IH by (done || lia). setoid_rewrite hits_cons. rewrite Hh.
      split; intros (e' & ? & ? & ?); exists e'; split_and!; try done; lia.
Qed.

(** A delay as [validate] accepts it. *)
Definition delay_ok `{Humantime} (s : Scenario) : Prop :=
  ∀ d, Action.delay (action s) = Some d →
    ∃ n, parse_duration (duration d) = inr n ∧ (n ≤ max_delay)%Z ∧
      (When.event (when s) ∈ upstream_events ↔ direction d = Direction.Upstream).

Lemma validate_delay_ok `{Humantime} s : validate_delay s = Ret tt ↔ delay_ok s.
Proof.
  unfold validate_delay, delay_ok. destruct (Action.delay (action s)) as [d|]; [|naive_solver].
  destruct (parse_duration (duration d)) as [e|n] eqn:Hp.
  { split; [done|]. intros Hd. destruct (Hd d eq_refl) as (n & ? & _). congruence. }
  destruct (max_delay <? n)%Z eqn:Hn; to_prop.
  { split; [done|]. intros Hd. exfalso. destruct (Hd d eq_refl) as (n' & ? & ? & _). assert (n' = n) by congruence. lia. }
  repeat case_bool_decide; (split; [try done; intros _ ? [= <-]; naive_solver|]);
    intros Hd; destruct (Hd d eq_refl) as (? & ? & ? & ?); naive_solver.
Qed.

Lemma validate_delay_cases `{Humantime} s :
  validate_delay s = Ret tt ∨ ∃ e, validate_delay s = Fail e.
Proof. unfold validate_delay, bail. repeat case_match; eauto. Qed.

(** A check of [validate] has failed: the outcome is an error, and the condition is false. *)
Ltac reject :=
  simpl; split; [by eauto|]; split; [done|]; intros (?&?&?&?&?&?&?&?&?); to_prop;
  try congruence;
  repeat match goal with
  | H : (_ || _) = true |- _ => apply orb_true_iff in H as [?|?]
  end; to_prop; tauto || congruence.

(** When [validate] accepts a scenario. *)
Lemma validate_iff `{Humantime} s :
  (validate s = Ret tt ∨ ∃ e, validate s = Fail e) ∧
  (validate s = Ret tt ↔
    version s = 1%Z ∧ trim_is_empty (name s) = false ∧ When.event (when s) ∈ EVENTS ∧
    When.occurrence (when s) ≠ Some 0%Z ∧ When.row (when s) ≠ Some 0%Z ∧
    Selector.connection_ordinal (selector s) ≠ Some 0%Z ∧ delay_ok s ∧
    (Action.suppress (action s) ≠ None ∨ Action.disconnect (action s) ≠ None ∨
     Action.delay (action s) ≠ None ∨ Action.truncate_result (action s) ≠ None) ∧
    (Action.truncate_result (action s) ≠ None → When.event (when s) = "result.started"%string)).
Proof.
  rewrite <-validate_delay_ok. unfold validate, bail.
  destruct (bool_decide (version s ≠ 1%Z)) eqn:H1; [reject|].
  destruct (trim_is_empty (name s)) eqn:H2; [reject|].
  destruct (bool_decide (When.event (when s) ∈ EVENTS)) eqn:H3; [|reject].
  destruct (_ || _) eqn:H4; [reject|].
  destruct (bool_decide (Selector.connection_ordinal _ = _)) eqn:H5; [reject|].
  destruct (validate_delay_cases s) as [Hd|[e Hd]]; rewrite Hd; run_ret; [|reject].
  destruct (_ && _) eqn:H6; [reject|].
  destruct (bool_decide (Action.truncate_result (action s) ≠ None) && _) eqn:H7; [reject|].
  to_prop. split; [by left|]. split; [intros _|done]. rewrite !andb_false_iff in H6. rewrite andb_false_iff in H7.
  split_and!; try done; [by apply dec_stable | |].
  - destruct H6 as [[[H6|H6]|H6]|H6]; apply bool_decide_eq_false in H6; tauto.
  - intros Ht. destruct H7 as [H7|H7]; apply bool_decide_eq_false in H7; [done|by apply dec_stable].
Qed.

(** ** Properties *)

(** C23. [validate] accepts a scenario exactly when its version is 1, its name is
    not blank, its event is a known one, its occurrence, row and connection
    ordinal are one-based, its delay (if any) parses, is at most 24 hours and has
    the direction of the event, it has an action, and a truncation targets
    [result.started]; it rejects every other scenario with an error, never a panic. *)
Theorem validate_spec `{Humantime} s :
  (validate s = Ret tt ∨ ∃ e, validate s = Fail e) ∧
  (validate s = Ret tt ↔
    version s = 1%Z ∧ trim_is_empty (name s) = false ∧ When.event (when s) ∈ EVENTS ∧
    When.occurrence (when s) ≠ Some 0%Z ∧ When.row (when s) ≠ Some 0%Z ∧
    Selector.connection_ordinal (selector s) ≠ Some 0%Z ∧ delay_ok s ∧
    (Action.suppress (action s) ≠ None ∨ Action.disconnect (action s) ≠ None ∨
     Action.delay (action s) ≠ None ∨ Action.truncate_result (action s) ≠ None) ∧
    (Action.truncate_result (action s) ≠ None → When.event (when s) = "result.started"%string)).
Proof. apply validate_iff. Qed.

(** C9. A fresh matcher fires on exactly one event of a connection at most: the
    [occurrence]-th (by default the first) of the reliable events of the
    scenario's kind that satisfy all its filters, and events that do not satisfy
    them are not counted. *)
Theorem matcher_fires_on_target s es i :
  (zlen es < 2 ^ 64)%Z → (0 < target s)%Z →
  (observe_all (matcher_new s) es).1 !! i = Some true ↔
  ∃ e, es !! i = Some e ∧ hit s e = true ∧ (hits s (take i es) + 1 = target s)%Z.
Proof.
  intros Hl Ht. assert (hits s es ≤ zlen es)%Z.
  { unfold hits, zlen. apply Nat2Z.inj_le, length_filter. }
  apply (observe_all_spec (matcher_new s) es i); simpl; (done || lia).
Qed.

Definition sample_event (conn : Z) : Event :=
  mk_event conn true StartupMetadata_default 1 1 1 StatementClass.Other "" "result.row" 1 None.
Definition sample_scenario : Scenario :=
  mk_scenario 1 "x" Selector.default (When.mk "result.row" (Some 2%Z) [] None)
    (Action.mk (Some (mk_suppress true)) None None None).

Lemma matcher_fires_on_target_witness :
  (observe_all (matcher_new sample_scenario) [sample_event 1; sample_event 2; sample_event 3]).1 !! 1 = Some true.
Proof.
  apply (matcher_fires_on_target sample_scenario
           [sample_event 1; sample_event 2; sample_event 3] 1); [by vm_compute..|].
  exists (sample_event 2). by vm_compute.
Defined.
