(* ===== verification/State.v ===== *)
(** * pgfault-state: the protocol observer

    [crates/pgfault-state/src/lib.rs].  [ConnectionState] follows one connection:
    the transaction state, the query cycles not answered yet, the prepared
    statements and portals as the client names them and as the server has
    confirmed them.  [frontend] and [backend] take one frame and return the
    semantic events it causes, [completion_boundary] tells before a
    CommandComplete is relayed which event it stands for. *)

From S2P Require Import Prelude Utf8 Wire Events.

(** ** Data *)

Module TxState.
Inductive t := Idle | InTransaction | FailedTransaction.
#[export] Instance t_eq_dec : EqDecision t.
Proof. solve_decision. Defined.
End TxState.

Module Mutation.
Inductive t :=
  | Parse (name : bytes) (s : Statement)
  | Bind (name : bytes) (s : Statement)
  | Close (kind : byte) (name : bytes).
#[export] Instance t_eq_dec : EqDecision t.
Proof. solve_decision. Defined.
End Mutation.

Export (hints) TxState Mutation.

Record Cycle := mk_cycle {
  c_id : Z;
  statements : list Statement;
  last : Statement;
  rows : Z;
  command : string;
  error_seen : bool;
  extended : bool;
  sealed : bool;
  c_statement_index : Z;
  executions : Z;
  epoch_allocated : bool;
  mutations : list Mutation.t
}.

Record ConnectionState := mk_state {
  id : Z;
  startup_of : StartupMetadata;
  tx_state : TxState.t;
  tx_epoch : Z;
  prepared : gmap bytes Statement;
  portals : gmap bytes Statement;
  cycles : list Cycle;
  next_cycle : Z;
  reliable : bool;
  confirmed_prepared : gmap bytes Statement;
  confirmed_portals : gmap bytes Statement;
  counters : gmap string Z
}.

#[global] Instance Cycle_eq_dec : EqDecision Cycle.
Proof. solve_decision. Defined.
#[global] Instance ConnectionState_eq_dec : EqDecision ConnectionState.
Proof. solve_decision. Defined.

(** [Cycle { id, extended, sealed, ..Cycle::default() }] *)
Definition new_cycle (i : Z) (ext : bool) : Cycle :=
  mk_cycle i [] Statement_default 0 "" false ext (negb ext) 0 0 false [].

(** ** Field assignments *)

Definition set_statements v c := mk_cycle (c_id c) v (last c) (rows c) (command c) (error_seen c) (extended c) (sealed c) (c_statement_index c) (executions c) (epoch_allocated c) (mutations c).
Definition set_last v c := mk_cycle (c_id c) (statements c) v (rows c) (command c) (error_seen c) (extended c) (sealed c) (c_statement_index c) (executions c) (epoch_allocated c) (mutations c).
Definition set_rows v c := mk_cycle (c_id c) (statements c) (last c) v (command c) (error_seen c) (extended c) (sealed c) (c_statement_index c) (executions c) (epoch_allocated c) (mutations c).
Definition set_command v c := mk_cycle (c_id c) (statements c) (last c) (rows c) v (error_seen c) (extended c) (sealed c) (c_statement_index c) (executions c) (epoch_allocated c) (mutations c).
Definition set_error v c := mk_cycle (c_id c) (statements c) (last c) (rows c) (command c) v (extended c) (sealed c) (c_statement_index c) (executions c) (epoch_allocated c) (mutations c).
Definition set_sealed v c := mk_cycle (c_id c) (statements c) (last c) (rows c) (command c) (error_seen c) (extended c) v (c_statement_index c) (executions c) (epoch_allocated c) (mutations c).
Definition set_statement_index v c := mk_cycle (c_id c) (statements c) (last c) (rows c) (command c) (error_seen c) (extended c) (sealed c) v (executions c) (epoch_allocated c) (mutations c).
Definition set_executions v c := mk_cycle (c_id c) (statements c) (last c) (rows c) (command c) (error_seen c) (extended c) (sealed c) (c_statement_index c) v (epoch_allocated c) (mutations c).
Definition set_epoch_allocated v c := mk_cycle (c_id c) (statements c) (last c) (rows c) (command c) (error_seen c) (extended c) (sealed c) (c_statement_index c) (executions c) v (mutations c).
Definition set_mutations v c := mk_cycle (c_id c) (statements c) (last c) (rows c) (command c) (error_seen c) (extended c) (sealed c) (c_statement_index c) (executions c) (epoch_allocated c) v.

Definition set_startup v s := mk_state (id s) v (tx_state s) (tx_epoch s) (prepared s) (portals s) (cycles s) (next_cycle s) (reliable s) (confirmed_prepared s) (confirmed_portals s) (counters s).
Definition set_tx_state v s := mk_state (id s) (startup_of s) v (tx_epoch s) (prepared s) (portals s) (cycles s) (next_cycle s) (reliable s) (confirmed_prepared s) (confirmed_portals s) (counters s).
Definition set_tx_epoch v s := mk_state (id s) (startup_of s) (tx_state s) v (prepared s) (portals s) (cycles s) (next_cycle s) (reliable s) (confirmed_prepared s) (confirmed_portals s) (counters s).
Definition set_prepared v s := mk_state (id s) (startup_of s) (tx_state s) (tx_epoch s) v (portals s) (cycles s) (next_cycle s) (reliable s) (confirmed_prepared s) (confirmed_portals s) (counters s).
Definition set_portals v s := mk_state (id s) (startup_of s) (tx_state s) (tx_epoch s) (prepared s) v (cycles s) (next_cycle s) (reliable s) (confirmed_prepared s) (confirmed_portals s) (counters s).
Definition set_cycles v s := mk_state (id s) (startup_of s) (tx_state s) (tx_epoch s) (prepared s) (portals s) v (next_cycle s) (reliable s) (confirmed_prepared s) (confirmed_portals s) (counters s).
Definition set_next_cycle v s := mk_state (id s) (startup_of s) (tx_state s) (tx_epoch s) (prepared s) (portals s) (cycles s) v (reliable s) (confirmed_prepared s) (confirmed_portals s) (counters s).
Definition set_reliable v s := mk_state (id s) (startup_of s) (tx_state s) (tx_epoch s) (prepared s) (portals s) (cycles s) (next_cycle s) v (confirmed_prepared s) (confirmed_portals s) (counters s).
Definition set_confirmed_prepared v s := mk_state (id s) (startup_of s) (tx_state s) (tx_epoch s) (prepared s) (portals s) (cycles s) (next_cycle s) (reliable s) v (confirmed_portals s) (counters s).
Definition set_confirmed_portals v s := mk_state (id s) (startup_of s) (tx_state s) (tx_epoch s) (prepared s) (portals s) (cycles s) (next_cycle s) (reliable s) (confirmed_prepared s) v (counters s).
Definition set_counters v s := mk_state (id s) (startup_of s) (tx_state s) (tx_epoch s) (prepared s) (portals s) (cycles s) (next_cycle s) (reliable s) (confirmed_prepared s) (confirmed_portals s) v.

(** [cycles.front_mut()] and [cycles.back_mut()]: change the cycle, if there is one. *)
Definition map_front (f : Cycle → Cycle) (s : ConnectionState) : ConnectionState :=
  match cycles s with c :: cs => set_cycles (f c :: cs) s | [] => s end.
Definition map_back (f : Cycle → Cycle) (s : ConnectionState) : ConnectionState :=
  set_cycles (alter f (pred (length (cycles s))) (cycles s)) s.
Definition front (s : ConnectionState) : option Cycle := head (cycles s).
Definition back (s : ConnectionState) : option Cycle := list.last (cycles s).

(** ** [ConnectionState::new], [cycle], [event] *)

Definition new (i : Z) (m : StartupMetadata) : ConnectionState :=
  mk_state i m TxState.Idle 0 ∅ ∅ [] 0 true ∅ ∅ ∅.

(** [self.cycle(extended)]: afterwards the cycle it returns is [back]. *)
Definition cycle (ext : bool) (s : ConnectionState) : ConnectionState :=
  if negb ext || match back s with None => true | Some c => sealed c end then
    let n := u64_add (next_cycle s) 1 in
    set_cycles (cycles s ++ [new_cycle n ext]) (set_next_cycle n s)
  else s.

(** The statement an event of the frontend or of the backend is about. *)
Definition front_statement (c : Cycle) : Statement := default (last c) (head (statements c)).
Definition back_statement (c : Cycle) : Statement := default (last c) (list.last (statements c)).

Definition event (name : string) (fe : bool) (s : ConnectionState) : Event * ConnectionState :=
  let c := if fe then back s else front s in
  let st := default Statement_default
    ((λ c, if fe then back_statement c else front_statement c) <$> c) in
  let count := u64_add (default 0%Z (counters s !! name)) 1 in
  (mk_event (id s) (reliable s) (startup_of s) (tx_epoch s)
     (default 0%Z (c_id <$> c))
     (default 0%Z ((λ c, if fe then executions c
                         else if bool_decide (statements c = []) then Z.max (c_statement_index c) 1
                         else u64_add (c_statement_index c) 1) <$> c))
     (class st) (fingerprint st) name count
     (if bool_decide (name = "result.row"%string) then rows <$> c else None),
   set_counters (<[name := count]> (counters s)) s).

(** Events of the same frame, one after the other. *)
Fixpoint events (names : list string) (fe : bool) (s : ConnectionState) : list Event * ConnectionState :=
  match names with
  | [] => ([], s)
  | n :: ns =>
    let '(e, s1) := event n fe s in
    let '(es, s2) := events ns fe s1 in (e :: es, s2)
  end.

(** ** [frontend] *)

Section observer.
Context `{Sha256}.

Definition push_mutation (m : Mutation.t) (s : ConnectionState) : ConnectionState :=
  map_back (λ c, set_mutations (mutations c ++ [m]) c) (cycle true s).

(** [b'P'] *)
Definition on_parse (b : bytes) (s : ConnectionState) : ConnectionState :=
  let s :=
    match cstr b with
    | Some (name, rest) =>
      match cstr rest with
      | Some (sql, _) =>
        let statement := Statement_new sql in
        push_mutation (Mutation.Parse name statement)
          (set_prepared (<[name := statement]> (prepared s)) s)
      | None => s
      end
    | None => s
    end in
  cycle true s.

(** [b'B'] *)
Definition on_bind (b : bytes) (s : ConnectionState) : ConnectionState :=
  let s :=
    match cstr b with
    | Some (portal, rest) =>
      match cstr rest with
      | Some (stmt, _) =>
        match prepared s !! stmt with
        | Some st =>
          push_mutation (Mutation.Bind portal st) (set_portals (<[portal := st]> (portals s)) s)
        | None => set_portals (delete portal (portals s)) s
        end
      | None => s
      end
    | None => s
    end in
  cycle true s.

(** [b'C'] *)
Definition on_close (b : bytes) (s : ConnectionState) : ConnectionState :=
  match b with
  | kind :: rest =>
    match cstr rest with
    | Some (name, _) =>
      let s := push_mutation (Mutation.Close kind name) s in
      if Byte.eqb kind "S"%byte then set_prepared (delete name (prepared s)) s
      else if Byte.eqb kind "P"%byte then set_portals (delete name (portals s)) s
      else s
    | None => s
    end
  | [] => s
  end.

(** The statement a Query or an Execute runs. *)
Definition query_statement (b : bytes) : Statement :=
  default Statement_default ((λ '(sql, _), Statement_new sql) <$> cstr b).
Definition execute_statement (b : bytes) (s : ConnectionState) : Statement :=
  default Statement_default ('(name, _) ← cstr b; portals s !! name).

Definition drop_unnamed (s : ConnectionState) : ConnectionState :=
  set_confirmed_portals (delete [] (confirmed_portals s))
    (set_confirmed_prepared (delete [] (confirmed_prepared s))
      (set_portals (delete [] (portals s))
        (set_prepared (delete [] (prepared s)) s))).

Definition requested (c : StatementClass.t) : list string :=
  match c with
  | StatementClass.Begin => ["transaction.begin.requested"]
  | StatementClass.Commit => ["transaction.commit.requested"]
  | StatementClass.Rollback => ["transaction.rollback.requested"]
  | _ => []
  end%string.

(** [b'Q' | b'E'] *)
Definition on_run (t : byte) (b : bytes) (s : ConnectionState) : list string * ConnectionState :=
  let q := Byte.eqb t "Q"%byte in
  let st := if q then query_statement b else execute_statement b s in
  let s := if q then drop_unnamed s else s in
  let s := map_back (λ c, set_executions (u64_add (executions c) 1) (set_statements (statements c ++ [st]) c))
             (cycle (Byte.eqb t "E"%byte) s) in
  ([if q then "query.received" else "frontend.execute"; "statement.execution_started"]%string
     ++ requested (class st), s).

(** [b'S'] *)
Definition on_sync (s : ConnectionState) : ConnectionState := map_back (set_sealed true) (cycle true s).

(** A transaction epoch begins with the first work of the only cycle, from idle. *)
Definition allocate_epoch (t : byte) (s : ConnectionState) : ConnectionState :=
  if bool_decide (tx_state s = TxState.Idle) && bool_decide (length (cycles s) = 1)
     && match front s with Some c => negb (epoch_allocated c) | None => false end
     && (Byte.eqb t "Q"%byte || Byte.eqb t "E"%byte)
  then map_front (set_epoch_allocated true) (set_tx_epoch (u64_add (tx_epoch s) 1) s)
  else s.

Definition frontend_update (f : Frame) (s : ConnectionState) : list string * ConnectionState :=
  let t := tag f in
  if Byte.eqb t "P"%byte then ([], on_parse (body f) s)
  else if Byte.eqb t "B"%byte then ([], on_bind (body f) s)
  else if Byte.eqb t "C"%byte then ([], on_close (body f) s)
  else if Byte.eqb t "Q"%byte || Byte.eqb t "E"%byte then on_run t (body f) s
  else if Byte.eqb t "S"%byte then (["frontend.sync"%string], on_sync s)
  else ([], s).

Definition frontend (f : Frame) (s : ConnectionState) : list Event * ConnectionState :=
  let '(names, s) := frontend_update f s in
  events names true (allocate_epoch (tag f) s).

Definition forwarded (s : ConnectionState) : Event * ConnectionState := event "query.forwarded" true s.
End observer.

(** ** [completion_boundary] *)

Definition completion_boundary (s : ConnectionState) (f : Frame) : option string :=
  if negb (Byte.eqb (tag f) "C"%byte) || negb (reliable s) then None else
  c ← front s;
  let cl := class (front_statement c) in
  tg ← text (body f);
  if bool_decide (cl = StatementClass.Commit) then
    if bool_decide (tg = "COMMIT"%string) then Some "transaction.commit.completed"%string else None
  else if bool_decide (cl = StatementClass.Rollback) then
    if bool_decide (tg = "ROLLBACK"%string) then Some "transaction.rollback.completed"%string else None
  else if bool_decide (tx_state s = TxState.Idle) && bool_decide (cl ≠ StatementClass.Begin)
          && bool_decide (cl ≠ StatementClass.Other)
  then Some "transaction.implicit.completed"%string
  else None.

(** ** [backend] *)

(** [b'S']: ParameterStatus of [application_name]. *)
Definition on_parameter_status (b : bytes) (s : ConnectionState) : ConnectionState :=
  match cstr b with
  | Some (key, rest) =>
    if bool_decide (key = bs "application_name") then
      match cstr rest with
      | Some (value, _) =>
        let m := startup_of s in
        set_startup (mk_startup (user m) (database m) (Some (from_utf8_lossy value))) s
      | None => s
      end
    else s
  | None => s
  end.

(** [b'1' | b'2' | b'3']: the server confirms the oldest Parse, Bind or Close. *)
Definition on_confirm (t : byte) (s : ConnectionState) : ConnectionState :=
  let mutation := c ← front s; head (mutations c) in
  let s := map_front (λ c, set_mutations (tail (mutations c)) c) s in
  match mutation with
  | Some (Mutation.Parse name st) =>
    if Byte.eqb t "1"%byte then set_confirmed_prepared (<[name := st]> (confirmed_prepared s)) s
    else set_reliable false s
  | Some (Mutation.Bind name st) =>
    if Byte.eqb t "2"%byte then set_confirmed_portals (<[name := st]> (confirmed_portals s)) s
    else set_reliable false s
  | Some (Mutation.Close kind name) =>
    if Byte.eqb t "3"%byte then
      if Byte.eqb kind "S"%byte then set_confirmed_prepared (delete name (confirmed_prepared s)) s
      else set_confirmed_portals (delete name (confirmed_portals s)) s
    else set_reliable false s
  | None => set_reliable false s
  end.

(** [if let Some(s) = c.statements.pop_front() { c.last = s }] *)
Definition pop_statement (c : Cycle) : Cycle :=
  match statements c with
  | st :: sts => set_last st (set_statements sts c)
  | [] => c
  end.

(** [b'C']: the cycle after CommandComplete. *)
Definition complete_command (b : bytes) (c : Cycle) : Cycle :=
  let c := pop_statement (set_command (default "" (text b)) c)%string in
  let c := if extended c then set_statement_index (u64_add (c_statement_index c) 1) c else c in
  set_rows 0 c.

(** [b's']: the cycle after PortalSuspended. *)
Definition suspend_portal (c : Cycle) : Cycle := set_rows 0 (pop_statement c).

(** [b'E']: ErrorResponse. *)
Definition on_error (s : ConnectionState) : ConnectionState :=
  let s := map_front (λ c, set_mutations [] (set_error true c)) s in
  set_portals (confirmed_portals s) (set_prepared (confirmed_prepared s) s).

(** [match f.body() { [b'I'] => .., [b'T'] => .., [b'E'] => .. }] *)
Definition ready_state (b : bytes) : option TxState.t :=
  match b with
  | [x] =>
    if Byte.eqb x "I"%byte then Some TxState.Idle
    else if Byte.eqb x "T"%byte then Some TxState.InTransaction
    else if Byte.eqb x "E"%byte then Some TxState.FailedTransaction
    else None
  | _ => None
  end.

(** The transaction the ReadyForQuery confirms complete, if any. *)
Definition completed (new : TxState.t) (s : ConnectionState) : option string :=
  c ← front s;
  if bool_decide (new ≠ TxState.Idle) || error_seen c || negb (reliable s) then None else
  let cl := class (last c) in
  if bool_decide (cl = StatementClass.Commit) then
    if bool_decide (command c = "COMMIT"%string) then Some "transaction.commit.completed"%string else None
  else if bool_decide (cl = StatementClass.Rollback) then
    if bool_decide (command c = "ROLLBACK"%string) then Some "transaction.rollback.completed"%string else None
  else if bool_decide (tx_state s = TxState.Idle) && bool_decide (command c ≠ ""%string)
          && bool_decide (cl ≠ StatementClass.Other)
  then Some "transaction.implicit.completed"%string
  else None.

(** What a ReadyForQuery leaves: the front cycle is over, portals do not outlive
    the transaction, and with no cycle left the confirmed maps are the truth. *)
Definition retire_cycle (new : TxState.t) (s : ConnectionState) : ConnectionState :=
  let s := set_cycles (tail (cycles s)) s in
  let s := if bool_decide (new = TxState.Idle)
           then set_confirmed_portals ∅ (set_portals ∅ s) else s in
  if bool_decide (cycles s = []) then
    set_portals (confirmed_portals s) (set_prepared (confirmed_prepared s) (set_reliable true s))
  else s.

(** [b'Z'] *)
Definition on_ready (b : bytes) (s : ConnectionState) : list Event * ConnectionState :=
  match ready_state b with
  | None => ([], s)
  | Some new =>
    let failed := if bool_decide (new = TxState.FailedTransaction) && bool_decide (tx_state s ≠ new)
                  then ["transaction.failed"%string] else [] in
    let '(out1, s1) := events (["backend.ready"%string] ++ failed) false s in
    let '(out2, s2) := events (option_list (completed new s1)) false s1 in
    let '(out3, s3) := events ["connection.ready"%string] false (set_tx_state new s2) in
    (out1 ++ out2 ++ out3, retire_cycle new s3)
  end.

Definition backend (f : Frame) (s : ConnectionState) : list Event * ConnectionState :=
  let t := tag f in
  if Byte.eqb t "S"%byte then ([], on_parameter_status (body f) s)
  else if Byte.eqb t "1"%byte || Byte.eqb t "2"%byte || Byte.eqb t "3"%byte then ([], on_confirm t s)
  else if Byte.eqb t "T"%byte then events ["result.started"%string] false s
  else if Byte.eqb t "D"%byte then
    events ["result.row"%string] false (map_front (λ c, set_rows (u64_add (rows c) 1) c) s)
  else if Byte.eqb t "C"%byte then
    let '(out, s) :=
      events ["backend.command_complete"; "statement.execution_completed"; "result.completed"]%string false s in
    (out, map_front (complete_command (body f)) s)
  else if Byte.eqb t "s"%byte then ([], map_front suspend_portal s)
  else if Byte.eqb t "E"%byte then events ["backend.error"%string] false (on_error s)
  else if Byte.eqb t "Z"%byte then on_ready (body f) s
  else ([], s).
