(* ===== verification/StateLemmas.v ===== *)
(** * Lemmas on the protocol observer

    How [event], [frontend] and [backend] act on each field of the state: the
    events of a frame are snapshots of one state, the queue of cycles evolves as
    an abstract queue, and reliability is lost by a confirmation that does not
    match and regained only when the queue drains. *)

From S2P Require Import Prelude Utf8 Wire Events State.

(** ** Events are snapshots *)

(** The counters after events of these names. *)
Definition bump (k : gmap string Z) (n : string) : gmap string Z :=
  <[n := u64_add (default 0%Z (k !! n)) 1]> k.

Lemma event_snd n fe s : (event n fe s).2 = set_counters (bump (counters s) n) s.
Proof. done. Qed.

Lemma events_snd ns fe s : (events ns fe s).2 = set_counters (foldl bump (counters s) ns) s.
Proof.
  revert s. induction ns as [|n ns IH]; intros s; simpl; [by destruct s|].
  specialize (IH (event n fe s).2). simpl in IH. unfold event.
  destruct (events ns fe _) as [es s2]. simpl in *. by rewrite IH.
Qed.

Lemma events_names ns fe s : event_name <$> (events ns fe s).1 = ns.
Proof.
  revert s. induction ns as [|n ns IH]; intros s; simpl; [done|].
  specialize (IH (event n fe s).2). unfold event in *.
  destruct (events ns fe _) as [es s2]. csimpl in *. by rewrite IH.
Qed.

(** What every event made from a state carries, whatever its name. *)
Definition snapshot (fe : bool) (s : ConnectionState) (e : Event) : Prop :=
  connection_id e = id s ∧ semantic_reliable e = reliable s ∧ startup_meta e = startup_of s ∧
  transaction_epoch e = tx_epoch s ∧
  query_cycle e = default 0%Z (c_id <$> (if fe then back s else front s)) ∧
  (row_index e ≠ None → event_name e = "result.row"%string) ∧
  let st := default Statement_default
    ((λ c, if fe then back_statement c else front_statement c) <$> (if fe then back s else front s)) in
  statement_class e = class st ∧ sql_fingerprint e = fingerprint st.

Lemma event_snapshot n fe s : snapshot fe s (event n fe s).1.
Proof. unfold snapshot. split_and!; try done. simpl. by case_bool_decide. Qed.

Lemma snapshot_counters fe s k e : snapshot fe (set_counters k s) e ↔ snapshot fe s e.
Proof. by destruct fe. Qed.

Lemma events_snapshot ns fe s : Forall (snapshot fe s) (events ns fe s).1.
Proof.
  revert s. induction ns as [|n ns IH]; intros s; [constructor|].
  specialize (IH (event n fe s).2). pose proof (event_snapshot n fe s) as He.
  rewrite event_snd in IH. cbn [events]. rewrite (surjective_pairing (event n fe s)), event_snd.
  rewrite (surjective_pairing (events ns fe _)). cbn [fst].
  constructor; [done|]. eapply Forall_impl; [exact IH|].
  intros e. by rewrite snapshot_counters.
Qed.

Lemma events_counters ns fe s es s' :
  events ns fe s = (es, s') → ∃ k, s' = set_counters k s ∧ event_name <$> es = ns ∧ Forall (snapshot fe s) es.
Proof.
  intros E. exists (foldl bump (counters s) ns).
  pose proof (events_snd ns fe s) as H1. pose proof (events_names ns fe s) as H2.
  pose proof (events_snapshot ns fe s) as H3. rewrite E in *. auto.
Qed.

(** Name the states between the groups of events of one frame. *)
Ltac split_events :=
  repeat match goal with
  | |- context [events ?ns ?fe ?s] =>
    let E := fresh "E" in let k := fresh "k" in let Hn := fresh "Hn" in let Hs := fresh "Hs" in
    destruct (events ns fe s) as [? ?] eqn:E;
    apply events_counters in E as (k & -> & Hn & Hs)
  end; cbn [fst snd].

Section with_sha.
Context `{Sha256}.

Lemma frontend_snd f s :
  (frontend f s).2 =
    let '(ns, s1) := frontend_update f s in
    let s2 := allocate_epoch (tag f) s1 in
    set_counters (foldl bump (counters s2) ns) s2.
Proof. unfold frontend. destruct (frontend_update f s) as [ns s1]. by rewrite events_snd. Qed.

Lemma frontend_names f s : event_name <$> (frontend f s).1 = (frontend_update f s).1.
Proof. unfold frontend. destruct (frontend_update f s) as [ns s1]. by rewrite events_names. Qed.
End with_sha.

(** ** The abstract queue of cycles *)

(** A cycle as the queue sees it, and the queue with the last identifier given out. *)
Record slot := mk_slot { slot_id : Z; slot_extended : bool; slot_sealed : bool }.
Record queue := mk_queue { slots : list slot; last_id : Z }.

Definition abs_cycle (c : Cycle) : slot := mk_slot (c_id c) (extended c) (sealed c).
Definition abs (s : ConnectionState) : queue := mk_queue (abs_cycle <$> cycles s) (next_cycle s).

Definition q_push (ext : bool) (q : queue) : queue :=
  let n := u64_add (last_id q) 1 in mk_queue (slots q ++ [mk_slot n ext (negb ext)]) n.
(** The extended-protocol messages share a cycle until it is sealed. *)
Definition q_open (q : queue) : queue :=
  match list.last (slots q) with
  | Some c => if slot_sealed c then q_push true q else q
  | None => q_push true q
  end.
Definition seal (c : slot) : slot := mk_slot (slot_id c) (slot_extended c) true.
Definition q_seal (q : queue) : queue :=
  mk_queue (alter seal (pred (length (slots q))) (slots q)) (last_id q).
Definition q_pop (q : queue) : queue := mk_queue (tail (slots q)) (last_id q).

(** What a client frame and a server frame do to the queue. *)
Definition close_is_valid (b : bytes) : bool :=
  match b with _ :: r => match cstr r with Some _ => true | None => false end | [] => false end.
Definition q_client (f : Frame) (q : queue) : queue :=
  let t := tag f in
  if Byte.eqb t "Q"%byte then q_push false q
  else if Byte.eqb t "S"%byte then q_seal (q_open q)
  else if Byte.eqb t "P"%byte || Byte.eqb t "B"%byte || Byte.eqb t "E"%byte
          || (Byte.eqb t "C"%byte && close_is_valid (body f)) then q_open q
  else q.
Definition is_ready (f : Frame) : bool :=
  Byte.eqb (tag f) "Z"%byte && match ready_state (body f) with Some _ => true | None => false end.
Definition q_server (f : Frame) (q : queue) : queue := if is_ready f then q_pop q else q.

(** ** The observer refines the queue *)

Lemma abs_cycle_step ext s :
  abs (cycle ext s) = if negb ext then q_push false (abs s) else q_open (abs s).
Proof.
  unfold cycle, q_open, back, q_push. simpl. rewrite fmap_last.
  destruct ext; simpl.
  - destruct (list.last (cycles s)) as [c|]; simpl; [destruct (sealed c); [|done]|];
      unfold abs; simpl; by rewrite fmap_app.
  - unfold abs; simpl. by rewrite fmap_app.
Qed.

Lemma fmap_alter_id {A B} (g : A → B) (f : A → A) (i : nat) (l : list A) :
  (∀ x, g (f x) = g x) → g <$> alter f i l = g <$> l.
Proof.
  intros Hf. apply list_eq. intros j. rewrite !list_lookup_fmap.
  destruct (decide (i = j)) as [->|].
  - rewrite list_lookup_alter_eq. destruct (l !! j); simpl; by rewrite ?Hf.
  - by rewrite list_lookup_alter_ne.
Qed.

Lemma abs_map_back f s : (∀ c, abs_cycle (f c) = abs_cycle c) → abs (map_back f s) = abs s.
Proof. intros Hf. unfold map_back, abs. simpl. by rewrite fmap_alter_id. Qed.

Lemma abs_map_front f s : (∀ c, abs_cycle (f c) = abs_cycle c) → abs (map_front f s) = abs s.
Proof. intros Hf. unfold map_front, abs. destruct (cycles s) as [|c cs] eqn:E; [by rewrite E|]. simpl. by rewrite Hf. Qed.

Lemma q_open_idem q : q_open (q_open q) = q_open q.
Proof.
  unfold q_open at 2 3. destruct (list.last (slots q)) as [c|] eqn:E.
  - destruct (slot_sealed c) eqn:Es; unfold q_open.
    + simpl. by rewrite last_snoc.
    + by rewrite E, Es.
  - unfold q_open. simpl. by rewrite last_snoc.
Qed.

Lemma abs_push_mutation m s : abs (push_mutation m s) = q_open (abs s).
Proof. unfold push_mutation. rewrite abs_map_back by done. apply (abs_cycle_step true). Qed.

Lemma abs_allocate_epoch t s : abs (allocate_epoch t s) = abs s.
Proof. unfold allocate_epoch. case_match; [|done]. by rewrite abs_map_front. Qed.

Lemma abs_on_sync s : abs (on_sync s) = q_seal (q_open (abs s)).
Proof.
  unfold on_sync, q_seal. rewrite <-(abs_cycle_step true s : _ = q_open (abs s)).
  unfold map_back, abs. simpl. rewrite length_fmap. f_equal.
  apply list_eq. intros j. rewrite list_lookup_fmap.
  destruct (decide (pred (length (cycles (cycle true s))) = j)) as [->|].
  - rewrite !list_lookup_alter_eq, list_lookup_fmap. by destruct (cycles _ !! j).
  - by rewrite !list_lookup_alter_ne, list_lookup_fmap by done.
Qed.

Section refine.
Context `{Sha256}.

Lemma abs_frontend_update f s : abs (frontend_update f s).2 = q_client f (abs s).
Proof.
  unfold frontend_update, q_client.
  destruct (byte_eqb_spec (tag f) "P"%byte) as [->|]; simpl.
  { unfold on_parse. rewrite abs_cycle_step. simpl.
    destruct (cstr (body f)) as [[name rest]|]; [|done].
    destruct (cstr rest) as [[sql r]|]; [|done].
    rewrite abs_push_mutation. apply q_open_idem. }
  destruct (byte_eqb_spec (tag f) "B"%byte) as [->|]; simpl.
  { unfold on_bind. rewrite abs_cycle_step. simpl.
    destruct (cstr (body f)) as [[name rest]|]; [|done].
    destruct (cstr rest) as [[stmt r]|]; [|done].
    destruct (prepared s !! stmt); [|done].
    rewrite abs_push_mutation. apply q_open_idem. }
  destruct (byte_eqb_spec (tag f) "C"%byte) as [->|]; simpl.
  { unfold on_close, close_is_valid. destruct (body f) as [|kind rest]; [done|].
    destruct (cstr rest) as [[name r]|]; [|done].
    transitivity (abs (push_mutation (Mutation.Close kind name) s)); [|apply abs_push_mutation].
    by destruct (Byte.eqb kind "S"%byte), (Byte.eqb kind "P"%byte). }
  destruct (byte_eqb_spec (tag f) "Q"%byte) as [->|]; simpl.
  { rewrite abs_map_back by done. by rewrite (abs_cycle_step false). }
  destruct (byte_eqb_spec (tag f) "E"%byte) as [->|]; simpl.
  { rewrite abs_map_back by done. by rewrite (abs_cycle_step true). }
  destruct (Byte.eqb (tag f) "S"%byte); simpl; [apply abs_on_sync | done].
Qed.

Lemma abs_frontend f s : abs (frontend f s).2 = q_client f (abs s).
Proof.
  rewrite frontend_snd, <-abs_frontend_update. destruct (frontend_update f s) as [ns s1].
  apply (abs_allocate_epoch (tag f) s1).
Qed.
End refine.

Lemma abs_pop_statement c : abs_cycle (pop_statement c) = abs_cycle c.
Proof. unfold pop_statement. by destruct (statements c). Qed.

Lemma abs_complete_command b c : abs_cycle (complete_command b c) = abs_cycle c.
Proof.
  unfold complete_command.
  transitivity (abs_cycle (pop_statement (set_command (default "" (text b)) c)))%string;
    [by destruct (extended _) | by rewrite abs_pop_statement].
Qed.

Lemma abs_retire_cycle new s : abs (retire_cycle new s) = q_pop (abs s).
Proof.
  unfold retire_cycle, q_pop, abs. simpl.
  by destruct (bool_decide (new = TxState.Idle)); simpl; destruct (cycles s) as [|? [|]].
Qed.

Lemma on_ready_eq b s new :
  ready_state b = Some new →
  ∃ k, (on_ready b s).2 = retire_cycle new (set_counters k (set_tx_state new s)).
Proof. intros Hb. unfold on_ready. rewrite Hb. split_events. by eexists. Qed.

Lemma abs_backend f s : abs (backend f s).2 = q_server f (abs s).
Proof.
  unfold q_server, is_ready. destruct (byte_eqb_spec (tag f) "Z"%byte) as [E|E].
  { unfold backend. rewrite E. simpl. destruct (ready_state (body f)) as [new|] eqn:Hr; simpl.
    - destruct (on_ready_eq _ s _ Hr) as [k ->]. by rewrite abs_retire_cycle.
    - unfold on_ready. by rewrite Hr. }
  unfold backend. cbv zeta. simpl andb. cbv iota.
  destruct (Byte.eqb (tag f) "S"%byte).
  { unfold on_parameter_status. by repeat case_match. }
  destruct (_ || _ || _).
  { unfold on_confirm. transitivity (abs (map_front (λ c, set_mutations (tail (mutations c)) c) s));
      [|by apply abs_map_front]. by repeat case_match. }
  destruct (Byte.eqb (tag f) "T"%byte); [by split_events|].
  destruct (Byte.eqb (tag f) "D"%byte).
  { split_events. by apply (abs_map_front (λ c, set_rows (u64_add (rows c) 1) c) s). }
  destruct (Byte.eqb (tag f) "C"%byte).
  { split_events. by rewrite abs_map_front by apply abs_complete_command. }
  destruct (Byte.eqb (tag f) "s"%byte).
  { cbn [snd]. rewrite abs_map_front; [done|]. intros c. apply (abs_pop_statement c). }
  destruct (Byte.eqb (tag f) "E"%byte).
  { split_events. by apply (abs_map_front (λ c, set_mutations [] (set_error true c)) s). }
  by rewrite byte_eqb_ne by done.
Qed.

(** ** Runs of the observer *)

(** A frame relayed to the server, a frame relayed to the client, and the
    notice that a query has been forwarded. *)
Inductive obs := Fe (f : Frame) | Be (f : Frame) | Fwd.

Section runs.
Context `{Sha256}.

Definition obs_step (o : obs) (s : ConnectionState) : list Event * ConnectionState :=
  match o with
  | Fe f => frontend f s
  | Be f => backend f s
  | Fwd => let '(e, s) := forwarded s in ([e], s)
  end.

Fixpoint run (os : list obs) (s : ConnectionState) : list Event * ConnectionState :=
  match os with
  | [] => ([], s)
  | o :: os =>
    let '(es, s1) := obs_step o s in
    let '(es', s2) := run os s1 in (es ++ es', s2)
  end.

Definition q_step (o : obs) (q : queue) : queue :=
  match o with Fe f => q_client f q | Be f => q_server f q | Fwd => q end.

Lemma abs_obs_step o s : abs (obs_step o s).2 = q_step o (abs s).
Proof. destruct o; [apply abs_frontend | apply abs_backend | reflexivity]. Qed.

Lemma run_cons o os s :
  run (o :: os) s = ((obs_step o s).1 ++ (run os (obs_step o s).2).1, (run os (obs_step o s).2).2).
Proof. simpl. destruct (obs_step o s) as [es s1]. simpl. by destruct (run os s1). Qed.

Lemma run_app os1 os2 s :
  run (os1 ++ os2) s = ((run os1 s).1 ++ (run os2 (run os1 s).2).1, (run os2 (run os1 s).2).2).
Proof.
  revert s. induction os1 as [|o os1 IH]; intros s; [simpl; by rewrite <-surjective_pairing|].
  change ((o :: os1) ++ os2) with (o :: os1 ++ os2).
  rewrite !run_cons, IH. cbn [fst snd]. by rewrite app_assoc.
Qed.

Lemma run_abs os s : abs (run os s).2 = foldl (λ q o, q_step o q) (abs s) os.
Proof.
  revert s. induction os as [|o os IH]; intros s; [done|].
  rewrite run_cons. simpl. by rewrite IH, abs_obs_step.
Qed.

(** An invariant of every state a connection can reach. *)
Lemma run_invariant (P : ConnectionState → Prop) os s :
  P s → (∀ o s, P s → P (obs_step o s).2) → P (run os s).2.
Proof.
  intros H0 HP. revert s H0. induction os as [|o os IH]; intros s H0; [done|].
  rewrite run_cons. apply IH, HP, H0.
Qed.
End runs.

(** ** The front cycle *)

(** A client frame only adds to a cycle: work to do, never a verdict. *)
Definition grows (c c' : Cycle) : Prop :=
  c_id c' = c_id c ∧ last c' = last c ∧ command c' = command c ∧ error_seen c' = error_seen c ∧
  rows c' = rows c ∧ c_statement_index c' = c_statement_index c ∧
  (∃ sts, statements c' = statements c ++ sts).

#[global] Instance grows_preorder : PreOrder grows.
Proof.
  split.
  - intros c. unfold grows. split_and!; try done. exists []. by rewrite app_nil_r.
  - intros a b c (?&?&?&?&?&?&(x&?)) (?&?&?&?&?&?&(y&?)). unfold grows.
    split_and!; try congruence. exists (x ++ y). rewrite app_assoc. congruence.
Qed.

Definition fresh_cycle (c : Cycle) : Prop := command c = ""%string ∧ error_seen c = false.

(** The front cycle before and after: the same one with more work, or a fresh one. *)
Definition front_grows (s s' : ConnectionState) : Prop :=
  match front s with
  | Some c => ∃ c', front s' = Some c' ∧ grows c c'
  | None => ∀ c', front s' = Some c' → fresh_cycle c'
  end.

#[global] Instance front_grows_preorder : PreOrder front_grows.
Proof.
  split.
  - intros s. unfold front_grows. destruct (front s) as [c|]; [by exists c | done].
  - intros s1 s2 s3. unfold front_grows.
    destruct (front s1) as [c1|].
    + intros (c2 & -> & H12) (c3 & -> & H23). exists c3. split; [done | by etrans].
    + intros H12 H23 c3 H3. destruct (front s2) as [c2|]; [|by apply H23].
      destruct H23 as (c3' & ? & (_ & _ & Hc & He & _)). simplify_eq.
      destruct (H12 c2 eq_refl). split; congruence.
Qed.

Lemma front_grows_eq s s' : cycles s' = cycles s → front_grows s s'.
Proof. intros E. unfold front_grows, front. rewrite E. destruct (head _); [by eexists | done]. Qed.

Lemma front_grows_map_back f s : (∀ c, grows c (f c)) → front_grows s (map_back f s).
Proof.
  intros Hf. unfold front_grows, front, map_back. simpl.
  destruct (cycles s) as [|c [|d cs]]; simpl; [done|..].
  - exists (f c). auto.
  - by exists c.
Qed.

Lemma front_grows_map_front f s : (∀ c, grows c (f c)) → front_grows s (map_front f s).
Proof.
  intros Hf. unfold front_grows, front, map_front.
  destruct (cycles s) as [|c cs] eqn:E; simpl; [by rewrite E|]. exists (f c). auto.
Qed.

Lemma front_grows_cycle ext s : front_grows s (cycle ext s).
Proof.
  unfold cycle. case_match; [|done]. unfold front_grows, front. simpl.
  destruct (cycles s) as [|c cs]; simpl; [by intros c' [= <-] | by exists c].
Qed.

Ltac grows_now := intros ?; unfold grows; simpl; split_and!; try done; eauto; exists []; by rewrite app_nil_r.

Lemma front_grows_push_mutation m s : front_grows s (push_mutation m s).
Proof.
  unfold push_mutation. etrans; [apply front_grows_cycle|]. apply front_grows_map_back. grows_now.
Qed.

Lemma front_grows_allocate_epoch t s : front_grows s (allocate_epoch t s).
Proof.
  unfold allocate_epoch. case_match; [|done].
  etrans; [by apply (front_grows_eq s (set_tx_epoch (u64_add (tx_epoch s) 1) s))|].
  apply front_grows_map_front. grows_now.
Qed.

Section front.
Context `{Sha256}.

Lemma front_grows_frontend_update f s : front_grows s (frontend_update f s).2.
Proof.
  unfold frontend_update.
  destruct (Byte.eqb (tag f) "P"%byte).
  { unfold on_parse. cbn [snd]. etrans; [|apply front_grows_cycle].
    destruct (cstr _) as [[name rest]|]; [|done]. destruct (cstr rest) as [[sql r]|]; [|done].
    etrans; [|apply front_grows_push_mutation]. by apply front_grows_eq. }
  destruct (Byte.eqb (tag f) "B"%byte).
  { unfold on_bind. cbn [snd]. etrans; [|apply front_grows_cycle].
    destruct (cstr _) as [[name rest]|]; [|done]. destruct (cstr rest) as [[sql r]|]; [|done].
    destruct (_ !! _); [etrans; [|apply front_grows_push_mutation]|]; by apply front_grows_eq. }
  destruct (Byte.eqb (tag f) "C"%byte).
  { unfold on_close. cbn [snd]. destruct (body f) as [|kind rest]; [done|].
    destruct (cstr rest) as [[name r]|]; [|done].
    etrans; [apply (front_grows_push_mutation (Mutation.Close kind name))|].
    repeat case_match; by apply front_grows_eq. }
  destruct (_ || _).
  { unfold on_run. cbn [snd]. etrans; [|apply front_grows_map_back; grows_now].
    etrans; [|apply front_grows_cycle]. case_match; by apply front_grows_eq. }
  destruct (Byte.eqb (tag f) "S"%byte); [|done].
  cbn [snd]. unfold on_sync. etrans; [apply front_grows_cycle|].
  apply front_grows_map_back. grows_now.
Qed.

Lemma front_grows_frontend f s : front_grows s (frontend f s).2.
Proof.
  rewrite frontend_snd. pose proof (front_grows_frontend_update f s) as Hu.
  destruct (frontend_update f s) as [ns s1]. cbn [snd] in Hu. cbv zeta.
  etrans; [exact Hu|]. etrans; [apply (front_grows_allocate_epoch (tag f))|].
  by apply front_grows_eq.
Qed.
End front.

(** ** Fields a client frame does not touch *)

Section untouched.
Context `{Sha256}.

Lemma cycle_reliable ext s : reliable (cycle ext s) = reliable s ∧ tx_state (cycle ext s) = tx_state s ∧
  startup_of (cycle ext s) = startup_of s ∧ id (cycle ext s) = id s ∧ tx_epoch (cycle ext s) = tx_epoch s.
Proof. unfold cycle. by case_match. Qed.

Lemma frontend_update_keeps f s :
  let s' := (frontend_update f s).2 in
  reliable s' = reliable s ∧ tx_state s' = tx_state s ∧ startup_of s' = startup_of s ∧ id s' = id s ∧
  tx_epoch s' = tx_epoch s.
Proof.
  unfold frontend_update, on_parse, on_bind, on_close, on_run, on_sync, push_mutation, cycle.
  by repeat case_match.
Qed.

Lemma frontend_keeps f s :
  let s' := (frontend f s).2 in
  reliable s' = reliable s ∧ tx_state s' = tx_state s ∧ startup_of s' = startup_of s ∧ id s' = id s.
Proof.
  rewrite frontend_snd. pose proof (frontend_update_keeps f s) as Hu.
  destruct (frontend_update f s) as [ns s1]. simpl in Hu. destruct Hu as (?&?&?&?&?).
  unfold allocate_epoch, map_front. by repeat case_match.
Qed.
End untouched.

(** ** The verdict on the front cycle *)

(** The front cycle has seen the completion of a statement of this class with this tag. *)
Definition completing (cl : StatementClass.t) (cmd : string) (s : ConnectionState) : Prop :=
  ∃ c, front s = Some c ∧ class (last c) = cl ∧ command c = cmd.

Lemma front_map_front f s : front (map_front f s) = f <$> front s.
Proof. unfold front, map_front. by destruct (cycles s) eqn:E; simpl; rewrite ?E. Qed.

Lemma completing_frontend `{Sha256} cl cmd f s :
  cmd ≠ ""%string → completing cl cmd (frontend f s).2 → completing cl cmd s.
Proof.
  intros Hne (c' & Hc' & Hl & Hc). pose proof (front_grows_frontend f s) as Hg.
  unfold front_grows in Hg. destruct (front s) as [c|] eqn:E.
  - destruct Hg as (c'' & ? & (_ & Hl' & Hcmd & _)). simplify_eq.
    exists c. rewrite E. split_and!; congruence.
  - destruct (Hg c' Hc'). congruence.
Qed.

(** The server frames that leave the verdict on the front cycle alone. *)
Definition neutral (f : Frame) : Prop :=
  tag f ≠ "C"%byte ∧ tag f ≠ "s"%byte ∧ tag f ≠ "Z"%byte.

Lemma backend_neutral f s :
  neutral f →
  (∀ cl cmd, completing cl cmd (backend f s).2 → completing cl cmd s) ∧
  (reliable (backend f s).2 = true → reliable s = true).
Proof.
  intros (HC & Hs & HZ). unfold backend. cbv zeta.
  rewrite (byte_eqb_ne _ _ HC), (byte_eqb_ne _ _ Hs), (byte_eqb_ne _ _ HZ).
  assert (Hkeep : ∀ f s s', (∀ c, class (last (f c)) = class (last c) ∧ command (f c) = command c) →
    front s' = front (map_front f s) → ∀ cl cmd, completing cl cmd s' → completing cl cmd s).
  { intros g s0 s' Hg Hf cl cmd (c & Hc & Hl & Hcmd). rewrite Hf, front_map_front in Hc.
    destruct (front s0) as [d|] eqn:E; simplify_eq/=. exists d. rewrite E.
    destruct (Hg d). split_and!; congruence. }
  destruct (Byte.eqb (tag f) "S"%byte).
  { unfold on_parameter_status. repeat case_match; by split. }
  destruct (_ || _ || _).
  { split.
    - apply (Hkeep (λ c, set_mutations (tail (mutations c)) c)); [done|].
      unfold on_confirm. by repeat case_match.
    - unfold on_confirm, map_front. by repeat case_match. }
  destruct (Byte.eqb (tag f) "T"%byte); [by split_events|].
  destruct (Byte.eqb (tag f) "D"%byte).
  { split_events. split.
    - by apply (Hkeep (λ c, set_rows (u64_add (rows c) 1) c)).
    - unfold map_front. by destruct (cycles s). }
  destruct (Byte.eqb (tag f) "E"%byte); [|by split].
  split_events. split.
  - by apply (Hkeep (λ c, set_mutations [] (set_error true c))).
  - unfold on_error, map_front. by destruct (cycles s).
Qed.

Lemma backend_command f s :
  tag f = "C"%byte →
  ∃ k, (backend f s).2 = map_front (complete_command (body f)) (set_counters k s).
Proof. intros HC. unfold backend. rewrite HC. cbv zeta. simpl orb. cbv iota. split_events. by eexists. Qed.

Lemma complete_command_last b c : last (complete_command b c) = front_statement c.
Proof.
  unfold complete_command, pop_statement, front_statement. simpl.
  destruct (statements c); simpl; by destruct (extended c).
Qed.

Lemma complete_command_command b c : command (complete_command b c) = default ""%string (text b).
Proof. unfold complete_command, pop_statement. simpl. destruct (statements c); simpl; by destruct (extended c). Qed.

Lemma complete_command_error b c : error_seen (complete_command b c) = error_seen c.
Proof. unfold complete_command, pop_statement. simpl. destruct (statements c); simpl; by destruct (extended c). Qed.

(** The completion events of an explicit transaction, with the class and the
    command tag they stand for. *)
Definition ending : list (string * (StatementClass.t * string)) := [
  ("transaction.commit.completed", (StatementClass.Commit, "COMMIT"));
  ("transaction.rollback.completed", (StatementClass.Rollback, "ROLLBACK"))
]%string.

(** One row of the table: the event is the right one, or its condition is false. *)
Ltac ending_row :=
  first [ naive_solver | split; [done | intros; destruct_and?; repeat match goal with H : ∃ _, _ |- _ => destruct H end; destruct_and?; congruence] ].

Lemma completed_ending s new b cl cmd :
  (b, (cl, cmd)) ∈ ending →
  completed new s = Some b ↔
  new = TxState.Idle ∧ reliable s = true ∧
  ∃ c, front s = Some c ∧ error_seen c = false ∧ class (last c) = cl ∧ command c = cmd.
Proof.
  intros Hb. unfold completed, ending in *.
  destruct (front s) as [c|]; simpl; [|naive_solver].
  destruct (error_seen c) eqn:He; simpl; [rewrite orb_true_r; simpl; ending_row|].
  destruct (reliable s); simpl; [|rewrite orb_true_r; simpl; ending_row].
  rewrite !orb_false_r.
  rewrite !elem_of_cons, elem_of_nil in Hb.
  destruct Hb as [[= -> -> ->]|[[= -> -> ->]|[]]]; repeat case_bool_decide; ending_row.
Qed.

(** ** The names of the events of a server frame *)

Definition failed_names (new : TxState.t) (s : ConnectionState) : list string :=
  if bool_decide (new = TxState.FailedTransaction) && bool_decide (tx_state s ≠ new)
  then ["transaction.failed"%string] else [].

Definition backend_event_names (f : Frame) (s : ConnectionState) : list string :=
  let t := tag f in
  if Byte.eqb t "T"%byte then ["result.started"]
  else if Byte.eqb t "D"%byte then ["result.row"]
  else if Byte.eqb t "C"%byte then ["backend.command_complete"; "statement.execution_completed"; "result.completed"]
  else if Byte.eqb t "E"%byte then ["backend.error"]
  else if Byte.eqb t "Z"%byte then
    match ready_state (body f) with
    | Some new => "backend.ready" :: failed_names new s ++ option_list (completed new s) ++ ["connection.ready"]
    | None => []
    end
  else [].

Lemma backend_names f s : event_name <$> (backend f s).1 = backend_event_names f s.
Proof.
  unfold backend, backend_event_names. cbv zeta.
  destruct (byte_eqb_spec (tag f) "S"%byte) as [E|_]; [by rewrite E|].
  destruct (byte_eqb_spec (tag f) "1"%byte) as [E|_]; [by rewrite E|].
  destruct (byte_eqb_spec (tag f) "2"%byte) as [E|_]; [by rewrite E|].
  destruct (byte_eqb_spec (tag f) "3"%byte) as [E|_]; [by rewrite E|].
  cbn [orb].
  destruct (byte_eqb_spec (tag f) "T"%byte) as [E|_]; [by rewrite events_names|].
  destruct (byte_eqb_spec (tag f) "D"%byte) as [E|_]; [by rewrite events_names|].
  destruct (byte_eqb_spec (tag f) "C"%byte) as [E|_]; [by split_events|].
  destruct (byte_eqb_spec (tag f) "s"%byte) as [E|_]; [by rewrite E|].
  destruct (byte_eqb_spec (tag f) "E"%byte) as [E|_]; [by rewrite events_names|].
  destruct (byte_eqb_spec (tag f) "Z"%byte) as [E|_]; [|done].
  unfold on_ready. destruct (ready_state (body f)) as [new|]; [|done].
  split_events. rewrite !fmap_app, Hn, Hn0, Hn1. done.
Qed.

Lemma elem_of_names (n : string) (es : list Event) :
  n ∈ event_name <$> es ↔ (∃ e, e ∈ es ∧ event_name e = n).
Proof. rewrite list_elem_of_fmap. naive_solver. Qed.

(** Every event of a server frame is about the connection and the front cycle. *)
Definition attributed (s : ConnectionState) (e : Event) : Prop :=
  connection_id e = id s ∧ semantic_reliable e = reliable s ∧ transaction_epoch e = tx_epoch s ∧
  query_cycle e = default 0%Z (c_id <$> front s) ∧
  (row_index e ≠ None → event_name e = "result.row"%string).

Lemma snapshot_attributed s s' es :
  id s' = id s → reliable s' = reliable s → tx_epoch s' = tx_epoch s →
  c_id <$> front s' = c_id <$> front s →
  Forall (snapshot false s') es → Forall (attributed s) es.
Proof.
  intros Hi Hr Hx Hf Hes. eapply Forall_impl; [exact Hes|]. intros e (?&?&_&?&Hq&Hrow&_).
  unfold attributed. rewrite Hq. split_and!; [congruence..|by simpl; f_equal|exact Hrow].
Qed.

Lemma map_front_keeps f s :
  (∀ c, c_id (f c) = c_id c) →
  id (map_front f s) = id s ∧ reliable (map_front f s) = reliable s ∧ tx_epoch (map_front f s) = tx_epoch s ∧
  c_id <$> front (map_front f s) = c_id <$> front s.
Proof.
  intros Hf. rewrite front_map_front. split_and!; [by unfold map_front; destruct (cycles s)..|].
  destruct (front s); simpl; by rewrite ?Hf.
Qed.

Lemma backend_attributed f s : Forall (attributed s) (backend f s).1.
Proof.
  unfold backend. cbv zeta.
  destruct (Byte.eqb (tag f) "S"%byte); [constructor|].
  destruct (_ || _ || _); [constructor|].
  destruct (Byte.eqb (tag f) "T"%byte); [split_events; by eapply snapshot_attributed|].
  destruct (Byte.eqb (tag f) "D"%byte).
  { destruct (map_front_keeps (λ c, set_rows (u64_add (rows c) 1) c) s) as (?&?&?&?); [done|].
    split_events. by eapply snapshot_attributed. }
  destruct (Byte.eqb (tag f) "C"%byte); [split_events; by eapply snapshot_attributed|].
  destruct (Byte.eqb (tag f) "s"%byte); [constructor|].
  destruct (Byte.eqb (tag f) "E"%byte).
  { destruct (map_front_keeps (λ c, set_mutations [] (set_error true c)) s) as (?&?&?&?); [done|].
    split_events. by eapply snapshot_attributed. }
  destruct (Byte.eqb (tag f) "Z"%byte); [|constructor].
  unfold on_ready. destruct (ready_state (body f)) as [new|]; [|constructor].
  split_events. rewrite !Forall_app.
  split_and!; [exact (snapshot_attributed _ _ _ eq_refl eq_refl eq_refl eq_refl Hs)
    |exact (snapshot_attributed _ _ _ eq_refl eq_refl eq_refl eq_refl Hs0)
    |exact (snapshot_attributed _ _ _ eq_refl eq_refl eq_refl eq_refl Hs1)].
Qed.
