(* ===== verification/StateEvents.v ===== *)
(** * The events of the observer

    Which events a frame can cause, how they are numbered, what connection and
    cycle they are about, and how the rows of a result are counted. *)

From stdpp Require Import list_numbers.
From S2P Require Import Prelude Utf8 Wire Events Scenario State StateLemmas.

(** ** The vocabulary *)

(** The events of server frames. *)
Definition server_events : list string := [
  "result.started"; "result.row"; "backend.command_complete"; "statement.execution_completed";
  "result.completed"; "backend.error"; "backend.ready"; "transaction.failed";
  "transaction.commit.completed"; "transaction.rollback.completed";
  "transaction.implicit.completed"; "connection.ready"
]%string.

(** Membership in a list of literals. *)
Ltac in_list := apply (bool_decide_unpack _); by vm_compute.

Lemma completed_cases new s n : completed new s = Some n → n ∈ server_events.
Proof.
  unfold completed. destruct (front s) as [c|]; [|done]. cbn [mbind option_bind].
  intros H. repeat case_match; try discriminate; injection H as <-; in_list.
Qed.

Lemma backend_vocabulary f s : Forall (λ n, n ∈ server_events) (backend_event_names f s).
Proof.
  unfold backend_event_names. cbv zeta.
  repeat (case_match; [by repeat (constructor; [in_list|])|]).
  destruct (Byte.eqb (tag f) "Z"%byte); [|done].
  destruct (ready_state (body f)) as [new|]; [|done].
  constructor; [in_list|]. rewrite !Forall_app. split_and!.
  - unfold failed_names. case_match; by repeat (constructor; [in_list|]).
  - destruct (completed new s) eqn:E; [|done]. constructor; [by eapply completed_cases | done].
  - by repeat (constructor; [in_list|]).
Qed.

Lemma requested_vocabulary c : Forall (λ n, n ∈ upstream_events) (requested c).
Proof. destruct c; by repeat (constructor; [in_list|]). Qed.

Section vocabulary.
Context `{Sha256}.

Lemma frontend_vocabulary f s : Forall (λ n, n ∈ upstream_events) (frontend_update f s).1.
Proof.
  unfold frontend_update. cbv zeta.
  destruct (Byte.eqb _ "P"%byte); [done|]. destruct (Byte.eqb _ "B"%byte); [done|].
  destruct (Byte.eqb _ "C"%byte); [done|].
  destruct (_ || _).
  { unfold on_run. cbn [fst]. apply Forall_app. split; [|apply requested_vocabulary].
    case_match; by repeat (constructor; [in_list|]). }
  destruct (Byte.eqb _ "S"%byte); by repeat (constructor; [in_list|]).
Qed.
End vocabulary.

(** ** Numbering *)

(** The events of one kind, in order. *)
Definition named (n : string) (es : list Event) : list Event := filter (λ e, event_name e = n) es.

(** Numbers that go on where the counter was. *)
Definition numbered (k : gmap string Z) (es : list Event) : Prop :=
  ∀ n, occurrence <$> named n es =
    (λ i, i `mod` 2 ^ 64)%Z <$> seqZ (default 0%Z (k !! n) + 1) (zlen (named n es)).

(** The counters after these events. *)
Definition counted (k : gmap string Z) (es : list Event) (k' : gmap string Z) : Prop :=
  ∀ n, default 0%Z (k' !! n) = ((default 0%Z (k !! n) + zlen (named n es)) `mod` 2 ^ 64)%Z.

Definition counters_ok (k : gmap string Z) : Prop := ∀ n, (0 ≤ default 0%Z (k !! n) < 2 ^ 64)%Z.

Lemma named_app n es es' : named n (es ++ es') = named n es ++ named n es'.
Proof. apply filter_app. Qed.

Lemma seqZ_mod a b n : (0 ≤ n)%Z → (a `mod` 2 ^ 64 = b `mod` 2 ^ 64)%Z →
  (λ i, i `mod` 2 ^ 64)%Z <$> seqZ a n = (λ i, i `mod` 2 ^ 64)%Z <$> seqZ b n.
Proof.
  intros Hn Hab. apply list_eq. intros j. rewrite !list_lookup_fmap.
  destruct (decide (Z.of_nat j < n)%Z) as [Hj|Hj].
  - rewrite !lookup_seqZ_lt by lia. simpl. f_equal.
    by rewrite <-(Zplus_mod_idemp_l a), <-(Zplus_mod_idemp_l b), Hab.
  - by rewrite !lookup_seqZ_ge by lia.
Qed.

Lemma numbered_app k es k' es' :
  numbered k es → counted k es k' → numbered k' es' → numbered k (es ++ es').
Proof.
  intros H1 Hk H2 n. rewrite named_app, fmap_app, zlen_app, (H1 n), (H2 n).
  rewrite seqZ_app by apply zlen_nonneg. rewrite fmap_app. f_equal.
  apply seqZ_mod; [apply zlen_nonneg|]. rewrite (Hk n), Zplus_mod_idemp_l. f_equal. lia.
Qed.

Lemma counted_app k es k' es' k'' :
  counted k es k' → counted k' es' k'' → counted k (es ++ es') k''.
Proof.
  intros H1 H2 n. rewrite (H2 n), (H1 n), named_app, zlen_app, Zplus_mod_idemp_l. f_equal. lia.
Qed.

Lemma counted_nil k : counters_ok k → counted k [] k.
Proof. intros Hk n. unfold zlen. simpl. rewrite Z.add_0_r, Z.mod_small; auto. Qed.

Lemma event_numbered n fe s :
  counters_ok (counters s) →
  numbered (counters s) [(event n fe s).1] ∧ counted (counters s) [(event n fe s).1] (counters (event n fe s).2) ∧
  counters_ok (counters (event n fe s).2).
Proof.
  intros Hok. cbn [event fst snd counters set_counters]. split_and!.
  - intros m. unfold named. rewrite filter_cons. cbn [event_name].
    destruct (decide (n = m)) as [->|]; [|done]. reflexivity.
  - intros m. unfold named. rewrite filter_cons. cbn [event_name].
    destruct (decide (n = m)) as [->|]; [by rewrite lookup_insert_eq|].
    rewrite lookup_insert_ne by done. unfold zlen. simpl. rewrite Z.add_0_r, Z.mod_small; auto.
  - intros m. destruct (decide (n = m)) as [->|]; [rewrite lookup_insert_eq; apply u64_add_range|].
    rewrite lookup_insert_ne; auto.
Qed.

Lemma events_numbered ns fe s :
  counters_ok (counters s) →
  numbered (counters s) (events ns fe s).1 ∧ counted (counters s) (events ns fe s).1 (counters (events ns fe s).2) ∧
  counters_ok (counters (events ns fe s).2).
Proof.
  revert s. induction ns as [|n ns IH]; intros s Hok; [split_and!; [done|by apply counted_nil|done]|].
  cbn [events]. destruct (event_numbered n fe s Hok) as (H1 & H2 & H3).
  destruct (event n fe s) as [e s1]. cbn [fst snd] in *.
  destruct (IH s1 H3) as (H4 & H5 & H6). destruct (events ns fe s1) as [es s2]. cbn [fst snd] in *.
  split_and!; [by eapply (numbered_app _ [e]) | by eapply (counted_app _ [e]) | done].
Qed.

(** A step that emits these events numbers them. *)
Definition numbers (s : ConnectionState) (es : list Event) (s' : ConnectionState) : Prop :=
  counters_ok (counters s) →
  numbered (counters s) es ∧ counted (counters s) es (counters s') ∧ counters_ok (counters s').

Lemma numbers_quiet s s' : counters s' = counters s → numbers s [] s'.
Proof. intros E Hok. rewrite E. split_and!; [done|by apply counted_nil|done]. Qed.

Lemma numbers_app s es s1 es' s2 : numbers s es s1 → numbers s1 es' s2 → numbers s (es ++ es') s2.
Proof.
  intros H1 H2 Hok. destruct (H1 Hok) as (?&?&Hok1). destruct (H2 Hok1) as (?&?&?).
  split_and!; [by eapply numbered_app | by eapply counted_app | done].
Qed.

Lemma numbers_eq s es s1 s2 : counters s2 = counters s1 → numbers s es s1 → numbers s es s2.
Proof. intros E. unfold numbers. by rewrite E. Qed.

Lemma numbers_events ns fe s s' :
  counters s = counters s' → numbers s' (events ns fe s).1 (events ns fe s).2.
Proof. intros E Hok. rewrite <-E in Hok |- *. by apply events_numbered. Qed.

Section run_numbers.
Context `{Sha256}.

Lemma frontend_update_counters f s : counters (frontend_update f s).2 = counters s.
Proof.
  unfold frontend_update, on_parse, on_bind, on_close, on_run, on_sync, push_mutation, cycle.
  by repeat case_match.
Qed.

Lemma allocate_epoch_counters t s : counters (allocate_epoch t s) = counters s.
Proof. unfold allocate_epoch, map_front. by repeat case_match. Qed.

Lemma frontend_numbers f s : numbers s (frontend f s).1 (frontend f s).2.
Proof.
  unfold frontend. pose proof (frontend_update_counters f s) as E.
  destruct (frontend_update f s) as [ns s1]. cbn [snd] in E.
  apply numbers_events. by rewrite allocate_epoch_counters.
Qed.

Lemma map_front_counters f s : counters (map_front f s) = counters s.
Proof. unfold map_front. by destruct (cycles s). Qed.

Lemma retire_cycle_counters new s : counters (retire_cycle new s) = counters s.
Proof. unfold retire_cycle. by repeat case_match. Qed.

Lemma on_ready_numbers b s : numbers s (on_ready b s).1 (on_ready b s).2.
Proof.
  unfold on_ready. destruct (ready_state b) as [new|]; [|by apply numbers_quiet]. cbv zeta.
  set (ns1 := _ ++ _). pose proof (numbers_events ns1 false s s eq_refl) as H1.
  destruct (events ns1 false s) as [o1 s1]. cbn [fst snd] in *.
  set (ns2 := option_list _). pose proof (numbers_events ns2 false s1 s1 eq_refl) as H2.
  destruct (events ns2 false s1) as [o2 s2]. cbn [fst snd] in *.
  pose proof (numbers_events ["connection.ready"%string] false (set_tx_state new s2) s2 eq_refl) as H3.
  destruct (events _ false (set_tx_state new s2)) as [o3 s3]. cbn [fst snd] in *.
  apply (numbers_eq _ _ s3); [apply retire_cycle_counters|].
  eapply numbers_app; [exact H1|]. by eapply numbers_app.
Qed.

Lemma backend_numbers f s : numbers s (backend f s).1 (backend f s).2.
Proof.
  unfold backend. cbv zeta.
  destruct (Byte.eqb _ "S"%byte).
  { apply numbers_quiet. unfold on_parameter_status. by repeat case_match. }
  destruct (_ || _ || _).
  { apply numbers_quiet. transitivity (counters (map_front (λ c, set_mutations (tail (mutations c)) c) s));
      [unfold on_confirm; by repeat case_match | apply map_front_counters]. }
  destruct (Byte.eqb _ "T"%byte); [by apply numbers_events|].
  destruct (Byte.eqb _ "D"%byte); [by apply numbers_events, map_front_counters|].
  destruct (Byte.eqb _ "C"%byte).
  { set (ns := [_; _; _]). pose proof (numbers_events ns false s s eq_refl) as H1.
    destruct (events ns false s) as [o s1]. eapply numbers_eq; [apply map_front_counters | exact H1]. }
  destruct (Byte.eqb _ "s"%byte); [apply numbers_quiet, map_front_counters|].
  destruct (Byte.eqb _ "E"%byte); [apply numbers_events, map_front_counters|].
  destruct (Byte.eqb _ "Z"%byte); [apply on_ready_numbers | by apply numbers_quiet].
Qed.

Lemma run_numbers os s : numbers s (run os s).1 (run os s).2.
Proof.
  revert s. induction os as [|o os IH]; intros s; [by apply numbers_quiet|].
  rewrite run_cons. eapply numbers_app; [|apply IH].
  destruct o; [apply frontend_numbers | apply backend_numbers |].
  apply (numbers_events ["query.forwarded"%string] true s s eq_refl).
Qed.

Lemma obs_vocabulary o s : Forall (λ e, event_name e ∈
  match o with Be _ => server_events | _ => upstream_events end) (obs_step o s).1.
Proof.
  destruct o as [f|f|].
  - pose proof (frontend_vocabulary f s) as Hv. rewrite <-frontend_names in Hv.
    by rewrite Forall_fmap in Hv.
  - pose proof (backend_vocabulary f s) as Hv. rewrite <-backend_names in Hv.
    by rewrite Forall_fmap in Hv.
  - repeat (constructor; [in_list|]). done.
Qed.

(** ** Properties *)

(** C37. Numbering: the events of one kind that a connection emits carry the
    occurrences 1, 2, 3, ... (modulo the width of the counter) whatever other
    events come between, and whichever side causes them. *)
Theorem occurrences_number_events os i m n :
  let es := named n (run os (new i m)).1 in
  occurrence <$> es = (λ i, i `mod` 2 ^ 64)%Z <$> seqZ 1 (zlen es).
Proof.
  destruct (run_numbers os (new i m)) as (Hn & _).
  { intros k. unfold new. cbn [counters]. by rewrite lookup_empty. }
  intros es. unfold es. rewrite (Hn n). unfold new. cbn [counters]. by rewrite lookup_empty.
Qed.

(** C38. Vocabulary: a frame of the client (or the forwarding of a query) causes
    exactly events that [Scenario::validate] counts as upstream ones, a frame of
    the server only the others, all of them among [EVENTS]; so the direction
    that [validate] demands of a delay is the direction of the frame it delays.
    Only [result.row] carries a row. *)
Theorem event_vocabulary o s e :
  e ∈ (obs_step o s).1 →
  event_name e ∈ EVENTS ∧
  (event_name e ∈ upstream_events ↔ ∀ f, o ≠ Be f) ∧
  (row_index e ≠ None → event_name e = "result.row"%string).
Proof.
  intros He. pose proof (obs_vocabulary o s) as Hv. rewrite Forall_forall in Hv.
  specialize (Hv e He).
  assert (Hall : ∀ n, n ∈ server_events → n ∈ EVENTS ∧ n ∉ upstream_events).
  { apply Forall_forall. apply (bool_decide_unpack _). by vm_compute. }
  assert (Hup : ∀ n, n ∈ upstream_events → n ∈ EVENTS).
  { apply Forall_forall. apply (bool_decide_unpack _). by vm_compute. }
  split_and!; [destruct o; naive_solver..|].
  destruct o as [f|f|]; cbn [obs_step] in He.
  - unfold frontend in He. destruct (frontend_update f s) as [ns s1].
    pose proof (events_snapshot ns true (allocate_epoch (tag f) s1)) as Hs.
    rewrite Forall_forall in Hs. by destruct (Hs e He) as (_&_&_&_&_&?&_).
  - pose proof (backend_attributed f s) as Hs. rewrite Forall_forall in Hs. by apply Hs.
  - apply list_elem_of_singleton in He as ->. done.
Qed.

End run_numbers.

(** An instance for examples: the fingerprint plays no part in them. *)
Definition no_sha : Sha256 := λ _, ""%string.
#[local] Existing Instance no_sha.

(** A frame with this tag and body. *)
Definition msg (t : byte) (b : bytes) : Frame := mk_frame (t :: [x00; x00; x00; x00] ++ b).

Lemma event_vocabulary_witness :
  ∃ e, e ∈ (obs_step (Be (msg "D"%byte [])) (new 1 StartupMetadata_default)).1 ∧
    event_name e ∈ EVENTS ∧ (event_name e ∈ upstream_events ↔ ∀ f, Be (msg "D"%byte []) ≠ Be f) ∧
    (row_index e ≠ None → event_name e = "result.row"%string).
Proof.
  pose (s := new 1 StartupMetadata_default).
  assert (He : (event "result.row" false s).1 ∈ (obs_step (Be (msg "D"%byte [])) s).1).
  { by apply list_elem_of_singleton. }
  eexists. split; [exact He|]. exact (event_vocabulary _ _ _ He).
Defined.
