(* ===== verification/StateQueue.v ===== *)
(** * The query cycles as a queue

    The observer of [State] refines the abstract queue of [StateLemmas]: client
    frames open and seal cycles at the back, a ReadyForQuery retires the front
    one.  From there: the cycles in flight are consecutive and sealed in order,
    and the answers of the server are attributed first in, first out. *)

From stdpp Require Import list_numbers.
From S2P Require Import Prelude Utf8 Wire Events Scenario State StateLemmas StateEvents.

(** ** Well-formed queues *)

(** With [r] cycles retired, the ones in flight are [r + 1], [r + 2], ..., the
    counter holds the last one given out, and a simple query is sealed from the
    start. *)
Definition queue_wf (r : Z) (q : queue) : Prop :=
  slot_id <$> slots q = (λ k, k `mod` 2 ^ 64)%Z <$> seqZ (r + 1) (zlen (slots q)) ∧
  last_id q = ((r + zlen (slots q)) `mod` 2 ^ 64)%Z ∧
  Forall (λ c, slot_extended c = false → slot_sealed c = true) (slots q).

Lemma q_push_wf r ext q : queue_wf r q → queue_wf r (q_push ext q).
Proof.
  intros (Hid & Hlast & Hext). unfold queue_wf, q_push. simpl.
  rewrite zlen_app, Hlast. unfold u64_add. rewrite Zplus_mod_idemp_l. cbn [zlen length].
  split_and!.
  - rewrite fmap_app, Hid, seqZ_app by (pose proof (zlen_nonneg (slots q)); unfold zlen; simpl; lia).
    rewrite fmap_app. f_equal. simpl. f_equal. f_equal. lia.
  - f_equal. unfold zlen. simpl. lia.
  - apply Forall_app. split; [done|]. constructor; [|done]. simpl. by intros ->.
Qed.

Lemma q_open_wf r q : queue_wf r q → queue_wf r (q_open q).
Proof. intros Hwf. unfold q_open. repeat case_match; auto using q_push_wf. Qed.

Lemma q_seal_snoc l x n : q_seal (mk_queue (l ++ [x]) n) = mk_queue (l ++ [seal x]) n.
Proof.
  unfold q_seal. simpl. f_equal. rewrite length_app. simpl.
  replace (pred (length l + 1)) with (length l + 0) by lia.
  by rewrite alter_app_r.
Qed.

Lemma q_seal_wf r q : queue_wf r q → queue_wf r (q_seal q).
Proof.
  destruct q as [sl n]. destruct sl as [|l x _] using rev_ind; [done|].
  rewrite q_seal_snoc. unfold queue_wf. cbn [slots last_id]. rewrite !zlen_app, !fmap_app, !Forall_app.
  intros (Hid & Hlast & Hext & _). split_and!; [exact Hid | exact Hlast | done | by constructor].
Qed.

Definition retired_by (f : Frame) (q : queue) : Z :=
  if is_ready f && negb (bool_decide (slots q = [])) then 1 else 0.

Lemma q_pop_wf r q :
  queue_wf r q → queue_wf (if bool_decide (slots q = []) then r else (r + 1)%Z) (q_pop q).
Proof.
  destruct q as [[|c l] n]; [done|].
  rewrite bool_decide_eq_false_2 by done.
  unfold queue_wf, q_pop. cbn [slots last_id tail]. rewrite zlen_cons.
  rewrite seqZ_cons by (pose proof (zlen_nonneg l); lia). rewrite !fmap_cons.
  replace (Z.pred (zlen l + 1)) with (zlen l) by lia. replace (Z.succ (r + 1)) with (r + 1 + 1)%Z by lia.
  intros (Hid & Hlast & Hext). injection Hid as _ Hid. split_and!; [done| |].
  - rewrite Hlast. f_equal. lia.
  - by apply Forall_cons in Hext as [_ ?].
Qed.

Lemma q_client_wf r f q : queue_wf r q → queue_wf r (q_client f q).
Proof.
  intros Hwf. unfold q_client. repeat case_match; auto using q_push_wf, q_seal_wf, q_open_wf.
Qed.

Lemma q_server_wf r f q : queue_wf r q → queue_wf (r + retired_by f q) (q_server f q).
Proof.
  intros Hwf. unfold q_server, retired_by. destruct (is_ready f); simpl; [|by rewrite Z.add_0_r].
  pose proof (q_pop_wf r q Hwf) as Hp. case_bool_decide; simpl; [by rewrite Z.add_0_r | done].
Qed.

Lemma q_step_wf r o q : queue_wf r q → ∃ r', queue_wf r' (q_step o q).
Proof. destruct o; simpl; eauto using q_client_wf, q_server_wf. Qed.

Lemma new_wf i m : queue_wf 0 (abs (new i m)).
Proof. by split_and!. Qed.

(** ** Answers *)

(** The cycles the ReadyForQuery messages answer; 0 stands for none. *)
Definition answers (es : list Event) : list Z :=
  filter (λ k, k ≠ 0%Z) (query_cycle <$> named "backend.ready" es).

Lemma answers_app es es' : answers (es ++ es') = answers es ++ answers es'.
Proof. unfold answers. by rewrite named_app, fmap_app, filter_app. Qed.

Lemma named_other n es : Forall (λ m, m ≠ n) (event_name <$> es) → named n es = [].
Proof.
  induction es as [|e es IH]; [done|]. rewrite fmap_cons, Forall_cons. intros [He Hes].
  unfold named. rewrite filter_cons, decide_False by done. by apply IH.
Qed.

Lemma upstream_no_ready n : n ∈ upstream_events → n ≠ "backend.ready"%string.
Proof. intros Hn ->. revert Hn. change ("backend.ready"%string ∉ upstream_events). in_list. Qed.

(** The events of a server frame after the first one of a ReadyForQuery. *)
Lemma ready_tail new s : Forall (λ n, n ≠ "backend.ready"%string)
  (failed_names new s ++ option_list (completed new s) ++ ["connection.ready"]).
Proof.
  rewrite !Forall_app. split_and!.
  - unfold failed_names. case_match; by repeat constructor.
  - unfold completed. destruct (front s); [|done]. cbn [mbind option_bind].
    repeat case_match; by repeat constructor.
  - by repeat constructor.
Qed.

Lemma backend_named_ready f s :
  if is_ready f then ∃ e es, (backend f s).1 = e :: es ∧ named "backend.ready" (e :: es) = [e]
  else named "backend.ready" (backend f s).1 = [].
Proof.
  pose proof (backend_names f s) as Hn. unfold backend_event_names, is_ready in *. cbv zeta in Hn.
  destruct (byte_eqb_spec (tag f) "Z"%byte) as [E|_]; simpl.
  - rewrite E in Hn. simpl in Hn. destruct (ready_state (body f)) as [new|].
    + destruct (backend f s).1 as [|e es]; [done|]. injection Hn as He Hes.
      exists e, es. split; [done|]. unfold named. rewrite filter_cons, decide_True by done.
      f_equal. apply named_other. rewrite (Hes : event_name <$> es = _). apply ready_tail.
    + apply fmap_nil_inv in Hn. by rewrite Hn.
  - apply named_other. rewrite Hn. repeat case_match; by repeat constructor.
Qed.

Lemma q_client_length f q :
  (zlen (slots q) ≤ zlen (slots (q_client f q)) ≤ zlen (slots q) + 1)%Z.
Proof.
  assert (Hp : ∀ ext q, zlen (slots (q_push ext q)) = (zlen (slots q) + 1)%Z).
  { intros. simpl. by rewrite zlen_app. }
  assert (Ho : (zlen (slots q) ≤ zlen (slots (q_open q)) ≤ zlen (slots q) + 1)%Z).
  { unfold q_open. repeat case_match; rewrite ?Hp; lia. }
  assert (Hs : ∀ q, zlen (slots (q_seal q)) = zlen (slots q)).
  { intros. unfold zlen. simpl. by rewrite length_alter. }
  unfold q_client. repeat case_match; rewrite ?Hs, ?Hp; lia.
Qed.

(** The state with [r] cycles retired, far from the width of the counter. *)
Definition in_flight (r : Z) (q : queue) : Prop := queue_wf r q ∧ (0 ≤ r)%Z ∧ (r + zlen (slots q) < 2 ^ 64)%Z.

Lemma in_flight_front r q c : in_flight r q → head (slots q) = Some c → slot_id c = (r + 1)%Z.
Proof.
  intros ((Hid & _) & Hr & Hb) Hc. destruct (slots q) as [|c' l] eqn:E; simplify_eq/=.
  rewrite zlen_cons in *. pose proof (zlen_nonneg l).
  rewrite seqZ_cons, fmap_cons in Hid by lia. injection Hid as Hid _.
  by rewrite Hid, Z.mod_small by lia.
Qed.

Lemma in_flight_nonempty r q : in_flight r q → slots q ≠ [] → (r + 1 < 2 ^ 64)%Z.
Proof.
  intros (_ & _ & Hb) Hne. destruct (slots q); [done|]. rewrite zlen_cons in Hb.
  pose proof (zlen_nonneg l). lia.
Qed.

Section answers.
Context `{Sha256}.

Definition retired_step (o : obs) (q : queue) : Z :=
  match o with Be f => retired_by f q | _ => 0 end.

Lemma obs_answers o s r :
  in_flight r (abs s) → answers (obs_step o s).1 = seqZ (r + 1) (retired_step o (abs s)).
Proof.
  intros Hr. pose proof (obs_vocabulary o s) as Hv. unfold answers.
  destruct o as [f|f|]; cbn [retired_step obs_step] in *;
    [rewrite named_other; [done|]; apply Forall_fmap; eapply Forall_impl; [exact Hv|];
     intros e; apply upstream_no_ready | | done].
  pose proof (backend_named_ready f s) as Hn. unfold retired_by.
  destruct (is_ready f); [|by rewrite Hn].
  destruct Hn as (e & es & He & Hn). pose proof (backend_attributed f s) as Ha.
  rewrite He in *. rewrite Hn. rewrite Forall_cons in Ha. destruct Ha as [(_&_&_&Hq&_) _].
  rewrite fmap_cons, filter_cons, Hq. simpl.
  destruct (cycles s) as [|c cs] eqn:Ec; unfold front; rewrite Ec; [done|]. cbn [head fmap option_fmap option_map default].
  pose proof (in_flight_front r (abs s) (abs_cycle c) Hr) as Hf.
  destruct Hr as (_ & Hr & _). unfold abs in *. rewrite Ec in *. cbn [slots fmap list_fmap head] in *.
  specialize (Hf eq_refl). cbn [slot_id abs_cycle] in Hf. rewrite Hf. cbn [negb bool_decide].
  unfold Datatypes.id. by rewrite decide_True by lia.
Qed.

Lemma obs_in_flight o s r :
  in_flight r (abs s) → (r + zlen (slots (abs s)) + 1 < 2 ^ 64)%Z →
  in_flight (r + retired_step o (abs s)) (abs (obs_step o s).2) ∧
  (r + retired_step o (abs s) + zlen (slots (abs (obs_step o s).2)) ≤ r + zlen (slots (abs s)) + 1)%Z.
Proof.
  intros (Hwf & Hr & Hb) Hb1. rewrite abs_obs_step. unfold in_flight.
  destruct o as [f|f|]; cbn [retired_step q_step].
  - pose proof (q_client_length f (abs s)). rewrite Z.add_0_r. split_and!; [by apply q_client_wf|lia..].
  - pose proof (q_server_wf r f (abs s) Hwf) as Hwf'.
    assert (retired_by f (abs s) + zlen (slots (q_server f (abs s))) = zlen (slots (abs s)) ∧ 0 ≤ retired_by f (abs s))%Z.
    { unfold retired_by, q_server. generalize (abs s). intros [sl k]. destruct (is_ready f); [|simpl; lia].
      destruct sl as [|c l]; simpl; rewrite ?zlen_cons; [done|lia]. }
    split_and!; [done|lia..].
  - rewrite Z.add_0_r. split_and!; [done|lia..].
Qed.

Lemma run_answers os s r :
  in_flight r (abs s) → (r + zlen (slots (abs s)) + zlen os < 2 ^ 64)%Z →
  ∃ n, (0 ≤ n)%Z ∧ answers (run os s).1 = seqZ (r + 1) n ∧ in_flight (r + n) (abs (run os s).2).
Proof.
  revert s r. induction os as [|o os IH]; intros s r Hr Hb.
  { exists 0%Z. by rewrite Z.add_0_r. }
  rewrite zlen_cons in Hb. pose proof (zlen_nonneg os). rewrite run_cons. cbn [fst snd].
  destruct (obs_in_flight o s r Hr) as [Hr1 Hb1]; [lia|].
  destruct (IH (obs_step o s).2 (r + retired_step o (abs s))%Z Hr1) as (n & Hn & Ha & Hf); [lia|].
  assert (0 ≤ retired_step o (abs s))%Z.
  { destruct o; simpl; [done| |done]. unfold retired_by. by case_match. }
  exists (retired_step o (abs s) + n)%Z. split_and!; [lia| |by rewrite Z.add_assoc].
  rewrite answers_app, (obs_answers o s r Hr), Ha, seqZ_app by lia. f_equal. f_equal. lia.
Qed.
End answers.

(** ** Properties *)

Section queue.
Context `{Sha256}.

(** C16. Refinement: whatever frames a connection relays in whatever order, the
    cycles of the observer evolve as the abstract queue does; a Query opens a
    sealed cycle, the extended messages share one until the Sync, a valid
    ReadyForQuery retires the oldest, and nothing else touches the queue. *)
Theorem observer_refines_queue os s :
  abs (run os s).2 = foldl (λ q o, q_step o q) (abs s) os.
Proof. apply run_abs. Qed.

(** Invariant: at every point of every connection the cycles in flight have
    consecutive identifiers ending with the last one given out (modulo the
    width of the counter), and a simple query's cycle is sealed. *)
Theorem cycles_well_formed os i m :
  let s := (run os (new i m)).2 in
  ∃ r, c_id <$> cycles s = (λ k, k `mod` 2 ^ 64)%Z <$> seqZ (r + 1) (zlen (cycles s)) ∧
    next_cycle s = ((r + zlen (cycles s)) `mod` 2 ^ 64)%Z ∧
    Forall (λ c, extended c = false → sealed c = true) (cycles s).
Proof.
  intros s. assert (∃ r, queue_wf r (abs s)) as (r & Hid & Hlast & Hext).
  { unfold s. apply (run_invariant (λ s, ∃ r, queue_wf r (abs s))); [exists 0%Z; apply new_wf|].
    intros o s0 [r Hr]. rewrite abs_obs_step. by eapply q_step_wf. }
  exists r. unfold abs, zlen in *. cbn [slots last_id] in *. rewrite length_fmap in *.
  split_and!; [|done|].
  - rewrite <-Hid, <-list_fmap_compose. done.
  - rewrite Forall_fmap in Hext. exact Hext.
Qed.

(** C10. First in, first out: the ReadyForQuery messages of a connection are
    attributed to the cycles 1, 2, 3, ... in the order in which they were opened,
    each exactly once, and a ReadyForQuery that answers no cycle to none; the
    number attributed is the number of cycles opened less those in flight. *)
Theorem ready_fifo os i m :
  (zlen os < 2 ^ 64)%Z →
  let s := (run os (new i m)).2 in
  answers (run os (new i m)).1 = seqZ 1 (next_cycle s - zlen (cycles s)).
Proof.
  intros Hb s. destruct (run_answers os (new i m) 0) as (n & Hn & Ha & (_ & Hlast & _) & _ & Hw).
  { split_and!; [apply new_wf|done..]. }
  { change (zlen (slots (abs (new i m)))) with 0%Z. lia. }
  assert (Hl : zlen (slots (abs s)) = zlen (cycles s)) by (unfold zlen; simpl; by rewrite length_fmap).
  fold s in Hlast, Ha, Hw.
  pose proof (zlen_nonneg (cycles s)). rewrite Z.mod_small in Hlast by lia.
  change (last_id (abs s)) with (next_cycle s) in Hlast. rewrite Ha. f_equal; lia.
Qed.
End queue.

#[local] Existing Instance no_sha.

Definition sample_run : list obs := [
  Be (msg "Z"%byte (bs "I")); Fe (msg "Q"%byte []); Fe (msg "Q"%byte []); Be (msg "Z"%byte (bs "I"));
  Fe (msg "P"%byte []); Be (msg "Z"%byte (bs "I"))].

Lemma ready_fifo_witness : answers (run sample_run (new 7 StartupMetadata_default)).1 = [1; 2]%Z.
Proof.
  etrans; [apply (ready_fifo sample_run 7 StartupMetadata_default); by vm_compute|].
  by vm_compute.
Defined.
