(* ===== verification/StateTx.v ===== *)
(** * Transactions, reliability and the two views of the prepared statements

    The verdict on a transaction: when the observer says that a commit, a
    rollback or an implicit transaction has completed, and that the boundary the
    proxy gates on announces each of these events.  When the observer's names are
    reliable, and that a drained queue restores what the server has confirmed. *)

From stdpp Require Import list_numbers.
From S2P Require Import Prelude Utf8 Wire Events Scenario State StateLemmas StateEvents.

(** ** The frames between a CommandComplete and its ReadyForQuery *)

Definition neutral_obs (o : obs) : Prop := match o with Be f => neutral f | _ => True end.
Definition is_error (o : obs) : bool := match o with Be f => Byte.eqb (tag f) "E"%byte | _ => false end.

(** The front cycle is still the same, with this verdict so far. *)
Definition verdict_on (c : Cycle) (err : bool) (s : ConnectionState) : Prop :=
  ∃ c', front s = Some c' ∧ last c' = last c ∧ command c' = command c ∧ error_seen c' = err.

Lemma backend_neutral_front f s :
  neutral f →
  ∃ g, front (backend f s).2 = g <$> front s ∧
    ∀ c, last (g c) = last c ∧ command (g c) = command c ∧
      error_seen (g c) = error_seen c || Byte.eqb (tag f) "E"%byte.
Proof.
  intros (HC & Hs & HZ). unfold backend. cbv zeta.
  rewrite (byte_eqb_ne _ _ HC), (byte_eqb_ne _ _ Hs), (byte_eqb_ne _ _ HZ).
  assert (Hid : ∀ c, last (Datatypes.id c) = last c ∧ command (Datatypes.id c) = command c ∧
    error_seen (Datatypes.id c) = error_seen c || false) by (intros c; by rewrite orb_false_r).
  destruct (byte_eqb_spec (tag f) "S"%byte) as [E|_].
  { rewrite E. exists Datatypes.id. split; [|exact Hid]. rewrite option_fmap_id.
    unfold on_parameter_status. by repeat case_match. }
  destruct (_ || _ || _) eqn:Ec.
  { assert (Byte.eqb (tag f) "E"%byte = false) as ->.
    { rewrite !orb_true_iff in Ec. destruct Ec as [[E|E]|E]; apply Byte.byte_dec_bl in E; by rewrite E. }
    exists (λ c, set_mutations (tail (mutations c)) c). split; [|intros c; simpl; by rewrite orb_false_r].
    rewrite <-front_map_front. unfold on_confirm. by repeat case_match. }
  destruct (byte_eqb_spec (tag f) "T"%byte) as [E|_].
  { rewrite E. split_events. exists Datatypes.id. split; [|exact Hid]. by rewrite option_fmap_id. }
  destruct (byte_eqb_spec (tag f) "D"%byte) as [E|_].
  { rewrite E. split_events. exists (λ c, set_rows (u64_add (rows c) 1) c).
    split; [by rewrite <-front_map_front|]. intros c. simpl. by rewrite orb_false_r. }
  destruct (Byte.eqb (tag f) "E"%byte).
  { split_events. exists (λ c, set_mutations [] (set_error true c)).
    split; [by rewrite <-front_map_front|]. intros c. simpl. by rewrite orb_true_r. }
  exists Datatypes.id. split; [by rewrite option_fmap_id | exact Hid].
Qed.

Section mid.
Context `{Sha256}.

Lemma obs_verdict o s c err :
  neutral_obs o → verdict_on c err s → verdict_on c (err || is_error o) (obs_step o s).2.
Proof.
  intros Ho (c' & Hc & Hl & Hcmd & He). destruct o as [f|f|]; cbn [is_error obs_step].
  - rewrite orb_false_r. pose proof (front_grows_frontend f s) as Hg. unfold front_grows in Hg.
    rewrite Hc in Hg. destruct Hg as (c'' & Hc'' & (_ & Hl' & Hcmd' & He' & _)).
    exists c''. split_and!; congruence.
  - destruct (backend_neutral_front f s Ho) as (g & Hg & Hgc). rewrite Hc in Hg.
    destruct (Hgc c') as (? & ? & ?). exists (g c'). split_and!; [done|congruence..].
  - rewrite orb_false_r. by exists c'.
Qed.

Lemma run_verdict os s c err :
  Forall neutral_obs os → verdict_on c err s → verdict_on c (err || existsb is_error os) (run os s).2.
Proof.
  intros Hos. revert s err. induction Hos as [|o os Ho _ IH]; intros s err Hv; [by rewrite orb_false_r|].
  rewrite run_cons. cbn [snd existsb]. rewrite orb_assoc. by apply IH, obs_verdict.
Qed.

(** A state without cycles does not complete a transaction, whatever is asked next. *)
Lemma obs_no_verdict o s :
  neutral_obs o → (∀ c, front s = Some c → fresh_cycle c ∨ error_seen c = true) →
  ∀ c, front (obs_step o s).2 = Some c → fresh_cycle c ∨ error_seen c = true.
Proof.
  intros Ho Hs c Hc. destruct o as [f|f|]; cbn [obs_step] in Hc; [| |by apply Hs].
  - pose proof (front_grows_frontend f s) as Hg. unfold front_grows in Hg.
    destruct (front s) as [c0|]; [|left; by apply Hg].
    destruct Hg as (c' & Hc' & (_ & _ & Hcmd & He & _)). simplify_eq.
    unfold fresh_cycle. rewrite Hcmd, He. by apply Hs.
  - destruct (backend_neutral_front f s Ho) as (g & Hg & Hgc). rewrite Hg in Hc.
    destruct (front s) as [c0|]; [|done]. injection Hc as <-. destruct (Hgc c0) as (_ & Hcmd & He).
    unfold fresh_cycle. rewrite Hcmd, He. destruct (Hs c0 eq_refl) as [[-> ->]| ->]; [|by right].
    simpl. destruct (Byte.eqb _ _); auto.
Qed.

Lemma run_no_verdict os s :
  Forall neutral_obs os → front s = None →
  ∀ c, front (run os s).2 = Some c → fresh_cycle c ∨ error_seen c = true.
Proof.
  intros Hos Hs. assert (Hs' : ∀ c, front s = Some c → fresh_cycle c ∨ error_seen c = true).
  { rewrite Hs. done. }
  clear Hs. revert s Hs'. induction Hos as [|o os Ho _ IH]; intros s Hs; [done|].
  rewrite run_cons. by apply IH, obs_no_verdict.
Qed.

Lemma obs_reliable o s :
  neutral_obs o → reliable (obs_step o s).2 = true → reliable s = true.
Proof.
  intros Ho. destruct o as [f|f|]; cbn [obs_step]; [|by apply backend_neutral|done].
  destruct (frontend_keeps f s) as (-> & _). done.
Qed.

Lemma run_reliable os s :
  Forall neutral_obs os → reliable (run os s).2 = true → reliable s = true.
Proof.
  intros Hos. revert s. induction Hos as [|o os Ho _ IH]; intros s; [done|].
  rewrite run_cons. intros Hr. by eapply obs_reliable, IH.
Qed.
End mid.

(** ** The completion events of a ReadyForQuery *)

Definition completions : list string :=
  ["transaction.commit.completed"; "transaction.rollback.completed"; "transaction.implicit.completed"]%string.

Lemma ready_state_idle b : ready_state b = Some TxState.Idle ↔ b = bs "I".
Proof.
  split; [|by intros ->]. unfold ready_state. destruct b as [|x [|]]; try done.
  destruct (byte_eqb_spec x "I"%byte) as [->|]; [done|]. by repeat case_match.
Qed.

Lemma ending_cases b cl cmd : (b, (cl, cmd)) ∈ ending →
  (b = "transaction.commit.completed" ∧ cl = StatementClass.Commit ∧ cmd = "COMMIT" ∨
   b = "transaction.rollback.completed" ∧ cl = StatementClass.Rollback ∧ cmd = "ROLLBACK")%string.
Proof. unfold ending. rewrite !elem_of_cons, elem_of_nil. naive_solver. Qed.

Lemma ending_command b cl cmd : (b, (cl, cmd)) ∈ ending → cmd ≠ ""%string.
Proof. intros Hb. destruct (ending_cases _ _ _ Hb) as [(_&_&->)|(_&_&->)]; done. Qed.

Lemma ending_emitted b f s :
  b ∈ completions →
  b ∈ event_name <$> (backend f s).1 ↔
  tag f = "Z"%byte ∧ ∃ new, ready_state (body f) = Some new ∧ completed new s = Some b.
Proof.
  intros Hb. rewrite backend_names. unfold backend_event_names. cbv zeta.
  assert (Hout : b ∉ ["result.started"; "result.row"; "backend.command_complete"; "statement.execution_completed";
    "result.completed"; "backend.error"; "backend.ready"; "transaction.failed"; "connection.ready"]%string).
  { unfold completions in Hb. rewrite !elem_of_cons, elem_of_nil in Hb. destruct Hb as [->|[->|[->|[]]]]; in_list. }
  destruct (byte_eqb_spec (tag f) "Z"%byte) as [E|E].
  - rewrite E. simpl. destruct (ready_state (body f)) as [new|]; [|split; [by intros ?%elem_of_nil|naive_solver]].
    assert (Hf : b ∉ failed_names new s).
    { unfold failed_names. case_match; [|by intros ?%elem_of_nil]. set_solver. }
    rewrite elem_of_cons, !elem_of_app. split.
    + intros [->|[?|[Hc|Hc]]]; [set_solver|done| |set_solver].
      split; [done|]. exists new. split; [done|].
      destruct (completed new s) as [n|]; simpl in Hc; [|by apply elem_of_nil in Hc].
      apply list_elem_of_singleton in Hc. by subst.
    + intros (_ & new' & [= <-] & Hc). rewrite Hc. right; right; left. by apply list_elem_of_singleton.
  - split; [|by intros [? _]]. intros Hin. exfalso. revert Hin.
    repeat (case_match; [set_solver|]). by intros ?%elem_of_nil.
Qed.

Lemma ending_is_completion b cl cmd : (b, (cl, cmd)) ∈ ending →
  b ∈ completions.
Proof. unfold completions. intros Hb. destruct (ending_cases _ _ _ Hb) as [(->&_)|(->&_)]; in_list. Qed.

(** ** Reliability *)

Definition confirming (t : byte) : bool := Byte.eqb t "1"%byte || Byte.eqb t "2"%byte || Byte.eqb t "3"%byte.

(** The confirmation of a pending change is the message of its kind. *)
Definition confirms (t : byte) (m : Mutation.t) : bool :=
  Byte.eqb t (match m with
              | Mutation.Parse _ _ => "1" | Mutation.Bind _ _ => "2" | Mutation.Close _ _ => "3" end)%byte.

Lemma map_front_reliable f s : reliable (map_front f s) = reliable s ∧ tx_state (map_front f s) = tx_state s.
Proof. unfold map_front. by destruct (cycles s). Qed.

Lemma on_confirm_reliable t s :
  tx_state (on_confirm t s) = tx_state s ∧
  reliable (on_confirm t s) =
    reliable s && match c ← front s; head (mutations c) with Some mu => confirms t mu | None => false end.
Proof.
  destruct (map_front_reliable (λ c, set_mutations (tail (mutations c)) c) s) as [Hr Ht].
  unfold on_confirm, confirms. split; [by repeat case_match|].
  destruct (c ← front s; head (mutations c)) as [[name st|name st|kind name]|];
    repeat case_match; simpl; rewrite ?andb_true_r, ?andb_false_r; done.
Qed.

(** The transaction state a frame reports. *)
Definition reported (o : obs) : option TxState.t :=
  match o with Be f => if Byte.eqb (tag f) "Z"%byte then ready_state (body f) else None | _ => None end.

Lemma backend_ready f s new :
  tag f = "Z"%byte → ready_state (body f) = Some new →
  ∃ k, (backend f s).2 = retire_cycle new (set_counters k (set_tx_state new s)).
Proof. intros E Hn. unfold backend. rewrite E. by apply on_ready_eq. Qed.

Lemma retire_cycle_reliable new s :
  reliable (retire_cycle new s) = reliable s || bool_decide (length (cycles s) ≤ 1) ∧
  tx_state (retire_cycle new s) = tx_state s.
Proof.
  unfold retire_cycle. destruct (cycles s) as [|c [|d cs]] eqn:E;
    destruct (bool_decide (new = TxState.Idle)); simpl; by rewrite ?orb_true_r, ?orb_false_r.
Qed.

Lemma backend_reliable f s :
  tx_state (backend f s).2 = default (tx_state s) (reported (Be f)) ∧
  reliable (backend f s).2 =
    if confirming (tag f) then
      reliable s && match c ← front s; head (mutations c) with
                    | Some mu => confirms (tag f) mu | None => false end
    else if is_ready f then reliable s || bool_decide (length (cycles s) ≤ 1)
    else reliable s.
Proof.
  unfold reported, is_ready, confirming. destruct (byte_eqb_spec (tag f) "Z"%byte) as [E|E].
  { rewrite E. simpl. destruct (ready_state (body f)) as [new|] eqn:Hn; simpl.
    - destruct (backend_ready f s new E Hn) as [k ->].
      by destruct (retire_cycle_reliable new (set_counters k (set_tx_state new s))).
    - unfold backend, on_ready. rewrite E. simpl. by rewrite Hn. }
  simpl. unfold backend. cbv zeta. rewrite (byte_eqb_ne _ _ E).
  destruct (byte_eqb_spec (tag f) "S"%byte) as [->|_].
  { unfold on_parameter_status. by repeat case_match. }
  destruct (_ || _ || _); [apply on_confirm_reliable|].
  destruct (Byte.eqb _ "T"%byte); [by split_events|].
  destruct (Byte.eqb _ "D"%byte); [split_events; split; apply map_front_reliable|].
  destruct (Byte.eqb _ "C"%byte).
  { split_events. split; by rewrite (proj1 (map_front_reliable _ _)) || rewrite (proj2 (map_front_reliable _ _)). }
  destruct (Byte.eqb _ "s"%byte); [split; apply map_front_reliable|].
  destruct (Byte.eqb _ "E"%byte); [|done].
  split_events. split; apply (map_front_reliable (λ c, set_mutations [] (set_error true c)) s).
Qed.

Lemma failed_iff f s : "transaction.failed"%string ∈ event_name <$> (backend f s).1 ↔
  tag f = "Z"%byte ∧ body f = bs "E" ∧ tx_state s ≠ TxState.FailedTransaction.
Proof.
  rewrite backend_names. unfold backend_event_names. cbv zeta.
  assert (Hr : ready_state (body f) = Some TxState.FailedTransaction ↔ body f = bs "E").
  { split; [|by intros ->]. unfold ready_state. destruct (body f) as [|x [|]]; try done.
    destruct (byte_eqb_spec x "I"%byte); [done|]. destruct (byte_eqb_spec x "T"%byte); [done|].
    by destruct (byte_eqb_spec x "E"%byte) as [->|]. }
  rewrite <-Hr. destruct (byte_eqb_spec (tag f) "Z"%byte) as [E|E].
  - rewrite E. simpl. destruct (ready_state (body f)) as [new|]; [|set_solver].
    rewrite elem_of_cons, !elem_of_app. unfold failed_names.
    assert (Hc : "transaction.failed"%string ∉ option_list (completed new s)).
    { unfold completed. destruct (front s); [|by intros ?%elem_of_nil]. cbn [mbind option_bind].
      repeat case_match; in_list. }
    repeat case_bool_decide; simpl; set_solver.
  - split; [|by intros [? _]]. intros Hin. exfalso. revert Hin.
    repeat (case_match; [set_solver|]). by intros ?%elem_of_nil.
Qed.

Section run_state.
Context `{Sha256}.

Lemma run_tx_state os s : tx_state (run os s).2 = default (tx_state s) (list.last (omap reported os)).
Proof.
  revert s. induction os as [|o os IH] using rev_ind; intros s; [done|].
  rewrite run_app, run_cons. cbn [run fst snd]. rewrite omap_app. simpl.
  assert (Ho : ∀ s, tx_state (obs_step o s).2 = default (tx_state s) (reported o)).
  { intros s0. destruct o as [f|f|]; [by destruct (frontend_keeps f s0) as (_&?&_)|apply backend_reliable|done]. }
  rewrite Ho, IH. destruct (reported o); simpl; [by rewrite last_snoc | by rewrite app_nil_r].
Qed.
End run_state.

(** ** Properties: transactions *)

Section tx.
Context `{Sha256}.

(** C11. Soundness and completeness of the completion events of explicit
    transactions: a server frame causes transaction.commit.completed (or
    rollback) exactly when it is a ReadyForQuery that says idle, the observer is
    reliable, and the cycle it ends has seen no error and a last CommandComplete
    tagged COMMIT (or ROLLBACK) for a statement of that class. *)
Theorem completion_event_iff f s b cl cmd :
  (b, (cl, cmd)) ∈ ending →
  b ∈ event_name <$> (backend f s).1 ↔
  tag f = "Z"%byte ∧ body f = bs "I" ∧ reliable s = true ∧
  ∃ c, front s = Some c ∧ error_seen c = false ∧ class (last c) = cl ∧ command c = cmd.
Proof.
  intros Hb. rewrite (ending_emitted _ _ _ (ending_is_completion _ _ _ Hb)).
  setoid_rewrite (completed_ending _ _ _ _ _ Hb). rewrite <-ready_state_idle. naive_solver.
Qed.

Lemma neutral_reported os : Forall neutral_obs os → omap reported os = [].
Proof.
  induction 1 as [|o os Ho _ IH]; [done|]. destruct o as [f|f|]; [exact IH| |exact IH].
  rewrite <-IH. simpl. destruct Ho as (_ & _ & HZ). by rewrite (byte_eqb_ne _ _ HZ).
Qed.

(** The state at the ReadyForQuery, if its cycle was there at its last CommandComplete. *)
Lemma window_front s fC mid c :
  tag fC = "C"%byte → Forall neutral_obs mid → front s = Some c →
  ∃ c', front (run (Be fC :: mid) s).2 = Some c' ∧ last c' = front_statement c ∧
    command c' = default "" (text (body fC))%string ∧ error_seen c' = error_seen c || existsb is_error mid.
Proof.
  intros HC Hmid Hc. rewrite run_cons. cbn [snd obs_step].
  destruct (backend_command fC s HC) as [k ->]. set (s0 := map_front _ _).
  assert (Hv : verdict_on (complete_command (body fC) c) (error_seen c) s0).
  { exists (complete_command (body fC) c). split_and!; try done; [|apply complete_command_error].
    unfold s0. rewrite front_map_front. change (front (set_counters k s)) with (front s). by rewrite Hc. }
  destruct (run_verdict mid s0 _ _ Hmid Hv) as (c' & Hc' & Hl & Hcm & He). exists c'.
  rewrite Hl, Hcm, complete_command_last, complete_command_command. by split_and!.
Qed.

(** Without a cycle then, there is nothing to complete. *)
Lemma window_no_front s fC mid c' :
  tag fC = "C"%byte → Forall neutral_obs mid → front s = None →
  front (run (Be fC :: mid) s).2 = Some c' → command c' = ""%string ∨ error_seen c' = true.
Proof.
  intros HC Hmid Hc Hf. rewrite run_cons in Hf. cbn [snd obs_step] in Hf.
  destruct (backend_command fC s HC) as [k Hk]. rewrite Hk in Hf.
  destruct (run_no_verdict mid (map_front (complete_command (body fC)) (set_counters k s)) Hmid) with c'
    as [[? _]|?]; [|done|by left|by right].
  rewrite front_map_front. change (front (set_counters k s)) with (front s). by rewrite Hc.
Qed.

Lemma window_state s fC mid :
  tag fC = "C"%byte → Forall neutral_obs mid →
  let s1 := (run (Be fC :: mid) s).2 in
  tx_state s1 = tx_state s ∧ (reliable s1 = true → reliable s = true).
Proof.
  intros HC Hmid s1. split.
  - unfold s1. rewrite run_tx_state.
    replace (omap reported (Be fC :: mid)) with (omap reported mid) by (simpl; by rewrite HC).
    by rewrite neutral_reported.
  - unfold s1. rewrite run_cons. cbn [snd obs_step]. destruct (backend_command fC s HC) as [k ->].
    intros Hr%run_reliable; [|done]. unfold map_front in Hr. by destruct (cycles _).
Qed.

(** What the boundary announces and a ReadyForQuery reports, for the class and the
    tag of a statement that completes in this state. *)
Definition announces (cl : StatementClass.t) (tg : string) (tx : TxState.t) : option string :=
  if bool_decide (cl = StatementClass.Commit) then
    if bool_decide (tg = "COMMIT"%string) then Some "transaction.commit.completed"%string else None
  else if bool_decide (cl = StatementClass.Rollback) then
    if bool_decide (tg = "ROLLBACK"%string) then Some "transaction.rollback.completed"%string else None
  else if bool_decide (tx = TxState.Idle) && bool_decide (cl ≠ StatementClass.Begin)
          && bool_decide (cl ≠ StatementClass.Other)
  then Some "transaction.implicit.completed"%string else None.
Definition reports (cl : StatementClass.t) (tg : string) (tx : TxState.t) : option string :=
  if bool_decide (cl = StatementClass.Commit) then
    if bool_decide (tg = "COMMIT"%string) then Some "transaction.commit.completed"%string else None
  else if bool_decide (cl = StatementClass.Rollback) then
    if bool_decide (tg = "ROLLBACK"%string) then Some "transaction.rollback.completed"%string else None
  else if bool_decide (tx = TxState.Idle) && bool_decide (tg ≠ ""%string) && bool_decide (cl ≠ StatementClass.Other)
  then Some "transaction.implicit.completed"%string else None.

(** They agree but for an empty tag, and for a BEGIN after which the state is idle. *)
Lemma reports_announces cl tg tx b :
  reports cl tg tx = Some b ↔
  tg ≠ ""%string ∧ (announces cl tg tx = Some b ∨
    b = "transaction.implicit.completed"%string ∧ cl = StatementClass.Begin ∧ tx = TxState.Idle).
Proof.
  unfold reports, announces. repeat (case_bool_decide; simplify_eq/=); naive_solver.
Qed.

Lemma boundary_announces s f b :
  completion_boundary s f = Some b ↔
  tag f = "C"%byte ∧ reliable s = true ∧ ∃ c tg, front s = Some c ∧ text (body f) = Some tg ∧
    announces (class (front_statement c)) tg (tx_state s) = Some b.
Proof.
  unfold completion_boundary. destruct (byte_eqb_spec (tag f) "C"%byte); simpl; [|naive_solver].
  destruct (reliable s); simpl; [|naive_solver]. destruct (front s) as [c|]; simpl; [|naive_solver].
  destruct (text (body f)) as [tg|]; simpl; [|naive_solver]. unfold announces. naive_solver.
Qed.

Lemma completed_reports new s b :
  completed new s = Some b ↔
  new = TxState.Idle ∧ reliable s = true ∧ ∃ c, front s = Some c ∧ error_seen c = false ∧
    reports (class (last c)) (command c) (tx_state s) = Some b.
Proof.
  assert (E : completed new s = c ← front s;
    if bool_decide (new ≠ TxState.Idle) || error_seen c || negb (reliable s) then None
    else reports (class (last c)) (command c) (tx_state s)) by done.
  rewrite E. clear E. destruct (front s) as [c|]; cbn [mbind option_bind]; [|naive_solver].
  destruct (bool_decide_reflect (new ≠ TxState.Idle)) as [Hn|Hn]; cbn [orb]; [naive_solver|].
  apply dec_stable in Hn as ->. destruct (error_seen c) eqn:He; cbn [orb].
  { split; [done|]. intros (_ & _ & c' & [= <-] & ? & _). congruence. }
  destruct (reliable s); cbn [negb].
  - split; [by eauto 6|]. by intros (_ & _ & c' & [= <-] & _ & ?).
  - split; [done|]. by intros (_ & ? & _).
Qed.

(** A BEGIN that leaves no transaction open, which a server does not report. *)
Definition idle_begin (s : ConnectionState) : Prop :=
  tx_state s = TxState.Idle ∧ ∃ c, front s = Some c ∧ class (front_statement c) = StatementClass.Begin.

(** When the ReadyForQuery after the last CommandComplete of its cycle completes. *)
Lemma gate_iff s fC mid fZ b :
  b ∈ completions → tag fC = "C"%byte → Forall neutral_obs mid →
  let s1 := (run (Be fC :: mid) s).2 in
  b ∈ event_name <$> (backend fZ s1).1 ↔
  (tag fZ = "Z"%byte ∧ body fZ = bs "I" ∧ reliable s1 = true ∧ existsb is_error mid = false ∧
   ∀ c, front s = Some c → error_seen c = false) ∧
  (∃ tg, text (body fC) = Some tg ∧ tg ≠ ""%string) ∧
  (completion_boundary s fC = Some b ∨ b = "transaction.implicit.completed"%string ∧ idle_begin s).
Proof.
  intros Hb HC Hmid s1. destruct (window_state s fC mid HC Hmid) as [Htx Hrel]. fold s1 in Htx, Hrel.
  rewrite (ending_emitted _ _ _ Hb), <-ready_state_idle. setoid_rewrite completed_reports.
  setoid_rewrite reports_announces. rewrite boundary_announces, Htx. unfold idle_begin. split.
  - intros (HZ & new & Hnew & -> & Hr & c' & Hc' & He & Htg & Hor). destruct (front s) as [c|] eqn:Hc.
    + destruct (window_front s fC mid c HC Hmid Hc) as (c1 & Hc1 & Hl & Hcm & Herr). fold s1 in Hc1. simplify_eq.
      rewrite Herr in He. apply orb_false_iff in He as [He1 He2]. rewrite Hl, Hcm in Hor. rewrite Hcm in Htg.
      destruct (text (body fC)) as [tg|]; [|done]. cbn [default] in *. split_and!; try done.
      * by intros ? [= <-].
      * by exists tg.
      * destruct Hor as [Ha|(-> & Hcl & Hi)]; [left|right]; [split_and!; eauto 10|by split_and!; eauto].
    + destruct (window_no_front s fC mid c' HC Hmid Hc Hc'); congruence.
  - intros ((HZ & HI & Hr & Hm & Herr) & (tg & Ht & Htg) & Hor).
    assert (∃ c, front s = Some c) as [c Hc] by (destruct Hor as [(_ & _ & c & ? & ? & _)|(_ & _ & c & ? & _)]; eauto).
    destruct (window_front s fC mid c HC Hmid Hc) as (c' & Hc' & Hl & Hcm & He). fold s1 in Hc'.
    rewrite Ht in Hcm. cbn [default] in Hcm. split; [done|]. exists TxState.Idle. split_and!; try done.
    exists c'. rewrite He, Hm, (Herr c Hc), Hl, Hcm. split_and!; try done.
    destruct Hor as [(_ & _ & c0 & tg0 & ? & ? & ?)|(-> & ? & c0 & ? & ?)]; simplify_eq; [by left|by right].
Qed.

(** The statement that a CommandComplete completes now is not a BEGIN. *)
Definition not_beginning (s : ConnectionState) : Prop :=
  ∀ c, front s = Some c → class (front_statement c) ≠ StatementClass.Begin.

(** Every completion event of the cycle was announced at the last CommandComplete. *)
Lemma gate_announces s fC mid fZ b :
  b ∈ completions → (b = "transaction.implicit.completed"%string → not_beginning s) →
  tag fC = "C"%byte → Forall neutral_obs mid →
  b ∈ event_name <$> (backend fZ (run (Be fC :: mid) s).2).1 → completion_boundary s fC = Some b.
Proof.
  intros Hb Hbegin HC Hmid (_ & _ & [?|(-> & _ & c & Hc & Hcl)])%gate_iff; [done| |done..].
  by destruct (Hbegin eq_refl c Hc).
Qed.

(** C2. The gate and the verdict agree, for the last CommandComplete of a cycle:
    between it and the ReadyForQuery there may be any client frames and any rows,
    errors, confirmations and notices, but no other CommandComplete or
    PortalSuspended (with one, [commit_then_statement_unreported] shows a boundary
    without its event).  Then the ReadyForQuery causes a completion event (commit,
    rollback or implicit) exactly when it says idle, no error came before or
    between, the observer has stayed reliable, the CommandComplete has a tag that
    is not empty, and the boundary the proxy gates on announced this event at the
    CommandComplete; the one event that is not announced is the implicit completion
    of a BEGIN that left the session idle. *)
Theorem gate_announces_completion s fC mid fZ b :
  b ∈ completions → tag fC = "C"%byte → Forall neutral_obs mid →
  let s1 := (run (Be fC :: mid) s).2 in
  b ∈ event_name <$> (backend fZ s1).1 ↔
  (tag fZ = "Z"%byte ∧ body fZ = bs "I" ∧ reliable s1 = true ∧ existsb is_error mid = false ∧
   ∀ c, front s = Some c → error_seen c = false) ∧
  (∃ tg, text (body fC) = Some tg ∧ tg ≠ ""%string) ∧
  (completion_boundary s fC = Some b ∨
   b = "transaction.implicit.completed"%string ∧ tx_state s = TxState.Idle ∧
   ∃ c, front s = Some c ∧ class (front_statement c) = StatementClass.Begin).
Proof. apply gate_iff. Qed.

(** ** Properties: reliability and the confirmed views *)

(** C18. Reliability, step by step: client frames do not change it; a
    ParseComplete, BindComplete or CloseComplete keeps it exactly when the oldest
    pending change of the front cycle is of its kind; a valid ReadyForQuery
    restores it exactly when it leaves no cycle in flight; nothing else changes it. *)
Theorem reliability_step o s :
  reliable (obs_step o s).2 =
    match o with
    | Be f =>
      if confirming (tag f) then
        reliable s && match c ← front s; head (mutations c) with
                      | Some mu => confirms (tag f) mu | None => false end
      else if is_ready f then reliable s || bool_decide (length (cycles s) ≤ 1)
      else reliable s
    | _ => reliable s
    end.
Proof.
  destruct o as [f|f|]; cbn [obs_step]; [by destruct (frontend_keeps f s)| |done].
  apply (proj2 (backend_reliable f s)).
Qed.

(** C17. Quiescence: a ReadyForQuery that leaves no cycle in flight makes what the
    client has asked for equal to what the server has confirmed and the observer
    reliable again; one that says idle leaves no portal, whatever is in flight;
    an error at any time rolls the requests back to the confirmed ones. *)
Theorem views_reconcile f s :
  let s' := (backend f s).2 in
  (is_ready f = true → length (cycles s) ≤ 1 →
    prepared s' = confirmed_prepared s ∧ portals s' = confirmed_portals s' ∧ reliable s' = true ∧ cycles s' = []) ∧
  (tag f = "Z"%byte → body f = bs "I" → portals s' = ∅ ∧ confirmed_portals s' = ∅) ∧
  (tag f = "E"%byte → prepared s' = confirmed_prepared s ∧ portals s' = confirmed_portals s).
Proof.
  intros s'. unfold s'. split_and!.
  - unfold is_ready. intros Hz Hl. destruct (byte_eqb_spec (tag f) "Z"%byte) as [E|]; [|done]. simpl in Hz.
    destruct (ready_state (body f)) as [new|] eqn:Hn; [|done].
    destruct (backend_ready f s new E Hn) as [k ->]. unfold retire_cycle.
    destruct (cycles s) as [|c [|]] eqn:Ec; simpl in Hl; [| |lia];
      destruct (bool_decide (new = TxState.Idle)); simpl; rewrite Ec; by split_and!.
  - intros E HI. apply ready_state_idle in HI. destruct (backend_ready f s _ E HI) as [k ->].
    unfold retire_cycle. simpl.
    by case_bool_decide.
  - intros E. unfold backend. rewrite E. cbv zeta. simpl orb. cbv iota. split_events.
    unfold on_error, map_front. by destruct (cycles s).
Qed.

(** The transaction state is the one of the last valid ReadyForQuery (idle
    before any), and [transaction.failed] is emitted exactly when a ReadyForQuery
    turns the state into the failed one. *)
Theorem tx_state_tracks_server os i m :
  tx_state (run os (new i m)).2 = default TxState.Idle (list.last (omap reported os)) ∧
  (∀ f s, "transaction.failed"%string ∈ event_name <$> (backend f s).1 ↔
    tag f = "Z"%byte ∧ body f = bs "E" ∧ tx_state s ≠ TxState.FailedTransaction).
Proof. split; [apply (run_tx_state os (new i m)) | apply failed_iff]. Qed.
End tx.

(** ** Witnesses *)

#[local] Existing Instance no_sha.

(** One client committing: the query, its completion, the end of the cycle. *)
Definition commit_query : Frame := msg "Q"%byte (bs "COMMIT" ++ [x00]).
Definition commit_complete : Frame := msg "C"%byte (bs "COMMIT" ++ [x00]).
Definition ready_idle : Frame := msg "Z"%byte (bs "I").
Definition committing : ConnectionState := (run [Fe commit_query] (new 1 StartupMetadata_default)).2.

Lemma completion_event_iff_witness :
  "transaction.commit.completed"%string ∈ event_name <$>
    (backend ready_idle (run [Be commit_complete] committing).2).1.
Proof.
  apply (completion_event_iff ready_idle _ "transaction.commit.completed" StatementClass.Commit "COMMIT");
    [by left|].
  split_and!; [done..|]. eexists. split; [by vm_compute|]. by split_and!.
Defined.

Lemma gate_announces_completion_witness :
  let mid := [Fe (msg "P"%byte (bs "s" ++ [x00] ++ bs "select 1" ++ [x00])); Be (msg "N"%byte [])] in
  completion_boundary committing commit_complete = Some "transaction.commit.completed"%string ∧
  "transaction.commit.completed"%string ∈ event_name <$>
    (backend ready_idle (run (Be commit_complete :: mid) committing).2).1.
Proof.
  split; [by vm_compute|].
  apply (gate_announces_completion committing commit_complete _ ready_idle "transaction.commit.completed");
    [by left|done|by repeat constructor|].
  split_and!; try by vm_compute.
  - intros c [= <-]. done.
  - exists "COMMIT"%string. split; [by vm_compute|done].
  - left. by vm_compute.
Defined.

Definition parsing : ConnectionState :=
  (run [Fe (msg "P"%byte (bs "s" ++ [x00] ++ bs "select 1" ++ [x00]))] committing).2.

Lemma views_reconcile_witness :
  prepared parsing !! bs "s" ≠ None ∧ prepared (backend (msg "E"%byte []) parsing).2 !! bs "s" = None.
Proof.
  split; [by vm_compute|].
  destruct (views_reconcile (msg "E"%byte []) parsing) as (_ & _ & He).
  destruct (He eq_refl) as [Hp _]. rewrite Hp. by vm_compute.
Defined.
