(* ===== verification/StateExtended.v ===== *)
(** * Statements, epochs and rows

    What a client frame runs and how its events describe it: the statement of a
    simple query, the statement a Bind and an Execute reach through its name and
    its portal, the epoch a frame begins, and the numbering of the rows of a
    result.  The last section shows three behaviours of the observer that depend
    on how frames interleave. *)

From stdpp Require Import list_numbers.
From S2P Require Import Prelude Utf8 Wire Events Scenario State StateLemmas StateEvents StateQueue StateTx.

(** ** Named statements and portals *)






Section named.
Context `{Sha256}.











(** *** What a Query or an Execute runs *)

Definition run_of (f : Frame) (s : ConnectionState) : Statement :=
  if Byte.eqb (tag f) "Q"%byte then query_statement (body f) else execute_statement (body f) s.

Definition runs (f : Frame) : Prop := tag f = "Q"%byte ∨ tag f = "E"%byte.

Lemma back_cycle ext s : ∃ c, back (cycle ext s) = Some c.
Proof.
  unfold cycle. destruct (negb ext || _) eqn:E.
  - eexists. unfold back. simpl. apply last_snoc.
  - destruct (back s) as [c|]; [by exists c|]. by rewrite orb_true_r in E.
Qed.

Lemma back_map_back f s : back (map_back f s) = f <$> back s.
Proof.
  unfold back, map_back. simpl. destruct (cycles s) as [|c l _] using rev_ind; [done|].
  rewrite length_app. simpl. replace (pred (length l + 1)) with (length l + 0) by lia.
  rewrite alter_app_r. simpl. by rewrite !last_snoc.
Qed.

Lemma back_map_front f s : ∃ g, back (map_front f s) = g <$> back s ∧ (∀ c, g c = c ∨ g c = f c).
Proof.
  unfold back, map_front. destruct (cycles s) as [|c [|d l]] eqn:E.
  - exists Datatypes.id. rewrite E. split; [done|by left].
  - exists f. split; [done|by right].
  - exists Datatypes.id. split; [|by left]. simpl. by destruct (list.last (d :: l)).
Qed.

Lemma on_run_back t b s :
  ∃ c, back (on_run t b s).2 = Some c ∧ list.last (statements c) =
    Some (if Byte.eqb t "Q"%byte then query_statement b else execute_statement b s).
Proof.
  unfold on_run. cbn [snd]. rewrite back_map_back.
  destruct (back_cycle (Byte.eqb t "E"%byte) (if Byte.eqb t "Q"%byte then drop_unnamed s else s)) as [c ->].
  eexists. split; [done|]. simpl. apply last_snoc.
Qed.

Lemma frontend_run f s :
  runs f →
  event_name <$> (frontend f s).1 =
    [if Byte.eqb (tag f) "Q"%byte then "query.received" else "frontend.execute"; "statement.execution_started"]%string
    ++ requested (class (run_of f s)) ∧
  Forall (λ e, statement_class e = class (run_of f s) ∧ sql_fingerprint e = fingerprint (run_of f s))
    (frontend f s).1.
Proof.
  intros Hf. assert (Hu : frontend_update f s = on_run (tag f) (body f) s).
  { unfold frontend_update. by destruct Hf as [-> | ->]. }
  rewrite frontend_names, Hu. split; [done|].
  unfold frontend. rewrite Hu.
  destruct (on_run_back (tag f) (body f) s) as (c & Hc & Hl). change (if Byte.eqb (tag f) _ then _ else _) with (run_of f s) in Hl.
  destruct (on_run (tag f) (body f) s) as [ns s1]. cbn [snd] in Hc.
  eapply Forall_impl; [apply events_snapshot|]. intros e (_&_&_&_&_&_&He). cbn zeta in He.
  assert (∃ c', back (allocate_epoch (tag f) s1) = Some c' ∧ statements c' = statements c) as (c' & Hb & Hs).
  { unfold allocate_epoch. case_match; [|by exists c].
    destruct (back_map_front (set_epoch_allocated true) (set_tx_epoch (u64_add (tx_epoch s1) 1) s1)) as (g & -> & Hg).
    change (back (set_tx_epoch _ s1)) with (back s1). rewrite Hc. exists (g c). split; [done|].
    by destruct (Hg c) as [-> | ->]. }
  rewrite Hb in He. simpl in He. unfold back_statement in He. by rewrite Hs, Hl in He.
Qed.

(** *** Epochs *)

Definition begins_epoch (f : Frame) (s : ConnectionState) : bool :=
  bool_decide (tx_state s = TxState.Idle) &&
  match cycles s with
  | [] => Byte.eqb (tag f) "Q"%byte || Byte.eqb (tag f) "E"%byte
  | [c] => Byte.eqb (tag f) "E"%byte && negb (sealed c) && negb (epoch_allocated c)
  | _ => false
  end.

Lemma on_run_cycles t b s :
  ∃ i st, cycles (on_run t b s).2 =
    let run_it c := set_executions (u64_add (executions c) 1) (set_statements (statements c ++ [st]) c) in
    match list.last (cycles s) with
    | Some c => if Byte.eqb t "E"%byte && negb (sealed c)
                then alter run_it (pred (length (cycles s))) (cycles s)
                else cycles s ++ [run_it (new_cycle i (Byte.eqb t "E"%byte))]
    | None => [run_it (new_cycle i (Byte.eqb t "E"%byte))]
    end.
Proof.
  unfold on_run. cbn [snd]. set (s1 := if Byte.eqb t "Q"%byte then drop_unnamed s else s).
  assert (Hs1 : cycles s1 = cycles s) by (unfold s1; by case_match).
  eexists (u64_add (next_cycle s1) 1), _. unfold map_back, cycle, back. simpl. rewrite !Hs1.
  assert (Hnew : ∀ (l : list Cycle) x g, alter g (pred (length (l ++ [x]))) (l ++ [x]) = l ++ [g x]).
  { intros l x g. rewrite length_app. simpl. replace (pred (length l + 1)) with (length l + 0) by lia.
    by rewrite alter_app_r. }
  destruct (list.last (cycles s)) as [c|] eqn:El.
  - destruct (Byte.eqb t "E"%byte), (sealed c); simpl; rewrite ?Hs1, ?Hnew; done.
  - apply last_None in El. rewrite orb_true_r. simpl. rewrite ?Hs1, El. done.
Qed.

Lemma frontend_epoch f s :
  tx_epoch (frontend f s).2 = if begins_epoch f s then u64_add (tx_epoch s) 1 else tx_epoch s.
Proof.
  rewrite frontend_snd. destruct (frontend_update_keeps f s) as (_&Ht&_&_&Hx).
  destruct (frontend_update f s) as [ns s1] eqn:Hu. cbn [snd] in *. cbn [tx_epoch set_counters].
  assert (Hb : (bool_decide (tx_state s1 = TxState.Idle) && bool_decide (length (cycles s1) = 1)
     && match front s1 with Some c => negb (epoch_allocated c) | None => false end
     && (Byte.eqb (tag f) "Q"%byte || Byte.eqb (tag f) "E"%byte)) = begins_epoch f s).
  { unfold begins_epoch. rewrite Ht. destruct (bool_decide (tx_state s = _)); [|done]. simpl.
    destruct (Byte.eqb (tag f) "Q"%byte || Byte.eqb (tag f) "E"%byte) eqn:Er; rewrite ?andb_true_r, ?andb_false_r.
    - assert (s1 = (on_run (tag f) (body f) s).2) as ->.
      { unfold frontend_update in Hu. apply orb_true_iff in Er.
        destruct Er as [E%Byte.byte_dec_bl|E%Byte.byte_dec_bl]; rewrite E in *; simpl in Hu; by rewrite Hu. }
      destruct (on_run_cycles (tag f) (body f) s) as (i & st & Hc). unfold front. rewrite Hc. clear Hc.
      destruct (cycles s) as [|c [|d l]]; [done|..].
      + cbn [list.last]. destruct (Byte.eqb (tag f) "E"%byte), (sealed c); simpl; done.
      + rewrite last_cons_cons. rewrite bool_decide_eq_false_2; [done|].
        destruct (list.last (d :: l)) as [e|] eqn:El; [|by apply last_None in El].
        case_match; [rewrite length_alter|rewrite length_app]; simpl; lia.
    - apply orb_false_iff in Er as [_ ->]. by destruct (cycles s) as [|? []]. }
  unfold allocate_epoch. rewrite Hb. destruct (begins_epoch f s); [|done].
  unfold map_front. destruct (cycles _); simpl; by rewrite Hx.
Qed.

Lemma map_front_epoch f s : tx_epoch (map_front f s) = tx_epoch s.
Proof. unfold map_front. by destruct (cycles s). Qed.

Lemma backend_epoch f s : tx_epoch (backend f s).2 = tx_epoch s.
Proof.
  unfold backend. cbv zeta.
  destruct (Byte.eqb _ "S"%byte); [unfold on_parameter_status; by repeat case_match|].
  destruct (_ || _ || _).
  { rewrite <-(map_front_epoch (λ c, set_mutations (tail (mutations c)) c) s).
    unfold on_confirm. by repeat case_match. }
  destruct (Byte.eqb _ "T"%byte); [by split_events|].
  destruct (Byte.eqb _ "D"%byte); [split_events; apply (map_front_epoch (λ c, set_rows (u64_add (rows c) 1) c))|].
  destruct (Byte.eqb _ "C"%byte); [split_events; apply (map_front_epoch _ (set_counters _ s))|].
  destruct (Byte.eqb _ "s"%byte); [apply map_front_epoch|].
  destruct (Byte.eqb _ "E"%byte).
  { split_events. apply (map_front_epoch (λ c, set_mutations [] (set_error true c))). }
  destruct (Byte.eqb _ "Z"%byte); [|done]. unfold on_ready.
  destruct (ready_state _); [|done]. split_events. unfold retire_cycle. by repeat case_match.
Qed.

(** *** Rows *)

(** Client frames leave the row counts alone and add cycles without rows. *)
Definition keeps_rows (s s' : ConnectionState) : Prop :=
  ∃ n, rows <$> cycles s' = (rows <$> cycles s) ++ replicate n 0%Z.

#[local] Instance keeps_rows_preorder : PreOrder keeps_rows.
Proof.
  split.
  - intros s. exists 0. simpl. by rewrite app_nil_r.
  - intros s1 s2 s3 [n Hn] [k Hk]. exists (n + k). by rewrite Hk, Hn, replicate_add, app_assoc.
Qed.

Lemma keeps_rows_eq s s' : cycles s' = cycles s → keeps_rows s s'.
Proof. intros E. exists 0. by rewrite E, app_nil_r. Qed.

Lemma keeps_rows_cycle ext s : keeps_rows s (cycle ext s).
Proof. unfold cycle. case_match; [|done]. exists 1. simpl. by rewrite fmap_app. Qed.

Lemma keeps_rows_map_back f s : (∀ c, rows (f c) = rows c) → keeps_rows s (map_back f s).
Proof. intros Hf. exists 0. unfold map_back. simpl. by rewrite fmap_alter_id, app_nil_r. Qed.

Lemma keeps_rows_map_front f s : (∀ c, rows (f c) = rows c) → keeps_rows s (map_front f s).
Proof.
  intros Hf. exists 0. unfold map_front. destruct (cycles s) as [|c l] eqn:E; simpl; [by rewrite E|].
  by rewrite Hf, app_nil_r.
Qed.

Lemma keeps_rows_push m s : keeps_rows s (push_mutation m s).
Proof. etrans; [apply (keeps_rows_cycle true)|]. by apply keeps_rows_map_back. Qed.

Lemma keeps_rows_update f s : keeps_rows s (frontend_update f s).2.
Proof.
  unfold frontend_update. cbv zeta.
  destruct (Byte.eqb _ "P"%byte).
  { unfold on_parse. cbn [snd]. etrans; [|apply keeps_rows_cycle].
    destruct (cstr _) as [[n r]|]; [|done]. destruct (cstr r) as [[sql r']|]; [|done].
    etrans; [|apply keeps_rows_push]. by apply keeps_rows_eq. }
  destruct (Byte.eqb _ "B"%byte).
  { unfold on_bind. cbn [snd]. etrans; [|apply keeps_rows_cycle].
    destruct (cstr _) as [[n r]|]; [|done]. destruct (cstr r) as [[st r']|]; [|done].
    destruct (_ !! _); [etrans; [|apply keeps_rows_push]|]; by apply keeps_rows_eq. }
  destruct (Byte.eqb _ "C"%byte).
  { unfold on_close. cbn [snd]. destruct (body f) as [|kind rest]; [done|].
    destruct (cstr rest) as [[n r]|]; [|done].
    etrans; [apply (keeps_rows_push (Mutation.Close kind n))|]. repeat case_match; by apply keeps_rows_eq. }
  destruct (_ || _).
  { unfold on_run. cbn [snd]. etrans; [|by apply keeps_rows_map_back].
    etrans; [|apply keeps_rows_cycle]. case_match; by apply keeps_rows_eq. }
  destruct (Byte.eqb _ "S"%byte); [|done].
  cbn [snd]. unfold on_sync. etrans; [apply (keeps_rows_cycle true)|]. by apply keeps_rows_map_back.
Qed.

Lemma keeps_rows_frontend f s : keeps_rows s (frontend f s).2.
Proof.
  rewrite frontend_snd. pose proof (keeps_rows_update f s) as Hu.
  destruct (frontend_update f s) as [ns s1]. cbn [snd] in Hu. etrans; [exact Hu|].
  etrans; [|by apply (keeps_rows_eq (allocate_epoch (tag f) s1))]. unfold allocate_epoch. case_match; [|done].
  etrans; [by apply (keeps_rows_eq s1 (set_tx_epoch (u64_add (tx_epoch s1) 1) s1))|].
  by apply keeps_rows_map_front.
Qed.

(** The cycles behind the front one have no rows yet. *)
Definition fresh_back (s : ConnectionState) : Prop := Forall (λ n, n = 0%Z) (tail (rows <$> cycles s)).

Lemma fresh_back_keeps s s' : keeps_rows s s' → fresh_back s → fresh_back s'.
Proof.
  intros [n Hn] Hs. unfold fresh_back in *. rewrite Hn.
  destruct (rows <$> cycles s) as [|r l]; simpl in *.
  - destruct n as [|n]; simpl; [done|]. by apply Forall_replicate.
  - apply Forall_app. split; [done|]. by apply Forall_replicate.
Qed.

Lemma fresh_back_map_front f s : fresh_back s → fresh_back (map_front f s).
Proof. unfold fresh_back, map_front. destruct (cycles s) eqn:E; simpl; by rewrite ?E. Qed.

Lemma retire_cycle_cycles new s : cycles (retire_cycle new s) = tail (cycles s).
Proof. unfold retire_cycle. by repeat case_match. Qed.

(** How a server frame changes the cycles. *)
Lemma backend_cycles f s :
  (is_ready f = true ∧ cycles (backend f s).2 = tail (cycles s)) ∨
  (is_ready f = false ∧ ∃ g, cycles (backend f s).2 = cycles (map_front g s) ∧
    ∀ c, rows (g c) =
      if Byte.eqb (tag f) "D"%byte then u64_add (rows c) 1
      else if Byte.eqb (tag f) "C"%byte || Byte.eqb (tag f) "s"%byte then 0%Z else rows c).
Proof.
  assert (Hid : ∀ s', cycles s' = cycles s → cycles s' = cycles (map_front Datatypes.id s)).
  { intros s' ->. unfold map_front. by destruct (cycles s) eqn:Ec; simpl; rewrite ?Ec. }
  unfold is_ready. destruct (byte_eqb_spec (tag f) "Z"%byte) as [E|E].
  { rewrite E. simpl. destruct (ready_state (body f)) as [new|] eqn:Hn.
    - left. split; [done|]. destruct (backend_ready f s new E Hn) as [k ->]. by rewrite retire_cycle_cycles.
    - right. split; [done|]. exists Datatypes.id. split; [|done]. apply Hid.
      unfold backend, on_ready. rewrite E. simpl. by rewrite Hn. }
  right. split; [done|]. unfold backend. cbv zeta. rewrite (byte_eqb_ne _ _ E).
  destruct (byte_eqb_spec (tag f) "S"%byte) as [ES|_].
  { rewrite ES. exists Datatypes.id. split; [apply Hid|done]. unfold on_parameter_status. by repeat case_match. }
  destruct (_ || _ || _) eqn:E3.
  { exists (λ c, set_mutations (tail (mutations c)) c). split; [unfold on_confirm; by repeat case_match|].
    rewrite !orb_true_iff in E3. by destruct E3 as [[E3|E3]|E3]; apply Byte.byte_dec_bl in E3; rewrite E3. }
  destruct (byte_eqb_spec (tag f) "T"%byte) as [ET|_].
  { rewrite ET. split_events. exists Datatypes.id. split; [by apply Hid|done]. }
  destruct (byte_eqb_spec (tag f) "D"%byte) as [ED|_].
  { split_events. by exists (λ c, set_rows (u64_add (rows c) 1) c). }
  destruct (byte_eqb_spec (tag f) "C"%byte) as [EC|_].
  { split_events. exists (complete_command (body f)). split; [|done].
    unfold map_front. simpl. by destruct (cycles s). }
  destruct (byte_eqb_spec (tag f) "s"%byte) as [Es|_].
  { exists suspend_portal. by split. }
  destruct (byte_eqb_spec (tag f) "E"%byte) as [EE|_].
  { split_events. exists (λ c, set_mutations [] (set_error true c)). by split. }
  exists Datatypes.id. split; [by apply Hid|done].
Qed.

Lemma obs_fresh_back o s : fresh_back s → fresh_back (obs_step o s).2.
Proof.
  intros Hs. destruct o as [f|f|]; cbn [obs_step]; [|..|done].
  - by eapply fresh_back_keeps, Hs; apply keeps_rows_frontend.
  - destruct (backend_cycles f s) as [[_ Hc]|(_ & g & Hc & _)]; unfold fresh_back; rewrite Hc.
    + unfold fresh_back in Hs. destruct (cycles s) as [|c [|d l]]; simpl in *; [done..|].
      by apply Forall_cons in Hs as [_ ?].
    + by apply (fresh_back_map_front g).
Qed.

Lemma run_fresh_back os s : fresh_back s → fresh_back (run os s).2.
Proof. intros. apply (run_invariant fresh_back); [done|]. intros. by apply obs_fresh_back. Qed.

Lemma backend_rows_reset f s c :
  tag f = "C"%byte ∨ tag f = "s"%byte ∨ is_ready f = true →
  fresh_back s → front (backend f s).2 = Some c → rows c = 0%Z.
Proof.
  intros Hf Hs Hc. unfold front in Hc.
  destruct (backend_cycles f s) as [[Hr Hcy]|(Hr & g & Hcy & Hg)]; rewrite Hcy in Hc.
  - unfold fresh_back in Hs. destruct (cycles s) as [|c0 [|d l]]; simpl in *; [done..|].
    apply Forall_cons in Hs as [Hd _]. congruence.
  - rewrite <-(front_map_front g s : _ = _) in Hc || change (front (map_front g s) = Some c) in Hc.
    rewrite front_map_front in Hc. destruct (front s) as [c0|]; [|done]. injection Hc as <-. rewrite Hg.
    destruct Hf as [E|[E|E]]; [by rewrite E..|congruence].
Qed.

Definition is_row (o : obs) : bool := match o with Be f => Byte.eqb (tag f) "D"%byte | _ => false end.

Lemma obs_rows o s c :
  neutral_obs o → front s = Some c →
  ∃ c', front (obs_step o s).2 = Some c' ∧
    row_index <$> named "result.row" (obs_step o s).1 = (if is_row o then [Some (rows c')] else []) ∧
    rows c' = if is_row o then u64_add (rows c) 1 else rows c.
Proof.
  intros Ho Hc. pose proof (obs_vocabulary o s) as Hv. destruct o as [f|f|]; cbn [is_row obs_step] in *; [|..|by exists c].
  - destruct (keeps_rows_frontend f s) as [n Hn]. unfold front in *.
    destruct (cycles s) as [|c0 l]; simplify_eq/=. destruct (cycles (frontend f s).2) as [|c' l']; [done|].
    injection Hn as Hn _. exists c'. split_and!; [done| |done].
    rewrite named_other; [done|]. apply Forall_fmap. eapply Forall_impl; [exact Hv|]. intros e He.
    simpl in *. intros E. rewrite E in He. revert He. change ("result.row"%string ∉ upstream_events). in_list.
  - destruct Ho as (HC & Hs & HZ).
    destruct (backend_cycles f s) as [[Hr _]|(_ & g & Hcy & Hg)].
    { unfold is_ready in Hr. by rewrite (byte_eqb_ne _ _ HZ) in Hr. }
    exists (g c). assert (Hf : front (backend f s).2 = Some (g c)).
    { transitivity (front (map_front g s)); [unfold front; by rewrite Hcy|]. by rewrite front_map_front, Hc. }
    specialize (Hg c). rewrite (byte_eqb_ne _ _ HC), (byte_eqb_ne _ _ Hs) in Hg.
    split_and!; [done| |done]. destruct (byte_eqb_spec (tag f) "D"%byte) as [E|E].
    + set (s1 := map_front (λ c, set_rows (u64_add (rows c) 1) c) s).
      assert (He : (backend f s).1 = [(event "result.row" false s1).1]) by (unfold backend; by rewrite E).
      rewrite He. transitivity [rows <$> front s1]; [reflexivity|].
      unfold s1. rewrite front_map_front, Hc. simpl. by rewrite Hg.
    + rewrite named_other; [done|]. rewrite backend_names. unfold backend_event_names. cbv zeta.
      rewrite (byte_eqb_ne _ _ E), (byte_eqb_ne _ _ HC), (byte_eqb_ne _ _ HZ).
      repeat case_match; by repeat constructor.
Qed.

Lemma run_rows mid s c :
  Forall neutral_obs mid → front s = Some c →
  let es := named "result.row" (run mid s).1 in
  row_index <$> es = (λ k, Some (k `mod` 2 ^ 64)%Z) <$> seqZ (rows c + 1) (zlen es).
Proof.
  intros Hmid. revert s c. induction Hmid as [|o mid Ho _ IH]; intros s c Hc; [done|].
  rewrite run_cons. cbn [fst]. destruct (obs_rows o s c Ho Hc) as (c' & Hc' & He & Hr).
  cbv zeta. rewrite named_app, fmap_app, zlen_app, He, (IH _ c' Hc').
  assert (Hl : zlen (named "result.row" (obs_step o s).1) = if is_row o then 1%Z else 0%Z).
  { unfold zlen. rewrite <-(length_fmap row_index), He. by destruct (is_row o). }
  rewrite Hl, Hr. destruct (is_row o); [|done].
  rewrite seqZ_app by (done || apply zlen_nonneg). rewrite fmap_app. cbn [app]. f_equal.
  rewrite !(list_fmap_compose (λ k, k `mod` 2 ^ 64)%Z (@Some Z)). f_equal.
  apply seqZ_mod; [apply zlen_nonneg|]. unfold u64_add. rewrite Zplus_mod_idemp_l. done.
Qed.

(** ** Properties *)

(** A simple query: a Query of [sql] causes [query.received],
    [statement.execution_started] and, when [sql] is exactly one transaction
    command, the request event of that command; each describes [sql] by its class
    and fingerprint. *)
Theorem simple_query_events f s sql r :
  tag f = "Q"%byte → body f = sql ++ x00 :: r → x00 ∉ sql →
  event_name <$> (frontend f s).1 =
    ["query.received"; "statement.execution_started"]%string ++ requested (classified sql) ∧
  Forall (λ e, statement_class e = classified sql ∧ sql_fingerprint e = sha256_hex sql) (frontend f s).1.
Proof.
  intros HQ Hb Hz. assert (Hrun : run_of f s = Statement_new sql).
  { unfold run_of, query_statement. rewrite HQ, Hb, cstr_app by done. done. }
  pose proof (frontend_run f s (or_introl HQ)) as Hf. rewrite Hrun, HQ in Hf. exact Hf.
Qed.


(** Transaction epochs: an epoch begins with a Query from idle when nothing
    is in flight, or with the first Execute from idle of the only open cycle; at
    most one begins per frame, and no server frame begins one. *)
Theorem epoch_step o s :
  tx_epoch (obs_step o s).2 =
    match o with
    | Fe f => if begins_epoch f s then u64_add (tx_epoch s) 1 else tx_epoch s
    | _ => tx_epoch s
    end.
Proof. destruct o as [f|f|]; cbn [obs_step]; [apply frontend_epoch | apply backend_epoch | done]. Qed.

(** C36. Rows: after a CommandComplete, a PortalSuspended or the end of a cycle,
    at any point of a connection, the rows up to the next one are numbered
    1, 2, 3, ... whatever the client sends and the server notifies in between. *)
Theorem rows_numbered os i m fr mid c :
  tag fr = "C"%byte ∨ tag fr = "s"%byte ∨ is_ready fr = true →
  let s := (run (os ++ [Be fr]) (new i m)).2 in
  front s = Some c → Forall neutral_obs mid →
  let es := named "result.row" (run mid s).1 in
  row_index <$> es = (λ k, Some (k `mod` 2 ^ 64)%Z) <$> seqZ 1 (zlen es).
Proof.
  intros Hfr s Hc Hmid es. assert (Hr : rows c = 0%Z).
  { unfold s in Hc. rewrite run_app, run_cons in Hc. cbn [snd run obs_step] in Hc.
    eapply (backend_rows_reset fr _ c Hfr); [|exact Hc]. apply run_fresh_back. constructor. }
  unfold es. rewrite (run_rows mid s c Hmid Hc). by rewrite Hr.
Qed.
End named.

(** ** Witnesses *)

#[local] Existing Instance no_sha.

(** A C string. *)
Definition cs (s : string) : bytes := bs s ++ [x00].

Definition start : ConnectionState := new 1 StartupMetadata_default.
Definition q_frame (sql : string) : Frame := msg "Q"%byte (cs sql).
Definition p_frame (name sql : string) : Frame := msg "P"%byte (cs name ++ cs sql ++ [x00; x00]).
Definition b_frame (portal name : string) : Frame := msg "B"%byte (cs portal ++ cs name ++ [x00; x00]).
Definition e_frame (portal : string) : Frame := msg "E"%byte (cs portal ++ [x00; x00; x00; x00]).
Definition sync : Frame := msg "S"%byte [].
Definition complete (t : string) : Frame := msg "C"%byte (cs t).
Definition server (t : byte) : Frame := msg t [].

Lemma simple_query_events_witness :
  event_name <$> (frontend (q_frame "begin -- now") start).1 =
    ["query.received"; "statement.execution_started"; "transaction.begin.requested"]%string.
Proof.
  etrans; [apply (simple_query_events (q_frame "begin -- now") start (bs "begin -- now") []);
    [done|done|by apply (bool_decide_unpack _); vm_compute]|].
  by vm_compute.
Defined.


Lemma rows_numbered_witness :
  row_index <$> named "result.row" (run [Be (server "D"%byte); Fe sync; Be (server "D"%byte)]
      (run ([Fe (q_frame "select 1; select 2"); Be (server "D"%byte)] ++ [Be (complete "SELECT 1")]) start).2).1 =
    [Some 1; Some 2]%Z.
Proof.
  etrans; [eapply (rows_numbered [Fe (q_frame "select 1; select 2"); Be (server "D"%byte)] 1 StartupMetadata_default
    (complete "SELECT 1") [Be (server "D"%byte); Fe sync; Be (server "D"%byte)])|by vm_compute].
  - by left.
  - by vm_compute.
  - by repeat constructor.
Defined.

(** ** Where interleaving matters *)

(** What is left in flight, and whether the observer still trusts itself. *)
Definition outlook (s : ConnectionState) : list Z * bool := (c_id <$> cycles s, reliable s).

(** A simple Query sent inside an extended batch that has not been synced opens
      a cycle of its own, although the server answers both with one ReadyForQuery:
      after the Sync the server has answered everything and is idle, but the
      observer keeps a cycle in flight and attributes every later answer to the
      cycle before its own, while it goes on calling its events reliable. *)
Theorem unsynced_query_desynchronises :
  let exchange := [
    Fe (p_frame "" "select 1"); Fe (b_frame "" ""); Fe (e_frame "");
    Be (server "1"%byte); Be (server "2"%byte); Be (server "D"%byte); Be (complete "SELECT 1");
    Fe (q_frame "select 2"); Be (server "D"%byte); Be (complete "SELECT 1"); Be (msg "Z"%byte (bs "I"));
    Fe sync; Be (msg "Z"%byte (bs "I"))] in
  let s := (run exchange start).2 in
  outlook s = ([3], true)%Z ∧
  let s1 := (run [Fe (q_frame "commit")] s).2 in
  c_id <$> back s1 = Some 4%Z ∧
  query_cycle <$> (run [Be (complete "COMMIT"); Be (msg "Z"%byte (bs "I"))] s1).1 = replicate 5 3%Z ∧
  completion_boundary s1 (complete "COMMIT") = None.
Proof. by vm_compute. Qed.

(** The class of a pipelined statement depends on when the answer to the
      batch before it arrives: the same client frames and the same server frames,
      with the ReadyForQuery relayed before the second Execute or after it, make
      the Execute of a portal bound to [commit] a commit or nothing. *)
Theorem pipelined_execute_depends_on_timing :
  let client := [Fe (q_frame "select 1"); Fe (p_frame "s" "commit"); Fe (b_frame "p" "s")] in
  let answer := [Be (complete "SELECT 1"); Be (msg "Z"%byte (bs "I"))] in
  event_name <$> (frontend (e_frame "p") (run client start).2).1 =
    ["frontend.execute"; "statement.execution_started"; "transaction.commit.requested"]%string ∧
  event_name <$> (frontend (e_frame "p") (run (client ++ answer) start).2).1 =
    ["frontend.execute"; "statement.execution_started"]%string ∧
  reliable (run (client ++ answer) start).2 = true.
Proof. by vm_compute. Qed.

(** A commit followed by another statement in the same batch: the boundary the
      proxy gates on announces the commit, but the ReadyForQuery looks at the last
      statement only and causes no [transaction.commit.completed]. *)
Theorem commit_then_statement_unreported :
  let batch := [
    Fe (p_frame "c" "commit"); Fe (b_frame "c" "c"); Fe (e_frame "c");
    Fe (p_frame "s" "select 1"); Fe (b_frame "s" "s"); Fe (e_frame "s"); Fe sync;
    Be (server "1"%byte); Be (server "2"%byte)] in
  let rest := [Be (complete "COMMIT"); Be (server "1"%byte); Be (server "2"%byte);
    Be (server "D"%byte); Be (complete "SELECT 1")] in
  let s := (run batch start).2 in
  completion_boundary s (complete "COMMIT") = Some "transaction.commit.completed"%string ∧
  reliable (run rest s).2 = true ∧
  "transaction.commit.completed"%string ∉ event_name <$> (backend (msg "Z"%byte (bs "I")) (run rest s).2).1.
Proof. split_and!; [by vm_compute|by vm_compute|]. by apply (bool_decide_unpack _); vm_compute. Qed.
