(* ===== verification/Trace.v ===== *)
(** * pgfault-trace: the trace file and its replay

    [crates/pgfault-trace/src/lib.rs].  A trace file is a list of JSON lines;
    [replay] turns the faults it records into scenarios that target the recorded
    coordinates.  The JSON text of a record is the crate [serde_json]'s. *)

From stdpp Require Import pretty.
From S2P Require Import Prelude Utf8 Events Scenario.

(** ** Data *)

(** [enum Record] *)
Inductive TraceRecord :=
  | Semantic (coordinate : Event)
  | Fault (coordinate : Event) (scenario : Scenario)
  | Lifecycle (connection_id : Z) (event : string) (detail : string).

#[global] Instance TraceRecord_eq_dec : EqDecision TraceRecord.
Proof. solve_decision. Defined.

(** [serde_json::to_vec], [from_str] and [to_string], of the crate [serde_json]. *)
Class Json := {
  to_vec : TraceRecord → error + bytes;
  from_str : bytes → error + TraceRecord;
  scenario_to_string : Scenario → error + bytes
}.

Definition of_result {A} (r : error + A) : outcome A :=
  match r with inl e => Fail e | inr a => Ret a end.

(** ** [Recorder] *)

Section recorder.
Context `{Json}.

(** [File::write_all]: done, or failed after some of the bytes. *)
Definition write_all (file s : bytes) (broken : option (error * nat)) : outcome unit * bytes :=
  match broken with
  | None => (Ret tt, file ++ s)
  | Some (e, n) => (Fail e, file ++ take n s)
  end.

(** [Recorder::record]: what it returns, and the contents of the file after it.
    Nothing panics while the lock is held, so it is never poisoned. *)
Definition record (file : bytes) (r : TraceRecord) (broken : option (error * nat)) : outcome unit * bytes :=
  match to_vec r with
  | inl e => (Fail e, file)
  | inr line => write_all file (line ++ [x0a]) broken
  end.
Definition record_event (file : bytes) (e : Event) := record file (Semantic e).
Definition record_lifecycle (file : bytes) (i : Z) (event detail : string) := record file (Lifecycle i event detail).

(** Records that are all written. *)
Fixpoint record_all (file : bytes) (rs : list TraceRecord) : outcome bytes :=
  match rs with
  | [] => Ret file
  | r :: rs => let '(o, file) := record file r None in _ ← o; record_all file rs
  end.
End recorder.

(** ** [replay] *)

(** [BufRead::lines]: split at line feeds, each line without its "\n" or "\r\n". *)
Definition strip_cr (l : bytes) : bytes :=
  match list.last l with
  | Some x0d => take (pred (length l)) l
  | _ => l
  end.
Fixpoint split_lines (acc s : bytes) : list bytes :=
  match s with
  | [] => match acc with [] => [] | _ => [acc] end
  | b :: r => if Byte.eqb b x0a then strip_cr acc :: split_lines [] r else split_lines (acc ++ [b]) r
  end.
Definition lines (s : bytes) : list bytes := split_lines [] s.

(** A line is read as a [String]: it must be UTF-8. *)
Definition utf8_line (l : bytes) : outcome bytes :=
  if bool_decide (lossy l = l) then Ret l
  else Fail (Io InvalidData "stream did not contain valid UTF-8").

(** The recorded scenario moved to the coordinates of the event that fired it. *)
Definition relocate (e : Event) (s : Scenario) : Scenario :=
  let sel := selector s in
  mk_scenario (version s) (name s)
    (Selector.mk (application_name (startup_meta e)) (user (startup_meta e)) (database (startup_meta e))
       (Selector.connection_ordinal sel) (Some (transaction_epoch e)) (Some (query_cycle e))
       (Some (statement_index e)) (Some (sql_fingerprint e)))
    (When.mk (event_name e) (Some 1%Z) (When.statement_class (when s)) (row_index e))
    (action s).

Section replay.
Context `{Json} `{Humantime}.

Fixpoint replay_lines (i : nat) (ls : list bytes) (unique : gset bytes) (schedules : list Scenario)
    : outcome (list Scenario) :=
  match ls with
  | [] => Ret schedules
  | l :: ls =>
    l ← utf8_line l;
    r ← context ("trace line " +:+ pretty (i + 1)) (of_result (from_str l));
    match r with
    | Fault e s =>
      let s := relocate e s in
      _ ← validate s;
      key ← of_result (scenario_to_string s);
      if bool_decide (key ∈ unique) then replay_lines (i + 1) ls unique schedules
      else replay_lines (i + 1) ls ({[key]} ∪ unique) (schedules ++ [s])
    | _ => replay_lines (i + 1) ls unique schedules
    end
  end.

(** [replay] on the contents of the trace file. *)
Definition replay (file : bytes) : outcome (list Scenario) :=
  schedules ← replay_lines 0 (lines file) ∅ [];
  if bool_decide (schedules = []) then bail "trace contains no fired faults"
  else Ret schedules.
End replay.
