(* ===== verification/TraceProps.v ===== *)
(** * Properties of the trace and its replay

    A trace file written by the recorder reads back as its records; the replay of
    a fault is a scenario that matches the recorded coordinates and nothing else.
    The last theorem shows where the coordinates do not tell two events apart. *)

From stdpp Require Import pretty.
From S2P Require Import Prelude Utf8 Wire Events Scenario State StateLemmas StateEvents StateQueue StateExtended Trace.

(** ** Lines *)

Lemma strip_cr_id l : list.last l ≠ Some x0d → strip_cr l = l.
Proof. unfold strip_cr. destruct (list.last l) as [[]|]; congruence. Qed.

Lemma split_lines_app acc l s :
  x0a ∉ l → split_lines acc (l ++ x0a :: s) = strip_cr (acc ++ l) :: split_lines [] s.
Proof.
  revert acc. induction l as [|b l IH]; intros acc Hl; simpl.
  - by rewrite app_nil_r.
  - rewrite byte_eqb_ne by set_solver. rewrite IH by set_solver. by rewrite <-app_assoc.
Qed.

Lemma lines_app l s : x0a ∉ l → list.last l ≠ Some x0d → lines (l ++ x0a :: s) = l :: lines s.
Proof. intros. unfold lines. rewrite split_lines_app by done. by rewrite strip_cr_id. Qed.

(** ** Reading a trace back *)

(** What [serde_json] promises of one record: compact JSON on one line of UTF-8
    text, which reads back as the record. *)
Definition json_roundtrips `{Json} (r : TraceRecord) : Prop :=
  ∀ l, to_vec r = inr l → from_str l = inr r ∧ x0a ∉ l ∧ list.last l ≠ Some x0d ∧ lossy l = l.

(** The scenarios the faults of a trace are replayed as, with repetitions. *)
Definition relocated (rs : list TraceRecord) : list Scenario :=
  omap (λ r, match r with Fault e s => Some (relocate e s) | _ => None end) rs.

(** The same list without the repetitions after a first occurrence. *)
Fixpoint keep_first (seen l : list Scenario) : list Scenario :=
  match l with
  | [] => []
  | s :: l => if bool_decide (s ∈ seen) then keep_first seen l else s :: keep_first (s :: seen) l
  end.

Section roundtrip.
Context `{Json} `{Humantime}.

Lemma record_all_cons file r rs out :
  record_all file (r :: rs) = Ret out →
  ∃ l, to_vec r = inr l ∧ record_all (file ++ l ++ [x0a]) rs = Ret out.
Proof.
  simpl. unfold record, write_all. destruct (to_vec r) as [e|l]; [done|]. intros Ho. by exists l.
Qed.

Lemma record_all_app file rs out :
  record_all file rs = Ret out → Forall json_roundtrips rs →
  ∃ s, out = file ++ s ∧
    Forall2 (λ r l, from_str l = inr r ∧ lossy l = l) rs (lines s).
Proof.
  intros Ho Hrs. revert file Ho. induction Hrs as [|r rs Hr _ IH]; intros file Ho.
  { injection Ho as <-. exists []. rewrite app_nil_r. split; [done|constructor]. }
  apply record_all_cons in Ho as (l & Hl & Ho). destruct (Hr l Hl) as (Hf & Hn & Hc & Hu).
  destruct (IH _ Ho) as (s & -> & Hs). exists (l ++ x0a :: s). split.
  - by rewrite <-!app_assoc.
  - rewrite lines_app by done. by constructor.
Qed.

(** The text of a scenario tells the scenarios of this trace apart. *)
Definition keys_distinguish (l : list Scenario) : Prop :=
  (∀ s, s ∈ l → ∃ k, scenario_to_string s = inr k) ∧
  (∀ s s', s ∈ l → s' ∈ l → scenario_to_string s = scenario_to_string s' → s = s').

Lemma replay_lines_spec rs ls i unique out seen all :
  Forall2 (λ r l, from_str l = inr r ∧ lossy l = l) rs ls →
  Forall (λ s, validate s = Ret tt) (relocated rs) →
  keys_distinguish all → seen ⊆ all → relocated rs ⊆ all →
  (∀ k, k ∈ unique ↔ ∃ s, s ∈ seen ∧ scenario_to_string s = inr k) →
  replay_lines i ls unique out = Ret (out ++ keep_first seen (relocated rs)).
Proof.
  intros Hrs. revert i unique out seen.
  induction Hrs as [|r l rs ls [Hl Hu] _ IH]; intros i unique out seen Hv Hkey Hseen Hall Hk; cbn [replay_lines].
  { cbn. by rewrite app_nil_r. }
  unfold utf8_line. rewrite bool_decide_eq_true_2 by done. run_ret. rewrite Hl. cbn [of_result context]. run_ret.
  destruct r as [e|e s|i' n d]; [by apply IH | | by apply IH].
  change (relocated (Fault e s :: rs)) with (relocate e s :: relocated rs) in *.
  apply Forall_cons in Hv as [Hs Hv]. cbv zeta. rewrite Hs. run_ret.
  assert (relocate e s ∈ all) as Hr by (apply Hall; by left).
  assert (relocated rs ⊆ all) as Hall' by (intros x Hx; apply Hall; by right).
  destruct (proj1 Hkey _ Hr) as [k Hks]. rewrite Hks. cbn [of_result]. run_ret.
  cbn [keep_first]. assert (Hin : k ∈ unique ↔ relocate e s ∈ seen).
  { rewrite Hk. split; [|by eauto]. intros (s' & Hs' & Hk'). rewrite (proj2 Hkey (relocate e s) s'); [done|done|by apply Hseen|congruence]. }
  destruct (decide (relocate e s ∈ seen)) as [Hd|Hd].
  - rewrite !bool_decide_eq_true_2 by tauto. by apply IH.
  - rewrite !bool_decide_eq_false_2 by tauto.
    rewrite (IH _ _ _ (relocate e s :: seen)); [by rewrite <-app_assoc|done|done| |done|].
    { intros x [->|Hx]%elem_of_cons; [done|by apply Hseen]. }
    intros k'. rewrite elem_of_union, elem_of_singleton, Hk. split.
    + intros [->|(s' & ? & ?)]; [exists (relocate e s)|exists s']; split; try done; [by left|by right].
    + intros (s' & [->|?]%elem_of_cons & Hs'); [left; congruence|right; by exists s'].
Qed.

(** C20. Round trip: the replay of a file that the recorder has written, whatever
    semantic, fault and lifecycle records it holds, is the list of its faults,
    each moved to its recorded coordinates, in the order of the trace and without
    repetitions; a trace without faults is an error, never an empty schedule. *)
Theorem replay_of_recorded rs file :
  record_all [] rs = Ret file → Forall json_roundtrips rs → keys_distinguish (relocated rs) →
  Forall (λ s, validate s = Ret tt) (relocated rs) →
  replay file = if bool_decide (relocated rs = []) then Fail (Bail "trace contains no fired faults")
                else Ret (keep_first [] (relocated rs)).
Proof.
  intros Hf Hj Hk Hv. destruct (record_all_app [] rs file Hf Hj) as (s & -> & Hs).
  unfold replay. rewrite app_nil_l.
  rewrite (replay_lines_spec rs (lines s) 0 ∅ [] [] (relocated rs)); [|done|done|done|by intros ? ?%elem_of_nil|done|].
  2: { intros k. split; [set_solver|]. by intros (s0 & ?%elem_of_nil & _). }
  run_ret. cbn [app]. destruct (relocated rs) as [|x l]; [done|].
  by rewrite !bool_decide_eq_false_2 by done.
Qed.
End roundtrip.

(** ** Where a replayed scenario fires *)

(** Two events at the same coordinates, as far as the recorded ones are known. *)
Definition agrees {A} (o o' : option A) : Prop := o = None ∨ o' = o.
Definition same_coordinates (e e' : Event) : Prop :=
  event_name e' = event_name e ∧ transaction_epoch e' = transaction_epoch e ∧
  query_cycle e' = query_cycle e ∧ statement_index e' = statement_index e ∧
  sql_fingerprint e' = sql_fingerprint e ∧ agrees (row_index e) (row_index e') ∧
  agrees (application_name (startup_meta e)) (application_name (startup_meta e')) ∧
  agrees (user (startup_meta e)) (user (startup_meta e')) ∧
  agrees (database (startup_meta e)) (database (startup_meta e')).

Lemma is_none_or_agrees {A} `{EqDecision A} (o o' : option A) :
  is_none_or o (λ x, bool_decide (o' = Some x)) = true ↔ agrees o o'.
Proof. unfold agrees. destruct o; simpl; rewrite ?bool_decide_eq_true; naive_solver. Qed.

(** What the scenario of a replay matches. *)
Lemma relocated_matches e s e' :
  hit (relocate e s) e' = true ↔
    semantic_reliable e' = true ∧ same_coordinates e e' ∧
    (When.statement_class (when s) = [] ∨ statement_class e' ∈ When.statement_class (when s)) ∧
    (∀ n, Selector.connection_ordinal (selector s) = Some n → connection_id e' = n).
Proof.
  unfold hit, selects, relocate, same_coordinates. cbn -[bool_decide is_none_or].
  assert (Hc : is_none_or (Selector.connection_ordinal (selector s)) (λ n, bool_decide (connection_id e' = n)) = true ↔
    ∀ n, Selector.connection_ordinal (selector s) = Some n → connection_id e' = n).
  { destruct (Selector.connection_ordinal (selector s)); simpl; rewrite ?bool_decide_eq_true; naive_solver. }
  rewrite !andb_true_iff, !is_none_or_agrees, orb_true_iff, Hc.
  cbn [is_none_or]. rewrite !bool_decide_eq_true. naive_solver.
Qed.

(** What an event that hits satisfies, beyond the selector's identity. *)
Lemma hit_cases s e :
  hit s e = true →
  semantic_reliable e = true ∧ event_name e = When.event (when s) ∧
  (When.statement_class (when s) = [] ∨ statement_class e ∈ When.statement_class (when s)) ∧
  (∀ n, Selector.connection_ordinal (selector s) = Some n → connection_id e = n).
Proof.
  unfold hit, selects. intros Hh. destruct_and? Hh. to_prop. split_and!; try done.
  - match goal with Hx : (_ || _) = true |- _ => apply orb_true_iff in Hx as [Hx|Hx] end; to_prop; auto.
  - intros n Hn. rewrite Hn in *. simpl in *. by to_prop.
Qed.

(** Precision of a replay: the scenario a fault is replayed as matches exactly
    the reliable events at the recorded coordinates (epoch, cycle, statement,
    fingerprint, row, and the client's identity as far as it is known), of the
    classes and on the connection that the original scenario asked for. *)
Theorem relocated_matches_coordinates e s e' :
  hit (relocate e s) e' = true ↔
    semantic_reliable e' = true ∧ same_coordinates e e' ∧
    (When.statement_class (when s) = [] ∨ statement_class e' ∈ When.statement_class (when s)) ∧
    (∀ n, Selector.connection_ordinal (selector s) = Some n → connection_id e' = n).
Proof. apply relocated_matches. Qed.

(** C19. A replay fires where the fault fired: the event that fired a scenario fires
    a fresh matcher of the scenario it is replayed as, at once, and the replayed
    scenario is valid when the recorded one was. *)
Theorem replay_fires_where_recorded `{Humantime} m e m' :
  observe m e = (true, m') → row_index e ≠ Some 0%Z →
  let s := relocate e (scenario m) in
  (observe (matcher_new s) e).1 = true ∧
  (validate (scenario m) = Ret tt → validate s = Ret tt).
Proof.
  intros Ho Hrow s. apply observe_true in Ho as (_ & Hh & _). split.
  - assert (Hs : hit s e = true).
    { apply relocated_matches. apply hit_cases in Hh as (Hr & _ & Hc & Ho).
      split_and!; try done. unfold same_coordinates. split_and!; try done; by right. }
    rewrite observe_hit. simpl. by rewrite Hs.
  - intros Hv. apply validate_iff in Hv. apply validate_iff.
    assert (Hn : event_name e = When.event (when (scenario m))).
    { by apply hit_cases in Hh as (_ & ? & _). }
    unfold s, relocate, delay_ok in *. cbn -[EVENTS upstream_events]. rewrite Hn.
    destruct Hv as (?&?&?&_&_&?&?&?&?). by split_and!.
Qed.

(** ** Witnesses *)

#[local] Existing Instance no_sha.

(** A client that gets two results from one simple query, and the scenario that
    truncates the second. *)
Definition two_results : list obs := [
  Fe (q_frame "select 1; select 2"); Be (server "T"%byte); Be (server "D"%byte); Be (complete "SELECT 1");
  Be (server "T"%byte); Be (server "D"%byte); Be (complete "SELECT 1"); Be (msg "Z"%byte (bs "I"))].
Definition truncate_second : Scenario :=
  mk_scenario 1 "second" Selector.default (When.mk "result.started" (Some 2%Z) [] None)
    (Action.mk None None None (Some (mk_truncate 0))).
Definition results : list Event := named "result.started" (run two_results start).1.
Definition second_result : Event := default (sample_event 0) (results !! 1).

#[local] Instance no_delays : Humantime := λ _, inl Elapsed.

(** A stand-in for [serde_json] on three records. *)
Definition sample_records : list TraceRecord := [
  Semantic second_result; Fault second_result truncate_second; Fault second_result truncate_second].
#[local] Instance sample_json : Json := {|
  to_vec r := match r with Semantic _ => inr (bs "s") | Fault _ _ => inr (bs "f") | _ => inl Elapsed end;
  from_str l := if bool_decide (l = bs "s") then inr (Semantic second_result)
                else inr (Fault second_result truncate_second);
  scenario_to_string s := inr (bs (name s))
|}.

Lemma replay_of_recorded_witness :
  replay (bs "s" ++ [x0a] ++ bs "f" ++ [x0a] ++ bs "f" ++ [x0a]) = Ret [relocate second_result truncate_second].
Proof.
  etrans; [apply (replay_of_recorded sample_records); [done|..]|by vm_compute].
  - apply Forall_forall. intros r Hr l Hl. unfold sample_records in Hr.
    rewrite !elem_of_cons, elem_of_nil in Hr. destruct Hr as [->|[->|[->|[]]]];
      injection Hl as <-; (split_and!; [done | in_list | done | by vm_compute]).
  - split; [by eexists|]. unfold sample_records, relocated. cbn [omap list_omap].
    intros s s'. rewrite !elem_of_cons, !elem_of_nil. by intros [->|[->|[]]] [->|[->|[]]].
  - repeat constructor.
Defined.

Lemma replay_fires_where_recorded_witness :
  let m := mk_matcher truncate_second 1 false in
  (observe m second_result).1 = true ∧
  (observe (matcher_new (relocate second_result truncate_second)) second_result).1 = true.
Proof.
  split; [by vm_compute|].
  apply (replay_fires_where_recorded (mk_matcher truncate_second 1 false) second_result
    (observe (mk_matcher truncate_second 1 false) second_result).2); by vm_compute.
Defined.

(** The coordinates do not tell the results of one simple query apart: a
    scenario that fires on the second result of [select 1; select 2] is replayed
    as one that fires on the first. *)
Theorem replay_of_second_result_fires_first :
  (observe_all (matcher_new truncate_second) results).1 = [false; true] ∧
  (observe_all (matcher_new (relocate second_result truncate_second)) results).1 = [true; false].
Proof. by vm_compute. Qed.
