(* ===== verification/Proxy.v ===== *)
(** * pgfault-proxy: relaying one connection

    [crates/pgfault-proxy/src/lib.rs], from the first relayed frame on: [apply]
    runs the actions of the scenarios that fire on a frame's events, [on_client]
    and [on_server] are the two branches of the relay loop.  Socket writes,
    shutdowns, resets, sleeps and trace records are effects; each may fail, a
    write after any prefix of its bytes, to a socket or to the trace file. *)

From S2P Require Import Prelude Utf8 Wire Events State Scenario Trace.

(** ** Effects *)

Inductive effect :=
  | WriteTo (sd : Side.t) (s : bytes)
  | Shutdown (sd : Side.t)
  | ResetOf (sd : Side.t)
  | Sleep (nanoseconds : Z)
  | Connect
  | Nodelay (sd : Side.t)
  | TraceLine (r : TraceRecord)
  | TracePart (r : TraceRecord) (n : nat).

#[global] Instance effect_eq_dec : EqDecision effect.
Proof. solve_decision. Defined.

(** [TraceLine r] is a record written whole; [TracePart r n] the first [n] bytes of
    its line, left by a [write_all] that failed (see [Trace.record]).

    What becomes of the next effect: done, or failed with an error, a write
    after [n] of its bytes. *)
Inductive verdict := Done | Broken (e : error) (n : nat).

Record World := mk_world { log : list effect; clock : nat; oracle : nat → verdict }.

Definition IO (A : Type) : Type := World → outcome A * World.

#[global] Instance io_ret : MRet IO := λ A a w, (Ret a, w).
#[global] Instance io_bind : MBind IO := λ A B f m w,
  match m w with
  | (Ret a, w') => f a w'
  | (Fail e, w') => (Fail e, w')
  | (Panic s, w') => (Panic s, w')
  end.

Definition partial (eff : effect) (n : nat) : list effect :=
  match eff with
  | WriteTo to s => [WriteTo to (take n s)]
  | TraceLine r => [TracePart r n]
  | _ => []
  end.

Definition perform (eff : effect) : IO unit := λ w,
  match oracle w (clock w) with
  | Done => (Ret tt, mk_world (log w ++ [eff]) (S (clock w)) (oracle w))
  | Broken e n => (Fail e, mk_world (log w ++ partial eff n) (S (clock w)) (oracle w))
  end.

Definition lift {A} (o : outcome A) : IO A := λ w, (o, w).

(** ** [apply] *)

Record Disposition := mk_disposition { suppress : bool; disconnect : bool }.

Section proxy.
Context `{Sha256} `{Humantime}.

(** [humantime_duration] *)
Definition humantime_duration (s : string) : outcome Z := of_result (parse_duration s).

(** The actions of one scenario that has fired. *)
Definition run_action (a : Action.t) (d : Disposition) (truncate : option Z)
    : IO (Disposition * option Z) :=
  _ ← match Action.delay a with
      | Some dl => n ← lift (humantime_duration (duration dl)); perform (Sleep n)
      | None => mret tt
      end;
  let d := if match Action.suppress a with Some s => current s | None => false end
           then mk_disposition true (disconnect d) else d in
  let truncate := match Action.truncate_result a with
                  | Some t => Some (after_rows t) | None => truncate end in
  match Action.disconnect a with
  | Some dc =>
    _ ← perform (match mode dc with Mode.Reset => ResetOf (side dc) | Mode.Close => Shutdown (side dc) end);
    mret (mk_disposition (suppress d) true, truncate)
  | None => mret (d, truncate)
  end.

(** [for m in matchers.iter_mut()] *)
Fixpoint apply_matchers (e : Event) (ms : list Matcher) (d : Disposition) (truncate : option Z)
    : IO (list Matcher * Disposition * option Z) :=
  match ms with
  | [] => mret ([], d, truncate)
  | m :: ms =>
    let '(fires, m) := observe m e in
    '(d, truncate) ←
      (if fires : bool then
         _ ← perform (TraceLine (Fault e (scenario m)));
         run_action (action (scenario m)) d truncate
       else mret (d, truncate));
    '(ms, d, truncate) ← apply_matchers e ms d truncate;
    mret (m :: ms, d, truncate)
  end.

(** [for e in events] *)
Fixpoint apply_events (es : list Event) (ms : list Matcher) (d : Disposition) (truncate : option Z)
    : IO (list Matcher * Disposition * option Z) :=
  match es with
  | [] => mret (ms, d, truncate)
  | e :: es =>
    _ ← perform (TraceLine (Semantic e));
    '(ms, d, truncate) ← apply_matchers e ms d truncate;
    apply_events es ms d truncate
  end.

Definition apply (es : list Event) (ms : list Matcher) (truncate : option Z)
    : IO (list Matcher * Disposition * option Z) :=
  apply_events es ms (mk_disposition false false) truncate.

(** ** The relay loop *)

(** The variables of the loop. *)
Record Conn := mk_conn {
  state : ConnectionState;
  matchers : list Matcher;
  held : list bytes;
  held_size : Z;
  truncate : option Z
}.

(** The loop goes on, or [connection] returns [Ok(())]. *)
Inductive flow := Go (c : Conn) | Stop.

(** [let f = frame? else { upstream.shutdown().await?; return Ok(()) }] and
    the rest of the client branch. *)
Definition on_client (frame : option Frame) (c : Conn) : IO flow :=
  match frame with
  | None => _ ← perform (Shutdown Side.Upstream); mret Stop
  | Some f =>
    let '(es, st) := frontend f (state c) in
    '(ms, d, tr) ← apply es (matchers c) (truncate c);
    if disconnect d : bool then mret Stop else
    k ← (if suppress d : bool then mret (Go (mk_conn st ms (held c) (held_size c) tr)) else
         _ ← perform (WriteTo Side.Upstream (raw f));
         if Byte.eqb (tag f) "Q"%byte || Byte.eqb (tag f) "E"%byte then
           let '(e, st) := forwarded st in
           '(ms, d, tr) ← apply [e] ms tr;
           if disconnect d : bool then mret Stop
           else mret (Go (mk_conn st ms (held c) (held_size c) tr))
         else mret (Go (mk_conn st ms (held c) (held_size c) tr)));
    if Byte.eqb (tag f) "X"%byte then mret Stop else mret k
  end.

(** [for bytes in held.drain(..) { frontend.write_all(&bytes).await? }] *)
Fixpoint write_all_held (hs : list bytes) : IO unit :=
  match hs with
  | [] => mret tt
  | s :: hs => _ ← perform (WriteTo Side.Frontend s); write_all_held hs
  end.

Definition max_held : Z := 1024 * 1024.

(** The row cut: [true] for the row behind the last one to deliver, and the rows left. *)
Definition cut_row (f : Frame) (truncate : option Z) : bool * option Z :=
  if Byte.eqb (tag f) "D"%byte then
    match truncate with
    | Some n => if bool_decide (n = 0%Z) then (true, truncate) else (false, Some (n - 1)%Z)
    | None => (false, truncate)
    end
  else (false, truncate).

(** [frontend.reset()?; trace.lifecycle(id, "result.truncated", "")?; return Ok(())] *)
Definition truncated (c : ConnectionState) : IO flow :=
  _ ← perform (ResetOf Side.Frontend);
  _ ← perform (TraceLine (Lifecycle (id c) "result.truncated" ""));
  mret Stop.

(** The completion gate: is there a matcher that may fire on this completion? *)
Definition gate (f : Frame) (c : Conn) : bool :=
  match completion_boundary (state c) f with
  | Some b => existsb (λ m, needs_gate m b) (matchers c)
  | None => false
  end.

Definition on_server (frame : option Frame) (c : Conn) : IO flow :=
  match frame with
  | None => _ ← perform (Shutdown Side.Frontend); mret Stop
  | Some f =>
    let g := gate f c in
    let '(es, st) := backend f (state c) in
    '(ms, d, tr) ← apply es (matchers c) (truncate c);
    if disconnect d : bool then mret Stop else
    let '(cut, tr) := cut_row f tr in
    if cut : bool then truncated st else
    c ← (if Byte.eqb (tag f) "Z"%byte then
           _ ← (if suppress d : bool then mret tt else
                  _ ← write_all_held (held c); perform (WriteTo Side.Frontend (raw f)));
           mret (mk_conn st ms [] 0 None)
         else if suppress d : bool then mret (mk_conn st ms (held c) (held_size c) tr)
         else if g || negb (bool_decide (held c = [])) then
           let size := u64_add (held_size c) (zlen (raw f)) in
           if (max_held <? size)%Z then
             lift (bail "completion gate exceeded 1 MiB; unsupported pipelined completion")
           else mret (mk_conn st ms (held c ++ [raw f]) size tr)
         else
           _ ← perform (WriteTo Side.Frontend (raw f));
           mret (mk_conn st ms (held c) (held_size c) tr));
    if Byte.eqb (tag f) "D"%byte && bool_decide (truncate c = Some 0%Z) then truncated st
    else mret (Go c)
  end.

(** The branch [tokio::select!] takes: a frame or the end of one of the streams,
    or the error its reader returns. *)
Inductive input := Client (f : option Frame) | Server (f : option Frame) | ReadError (e : error).

Definition relay_step (i : input) (c : Conn) : IO flow :=
  match i with Client f => on_client f c | Server f => on_server f c | ReadError e => lift (Fail e) end.

(** The loop over the branches taken; it stops at the first that returns. *)
Fixpoint relay (ins : list input) (c : Conn) : IO flow :=
  match ins with
  | [] => mret (Go c)
  | i :: ins =>
    k ← relay_step i c;
    match k with Go c => relay ins c | Stop => mret Stop end
  end.

(** The loop's variables before its first turn. *)
Definition conn_new (i : Z) (meta : StartupMetadata) (scenarios : list Scenario) : Conn :=
  mk_conn (new i meta) (matcher_new <$> scenarios) [] 0 None.
End proxy.
