(* ===== verification/ProxyLemmas.v ===== *)
(** * Reasoning on the relay

    A program of the effect monad extends the log; [emits] states what a program
    returns together with what it adds.  [apply] is shown to run a plan computed
    from the events and the matchers alone, and each turn of the relay loop to
    follow one step of the observer. *)

From S2P Require Import Prelude Utf8 Wire Events Scenario State StateLemmas StateEvents StateTx Trace Proxy.

(** ** Programs and their effects *)

Definition emits {A} (m : IO A) (P : outcome A → list effect → Prop) : Prop :=
  ∀ w, ∃ l, log (m w).2 = log w ++ l ∧ oracle (m w).2 = oracle w ∧ P (m w).1 l.

Lemma emits_mono {A} (m : IO A) P Q : emits m P → (∀ o l, P o l → Q o l) → emits m Q.
Proof. intros Hm HPQ w. destruct (Hm w) as (l & ? & ? & ?). exists l. auto. Qed.

Lemma emits_ret {A} (a : A) (P : _ → _ → Prop) : P (Ret a) [] → emits (mret a) P.
Proof. intros HP w. exists []. rewrite app_nil_r. done. Qed.

Lemma emits_lift {A} (o : outcome A) (P : _ → _ → Prop) : P o [] → emits (lift o) P.
Proof. intros HP w. exists []. rewrite app_nil_r. done. Qed.

Lemma emits_perform eff (P : _ → _ → Prop) :
  P (Ret tt) [eff] → (∀ e n, P (Fail e) (partial eff n)) → emits (perform eff) P.
Proof.
  intros H1 H2 w. unfold perform. destruct (oracle w (clock w)); [exists [eff] | exists (partial eff n)]; simpl; auto.
Qed.

Lemma emits_bind {A B} (m : IO A) (f : A → IO B) Q P :
  emits m Q →
  (∀ a l, Q (Ret a) l → emits (f a) (λ o l', P o (l ++ l'))) →
  (∀ e l, Q (Fail e) l → P (Fail e) l) → (∀ s l, Q (Panic s) l → P (Panic s) l) →
  emits (m ≫= f) P.
Proof.
  intros Hm Hf He Hp w. destruct (Hm w) as (l & Hl & Ho & HQ). unfold mbind, io_bind.
  destruct (m w) as [[a|e|s] w1]; simpl in *.
  - destruct (Hf a l HQ w1) as (l' & Hl' & Ho' & HP). exists (l ++ l').
    rewrite Hl', Hl, app_assoc. split_and!; [done|congruence|done].
  - exists l. auto.
  - exists l. auto.
Qed.

(** ** Equivalent programs *)

(** Programs that do the same in every world. *)
Definition io_equiv {A} (m m' : IO A) : Prop := ∀ w, m w = m' w.
Infix "≈" := io_equiv (at level 70) : pg_scope.

#[export] Instance io_equiv_equivalence A : Equivalence (@io_equiv A).
Proof. split; [by intros m w|by intros m m' E w|]. intros m1 m2 m3 E E' w. by rewrite E. Qed.

#[export] Instance io_bind_proper A B :
  Proper (pointwise_relation A io_equiv ==> io_equiv ==> io_equiv) (@mbind IO io_bind A B).
Proof. intros k k' Hk m m' Hm w. unfold mbind, io_bind. rewrite Hm. destruct (m' w) as [[a|e|s] w']; [apply Hk|done..]. Qed.

#[export] Instance emits_proper A : Proper (io_equiv ==> eq ==> iff) (@emits A).
Proof. intros m m' Hm P ? <-. unfold emits. split; intros He w; destruct (He w) as (l & ?); exists l; by rewrite Hm in *. Qed.

Lemma io_bind_assoc {A B C} (m : IO A) (f : A → IO B) (g : B → IO C) : (m ≫= f) ≫= g ≈ m ≫= (λ a, f a ≫= g).
Proof. intros w. unfold mbind, io_bind. by destruct (m w) as [[a|e|s] w']. Qed.

(** ** Reading the log *)

Definition sent (sd : Side.t) (l : list effect) : bytes :=
  concat (omap (λ e, match e with WriteTo sd' s => if bool_decide (sd' = sd) then Some s else None | _ => None end) l).
Definition semantics (l : list effect) : list Event :=
  omap (λ e, match e with TraceLine (Semantic e) => Some e | _ => None end) l.
Definition faults (l : list effect) : list (Event * Scenario) :=
  omap (λ e, match e with TraceLine (Fault e s) => Some (e, s) | _ => None end) l.

Lemma sent_app sd l l' : sent sd (l ++ l') = sent sd l ++ sent sd l'.
Proof. unfold sent. by rewrite omap_app, concat_app. Qed.
Lemma semantics_app l l' : semantics (l ++ l') = semantics l ++ semantics l'.
Proof. apply omap_app. Qed.
Lemma faults_app l l' : faults (l ++ l') = faults l ++ faults l'.
Proof. apply omap_app. Qed.

Definition is_write (e : effect) : bool := match e with WriteTo _ _ => true | _ => false end.
Definition quiet (l : list effect) : Prop := Forall (λ e, is_write e = false) l.

Lemma quiet_sent sd l : quiet l → sent sd l = [].
Proof. induction 1 as [|e l He _ IH]; [done|]. by destruct e. Qed.

Lemma quiet_app l l' : quiet (l ++ l') ↔ quiet l ∧ quiet l'.
Proof. apply Forall_app. Qed.

Lemma quiet_prefix l l' : l `prefix_of` l' → quiet l' → quiet l.
Proof. intros [k ->]. by intros [? _]%quiet_app. Qed.

#[export] Hint Rewrite sent_app semantics_app faults_app : pg.

(** ** The plan of [apply] *)

Definition suppresses (s : Scenario) : bool :=
  match Action.suppress (action s) with Some p => current p | None => false end.
Definition disconnects (s : Scenario) : bool :=
  match Action.disconnect (action s) with Some _ => true | None => false end.

Section plan.
Context `{Humantime}.

(** The scenarios that fire on an event, and the matchers after it. *)
Definition fired_by (e : Event) (ms : list Matcher) : list Scenario :=
  omap (λ m, if (observe m e).1 then Some (scenario m) else None) ms.
Definition after (e : Event) (ms : list Matcher) : list Matcher := (λ m, (observe m e).2) <$> ms.

Definition delay_effects (a : Action.t) : list effect :=
  match Action.delay a with
  | Some d => match parse_duration (duration d) with inr n => [Sleep n] | inl _ => [] end
  | None => []
  end.
Definition disconnect_effects (a : Action.t) : list effect :=
  match Action.disconnect a with
  | Some d => [match mode d with Mode.Reset => ResetOf (side d) | Mode.Close => Shutdown (side d) end]
  | None => []
  end.
Definition act (e : Event) (s : Scenario) : list effect :=
  TraceLine (Fault e s) :: delay_effects (action s) ++ disconnect_effects (action s).

Definition judge (d : Disposition) (s : Scenario) : Disposition :=
  mk_disposition (suppress d || suppresses s) (disconnect d || disconnects s).
Definition retarget (tr : option Z) (s : Scenario) : option Z :=
  match Action.truncate_result (action s) with Some t => Some (after_rows t) | None => tr end.

(** What [apply] does for these events, and what it returns. *)
Fixpoint plan (es : list Event) (ms : list Matcher) : list effect :=
  match es with
  | [] => []
  | e :: es => TraceLine (Semantic e) :: concat (act e <$> fired_by e ms) ++ plan es (after e ms)
  end.
Fixpoint after_all (es : list Event) (ms : list Matcher) : list Matcher :=
  match es with [] => ms | e :: es => after_all es (after e ms) end.
Fixpoint fired_all (es : list Event) (ms : list Matcher) : list (Event * Scenario) :=
  match es with [] => [] | e :: es => ((e,.) <$> fired_by e ms) ++ fired_all es (after e ms) end.

(** An initial part of a plan, and what a failed effect leaves of a trace line. *)
Definition torn (l : list effect) : Prop := Forall (λ e, match e with TracePart _ _ => True | _ => False end) l.
Definition part_of (l p : list effect) : Prop := ∃ l0 t, l = l0 ++ t ∧ l0 `prefix_of` p ∧ torn t.

Lemma part_of_app l p q : part_of l q → part_of (p ++ l) (p ++ q).
Proof.
  intros (l0 & t & -> & Hl & Ht). exists (p ++ l0), t. split_and!; [by rewrite app_assoc|by apply prefix_app|done].
Qed.

Lemma part_of_app_r l p q : part_of l p → part_of l (p ++ q).
Proof. intros (l0 & t & -> & Hl & Ht). exists l0, t. split_and!; [done|by apply prefix_app_r|done]. Qed.

Lemma part_of_nil p : part_of [] p.
Proof. exists [], []. split_and!; [done|apply prefix_nil|constructor]. Qed.

Lemma torn_reads l : torn l → quiet l ∧ semantics l = [] ∧ faults l = [].
Proof.
  induction 1 as [|e l He _ (IH1 & IH2 & IH3)]; [by repeat constructor|]. destruct e; try done.
  split_and!; [by constructor|exact IH2|exact IH3].
Qed.

Definition planned {A} (a : A) (p : list effect) (o : outcome A) (l : list effect) : Prop :=
  match o with Ret b => b = a ∧ l = p | Fail _ => part_of l p | Panic _ => False end.

Lemma planned_bind {A B} (m : IO A) (f : A → IO B) a b p q :
  emits m (planned a p) → emits (f a) (planned b q) → emits (m ≫= f) (planned b (p ++ q)).
Proof.
  intros Hm Hf. eapply emits_bind; [exact Hm| |..].
  - intros ? l [-> ->]. eapply emits_mono; [exact Hf|]. intros [c|e|s] l'; simpl; [naive_solver| |done].
    apply part_of_app.
  - intros e l Hp. simpl in *. by apply part_of_app_r.
  - done.
Qed.

Lemma planned_perform eff : is_write eff = false → emits (perform eff) (planned tt [eff]).
Proof.
  intros He. apply emits_perform; [done|]. intros e n. destruct eff; try done; try apply part_of_nil.
  exists [], [TracePart r n]. split_and!; [done|apply prefix_nil|by repeat constructor].
Qed.

Lemma planned_ret {A} (a : A) : emits (mret a) (planned a []).
Proof. by apply emits_ret. Qed.

Lemma run_action_planned e s d tr :
  emits (_ ← perform (TraceLine (Fault e s)); run_action (action s) d tr)
    (planned (judge d s, retarget tr s) (act e s)).
Proof.
  unfold act. change (TraceLine (Fault e s) :: ?k) with ([TraceLine (Fault e s)] ++ k).
  eapply planned_bind; [by apply planned_perform|]. unfold run_action, humantime_duration.
  eapply (planned_bind _ _ tt).
  - unfold delay_effects. destruct (Action.delay (action s)) as [dl|]; [|apply planned_ret].
    destruct (parse_duration (duration dl)) as [err|n].
    + eapply emits_bind; [apply (emits_lift _ (λ o l, o = Fail err ∧ l = [])); done|by intros ? ? [? _]| |by intros ? ? [? _]].
      intros ? l [_ ->]. apply part_of_nil.
    + eapply emits_bind; [apply (emits_lift _ (λ o l, o = Ret n ∧ l = [])); done| |by intros ? ? [? _]..].
      intros ? l [[= ->] ->]. by apply planned_perform.
  - cbv zeta. replace (if match Action.suppress (action s) with Some p => current p | None => false end
      then mk_disposition true (disconnect d) else d)
      with (mk_disposition (suppress d || suppresses s) (disconnect d)).
    2: { unfold suppresses. by destruct (Action.suppress (action s)) as [[[]]|], d as [[] []]. }
    unfold disconnect_effects, judge, disconnects, retarget. destruct (Action.disconnect (action s)) as [dc|].
    + rewrite <-(app_nil_r [_]). eapply planned_bind; [by apply planned_perform; destruct (mode dc)|].
      rewrite orb_true_r. apply planned_ret.
    + rewrite orb_false_r. apply planned_ret.
Qed.

Lemma fired_by_cons e m ms :
  fired_by e (m :: ms) = (if (observe m e).1 then [scenario m] else []) ++ fired_by e ms.
Proof. unfold fired_by. simpl. by destruct (observe m e).1. Qed.

Lemma apply_matchers_planned e ms d tr :
  emits (apply_matchers e ms d tr)
    (planned (after e ms, foldl judge d (fired_by e ms), foldl retarget tr (fired_by e ms))
      (concat (act e <$> fired_by e ms))).
Proof.
  revert d tr. induction ms as [|m ms IH]; intros d tr; [apply planned_ret|].
  cbn [apply_matchers after fmap list_fmap]. rewrite fired_by_cons.
  pose proof (observe_scenario m e) as Hs. destruct (observe m e) as [fires m1]. cbn [fst snd] in *.
  rewrite Hs. set (l := (if fires then [_] else []) ++ _).
  assert (∃ d' tr' p, emits (if fires then _ ← perform (TraceLine (Fault e (scenario m)));
                 run_action (action (scenario m)) d tr else mret (d, tr)) (planned (d', tr') p) ∧
    foldl judge d l = foldl judge d' (fired_by e ms) ∧ foldl retarget tr l = foldl retarget tr' (fired_by e ms) ∧
    concat (act e <$> l) = p ++ concat (act e <$> fired_by e ms)) as (d' & tr' & p & Hp & -> & -> & ->).
  { unfold l. destruct fires.
    - eexists _, _, _. split; [apply run_action_planned|]. done.
    - exists d, tr, []. split; [apply planned_ret|]. done. }
  eapply planned_bind; [exact Hp|]. cbn beta iota.
  rewrite <-(app_nil_r (concat _)). eapply planned_bind; [apply IH|]. cbn beta iota. apply planned_ret.
Qed.

Lemma apply_events_planned es ms d tr :
  emits (apply_events es ms d tr)
    (planned (after_all es ms, foldl judge d (snd <$> fired_all es ms), foldl retarget tr (snd <$> fired_all es ms))
      (plan es ms)).
Proof.
  revert ms d tr. induction es as [|e es IH]; intros ms d tr; [apply planned_ret|].
  cbn [apply_events plan after_all fired_all].
  change (TraceLine (Semantic e) :: ?k) with ([TraceLine (Semantic e)] ++ k).
  eapply planned_bind; [by apply planned_perform|].
  rewrite fmap_app, !foldl_app, <-list_fmap_compose.
  replace (snd ∘ (e,.) <$> fired_by e ms) with (fired_by e ms) by (symmetry; apply list_fmap_id).
  eapply planned_bind; [apply apply_matchers_planned|]. cbn beta iota. apply IH.
Qed.

(** *** What a plan holds *)

Lemma act_reads e s : quiet (act e s) ∧ semantics (act e s) = [] ∧ faults (act e s) = [(e, s)].
Proof.
  unfold act, delay_effects, disconnect_effects, quiet.
  repeat case_match; split_and!; try done; by repeat constructor.
Qed.

Lemma acts_reads e ss :
  quiet (concat (act e <$> ss)) ∧ semantics (concat (act e <$> ss)) = [] ∧
  faults (concat (act e <$> ss)) = (e,.) <$> ss.
Proof.
  induction ss as [|s ss (IH1 & IH2 & IH3)]; [by repeat constructor|].
  destruct (act_reads e s) as (H1 & H2 & H3). rewrite fmap_cons. cbn [concat].
  rewrite quiet_app, semantics_app, faults_app, H2, H3, IH2, IH3. done.
Qed.

Lemma plan_reads es ms :
  quiet (plan es ms) ∧ semantics (plan es ms) = es ∧ faults (plan es ms) = fired_all es ms.
Proof.
  revert ms. induction es as [|e es IH]; intros ms; [by repeat constructor|].
  destruct (acts_reads e (fired_by e ms)) as (H1 & H2 & H3). destruct (IH (after e ms)) as (H4 & H5 & H6).
  cbn [plan fired_all]. change (TraceLine (Semantic e) :: ?k) with ([TraceLine (Semantic e)] ++ k).
  rewrite !quiet_app, !semantics_app, !faults_app, H2, H3, H5, H6. split_and!; try done. by repeat constructor.
Qed.

Lemma omap_prefix {A B} (f : A → option B) l l' : l `prefix_of` l' → omap f l `prefix_of` omap f l'.
Proof. intros [k ->]. rewrite omap_app. by exists (omap f k). Qed.

Lemma plan_prefix_reads es ms l :
  part_of l (plan es ms) →
  quiet l ∧ semantics l `prefix_of` es ∧ faults l `prefix_of` fired_all es ms.
Proof.
  intros (l0 & t & -> & Hl & Ht). destruct (plan_reads es ms) as (H1 & H2 & H3).
  destruct (torn_reads t Ht) as (H4 & H5 & H6).
  rewrite quiet_app, semantics_app, faults_app, H5, H6, !app_nil_r. split_and!; [|done|..].
  - by eapply quiet_prefix.
  - rewrite <-H2. by apply omap_prefix.
  - rewrite <-H3. by apply omap_prefix.
Qed.

(** *** Matchers along a plan *)

Definition unfired (ms : list Matcher) : nat := length (filter (λ m, fired m = false) ms).

Lemma unfired_after e ms : unfired (after e ms) + length (fired_by e ms) = unfired ms.
Proof.
  induction ms as [|m ms IH]; [done|]. rewrite fired_by_cons. unfold unfired, after in *.
  rewrite fmap_cons, !filter_cons, length_app. rewrite observe_hit.
  destruct (fired m) eqn:Hf; simpl; rewrite ?Hf; [simpl; lia|].
  destruct (hit (scenario m) e); simpl; rewrite ?Hf; [|simpl; lia].
  case_bool_decide; simpl; lia.
Qed.

Lemma unfired_after_all es ms : unfired (after_all es ms) + length (fired_all es ms) = unfired ms.
Proof.
  revert ms. induction es as [|e es IH]; intros ms; simpl; [lia|].
  rewrite length_app, length_fmap. specialize (IH (after e ms)). pose proof (unfired_after e ms). lia.
Qed.

(** A matcher that is still to fire on events of this name. *)
Definition armed (n : string) (ms : list Matcher) : Prop :=
  ∃ m, m ∈ ms ∧ fired m = false ∧ When.event (when (scenario m)) = n.

Lemma armed_after n e ms : armed n (after e ms) → armed n ms.
Proof.
  intros (m & Hm & Hf & Hn). unfold after in Hm. apply list_elem_of_fmap in Hm as (m0 & -> & Hm0).
  exists m0. rewrite observe_scenario in Hn. split_and!; try done.
  destruct (fired m0) eqn:E; [|done]. by rewrite observe_fired_mono in Hf; simpl in Hf; congruence.
Qed.

Lemma armed_after_all n es ms : armed n (after_all es ms) → armed n ms.
Proof. revert ms. induction es as [|e es IH]; intros ms; [done|]. intros Hn%IH. by eapply armed_after. Qed.

Lemma fired_by_armed e s ms : s ∈ fired_by e ms → hit s e = true ∧ armed (event_name e) ms.
Proof.
  unfold fired_by. rewrite list_elem_of_omap. intros (m & Hm & Hs).
  destruct (observe m e) as [[] m'] eqn:Ho; simpl in Hs; [|done]. injection Hs as <-.
  destruct (observe_true _ _ _ Ho) as (Hf & Hh & _). split; [done|]. exists m. split_and!; try done.
  unfold hit in Hh. destruct_and? Hh. by to_prop.
Qed.

Lemma fired_all_armed e s es ms :
  (e, s) ∈ fired_all es ms → e ∈ es ∧ hit s e = true ∧ armed (event_name e) ms.
Proof.
  revert ms. induction es as [|e' es IH]; intros ms; simpl; [by intros ?%elem_of_nil|].
  rewrite elem_of_app, list_elem_of_fmap. intros [(s' & [= -> ->] & Hs)|Hes].
  - destruct (fired_by_armed _ _ _ Hs). split_and!; [by left|done..].
  - destruct (IH _ Hes) as (? & ? & ?%armed_after). split_and!; [by right|done..].
Qed.

Lemma fired_all_app es es' ms : fired_all (es ++ es') ms = fired_all es ms ++ fired_all es' (after_all es ms).
Proof. revert ms. induction es as [|e es IH]; intros ms; simpl; [done|]. by rewrite IH, app_assoc. Qed.

Lemma after_all_app es es' ms : after_all (es ++ es') ms = after_all es' (after_all es ms).
Proof. revert ms. induction es as [|e es IH]; intros ms; simpl; [done|]. by rewrite IH. Qed.

Lemma judge_all d ss :
  foldl judge d ss = mk_disposition (suppress d || existsb suppresses ss) (disconnect d || existsb disconnects ss).
Proof.
  revert d. induction ss as [|s ss IH]; intros d; simpl; [by rewrite !orb_false_r; destruct d|].
  rewrite IH. simpl. by rewrite !orb_assoc.
Qed.
End plan.

(** ** The turns of the loop *)

Section turns.
Context `{Sha256} `{Humantime}.

(** The trace follows the observer: the semantic records of the turn are the
    events of these observations (all of them if the turn goes on), and the
    faults those of the scenarios that fire on them. *)
Definition follows (os : list obs) (c : Conn) (o : outcome flow) (l : list effect) : Prop :=
  let es := (run os (state c)).1 in
  semantics l `prefix_of` es ∧ faults l `prefix_of` fired_all es (matchers c) ∧
  match o with
  | Ret (Go c') =>
    semantics l = es ∧ faults l = fired_all es (matchers c) ∧
    state c' = (run os (state c)).2 ∧ matchers c' = after_all es (matchers c) ∧
    existsb disconnects (snd <$> faults l) = false
  | Panic _ => False
  | _ => True
  end.

(** A turn of the client branch. *)
Definition client_turn (f : Frame) (c : Conn) (o : outcome flow) (l : list effect) : Prop :=
  (∃ os, (os = [Fe f] ∨ os = [Fe f; Fwd]) ∧ follows os c o l) ∧
  sent Side.Frontend l = [] ∧ sent Side.Upstream l `prefix_of` raw f ∧
  match o with
  | Ret (Go c') =>
    held c' = held c ∧ held_size c' = held_size c ∧
    truncate c' = foldl retarget (truncate c) (snd <$> faults l) ∧
    (sent Side.Upstream l = raw f ∨
     sent Side.Upstream l = [] ∧ existsb suppresses (snd <$> faults l) = true)
  | Ret Stop => tag f = "X"%byte ∨ existsb disconnects (snd <$> faults l) = true
  | _ => True
  end.

Lemma run1 o s : run [o] s = obs_step o s.
Proof. rewrite run_cons. simpl. rewrite app_nil_r. by destruct (obs_step o s). Qed.

Lemma plan_app es es' ms : plan (es ++ es') ms = plan es ms ++ plan es' (after_all es ms).
Proof. revert ms. induction es as [|e es IH]; intros ms; simpl; [done|]. by rewrite IH, app_assoc. Qed.

(** What a list reads as once the planned part and the writes are known. *)
Lemma reads_plan es ms l :
  semantics (plan es ms ++ l) = es ++ semantics l ∧
  faults (plan es ms ++ l) = fired_all es ms ++ faults l ∧
  ∀ sd, sent sd (plan es ms ++ l) = sent sd l.
Proof.
  destruct (plan_reads es ms) as (H1 & H2 & H3).
  rewrite semantics_app, faults_app, H2, H3. split_and!; [done..|].
  intros sd. by rewrite sent_app, quiet_sent.
Qed.

Lemma prefix_reads es ms l :
  part_of l (plan es ms) →
  (∀ sd, sent sd l = []) ∧ semantics l `prefix_of` es ∧ faults l `prefix_of` fired_all es ms.
Proof.
  intros Hl. destruct (plan_prefix_reads es ms l Hl) as (H1 & H2 & H3).
  split_and!; [|done..]. intros sd. by apply quiet_sent.
Qed.

Lemma sent_partial sd sd' s n :
  sent sd (partial (WriteTo sd' s) n) = if bool_decide (sd' = sd) then take n s else [].
Proof. unfold sent. simpl. case_bool_decide; simpl; by rewrite ?app_nil_r. Qed.

Lemma apply_then {A} es ms tr (k : list Matcher * Disposition * option Z → IO A) (P : outcome A → list effect → Prop) :
  (∀ e l, part_of l (plan es ms) → P (Fail e) l) →
  (let ss := snd <$> fired_all es ms in
   emits (k (after_all es ms, mk_disposition (existsb suppresses ss) (existsb disconnects ss), foldl retarget tr ss))
     (λ o l, P o (plan es ms ++ l))) →
  emits (apply es ms tr ≫= k) P.
Proof.
  intros Hf Hk. unfold apply. eapply emits_bind; [apply apply_events_planned| |apply Hf|done].
  intros [[ms' d] tr'] l [[= -> -> ->] ->]. rewrite judge_all. exact Hk.
Qed.

(** The client branch after the events of its frame. *)
Definition forward (f : Frame) (st : ConnectionState) (ms : list Matcher) (sup : bool) (tr : option Z) (c : Conn)
    : IO flow :=
  if sup then mret (Go (mk_conn st ms (held c) (held_size c) tr)) else
  _ ← perform (WriteTo Side.Upstream (raw f));
  if Byte.eqb (tag f) "Q"%byte || Byte.eqb (tag f) "E"%byte then
    let '(e, st) := forwarded st in
    '(ms, d, tr) ← apply [e] ms tr;
    if disconnect d : bool then mret Stop
    else mret (Go (mk_conn st ms (held c) (held_size c) tr))
  else mret (Go (mk_conn st ms (held c) (held_size c) tr)).

Lemma on_client_eq f c :
  on_client (Some f) c =
    ('(ms, d, tr) ← apply (frontend f (state c)).1 (matchers c) (truncate c);
     if disconnect d : bool then mret Stop else
     k ← forward f (frontend f (state c)).2 ms (suppress d) tr c;
     if Byte.eqb (tag f) "X"%byte then mret Stop else mret k).
Proof. unfold on_client, forward. by destruct (frontend f (state c)). Qed.

(** What forwarding does: nothing, or the bytes of the frame and the events of its forwarding. *)
Definition forwards (f : Frame) (st : ConnectionState) (ms : list Matcher) (sup : bool) (tr : option Z) (c : Conn)
    (o : outcome flow) (l : list effect) : Prop :=
  ∃ fwd, (fwd = [] ∨ fwd = [Fwd]) ∧
    let es := (run fwd st).1 in
    semantics l `prefix_of` es ∧ faults l `prefix_of` fired_all es ms ∧
    sent Side.Frontend l = [] ∧ sent Side.Upstream l `prefix_of` raw f ∧
    match o with
    | Ret (Go c') =>
      semantics l = es ∧ faults l = fired_all es ms ∧ state c' = (run fwd st).2 ∧ matchers c' = after_all es ms ∧
      existsb disconnects (snd <$> faults l) = false ∧ held c' = held c ∧ held_size c' = held_size c ∧
      truncate c' = foldl retarget tr (snd <$> faults l) ∧ sent Side.Upstream l = (if sup then [] else raw f)
    | Ret Stop => existsb disconnects (snd <$> faults l) = true
    | Fail _ => True
    | Panic _ => False
    end.

Lemma sent_same sd s l : sent sd (WriteTo sd s :: l) = s ++ sent sd l.
Proof. unfold sent. simpl. by rewrite bool_decide_eq_true_2. Qed.
Lemma sent_other sd sd' s l : sd' ≠ sd → sent sd (WriteTo sd' s :: l) = sent sd l.
Proof. intros. unfold sent. simpl. by rewrite bool_decide_eq_false_2. Qed.

Lemma forward_forwards f st ms sup tr c : emits (forward f st ms sup tr c) (forwards f st ms sup tr c).
Proof.
  unfold forward. destruct sup.
  { apply emits_ret. exists []. split; [by left|]. cbn. split_and!; (done || apply prefix_nil). }
  eapply (emits_bind _ _ (λ o l, match o with Ret _ => l = [WriteTo Side.Upstream (raw f)]
    | Fail _ => ∃ n, l = partial (WriteTo Side.Upstream (raw f)) n | Panic _ => False end)).
  { apply emits_perform; [done|]. intros e n. by exists n. }
  2: { intros e l [n ->]. exists []. split; [by left|]. rewrite !sent_partial. cbn -[bool_decide].
    rewrite bool_decide_eq_false_2, bool_decide_eq_true_2 by done.
    split_and!; (done || apply prefix_take || apply prefix_nil). }
  2: done.
  intros [] l ->. cbn [app]. destruct (_ || _).
  2: { apply emits_ret. exists []. split; [by left|]. cbn zeta. rewrite sent_same, sent_other by done. cbn.
    rewrite app_nil_r. split_and!; (done || apply prefix_nil). }
  pose proof (run1 Fwd st) as Hrun. cbn [obs_step] in Hrun. destruct (forwarded st) as [e st'].
  apply apply_then.
  { intros err l Hl. exists [Fwd]. split; [by right|]. rewrite Hrun. cbn zeta.
    destruct (prefix_reads _ _ _ Hl) as (Hs & H1 & H2). rewrite sent_same, sent_other, !Hs, app_nil_r by done. by split_and!. }
  cbn zeta. destruct (plan_reads [e] ms) as (Hq & H1 & H2). destruct (existsb disconnects _) eqn:Hd; cbn [disconnect].
  all: apply emits_ret; exists [Fwd]; split; [by right|]; rewrite Hrun, app_nil_r; cbn zeta; cbn [fst snd].
  all: rewrite sent_same, sent_other, !(quiet_sent _ _ Hq), app_nil_r by done.
  all: change (semantics (_ :: ?p)) with (semantics p); change (faults (_ :: ?p)) with (faults p); rewrite H1, H2.
  all: by split_and!.
Qed.

Lemma client_turn_app f c es st o l :
  run [Fe f] (state c) = (es, st) →
  existsb disconnects (snd <$> fired_all es (matchers c)) = false →
  forwards f st (after_all es (matchers c)) (existsb suppresses (snd <$> fired_all es (matchers c)))
    (foldl retarget (truncate c) (snd <$> fired_all es (matchers c))) c o l →
  client_turn f c o (plan es (matchers c) ++ l).
Proof.
  intros Hrun Hd (fwd & Hfwd & Hsem & Hflt & HF & HU & Ho).
  destruct (reads_plan es (matchers c) l) as (R1 & R2 & R3).
  assert (Hos : run (Fe f :: fwd) (state c) = (es ++ (run fwd st).1, (run fwd st).2)).
  { rewrite run_cons. rewrite run1 in Hrun. by rewrite Hrun. }
  unfold client_turn. rewrite !R3, R2, fmap_app, !existsb_app, Hd. split_and!; [|done|done|].
  - exists (Fe f :: fwd). split; [by destruct Hfwd as [-> | ->]; auto|].
    unfold follows. rewrite Hos, R1, R2, fmap_app, existsb_app, Hd. cbn [fst snd].
    rewrite fired_all_app, after_all_app.
    split_and!; [by apply prefix_app..|]. destruct o as [[c'|]|e|]; try done.
    destruct Ho as (-> & -> & -> & -> & -> & _). done.
  - destruct o as [[c'|]|e|]; try done; [|by right].
    destruct Ho as (_ & _ & _ & _ & _ & -> & -> & -> & ->). rewrite foldl_app.
    split_and!; try done. destruct (existsb suppresses _); [by right|by left].
Qed.

Lemma client_turn_stop f c o l : tag f = "X"%byte → (∃ k, o = Ret k) → client_turn f c o l → client_turn f c (Ret Stop) l.
Proof.
  intros HX [k ->] ((os & Hos & Hs & Hf & _) & HF & HU & _). unfold client_turn.
  split_and!; [|done|done|by left]. by exists os.
Qed.

Lemma on_client_turn f c : emits (on_client (Some f) c) (client_turn f c).
Proof.
  rewrite on_client_eq. pose proof (run1 (Fe f) (state c)) as Hrun. cbn [obs_step] in Hrun.
  destruct (frontend f (state c)) as [es st]. cbn [fst snd]. apply apply_then.
  { intros err l Hl. destruct (prefix_reads _ _ _ Hl) as (Hs & H1 & H2). unfold client_turn. rewrite !Hs.
    split_and!; [|done|apply prefix_nil|done].
    exists [Fe f]. split; [by left|]. unfold follows. by rewrite Hrun. }
  cbn zeta. destruct (plan_reads es (matchers c)) as (Hq & H1 & H2).
  destruct (existsb disconnects _) eqn:Hd; cbn [disconnect suppress].
  { apply emits_ret. rewrite app_nil_r. unfold client_turn. rewrite !(quiet_sent _ _ Hq).
    split_and!; [|done|apply prefix_nil|right; by rewrite H2].
    exists [Fe f]. split; [by left|]. unfold follows. by rewrite Hrun, H1, H2. }
  eapply emits_bind; [apply forward_forwards| |..].
  - intros k l Hl. pose proof (client_turn_app _ _ _ _ _ _ Hrun Hd Hl) as Ht.
    destruct (byte_eqb_spec (tag f) "X"%byte) as [HX|]; apply emits_ret; rewrite app_nil_r; [|done].
    eapply client_turn_stop; eauto.
  - intros err l Hl. by eapply client_turn_app.
  - by intros err l (fwd & _ & _ & _ & _ & _ & ?).
Qed.

(** *** The server branch *)

(** Is the frame held back behind the completion gate? *)
Definition withholds (f : Frame) (c : Conn) : bool := gate f c || negb (bool_decide (held c = [])).
(** The bytes the client gets for a frame, and the ones held back after it. *)
Definition delivered (f : Frame) (c : Conn) (sup : bool) : bytes :=
  if Byte.eqb (tag f) "Z"%byte then (if sup then [] else concat (held c) ++ raw f)
  else if sup || withholds f c then [] else raw f.
Definition kept (f : Frame) (c : Conn) (sup : bool) : list bytes :=
  if Byte.eqb (tag f) "Z"%byte then [] else if sup then held c
  else if withholds f c then held c ++ [raw f] else held c.
Definition kept_size (f : Frame) (c : Conn) (sup : bool) : Z :=
  if Byte.eqb (tag f) "Z"%byte then 0 else if sup then held_size c
  else if withholds f c then u64_add (held_size c) (zlen (raw f)) else held_size c.

Definition deliver (f : Frame) (st : ConnectionState) (ms : list Matcher) (sup : bool) (tr : option Z) (c : Conn)
    : IO Conn :=
  if Byte.eqb (tag f) "Z"%byte then
    _ ← (if sup then mret tt else _ ← write_all_held (held c); perform (WriteTo Side.Frontend (raw f)));
    mret (mk_conn st ms [] 0 None)
  else if sup then mret (mk_conn st ms (held c) (held_size c) tr)
  else if gate f c || negb (bool_decide (held c = [])) then
    let size := u64_add (held_size c) (zlen (raw f)) in
    if (max_held <? size)%Z then
      lift (bail "completion gate exceeded 1 MiB; unsupported pipelined completion")
    else mret (mk_conn st ms (held c ++ [raw f]) size tr)
  else
    _ ← perform (WriteTo Side.Frontend (raw f));
    mret (mk_conn st ms (held c) (held_size c) tr).

Lemma on_server_eq f c :
  on_server (Some f) c =
    ('(ms, d, tr) ← apply (backend f (state c)).1 (matchers c) (truncate c);
     if disconnect d : bool then mret Stop else
     let '(cut, tr) := cut_row f tr in
     if cut : bool then truncated (backend f (state c)).2 else
     c' ← deliver f (backend f (state c)).2 ms (suppress d) tr c;
     if Byte.eqb (tag f) "D"%byte && bool_decide (truncate c' = Some 0%Z)
     then truncated (backend f (state c)).2 else mret (Go c')).
Proof. unfold on_server, deliver. by destruct (backend f (state c)). Qed.

(** A program that only writes these bytes to the client. *)
Definition writes {A} (b : bytes) (o : outcome A) (l : list effect) : Prop :=
  semantics l = [] ∧ faults l = [] ∧ sent Side.Upstream l = [] ∧ sent Side.Frontend l `prefix_of` b ∧
  match o with Ret _ => sent Side.Frontend l = b | Fail _ => True | Panic _ => False end.

Lemma writes_bind {A B} (m : IO A) (k : A → IO B) b b' :
  emits m (writes b) → (∀ a, emits (k a) (writes b')) → emits (m ≫= k) (writes (b ++ b')).
Proof.
  intros Hm Hk. eapply emits_bind; [exact Hm| |..].
  - intros a l (H1 & H2 & H3 & _ & H4). eapply emits_mono; [apply Hk|].
    intros o l' (H5 & H6 & H7 & H8 & H9). unfold writes.
    rewrite semantics_app, faults_app, !sent_app, H1, H2, H3, H4, H5, H6, H7.
    split_and!; [done..|by apply prefix_app|]. destruct o; try done. by rewrite H9.
  - intros e l (H1 & H2 & H3 & H4 & _). split_and!; try done. by apply prefix_app_r.
  - by intros e l (_ & _ & _ & _ & ?).
Qed.

Lemma writes_frame s : emits (perform (WriteTo Side.Frontend s)) (writes s).
Proof.
  apply emits_perform.
  - unfold writes. rewrite sent_same, sent_other by done. simpl. rewrite app_nil_r. split_and!; (done || reflexivity).
  - intros e n. unfold writes. rewrite !sent_partial, bool_decide_eq_false_2, bool_decide_eq_true_2 by done.
    split_and!; try done. apply prefix_take.
Qed.

Lemma writes_ret {A} (a : A) : emits (mret a) (writes []).
Proof. apply emits_ret. by split_and!. Qed.

Lemma writes_held hs : emits (write_all_held hs) (writes (concat hs)).
Proof.
  induction hs as [|s hs IH]; [apply writes_ret|]. cbn [write_all_held concat].
  apply writes_bind; [apply writes_frame|by intros _].
Qed.

Lemma deliver_delivers f st ms sup tr c :
  emits (deliver f st ms sup tr c) (λ o l, writes (delivered f c sup) o l ∧
    match o with
    | Ret c' => state c' = st ∧ matchers c' = ms ∧ held c' = kept f c sup ∧ held_size c' = kept_size f c sup ∧
      (kept f c sup = held c ++ [raw f] → held_size c' ≤ max_held)%Z ∧
      truncate c' = (if Byte.eqb (tag f) "Z"%byte then None else tr)
    | _ => True
    end).
Proof.
  unfold deliver, delivered, kept, kept_size, withholds.
  destruct (Byte.eqb (tag f) "Z"%byte).
  { eapply (emits_bind _ _ (writes (if sup then [] else concat (held c) ++ raw f)));
      [| |by intros e l Hl; split|by intros e l Hl; split].
    - destruct sup; [apply writes_ret|]. apply writes_bind; [apply writes_held|]. intros _. apply writes_frame.
    - intros [] l Hl. apply emits_ret. rewrite app_nil_r. split; [exact Hl|].
      by split_and!. }
  assert (Hne : held c ≠ held c ++ [raw f]).
  { intros E%(f_equal length). rewrite length_app in E. simpl in E. lia. }
  destruct sup; cbn [orb].
  { apply emits_ret. split; [by split_and!|]. by split_and!. }
  destruct (gate f c || _).
  { cbv zeta. destruct (Z.ltb_spec max_held (u64_add (held_size c) (zlen (raw f)))).
    - apply emits_lift. by repeat split.
    - apply emits_ret. split; [by split_and!|]. by split_and!. }
  eapply emits_bind; [apply writes_frame| |by intros e l Hl; split|by intros e l Hl; split].
  intros [] l Hl. apply emits_ret. rewrite app_nil_r. split; [exact Hl|]. by split_and!.
Qed.

Lemma truncated_stops st : emits (truncated st) (λ o l, writes [] o l ∧ (∀ k, o = Ret k → k = Stop)).
Proof.
  assert (Hq : ∀ eff, is_write eff = false → semantics [eff] = [] → faults [eff] = [] →
    emits (perform eff) (writes [])).
  { intros eff Hw Hs Hf. assert (Hsd : ∀ sd, sent sd [eff] = []) by (intros sd; by destruct eff).
    apply emits_perform; [|intros e n; destruct eff; by split_and!].
    unfold writes. rewrite Hs, Hf, !Hsd. by split_and!. }
  unfold truncated. eapply emits_bind; [by apply Hq| |by intros; split|by intros; split].
  intros [] l1 (H1 & H2 & H3 & _ & H4).
  eapply emits_bind; [by apply Hq| |..].
  - intros [] l2 (H5 & H6 & H7 & _ & H8). apply emits_ret. rewrite app_nil_r. unfold writes.
    rewrite semantics_app, faults_app, !sent_app, H1, H2, H3, H4, H5, H6, H7, H8. split; [by split_and!|].
    by intros k [= <-].
  - intros e l2 (H5 & H6 & H7 & H8 & _). unfold writes.
    rewrite semantics_app, faults_app, !sent_app, H1, H2, H3, H4, H5, H6, H7. by split_and!.
  - by intros e l2 (_ & _ & _ & _ & ?).
Qed.

(** The row cut of a frame, given the rows left to deliver. *)
Definition cuts (f : Frame) (tr : option Z) : bool := (cut_row f tr).1.
Definition left_after (f : Frame) (tr : option Z) : option Z :=
  if Byte.eqb (tag f) "Z"%byte then None else (cut_row f tr).2.

(** A turn of the server branch. *)
Definition server_turn (f : Frame) (c : Conn) (o : outcome flow) (l : list effect) : Prop :=
  let es := (run [Be f] (state c)).1 in
  let sup := existsb suppresses (snd <$> faults l) in
  let tr := foldl retarget (truncate c) (snd <$> faults l) in
  follows [Be f] c o l ∧ sent Side.Upstream l = [] ∧
  (sent Side.Frontend l = [] ∨
   faults l = fired_all es (matchers c) ∧ existsb disconnects (snd <$> faults l) = false ∧
   sent Side.Frontend l `prefix_of` delivered f c sup) ∧
  match o with
  | Ret (Go c') =>
    sent Side.Frontend l = delivered f c sup ∧ held c' = kept f c sup ∧ held_size c' = kept_size f c sup ∧
    (kept f c sup = held c ++ [raw f] → held_size c' ≤ max_held)%Z ∧
    truncate c' = left_after f tr ∧ cuts f tr = false ∧ (tag f = "D"%byte → truncate c' ≠ Some 0%Z)
  | Ret Stop =>
    existsb disconnects (snd <$> faults l) = true ∨
    tag f = "D"%byte ∧ (tr = Some 0%Z ∧ sent Side.Frontend l = [] ∨
                       tr = Some 1%Z ∧ sent Side.Frontend l = delivered f c sup)
  | _ => True
  end.

(** What the rest of the turn does once the events are dealt with. *)
Definition server_rest (f : Frame) (st : ConnectionState) (ms : list Matcher) (sup : bool) (tr : option Z) (c : Conn)
    (o : outcome flow) (l : list effect) : Prop :=
  semantics l = [] ∧ faults l = [] ∧ sent Side.Upstream l = [] ∧
  sent Side.Frontend l `prefix_of` delivered f c sup ∧
  match o with
  | Ret (Go c') =>
    state c' = st ∧ matchers c' = ms ∧
    sent Side.Frontend l = delivered f c sup ∧ held c' = kept f c sup ∧ held_size c' = kept_size f c sup ∧
    (kept f c sup = held c ++ [raw f] → held_size c' ≤ max_held)%Z ∧
    truncate c' = left_after f tr ∧ cuts f tr = false ∧ (tag f = "D"%byte → truncate c' ≠ Some 0%Z)
  | Ret Stop =>
    tag f = "D"%byte ∧ (tr = Some 0%Z ∧ sent Side.Frontend l = [] ∨
                       tr = Some 1%Z ∧ sent Side.Frontend l = delivered f c sup)
  | Fail _ => True
  | Panic _ => False
  end.

Lemma cut_row_cases f tr :
  cut_row f tr = (true, tr) ∧ tag f = "D"%byte ∧ tr = Some 0%Z ∨
  (cut_row f tr).1 = false ∧
    (tag f = "D"%byte ∧ (∃ n, tr = Some n ∧ n ≠ 0%Z ∧ (cut_row f tr).2 = Some (n - 1)%Z) ∨
     (tag f ≠ "D"%byte ∨ tr = None) ∧ (cut_row f tr).2 = tr).
Proof.
  unfold cut_row. destruct (byte_eqb_spec (tag f) "D"%byte); [|naive_solver].
  destruct tr as [n|]; [|naive_solver]. case_bool_decide; naive_solver.
Qed.

Lemma server_rest_holds f st ms sup tr c :
  emits (let '(cut, tr) := cut_row f tr in
     if cut : bool then truncated st else
     c' ← deliver f st ms sup tr c;
     if Byte.eqb (tag f) "D"%byte && bool_decide (truncate c' = Some 0%Z) then truncated st else mret (Go c'))
    (server_rest f st ms sup tr c).
Proof.
  destruct (cut_row_cases f tr) as [(E & HD & ->)|(E & Htr)].
  { rewrite E. eapply emits_mono; [apply truncated_stops|]. intros o l ((H1 & H2 & H3 & H4 & H5) & Hk).
    unfold server_rest. apply prefix_nil_inv in H4. rewrite H4. split_and!; try done; [apply prefix_nil|].
    destruct o as [k|e|]; [|done..]. rewrite (Hk k eq_refl). by auto. }
  destruct (cut_row f tr) as [cut tr'] eqn:Ec. cbn [fst snd] in *. subst cut.
  eapply emits_bind; [apply deliver_delivers| |..].
  2: { intros e l [(H1 & H2 & H3 & H4 & H5) _]. by split_and!. }
  2: { by intros e l [(_ & _ & _ & _ & ?) _]. }
  intros c' l [(H1 & H2 & H3 & H4 & H5) (H6 & H7 & H8 & H9 & H10 & H11)].
  destruct (byte_eqb_spec (tag f) "D"%byte) as [HD|HD]; cbn [andb].
  2: { apply emits_ret. rewrite app_nil_r. unfold server_rest, left_after, cuts. rewrite Ec. by split_and!. }
  assert (HZ : Byte.eqb (tag f) "Z"%byte = false) by (by rewrite HD). rewrite HZ in H11.
  case_bool_decide as H0'.
  2: { apply emits_ret. rewrite app_nil_r. unfold server_rest, left_after, cuts. rewrite Ec, HZ. by split_and!. }
  eapply emits_mono; [apply truncated_stops|]. intros o l' ((G1 & G2 & G3 & G4 & G5) & Hk).
  apply prefix_nil_inv in G4. unfold server_rest.
  rewrite semantics_app, faults_app, !sent_app, H1, H2, H3, G1, G2, G3, G4, !app_nil_r.
  split_and!; try done. destruct o as [k|e|]; [|done..]. rewrite (Hk k eq_refl). split; [done|]. right.
  split; [|done]. assert (Ht : tr' = Some 0%Z) by congruence.
  destruct Htr as [(_ & n & -> & Hn & Hn')|([?| ->] & Hn')]; [|done|congruence].
  rewrite Ht in Hn'. injection Hn' as Hn'. f_equal. lia.
Qed.

Lemma on_server_turn f c : emits (on_server (Some f) c) (server_turn f c).
Proof.
  rewrite on_server_eq. unfold server_turn, follows. rewrite !run1. cbn [obs_step].
  destruct (backend f (state c)) as [es st]. cbn [fst snd]. apply apply_then.
  { intros err l Hl. destruct (prefix_reads _ _ _ Hl) as (Hs & H1 & H2). rewrite !Hs.
    split_and!; try done. by left. }
  cbn zeta. destruct (plan_reads es (matchers c)) as (Hq & H1 & H2).
  destruct (existsb disconnects _) eqn:Hd; cbn [disconnect suppress].
  { apply emits_ret. rewrite app_nil_r, !(quiet_sent _ _ Hq), H1, H2. split_and!; try done; by left. }
  eapply emits_mono; [apply server_rest_holds|]. intros o l (R1 & R2 & R3 & R4 & R5).
  destruct (reads_plan es (matchers c) l) as (P1 & P2 & P3).
  rewrite P1, P2, !P3, R1, R2, R3, !app_nil_r. split_and!; try done.
  - destruct o as [[c'|]|e|]; try done. destruct R5 as (-> & -> & _). by split_and!.
  - by right.
  - destruct o as [[c'|]|e|]; try done; [by destruct R5 as (_ & _ & ?)|by right].
Qed.
End turns.
