(* ===== verification/RelayLemmas.v ===== *)
(** * Runs of the relay

    A run of the loop follows a run of the observer over the same frames, in the
    order in which the loop took them.  From that: what the client and the server
    receive, turn by turn. *)

From S2P Require Import Prelude Utf8 Wire Events Scenario State StateLemmas StateEvents StateTx Trace Proxy ProxyLemmas.

(** ** The frames of a run *)

Definition client_frames (ins : list input) : list bytes :=
  omap (λ i, match i with Client (Some f) => Some (raw f) | _ => None end) ins.
Definition server_frames (ins : list input) : list bytes :=
  omap (λ i, match i with Server (Some f) => Some (raw f) | _ => None end) ins.

(** The observations of these turns: each frame once, and after a client frame
    possibly the notice that it was forwarded. *)
Inductive observes : list input → list obs → Prop :=
  | observes_nil : observes [] []
  | observes_client f fwd ins os : fwd = [] ∨ fwd = [Fwd] → observes ins os →
      observes (Client (Some f) :: ins) (Fe f :: fwd ++ os)
  | observes_server f ins os : observes ins os → observes (Server (Some f) :: ins) (Be f :: os).

Section relay.
Context `{Sha256} `{Humantime}.

(** What one turn emits. *)
Definition turn (i : input) (c : Conn) (o : outcome flow) (l : list effect) : Prop :=
  match i with
  | Client (Some f) => client_turn f c o l
  | Server (Some f) => server_turn f c o l
  | _ => semantics l = [] ∧ faults l = [] ∧ (∀ sd, sent sd l = []) ∧ (o = Ret Stop ∨ ∃ e, o = Fail e)
  end.

Lemma relay_step_turn i c : emits (relay_step i c) (turn i c).
Proof.
  assert (Hn : ∀ sd, emits (_ ← perform (Shutdown sd); mret Stop)
    (λ o l, semantics l = [] ∧ faults l = [] ∧ (∀ sd, sent sd l = []) ∧ (o = Ret Stop ∨ ∃ e, o = Fail e))).
  { intros sd. eapply (emits_bind _ _ (λ o l, l = [Shutdown sd] ∧ o = Ret tt ∨ l = [] ∧ ∃ e, o = Fail e)).
    - apply emits_perform; [by left|]. intros e n. right. split; [done|by eexists].
    - intros [] l [[-> _]|[_ [? ?]]]; [|done]. apply emits_ret. split_and!; try done. by left.
    - intros e l [[_ ?]|[-> _]]; [done|]. split_and!; try done. right. by eexists.
    - by intros s l [[_ ?]|[_ [? ?]]]. }
  destruct i as [[f|]|[f|]|e]; [apply on_client_turn|apply Hn|apply on_server_turn|apply Hn|].
  apply emits_lift. split_and!; try done. right. by eexists.
Qed.

Lemma follows_app os os' c c1 o l l' :
  follows os c (Ret (Go c1)) l → follows os' c1 o l' → follows (os ++ os') c o (l ++ l').
Proof.
  intros (_ & _ & Hs & Hf & Hst & Hm & Hd) (Hs' & Hf' & Ho). rewrite Hf in Hd. unfold follows.
  rewrite semantics_app, faults_app, run_app, fmap_app, existsb_app, Hs, Hf, Hd. cbn [fst snd].
  rewrite fired_all_app, after_all_app, <-Hst, <-Hm. split_and!; [by apply prefix_app..|].
  destruct o as [[c'|]|e|]; try done. destruct Ho as (-> & -> & -> & -> & ->). done.
Qed.

Lemma follows_nil c : follows [] c (Ret (Go c)) [].
Proof. by split_and!. Qed.

(** An induction on the turns of the loop: a property of the empty run, extended
    by a turn that goes on and closed by one that does not. *)
Lemma relay_ind (P : list input → Conn → outcome flow → list effect → Prop) :
  (∀ c, P [] c (Ret (Go c)) []) →
  (∀ i ins c c1 l o l', turn i c (Ret (Go c1)) l → P ins c1 o l' → P (i :: ins) c o (l ++ l')) →
  (∀ i ins c o l, turn i c o l → (∀ c', o ≠ Ret (Go c')) → P (i :: ins) c o l) →
  ∀ ins c, emits (relay ins c) (P ins c).
Proof.
  intros Hnil Hgo Hend ins. induction ins as [|i ins IH]; intros c; [by apply emits_ret|].
  cbn [relay]. eapply emits_bind; [apply relay_step_turn| |..].
  - intros [c1|] l Ht.
    + eapply emits_mono; [apply IH|]. intros o l'. by apply Hgo.
    + apply emits_ret. rewrite app_nil_r. by apply Hend.
  - intros e l Ht. by apply Hend.
  - intros s l Ht. by apply Hend.
Qed.

Lemma turn_follows i c o l :
  turn i c o l → ∃ k os, observes (take k [i]) os ∧ follows os c o l ∧ (∀ c', o = Ret (Go c') → k = 1).
Proof.
  destruct i as [[f|]|[f|]|e]; cbn [turn].
  - intros ((os & Hos & Hf) & _). exists 1, os. split_and!; [|done|done].
    destruct Hos as [-> | ->]; [apply (observes_client f [] [] [])|apply (observes_client f [Fwd] [] [])]; auto; constructor.
  - intros (Hs & Hf & _ & Ho). exists 0, []. unfold follows. rewrite Hs, Hf. split_and!; [constructor|done|done|..].
    all: destruct Ho as [->|[e ->]]; done.
  - intros (Hf & _). exists 1, [Be f]. split_and!; [|done|done]. repeat constructor.
  - intros (Hs & Hf & _ & Ho). exists 0, []. unfold follows. rewrite Hs, Hf. split_and!; [constructor|done|done|..].
    all: destruct Ho as [->|[e ->]]; done.
  - intros (Hs & Hf & _ & Ho). exists 0, []. unfold follows. rewrite Hs, Hf. split_and!; [constructor|done|done|..].
    all: destruct Ho as [->|[e' ->]]; done.
Qed.

Lemma observes_app ins os ins' os' : observes ins os → observes ins' os' → observes (ins ++ ins') (os ++ os').
Proof.
  intros Ho Ho'. induction Ho as [|f fwd ins os Hf _ IH|f ins os _ IH]; [done|..].
  - cbn [app]. rewrite <-app_assoc. by constructor.
  - cbn [app]. by constructor.
Qed.

Lemma relay_follows ins c :
  emits (relay ins c) (λ o l, ∃ k os, observes (take k ins) os ∧ follows os c o l ∧
    (∀ c', o = Ret (Go c') → k = length ins)).
Proof.
  revert ins c. apply relay_ind.
  - intros c. exists 0, []. split_and!; [constructor|apply follows_nil|done].
  - intros i ins c c1 l o l' Ht (k & os & Hob & Hf & Hk).
    destruct (turn_follows _ _ _ _ Ht) as (k1 & os1 & Hob1 & Hf1 & Hk1). rewrite (Hk1 c1 eq_refl) in Hob1.
    exists (S k), (os1 ++ os). split_and!; [|by eapply follows_app|intros c' Hc; simpl; f_equal; by eapply Hk].
    apply (observes_app [i] os1 (take k ins) os); done.
  - intros i ins c o l Ht Hne. destruct (turn_follows _ _ _ _ Ht) as (k & os & Hob & Hf & _).
    exists (min k 1), os. split_and!; [|done|intros c' ->; by destruct (Hne c')].
    by destruct k as [|[|k]].
Qed.
End relay.
