(* ===== verification/Delivery.v ===== *)
(** * What a run of the relay delivers

    What a run sends is a subsequence of what there was to send, and all of it
    when no fault has fired. *)

From stdpp Require Import list_numbers.
From S2P Require Import Prelude Utf8 Wire Events Scenario State StateLemmas StateEvents StateTx Trace.
From S2P Require Import Proxy ProxyLemmas RelayLemmas.

Lemma emits_run {A} (m : IO A) P w o w' :
  emits m P → m w = (o, w') → ∃ l, log w' = log w ++ l ∧ P o l.
Proof. intros Hm E. destruct (Hm w) as (l & Hl & _ & HP). rewrite E in *. by exists l. Qed.

(** ** What is delivered *)

Definition is_frame (i : input) : bool := match i with Client (Some _) | Server (Some _) => true | _ => false end.

Lemma sublist_prefix_app {A} (l k : list A) : l `sublist_of` l ++ k.
Proof. apply sublist_inserts_r. done. Qed.

Section delivery.
Context `{Sha256} `{Humantime}.

(** Nothing is made up, altered or reordered: the bytes sent are those of a
    subsequence of what there was to send, cut short at most by a failure. *)
Definition integral (ins : list input) (c : Conn) (o : outcome flow) (l : list effect) : Prop :=
  ∃ cs ss, cs `sublist_of` client_frames ins ∧ sent Side.Upstream l `prefix_of` concat cs ∧
    sent Side.Frontend l `prefix_of` concat ss ∧
    match o with
    | Ret (Go c') => sent Side.Upstream l = concat cs ∧ sent Side.Frontend l = concat ss ∧
        ss ++ held c' `sublist_of` held c ++ server_frames ins
    | _ => ss `sublist_of` held c ++ server_frames ins
    end.

Lemma client_frames_cons i ins : client_frames (i :: ins) = client_frames [i] ++ client_frames ins.
Proof. by destruct i as [[f|]|[f|]|err]. Qed.
Lemma server_frames_cons i ins : server_frames (i :: ins) = server_frames [i] ++ server_frames ins.
Proof. by destruct i as [[f|]|[f|]|err]. Qed.

Lemma delivered_kept f c sup :
  ∃ ss, delivered f c sup = concat ss ∧ ss ++ kept f c sup `sublist_of` held c ++ [raw f].
Proof.
  unfold delivered, kept, withholds. destruct (Byte.eqb (tag f) "Z"%byte); destruct sup; cbn [orb].
  - exists []. split; [done|]. apply sublist_nil_l.
  - exists (held c ++ [raw f]). rewrite concat_app, app_nil_r. simpl. by rewrite app_nil_r.
  - exists []. split; [done|]. apply sublist_prefix_app.
  - destruct (gate f c) eqn:Hg; cbn [orb]; [by exists []|].
    destruct (held c) as [|h hs]; simpl; [|by exists []].
    exists [raw f]. simpl. by rewrite app_nil_r.
Qed.

Lemma turn_integral i c o l : turn i c o l → integral [i] c o l.
Proof.
  destruct i as [[f|]|[f|]|err]; cbn [turn]; unfold integral.
  - intros (_ & HF & HU & Ho). rewrite HF. destruct o as [[c'|]|e|].
    { destruct Ho as (-> & _ & _ & [E|[E _]]); rewrite E; [exists [raw f], []|exists [], []]; simpl.
      - rewrite !app_nil_r. split_and!; try done; by apply sublist_prefix_app.
      - rewrite !app_nil_r. split_and!; try done; apply sublist_nil_l. }
    all: exists [raw f], []; simpl; rewrite !app_nil_r; split_and!; try done; apply sublist_nil_l.
  - intros (_ & _ & Hs & Ho). exists [], []. rewrite !Hs.
    destruct Ho as [->|[e ->]]; split_and!; try done; apply sublist_nil_l.
  - intros (_ & HU & HF & Ho). rewrite HU.
    destruct (delivered_kept f c (existsb suppresses (snd <$> faults l))) as (ss & Hd & Hk).
    destruct o as [[c'|]|e|].
    { destruct Ho as (HF' & -> & _). exists [], ss. rewrite HF', Hd. by split_and!. }
    all: exists [], ss; rewrite <-Hd; split_and!; try done.
    all: try by (destruct HF as [->|(_ & _ & ?)]; [apply prefix_nil|]).
    all: etrans; [apply sublist_inserts_r; done|exact Hk].
  - intros (_ & _ & Hs & Ho). exists [], []. rewrite !Hs.
    destruct Ho as [->|[e ->]]; split_and!; try done; apply sublist_nil_l.
  - intros (_ & _ & Hs & Ho). exists [], []. rewrite !Hs.
    destruct Ho as [->|[e ->]]; split_and!; try done; apply sublist_nil_l.
Qed.

Lemma relay_integral ins c : emits (relay ins c) (integral ins c).
Proof.
  revert ins c. apply relay_ind.
  - intros c. exists [], []. by rewrite app_nil_r.
  - intros i ins c c1 l o l' Ht (cs2 & ss2 & Hc2 & HU2 & HF2 & Ho).
    destruct (turn_integral _ _ _ _ Ht) as (cs1 & ss1 & Hc1 & _ & _ & HU1 & HF1 & Hk).
    exists (cs1 ++ cs2), (ss1 ++ ss2).
    rewrite client_frames_cons, server_frames_cons, !sent_app, HU1, HF1, !concat_app.
    assert (Hss : ∀ k, k `sublist_of` held c1 ++ server_frames ins →
      ss1 ++ k `sublist_of` held c ++ server_frames [i] ++ server_frames ins).
    { intros k Hsub. rewrite app_assoc. etrans; [by apply sublist_app, Hsub|]. rewrite app_assoc.
      by apply sublist_app. }
    split_and!; [by apply sublist_app|by apply prefix_app..|].
    destruct o as [[c'|]|e|]; [|by apply Hss..].
    destruct Ho as (-> & -> & Hk2). split_and!; try done. rewrite <-app_assoc. by apply Hss.
  - intros i ins c o l Ht Hne. destruct (turn_integral _ _ _ _ Ht) as (cs & ss & Hc & HU & HF & Ho).
    exists cs, ss. rewrite client_frames_cons, server_frames_cons.
    split_and!; [by apply sublist_inserts_r|done..|].
    destruct o as [[c'|]|e|]; [by destruct (Hne c')|rewrite app_assoc; by apply sublist_inserts_r..].
Qed.

(** Without a fault everything is delivered or held back. *)
Definition transparent (ins : list input) (c : Conn) (o : outcome flow) (l : list effect) : Prop :=
  ∀ c', o = Ret (Go c') → faults l = [] →
    sent Side.Upstream l = concat (client_frames ins) ∧
    sent Side.Frontend l ++ concat (held c') = concat (held c) ++ concat (server_frames ins).

Lemma delivered_kept_all f c :
  delivered f c false ++ concat (kept f c false) = concat (held c) ++ raw f.
Proof.
  unfold delivered, kept, withholds. destruct (Byte.eqb (tag f) "Z"%byte); cbn [orb].
  - by rewrite app_nil_r.
  - destruct (gate f c); cbn [orb]; [rewrite concat_app; simpl; by rewrite app_nil_r|].
    destruct (held c) as [|h hs] eqn:Eh; simpl; [by rewrite app_nil_r|].
    rewrite concat_app. simpl. by rewrite app_nil_r, app_assoc.
Qed.

Lemma turn_transparent i c o l : turn i c o l → transparent [i] c o l.
Proof.
  intros Ht c' -> Hf. destruct i as [[f|]|[f|]|err]; cbn [turn] in Ht.
  - destruct Ht as (_ & -> & _ & -> & _ & _ & [->|[_ E]]); [simpl; by rewrite !app_nil_r|]. by rewrite Hf in E.
  - by destruct Ht as (_ & _ & _ & [?|[? ?]]).
  - destruct Ht as (_ & -> & _ & -> & -> & _). rewrite Hf. simpl.
    rewrite delivered_kept_all. by rewrite app_nil_r.
  - by destruct Ht as (_ & _ & _ & [?|[? ?]]).
  - by destruct Ht as (_ & _ & _ & [?|[? ?]]).
Qed.

Lemma relay_transparent_ind ins c : emits (relay ins c) (transparent ins c).
Proof.
  revert ins c. apply relay_ind.
  - intros c c' [= <-] _. by rewrite !app_nil_r.
  - intros i ins c c1 l o l' Ht Hrest c' -> Hf.
    rewrite faults_app in Hf. apply app_eq_nil in Hf as [Hf1 Hf2].
    destruct (turn_transparent _ _ _ _ Ht c1 eq_refl Hf1) as [HU HF].
    destruct (Hrest c' eq_refl Hf2) as [HU2 HF2].
    rewrite client_frames_cons, server_frames_cons, !sent_app, !concat_app, HU, HU2. split; [done|].
    by rewrite <-app_assoc, HF2, !app_assoc, HF.
  - intros i ins c o l Ht Hne c' ->. by destruct (Hne c').
Qed.
End delivery.
