(* ===== verification/Window.v ===== *)
(** * The completion window

    Between the CommandComplete of a gated transaction and the ReadyForQuery of
    its cycle nothing is sent to the client; a scenario that fires on the
    completion event and suppresses it or disconnects leaves the client without
    either message. *)

From S2P Require Import Prelude Utf8 Wire Events Scenario State StateLemmas StateEvents StateTx Trace.
From S2P Require Import Proxy ProxyLemmas RelayLemmas Delivery.

(** A turn between the two: any client frame, any server frame but a completion
    or the end of the cycle. *)
Definition between (i : input) : Prop :=
  match i with Client (Some _) => True | Server (Some f) => neutral f | _ => False end.

Lemma upstream_no_completion n : n ∈ upstream_events → n ∉ completions.
Proof.
  assert (Forall (λ n, n ∉ completions) upstream_events) as Hf by in_list.
  rewrite Forall_forall in Hf. apply Hf.
Qed.

Section window.
Context `{Sha256} `{Humantime}.

Lemma relay_app ins1 ins2 c w :
  relay (ins1 ++ ins2) c w =
    (k ← relay ins1 c; match k with Go c' => relay ins2 c' | Stop => mret Stop end) w.
Proof.
  revert c w. induction ins1 as [|i ins1 IH]; intros c w; [done|].
  cbn [app relay]. unfold mbind, io_bind in *.
  destruct (relay_step i c w) as [[[c1|]|e|s] w1]; [apply IH|done..].
Qed.

Lemma emits_relay_app ins1 ins2 c Q P :
  emits (relay ins1 c) Q →
  (∀ c' l, Q (Ret (Go c')) l → emits (relay ins2 c') (λ o l', P o (l ++ l'))) →
  (∀ o l, Q o l → (∀ c', o ≠ Ret (Go c')) → P o l) →
  emits (relay (ins1 ++ ins2) c) P.
Proof.
  intros HQ Hgo Hend w. rewrite relay_app. revert w. change (emits
    (k ← relay ins1 c; match k with Go c' => relay ins2 c' | Stop => mret Stop end) P).
  eapply emits_bind; [exact HQ| |intros e l Hl; by apply Hend..].
  intros [c'|] l Hl; [by apply Hgo|]. apply emits_ret. rewrite app_nil_r. by apply Hend.
Qed.

Lemma emits_and {A} (m : IO A) P Q : emits m P → emits m Q → emits m (λ o l, P o l ∧ Q o l).
Proof.
  intros HP HQ w. destruct (HP w) as (l & Hl & Ho & Hp). destruct (HQ w) as (l' & Hl' & _ & Hq).
  rewrite Hl in Hl'. apply app_inv_head in Hl' as <-. by exists l.
Qed.

(** No event of the window is a completion. *)
Lemma between_neutral ins os : Forall between ins → observes ins os → Forall neutral_obs os.
Proof.
  intros Hb Ho. induction Ho as [|f fwd ins os Hf _ IH|f ins os _ IH]; [done|..].
  - apply Forall_cons in Hb as [_ Hb]. constructor; [done|]. apply Forall_app.
    split; [destruct Hf as [-> | ->]; by repeat constructor|auto].
  - apply Forall_cons in Hb as [Hn Hb]. constructor; auto.
Qed.

Definition no_completion (es : list Event) : Prop := Forall (λ e, event_name e ∉ completions) es.

Lemma backend_no_completion f s : tag f ≠ "Z"%byte → no_completion (backend f s).1.
Proof.
  intros HZ. apply Forall_forall. intros e He Hc.
  destruct (proj1 (ending_emitted (event_name e) f s Hc)) as [? _]; [|done].
  apply elem_of_names. by exists e.
Qed.

Lemma neutral_no_completion os s : Forall neutral_obs os → no_completion (run os s).1.
Proof.
  intros Hos. revert s. induction Hos as [|o os Ho _ IH]; intros s; [constructor|].
  rewrite run_cons. apply Forall_app. split; [|apply IH].
  destruct o as [f|f|].
  - pose proof (obs_vocabulary (Fe f) s) as Hv. eapply Forall_impl; [exact Hv|].
    intros e. apply upstream_no_completion.
  - apply backend_no_completion. by destruct Ho as (_ & _ & ?).
  - pose proof (obs_vocabulary Fwd s) as Hv. eapply Forall_impl; [exact Hv|].
    intros e. apply upstream_no_completion.
Qed.

Lemma no_completion_fault es ms l e s :
  no_completion es → l `prefix_of` fired_all es ms → (e, s) ∈ l → event_name e ∉ completions.
Proof.
  intros Hes Hl He. destruct (fired_all_armed e s es ms) as (Hin & _ & _).
  { destruct Hl as [k ->]. apply elem_of_app. by left. }
  unfold no_completion in Hes. rewrite Forall_forall in Hes. by apply Hes.
Qed.

(** With something held back, nothing is sent until the end of the cycle. *)
Lemma window_quiet ins c :
  emits (relay ins c) (λ o l, Forall between ins → held c ≠ [] →
    sent Side.Frontend l = [] ∧ ∀ c', o = Ret (Go c') → held c' ≠ []).
Proof.
  revert ins c. apply relay_ind.
  - intros c _ Hc. split; [done|]. by intros c' [= <-].
  - intros i ins c c1 l o l' Ht IH Hb Hc. apply Forall_cons in Hb as [Hi Hb].
    assert (sent Side.Frontend l = [] ∧ held c1 ≠ []) as [Hl Hc1].
    { destruct i as [[f|]|[f|]|err]; try done; cbn [turn] in Ht.
      - destruct Ht as (_ & -> & _ & -> & _). done.
      - destruct Ht as (_ & _ & _ & -> & -> & _). destruct Hi as (_ & _ & HZ).
        unfold delivered, kept, withholds. rewrite (byte_eqb_ne _ _ HZ), bool_decide_eq_false_2 by done.
        rewrite orb_true_r. simpl. rewrite orb_true_r. split; [done|].
        destruct (existsb _ _); [done|]. by destruct (held c). }
    destruct (IH Hb Hc1) as [Hl' Ho]. by rewrite sent_app, Hl, Hl'.
  - intros i ins c o l Ht Hne Hb Hc. apply Forall_cons in Hb as [Hi Hb].
    split; [|intros c' ->; by destruct (Hne c')].
    destruct i as [[f|]|[f|]|err]; try done; cbn [turn] in Ht.
    + by destruct Ht as (_ & -> & _).
    + destruct Ht as (_ & _ & [?|(_ & _ & Hp)] & _); [done|]. destruct Hi as (_ & _ & HZ).
      unfold delivered, withholds in Hp. rewrite (byte_eqb_ne _ _ HZ), bool_decide_eq_false_2 in Hp by done.
      rewrite !orb_true_r in Hp. by apply prefix_nil_inv in Hp.
Qed.

(** A fault of the run that came after the window: not one of its events. *)
Lemma fault_after os c o l l' e s :
  Forall neutral_obs os ∨ (∃ f, os = [Be f] ∧ tag f ≠ "Z"%byte) → follows os c o l →
  event_name e ∈ completions → (e, s) ∈ faults (l ++ l') → (e, s) ∈ faults l'.
Proof.
  intros Hos (_ & Hf & _) He. rewrite faults_app, elem_of_app. intros [Hin|?]; [|done]. exfalso.
  assert (Hno : no_completion (run os (state c)).1).
  { destruct Hos as [Hos|(f & -> & HZ)]; [by apply neutral_no_completion|].
    rewrite run1. by apply backend_no_completion. }
  by apply (no_completion_fault _ _ _ _ _ Hno Hf Hin).
Qed.

Lemma gate_armed f c b :
  completion_boundary (state c) f = Some b → armed b (matchers c) → gate f c = true.
Proof.
  intros Hb (m & Hm & Hf & Hn). unfold gate. rewrite Hb. apply existsb_exists.
  exists m. split; [by apply list_elem_of_In|]. unfold needs_gate. rewrite Hf. simpl.
  by rewrite bool_decide_eq_true_2.
Qed.

(** The turn of the ReadyForQuery on which the fault fires. *)
Lemma fault_at_ready f c o l e s :
  server_turn f c o l → (e, s) ∈ faults l → event_name e ∈ completions →
  suppresses s || disconnects s = true →
  sent Side.Frontend l = [] ∧ event_name e ∈ event_name <$> (backend f (state c)).1 ∧ armed (event_name e) (matchers c).
Proof.
  intros ((_ & Hpre & _) & _ & HF & _) Hin He Hs.
  destruct (fired_all_armed e s (run [Be f] (state c)).1 (matchers c)) as (Hev & _ & Harm).
  { destruct Hpre as [k ->]. apply elem_of_app. by left. }
  rewrite run1 in Hev. cbn [obs_step] in Hev.
  assert (Hn : event_name e ∈ event_name <$> (backend f (state c)).1) by (apply elem_of_names; by exists e).
  split_and!; [|done|done]. destruct HF as [?|(_ & Hd & Hp)]; [done|].
  assert (Hex : ∀ p, p s = true → existsb p (snd <$> faults l) = true).
  { intros p Hps. apply existsb_exists. exists s. split; [|done]. apply list_elem_of_In, list_elem_of_fmap. by exists (e, s). }
  destruct (disconnects s) eqn:Ed; [by rewrite (Hex disconnects Ed) in Hd|].
  rewrite orb_false_r in Hs. rewrite (Hex suppresses Hs) in Hp.
  destruct (proj1 (ending_emitted _ f (state c) He) Hn) as [HZ _].
  unfold delivered in Hp. rewrite HZ in Hp. simpl in Hp. by apply prefix_nil_inv in Hp.
Qed.

(** The whole window, for a completion event. *)
Definition withheld (fC : Frame) (mid : list input) (b : string) (o : outcome flow) (l : list effect) : Prop :=
  ∀ e s, (e, s) ∈ faults l → event_name e = b → suppresses s || disconnects s = true →
    (∃ ss, ss `sublist_of` server_frames mid ∧ sent Side.Frontend l `prefix_of` concat ss) ∧
    ((∀ e' s', (e', s') ∈ faults l → suppresses s' = true → event_name e' = b) → sent Side.Frontend l = []).

Lemma window_closes c fC mid fZ b c1 l1 c2 l2 os o l3 :
  b ∈ completions → (b = "transaction.implicit.completed"%string → not_beginning (state c)) →
  tag fC = "C"%byte → Forall between mid →
  server_turn fC c (Ret (Go c1)) l1 →
  Forall neutral_obs os → follows os c1 (Ret (Go c2)) l2 →
  (Forall between mid → held c1 ≠ [] →
    sent Side.Frontend l2 = [] ∧ ∀ c', Ret (Go c2) = Ret (Go c') → held c' ≠ []) →
  integral mid c1 (Ret (Go c2)) l2 →
  server_turn fZ c2 o l3 →
  withheld fC mid b o (l1 ++ l2 ++ l3).
Proof.
  intros Hb Hbegin HC Hmid Ht1 Hos Hf2 Hq2 Hi2 Ht3 e s Hin He Hs.
  pose proof Hb as Hbc. rewrite <-He in Hbc.
  assert (HCZ : tag fC ≠ "Z"%byte) by (by rewrite HC).
  apply (fault_after _ _ _ _ _ e s (or_intror (ex_intro _ fC (conj eq_refl HCZ))) (proj1 Ht1) Hbc) in Hin.
  apply (fault_after _ _ _ _ _ e s (or_introl Hos) Hf2 Hbc) in Hin.
  destruct (fault_at_ready _ _ _ _ _ _ Ht3 Hin Hbc Hs) as (H3 & Hev & Harm).
  destruct Ht1 as ((_ & _ & _ & Hfl & Hst1 & Hm1 & _) & _ & _ & HF1 & Hh1 & _).
  destruct Hf2 as (_ & _ & _ & _ & Hst2 & Hm2 & _).
  assert (Hgate : gate fC c = true).
  { apply (gate_armed fC c b).
    - rewrite He, Hst2, Hst1, run1 in Hev.
      pose proof (gate_announces (state c) fC os fZ b Hb Hbegin HC Hos) as Hg. rewrite run_cons in Hg. by apply Hg.
    - rewrite Hm2, Hm1 in Harm. rewrite He in Harm. by do 2 apply armed_after_all in Harm. }
  unfold delivered, kept, withholds in *. rewrite Hgate in *. rewrite (byte_eqb_ne _ _ HCZ) in *.
  rewrite orb_true_r in HF1. rewrite !sent_app, HF1, H3, app_nil_r. cbn [app orb] in *.
  destruct (existsb suppresses (snd <$> faults l1)) eqn:Hsup.
  - split.
    + destruct Hi2 as (cs & ss & _ & _ & Hp & _ & _ & Hss). rewrite Hh1 in *.
      destruct (decide (held c = [])) as [E|E].
      * rewrite E in Hss. exists ss. split; [|done].
        etrans; [apply sublist_prefix_app|exact Hss].
      * exists []. split; [apply sublist_nil_l|]. by destruct (Hq2 Hmid E) as [-> _].
    + intros Hall. exfalso. apply existsb_exists in Hsup as (s' & Hs' & Hsup).
      apply list_elem_of_In, list_elem_of_fmap in Hs' as ([e' s''] & -> & Hin').
      assert (He' : event_name e' = b).
      { apply (Hall e' s''); [|done]. rewrite !faults_app. apply elem_of_app. by left. }
      rewrite Hfl in Hin'.
      refine (no_completion_fault (run [Be fC] (state c)).1 (matchers c) _ e' s'' _ (reflexivity _) Hin' _).
      * rewrite run1. by apply backend_no_completion.
      * congruence.
  - assert (Hne : held c1 ≠ []) by (rewrite Hh1; by destruct (held c)).
    destruct (Hq2 Hmid Hne) as [-> _]. split; [|done]. exists []. split; [apply sublist_nil_l|done].
Qed.

Lemma window_withheld c fC mid fZ b :
  b ∈ completions → (b = "transaction.implicit.completed"%string → not_beginning (state c)) →
  tag fC = "C"%byte → Forall between mid →
  emits (relay (Server (Some fC) :: mid ++ [Server (Some fZ)]) c) (withheld fC mid b).
Proof.
  intros Hbc Hbegin HC Hmid.
  assert (HCZ : tag fC ≠ "Z"%byte) by (by rewrite HC).
  cbn [relay]. eapply emits_bind; [apply (relay_step_turn (Server (Some fC)))| |..].
  2, 3: intros x l Ht e s Hin He _; exfalso; destruct Ht as (Hf & _);
    rewrite <-(app_nil_r l) in Hin;
    apply (fault_after _ _ _ _ [] e s (or_intror (ex_intro _ fC (conj eq_refl HCZ))) Hf) in Hin;
    [by apply elem_of_nil in Hin|congruence].
  intros [c1|] l1 Ht1.
  2: { apply emits_ret. intros e s Hin He _. exfalso. destruct Ht1 as (Hf & _).
    apply (fault_after _ _ _ _ [] e s (or_intror (ex_intro _ fC (conj eq_refl HCZ))) Hf) in Hin;
    [by apply elem_of_nil in Hin|congruence]. }
  eapply emits_relay_app.
  { eapply emits_and; [apply (relay_follows mid c1)|]. eapply emits_and; [apply (window_quiet mid c1)|apply (relay_integral mid c1)]. }
  - intros c2 l2 ((k & os & Hob & Hf2 & Hk) & Hq2 & Hi2). rewrite (Hk c2 eq_refl), firstn_all in Hob.
    pose proof (between_neutral _ _ Hmid Hob) as Hos.
    cbn [relay]. eapply emits_bind; [apply (relay_step_turn (Server (Some fZ)))| |..].
    + intros k3 l3 Ht3. destruct k3; apply emits_ret; rewrite app_nil_r; by eapply window_closes.
    + intros x l3 Ht3. by eapply window_closes.
    + intros x l3 Ht3. by eapply window_closes.
  - intros o l2 ((k & os & Hob & Hf2 & _) & _) _ e s Hin He _. exfalso.
    assert (Hos : Forall neutral_obs os) by (eapply between_neutral; [|exact Hob]; by apply Forall_take).
    apply (fault_after _ _ _ _ l2 e s (or_intror (ex_intro _ fC (conj eq_refl HCZ))) (proj1 Ht1)) in Hin; [|congruence].
    rewrite <-(app_nil_r l2) in Hin.
    apply (fault_after _ _ _ _ [] e s (or_introl Hos) Hf2) in Hin; [by apply elem_of_nil in Hin|congruence].
Qed.
End window.
