(* ===== verification/RelayTotal.v ===== *)
(** * Runs on a working network

    When every effect succeeds the relay always returns: the scenarios that
    [validate] accepts cannot make it fail, and the only error left is the bound
    of the completion gate. *)

From S2P Require Import Prelude Utf8 Wire Events Scenario State StateLemmas Trace Proxy ProxyLemmas RelayLemmas.

(** Every effect succeeds. *)
Definition works (w : World) : Prop := ∀ n, oracle w n = Done.

(** On a working network the program returns a value of [Q] or fails with an error of [E]. *)
Definition total {A} (m : IO A) (Q : A → Prop) (E : error → Prop) : Prop :=
  ∀ w, works w → works (m w).2 ∧
    match (m w).1 with Ret a => Q a | Fail e => E e | Panic _ => False end.

Lemma total_ret {A} (a : A) (Q : A → Prop) E : Q a → total (mret a) Q E.
Proof. intros HQ w Hw. by split. Qed.

Lemma total_bind {A B} (m : IO A) (k : A → IO B) Q Q' E :
  total m Q E → (∀ a, Q a → total (k a) Q' E) → total (m ≫= k) Q' E.
Proof.
  intros Hm Hk w Hw. destruct (Hm w Hw) as [Hw1 Hq]. unfold mbind, io_bind.
  destruct (m w) as [[a|e|s] w1]; [by apply Hk|done..].
Qed.

Lemma total_perform eff (Q : unit → Prop) E : Q tt → total (perform eff) Q E.
Proof. intros HQ w Hw. unfold perform. rewrite Hw. by split. Qed.

Lemma total_mono {A} (m : IO A) (Q Q' : A → Prop) E : total m Q E → (∀ a, Q a → Q' a) → total m Q' E.
Proof.
  intros Hm HQ w Hw. destruct (Hm w Hw) as [? Hq]. split; [done|]. destruct (m w).1; auto.
Qed.

Section total.
Context `{Sha256} `{Humantime}.

(** The delays of these scenarios parse. *)
Definition delays_parse (s : Scenario) : Prop :=
  ∀ d, Action.delay (action s) = Some d → ∃ n, parse_duration (duration d) = inr n.
Definition runnable (ms : list Matcher) : Prop := Forall (λ m, delays_parse (scenario m)) ms.

(** The bound of the completion gate, and the turns that can meet it. *)
Definition gate_error : error := Bail "completion gate exceeded 1 MiB; unsupported pipelined completion".
Definition may_hold (i : input) (c : Conn) : Prop :=
  match i with Server (Some f) => withholds f c = true | _ => False end.

Lemma run_action_total s d tr E : delays_parse s → total (run_action (action s) d tr) (λ _, True) E.
Proof.
  intros Hs. unfold run_action. eapply (total_bind _ _ (λ _, True)).
  - destruct (Action.delay (action s)) as [dl|] eqn:Ed; [|by apply total_ret].
    destruct (Hs dl Ed) as [n Hn]. unfold humantime_duration. rewrite Hn.
    eapply (total_bind _ _ (λ _, True)); [by intros w Hw|]. intros ? _. by apply total_perform.
  - intros [] _. cbv zeta. destruct (Action.disconnect (action s)); [|by apply total_ret].
    eapply (total_bind _ _ (λ _, True)); [by apply total_perform|]. intros ? _. by apply total_ret.
Qed.

Lemma apply_matchers_total e ms d tr E :
  runnable ms → total (apply_matchers e ms d tr) (λ '(ms', _, _), ms' = after e ms) E.
Proof.
  intros Hms. revert d tr. induction Hms as [|m ms Hm _ IH]; intros d tr; [by apply total_ret|].
  cbn [apply_matchers]. unfold after. rewrite fmap_cons.
  pose proof (observe_scenario m e) as Hs. destruct (observe m e) as [fires m1]. cbn [fst snd] in *.
  eapply (total_bind _ _ (λ _, True)).
  - destruct fires; [|by apply total_ret].
    eapply (total_bind _ _ (λ _, True)); [by apply total_perform|]. intros _ _. rewrite Hs. by apply run_action_total.
  - intros [d' tr'] _. eapply total_bind; [apply IH|]. intros [[ms' d''] tr''] ->. by apply total_ret.
Qed.

Lemma after_runnable e ms : runnable ms → runnable (after e ms).
Proof.
  intros Hms. apply Forall_fmap. eapply Forall_impl; [exact Hms|]. intros m Hm. simpl. by rewrite observe_scenario.
Qed.

Lemma apply_total es ms tr E : runnable ms → total (apply es ms tr) (λ '(ms', _, _), runnable ms') E.
Proof.
  unfold apply. generalize (mk_disposition false false). revert ms tr.
  induction es as [|e es IH]; intros ms tr d Hms; [by apply total_ret|].
  cbn [apply_events]. eapply (total_bind _ _ (λ _, True)); [by apply total_perform|]. intros _ _.
  eapply total_bind; [by apply apply_matchers_total|]. intros [[ms' d'] tr'] ->. by apply IH, after_runnable.
Qed.

Lemma write_all_held_total hs E : total (write_all_held hs) (λ _, True) E.
Proof.
  induction hs as [|h hs IH]; [by apply total_ret|]. cbn [write_all_held].
  eapply (total_bind _ _ (λ _, True)); [by apply total_perform|]. intros _ _. exact IH.
Qed.

Lemma truncated_total st E : total (truncated st) (λ k, ∀ c, k ≠ Go c) E.
Proof.
  unfold truncated. eapply (total_bind _ _ (λ _, True)); [by apply total_perform|]. intros _ _.
  eapply (total_bind _ _ (λ _, True)); [by apply total_perform|]. intros _ _. by apply total_ret.
Qed.

(** A turn that goes on leaves scenarios that can run. *)
Definition flow_runnable (k : flow) : Prop := ∀ c, k = Go c → runnable (matchers c).

Lemma relay_step_total i c (E : error → Prop) :
  runnable (matchers c) → (may_hold i c → E gate_error) → (∀ e, i = ReadError e → E e) →
  total (relay_step i c) flow_runnable E.
Proof.
  intros Hms HE Herr. assert (Hgo : ∀ st ms h n tr, runnable ms →
    total (mret (Go (mk_conn st ms h n tr)) : IO flow) flow_runnable E).
  { intros. apply total_ret. by intros ? [= <-]. }
  assert (Hstop : total (mret Stop : IO flow) flow_runnable E) by by apply total_ret.
  assert (Hend : ∀ sd, total (_ ← perform (Shutdown sd); mret Stop) flow_runnable E).
  { intros sd. eapply (total_bind _ _ (λ _, True)); [by apply total_perform|]. by intros _ _. }
  assert (Htr : ∀ st, total (truncated st) flow_runnable E).
  { intros st. eapply total_mono; [apply truncated_total|]. intros k Hk c' ->. by destruct (Hk c'). }
  destruct i as [[f|]|[f|]|err]; cbn [relay_step]; [rewrite on_client_eq|apply Hend|rewrite on_server_eq|apply Hend|].
  - eapply total_bind; [by apply apply_total|]. intros [[ms d] tr] Hr. destruct (disconnect d); [done|].
    eapply (total_bind _ _ flow_runnable).
    + unfold forward. destruct (suppress d); [by apply Hgo|].
      eapply (total_bind _ _ (λ _, True)); [by apply total_perform|]. intros _ _.
      destruct (_ || _); [|by apply Hgo]. destruct (forwarded _) as [e st].
      eapply total_bind; [by apply apply_total|]. intros [[ms' d'] tr'] Hr'. destruct (disconnect d'); [done|by apply Hgo].
    + intros k Hk. destruct (Byte.eqb _ "X"%byte); [done|by apply total_ret].
  - eapply total_bind; [by apply apply_total|]. intros [[ms d] tr] Hr. destruct (disconnect d); [done|].
    destruct (cut_row f tr) as [[] tr']; [apply Htr|].
    eapply (total_bind _ _ (λ c, runnable (matchers c))).
    + unfold deliver. destruct (Byte.eqb _ "Z"%byte).
      { eapply (total_bind _ _ (λ _, True)); [|intros _ _; by apply total_ret].
        destruct (suppress d); [by apply total_ret|].
        eapply total_bind; [apply write_all_held_total|]. intros _ _. by apply total_perform. }
      destruct (suppress d); [by apply total_ret|].
      change (gate f c || negb (bool_decide (held c = []))) with (withholds f c).
      destruct (withholds f c) eqn:Hw.
      { cbv zeta. case_match; [|by apply total_ret]. intros w Hworks. split; [done|]. by apply HE. }
      eapply (total_bind _ _ (λ _, True)); [by apply total_perform|]. intros _ _. by apply total_ret.
    + intros c' Hc'. destruct (_ && _); [apply Htr|]. apply total_ret. by intros ? [= <-].
  - intros w Hw. split; [done|]. by apply Herr.
Qed.

Lemma relay_total ins c (E : error → Prop) :
  runnable (matchers c) → E gate_error → (∀ e, ReadError e ∈ ins → E e) → total (relay ins c) (λ _, True) E.
Proof.
  revert c. induction ins as [|i ins IH]; intros c Hms Hg Herr; [by apply total_ret|]. cbn [relay].
  eapply total_bind.
  - apply (relay_step_total i c E); [done|done|]. intros e ->. apply Herr. by left.
  - intros [c'|] Hk; [|by apply total_ret]. apply IH; [by apply Hk|done|].
    intros e He. apply Herr. by right.
Qed.

Lemma valid_runnable scenarios :
  Forall (λ s, validate s = Ret tt) scenarios → runnable (matcher_new <$> scenarios).
Proof.
  intros Hs. apply Forall_fmap. eapply Forall_impl; [exact Hs|]. intros s Hv d Hd.
  apply validate_iff in Hv as (_&_&_&_&_&_&Hdel&_). destruct (Hdel d Hd) as (n & ? & _). by exists n.
Qed.
End total.
