(* ===== verification/ProxyProps.v ===== *)
(** * Properties of the relay

    What reaches the client and the server, what the trace records, and what a
    scenario that fires does to a completion and to a result. *)

From stdpp Require Import list_numbers.
From S2P Require Import Prelude Utf8 Wire Events Scenario State StateLemmas StateEvents StateTx StateExtended Trace.
From S2P Require Import Proxy ProxyLemmas RelayLemmas Delivery Window RelayTotal.

(** ** The bound of the gate *)

(** The bytes held back are counted and within the bound. *)
Definition gate_ok (c : Conn) : Prop :=
  held_size c = zlen (concat (held c)) ∧ (held_size c ≤ max_held)%Z.

Lemma kept_ok f c sup h n :
  gate_ok c → (zlen (raw f) < 2 ^ 63)%Z → h = kept f c sup → n = kept_size f c sup →
  (kept f c sup = held c ++ [raw f] → (n ≤ max_held)%Z) →
  n = zlen (concat h) ∧ (n ≤ max_held)%Z.
Proof.
  intros [Hs Hb] Hf -> -> Hk. unfold kept, kept_size in *. unfold max_held in *.
  destruct (Byte.eqb _ "Z"%byte); [by vm_compute|]. destruct sup; [done|]. destruct (withholds f c); [|done].
  split; [|by apply Hk]. pose proof (zlen_nonneg (raw f)). pose proof (zlen_nonneg (concat (held c))).
  rewrite u64_add_small by lia. rewrite Hs, concat_app, zlen_app. simpl. by rewrite app_nil_r.
Qed.

Section props.
Context `{Sha256} `{Humantime}.

Definition small_frames (ins : list input) : Prop :=
  Forall (λ i, match i with Server (Some f) => (zlen (raw f) < 2 ^ 63)%Z | _ => True end) ins.

Lemma relay_gate_ok ins c :
  emits (relay ins c) (λ o l, gate_ok c → small_frames ins → ∀ c', o = Ret (Go c') → gate_ok c').
Proof.
  revert ins c. apply relay_ind.
  - intros c Hc _ c' [= <-]. done.
  - intros i ins c c1 l o l' Ht IH Hc Hs c' Ho. apply Forall_cons in Hs as [Hi Hs].
    refine (IH _ Hs c' Ho).
    destruct i as [[f|]|[f|]|err]; cbn [turn] in Ht.
    + destruct Ht as (_ & _ & _ & Hh & Hn & _). unfold gate_ok. by rewrite Hh, Hn.
    + by destruct Ht as (_ & _ & _ & [?|[? ?]]).
    + destruct Ht as (_ & _ & _ & _ & Hh & Hn & Hk & _). by eapply kept_ok.
    + by destruct Ht as (_ & _ & _ & [?|[? ?]]).
    + by destruct Ht as (_ & _ & _ & [?|[? ?]]).
  - intros i ins c o l _ Hne _ _ c' ->. by destruct (Hne c').
Qed.

(** *** Rows *)

Lemma no_fires e ms : Forall (λ m, fired m = true) ms → fired_by e ms = [] ∧ after e ms = ms.
Proof.
  induction 1 as [|m ms Hm _ [IH1 IH2]]; [done|]. rewrite fired_by_cons. unfold after in *.
  rewrite fmap_cons, observe_fired_mono, IH1, IH2 by done. done.
Qed.

Lemma no_fires_all es ms : Forall (λ m, fired m = true) ms → fired_all es ms = [] ∧ after_all es ms = ms.
Proof.
  intros Hms. induction es as [|e es [IH1 IH2]]; [done|]. simpl. destruct (no_fires e ms Hms) as [-> ->].
  by rewrite IH1, IH2.
Qed.

Lemma row_no_boundary f s : tag f = "D"%byte → completion_boundary s f = None.
Proof. intros E. unfold completion_boundary. by rewrite E. Qed.

Lemma row_delivered f c : tag f = "D"%byte → held c = [] → withholds f c = false ∧ delivered f c false = raw f.
Proof.
  intros HD Hh. unfold delivered, withholds, gate. rewrite (row_no_boundary f _ HD), HD, Hh. done.
Qed.

(** One row with [n] rows left. *)
Lemma row_turn f c o l n :
  tag f = "D"%byte → held c = [] → truncate c = Some n → Forall (λ m, fired m = true) (matchers c) →
  server_turn f c o l →
  match o with
  | Ret (Go c') => n ≠ 0%Z ∧ n ≠ 1%Z ∧ sent Side.Frontend l = raw f ∧ truncate c' = Some (n - 1)%Z ∧
      held c' = [] ∧ matchers c' = matchers c
  | Ret Stop => n = 0%Z ∧ sent Side.Frontend l = [] ∨ n = 1%Z ∧ sent Side.Frontend l = raw f
  | _ => True
  end.
Proof.
  intros HD Hh Htr Hms (Hfol & _ & _ & Ho). destruct (row_delivered f c HD Hh) as [Hw Hdel].
  destruct (no_fires_all (run [Be f] (state c)).1 _ Hms) as [Hnf Haf].
  assert (Hf : faults l = []).
  { destruct Hfol as (_ & Hf & _). rewrite Hnf in Hf. by apply prefix_nil_inv in Hf. }
  rewrite Hf, Htr in Ho. simpl in Ho. rewrite Hdel in Ho. destruct o as [[c'|]|e|]; [|..|done|done].
  - destruct Ho as (-> & -> & _ & _ & Ht & Hc & Hne). specialize (Hne HD).
    destruct Hfol as (_ & _ & _ & _ & _ & -> & _). rewrite Haf.
    unfold kept. rewrite Hw, HD. simpl. unfold left_after, cuts, cut_row in *. rewrite HD in *. simpl in *.
    case_bool_decide; [done|]. simpl in *. split_and!; try done. intros ->. by rewrite Ht in Hne.
  - destruct Ho as [?|(_ & [[[= ->] ->]|[[= ->] ->]])]; [done|by left|by right].
Qed.

Definition rows_of (ds : list Frame) : list input := (λ f, Server (Some f)) <$> ds.

Lemma rows_truncated ds c n :
  Forall (λ f, tag f = "D"%byte) ds → held c = [] → truncate c = Some n →
  Forall (λ m, fired m = true) (matchers c) → (0 ≤ n)%Z → (1 ≤ zlen ds)%Z → (n ≤ zlen ds)%Z →
  emits (relay (rows_of ds) c) (λ o l, ∀ k, o = Ret k → k = Stop ∧ sent Side.Frontend l = concat (raw <$> take (Z.to_nat n) ds)).
Proof.
  intros HD. revert c n. induction HD as [|f ds Hf HD IH]; intros c n Hh Htr Hms Hge H1 Hn; [by unfold zlen in H1|].
  rewrite zlen_cons in *. cbn [rows_of fmap list_fmap relay].
  eapply emits_bind; [apply (relay_step_turn (Server (Some f)))| |done..].
  intros k l Ht. pose proof (row_turn f c _ l n Hf Hh Htr Hms Ht) as Hk. destruct k as [c1|].
  - destruct Hk as (Hn0 & Hn1 & Hs & Htr1 & Hh1 & Hm1).
    eapply emits_mono; [apply (IH c1 (n - 1)%Z); try done; try lia; by rewrite Hm1|].
    intros o l' Ho k Hk. destruct (Ho k Hk) as [-> Hs']. split; [done|]. rewrite sent_app, Hs, Hs'.
    replace (Z.to_nat n) with (S (Z.to_nat (n - 1))) by lia. done.
  - apply emits_ret. intros k [= <-]. split; [done|]. rewrite app_nil_r.
    destruct Hk as [[-> ->]|[-> ->]]; simpl; [done|]. by rewrite app_nil_r.
Qed.

Lemma total_emits {A} (m : IO A) Q E P :
  total m Q E → emits m P → total m (λ a, Q a ∧ ∃ l, P (Ret a) l) E.
Proof.
  intros Ht He w Hw. destruct (Ht w Hw) as [? Hq]. split; [done|]. destruct (He w) as (l & _ & _ & HP).
  destruct (m w).1 as [a|e|s]; [|done..]. eauto.
Qed.

Lemma rows_total ds c n :
  Forall (λ f, tag f = "D"%byte) ds → held c = [] → truncate c = Some n →
  Forall (λ m, fired m = true) (matchers c) → runnable (matchers c) →
  total (relay (rows_of ds) c) (λ _, True) (λ _, False).
Proof.
  intros HD. revert c n. induction HD as [|f ds Hf HD IH]; intros c n Hh Htr Hms Hr; [by apply total_ret|].
  cbn [rows_of fmap list_fmap relay]. eapply total_bind.
  - eapply total_emits; [|apply (relay_step_turn (Server (Some f)))].
    apply (relay_step_total (Server (Some f)) c (λ _, False)); [done| |done].
    cbn [may_hold]. by destruct (row_delivered f c Hf Hh) as [-> _].
  - intros [c1|] [Hk [l Ht]]; [|by apply total_ret].
    destruct (row_turn f c _ l n Hf Hh Htr Hms Ht) as (_ & _ & _ & Htr1 & Hh1 & Hm1).
    apply (IH c1 (n - 1)%Z); try done; [by rewrite Hm1|by apply Hk].
Qed.

(** *** No scenarios *)

Definition plain (i : input) : Prop :=
  match i with Client (Some f) => tag f ≠ "X"%byte | Server (Some _) => True | _ => False end.
Definition idle_conn (c : Conn) : Prop := matchers c = [] ∧ held c = [] ∧ truncate c = None.

Lemma idle_turn i c o l :
  plain i → idle_conn c → turn i c o l →
  faults l = [] ∧ match o with Ret (Go c') => idle_conn c' | Ret Stop => False | _ => True end.
Proof.
  intros Hi (Hm & Hh & Ht). assert (Hno : ∀ es, fired_all es ([] : list Matcher) = [] ∧ after_all es [] = []).
  { intros es. by apply no_fires_all. }
  destruct i as [[f|]|[f|]|err]; try done; cbn [turn].
  - intros ((os & _ & Hfol) & _ & _ & Ho). destruct (Hno (run os (state c)).1) as [Hf Ha].
    destruct Hfol as (_ & Hp & Hfol). rewrite Hm, Hf in Hp. apply prefix_nil_inv in Hp. rewrite Hp in *.
    split; [done|]. destruct o as [[c'|]|e|]; [|by destruct Ho|done..].
    destruct Hfol as (_ & _ & _ & Hm' & _), Ho as (Hh' & _ & Ht' & _). rewrite Hm, Ha in Hm'.
    unfold idle_conn. rewrite Hm', Hh', Hh, Ht', Ht. done.
  - intros (Hfol & _ & _ & Ho). destruct (Hno (run [Be f] (state c)).1) as [Hf Ha].
    destruct Hfol as (_ & Hp & Hfol). rewrite Hm, Hf in Hp. apply prefix_nil_inv in Hp. rewrite Hp in *.
    split; [done|]. rewrite Ht in Ho. cbn in Ho.
    assert (Hw : withholds f c = false).
    { unfold withholds, gate. rewrite Hm, Hh. by destruct (completion_boundary _ _). }
    destruct o as [[c'|]|e|]; [|by destruct Ho as [?|(_ & [[? _]|[? _]])]|done..].
    destruct Hfol as (_ & _ & _ & Hm' & _), Ho as (_ & Hh' & _ & _ & Ht' & _).
    rewrite Hm, Ha in Hm'. unfold idle_conn. rewrite Hm', Hh', Ht'. split_and!; [done| |].
    + unfold kept. rewrite Hw, Hh. by destruct (Byte.eqb _ _).
    + unfold left_after, cut_row. by repeat case_match.
Qed.

Lemma idle_total ins c :
  Forall plain ins → idle_conn c →
  total (relay ins c) (λ k, ∃ c', k = Go c' ∧ idle_conn c') (λ _, False).
Proof.
  intros Hins. revert c. induction Hins as [|i ins Hi _ IH]; intros c Hc; [apply total_ret; by exists c|].
  cbn [relay]. eapply total_bind.
  - eapply total_emits; [|apply (relay_step_turn i)]. apply (relay_step_total i c (λ _, False)).
    { destruct Hc as (-> & _). constructor. }
    2: { by intros e ->. }
    destruct i as [|[f|]|]; try done. cbn [may_hold]. destruct Hc as (Hm & Hh & _).
    unfold withholds, gate. rewrite Hm, Hh. by destruct (completion_boundary _ _).
  - intros k [_ [l Ht]]. destruct (idle_turn _ _ _ _ Hi Hc Ht) as [_ Hk].
    destruct k as [c1|]; [by apply IH|done].
Qed.

Lemma idle_faults ins c :
  emits (relay ins c) (λ o l, Forall plain ins → idle_conn c → faults l = []).
Proof.
  revert ins c. apply relay_ind; [done|..].
  - intros i ins c c1 l o l' Ht IH [Hi Hins]%Forall_cons Hc.
    destruct (idle_turn _ _ _ _ Hi Hc Ht) as [Hf Hc1]. by rewrite faults_app, Hf, IH.
  - intros i ins c o l Ht _ [Hi Hins]%Forall_cons Hc. by destruct (idle_turn _ _ _ _ Hi Hc Ht).
Qed.

(** *** Each scenario once *)

Definition waiting (ms : list Matcher) : list Scenario := scenario <$> filter (λ m, fired m = false) ms.

Lemma fired_by_waiting e ms : fired_by e ms ++ waiting (after e ms) ≡ₚ waiting ms.
Proof.
  induction ms as [|m ms IH]; [done|]. rewrite fired_by_cons. unfold waiting, after in *.
  rewrite fmap_cons, !filter_cons. pose proof (observe_scenario m e) as Hs. rewrite observe_hit in *.
  destruct (fired m) eqn:Hf; simpl in *; rewrite ?Hf; [exact IH|].
  destruct (hit (scenario m) e); simpl in *; rewrite ?Hf.
  - case_bool_decide; simpl; [by rewrite IH|].
    rewrite <-IH. by rewrite Permutation_middle.
  - simpl. rewrite <-IH. by rewrite Permutation_middle.
Qed.

Lemma fired_all_waiting es ms : (snd <$> fired_all es ms) ++ waiting (after_all es ms) ≡ₚ waiting ms.
Proof.
  revert ms. induction es as [|e es IH]; intros ms; [done|]. simpl.
  rewrite fmap_app, <-list_fmap_compose. replace (snd ∘ (e,.) <$> fired_by e ms) with (fired_by e ms) by (symmetry; apply list_fmap_id).
  rewrite <-(fired_by_waiting e ms), <-app_assoc. by rewrite IH.
Qed.

Lemma waiting_new scenarios : waiting (matcher_new <$> scenarios) = scenarios.
Proof.
  unfold waiting. induction scenarios as [|s l IH]; [done|]. rewrite fmap_cons, filter_cons.
  rewrite decide_True by done. rewrite fmap_cons, IH. done.
Qed.

Lemma elem_of_faults e s l : (e, s) ∈ faults l ↔ TraceLine (Fault e s) ∈ l.
Proof.
  unfold faults. rewrite list_elem_of_omap. split.
  - intros (x & Hx & Hxs). destruct x as [| | | | | |[]|]; simplify_eq/=. done.
  - intros Hin. by exists (TraceLine (Fault e s)).
Qed.

(** *** Exactly when a scenario fires *)

(** What a run of events [es], after the events [pre], should fire: at each event
    the scenarios whose target it is. *)
Fixpoint firings (pre es : list Event) (ss : list Scenario) : list (Event * Scenario) :=
  match es with
  | [] => []
  | e :: es =>
      ((e,.) <$> filter (λ s, hit s e = true ∧ (hits s pre + 1 = target s)%Z) ss) ++
      firings (pre ++ [e]) es ss
  end.

(** The matcher of a scenario once the events [pre] have been observed. *)
Definition matcher_at (pre : list Event) (s : Scenario) : Matcher :=
  mk_matcher s (Z.min (hits s pre) (target s)) (bool_decide (target s ≤ hits s pre)%Z).

Lemma hits_snoc s pre e : hits s (pre ++ [e]) = (hits s pre + if hit s e then 1 else 0)%Z.
Proof.
  unfold hits. rewrite filter_app, zlen_app, filter_cons, filter_nil.
  destruct (hit s e); [by rewrite decide_True|by rewrite decide_False].
Qed.

Lemma matcher_at_observe pre s e :
  (0 < target s)%Z → (zlen pre < 2 ^ 64 - 1)%Z →
  observe (matcher_at pre s) e =
    (bool_decide (hit s e = true ∧ (hits s pre + 1 = target s)%Z), matcher_at (pre ++ [e]) s).
Proof.
  intros Ht Hl. assert (Hh : (0 ≤ hits s pre ≤ zlen pre)%Z).
  { split; [apply hits_nonneg|]. unfold hits, zlen. apply Nat2Z.inj_le, length_filter. }
  rewrite observe_hit. unfold matcher_at. rewrite hits_snoc. simpl.
  destruct (hit s e) eqn:He; repeat case_bool_decide; try (exfalso; lia); try naive_solver;
    rewrite ?u64_add_small in * by lia; f_equal; try f_equal; try lia.
Qed.

Lemma fired_all_exact es pre ss :
  Forall (λ s, (0 < target s)%Z) ss → (zlen pre + zlen es < 2 ^ 64)%Z →
  fired_all es (matcher_at pre <$> ss) = firings pre es ss.
Proof.
  intros Hs. revert pre. induction es as [|e es IH]; intros pre Hl; [done|]. rewrite zlen_cons in Hl.
  pose proof (zlen_nonneg es). cbn [fired_all firings]. rewrite <-IH by (rewrite zlen_app; unfold zlen at 2; simpl; lia).
  f_equal; [f_equal|f_equal]; clear IH; induction Hs as [|s ss Ht Hs IHs]; try done.
  - rewrite fmap_cons, fired_by_cons, filter_cons, IHs. rewrite matcher_at_observe by lia. cbn [fst scenario].
    rewrite bool_decide_decide. by destruct (decide _).
  - unfold after in *. rewrite !fmap_cons, IHs. by rewrite matcher_at_observe by lia.
Qed.

(** ** Properties *)

(** C1. Withholding an acknowledgement: when a scenario fires on a transaction's
    completion (commit, rollback or implicit) and suppresses it or disconnects, the
    client has received neither the CommandComplete nor the ReadyForQuery, for any
    frames in between, any other scenarios and any failure of the network; and
    nothing at all since the CommandComplete, unless another scenario suppressed
    that message itself.  (An implicit transaction is not gated at the completion
    of a BEGIN, which a server does not report idle after.) *)
Theorem commit_ack_withheld c w fC mid fZ b o w' :
  b ∈ completions → (b = "transaction.implicit.completed"%string → not_beginning (state c)) →
  tag fC = "C"%byte → Forall between mid →
  relay (Server (Some fC) :: mid ++ [Server (Some fZ)]) c w = (o, w') →
  ∃ l, log w' = log w ++ l ∧
    ∀ e s, TraceLine (Fault e s) ∈ l → event_name e = b → suppresses s || disconnects s = true →
      (∃ ss, ss `sublist_of` server_frames mid ∧ sent Side.Frontend l `prefix_of` concat ss) ∧
      ((∀ e' s', TraceLine (Fault e' s') ∈ l → suppresses s' = true → event_name e' = b) →
       sent Side.Frontend l = []).
Proof.
  intros Hb Hbegin HC Hmid Hr.
  destruct (emits_run _ _ _ _ _ (window_withheld c fC mid fZ b Hb Hbegin HC Hmid) Hr) as (l & Hl & Hw).
  exists l. split; [done|]. intros e s Hin He Hs. rewrite <-elem_of_faults in Hin.
  destruct (Hw e s Hin He Hs) as [H1 H2]. split; [done|]. intros Hall. apply H2.
  intros e' s' Hin'. apply Hall. by apply elem_of_faults.
Qed.

(** C7. Integrity: whatever fires and whatever fails, the server receives the
    bytes of a subsequence of the client's frames and the client the bytes of a
    subsequence of what was held back and the server's frames, in order, the last
    one possibly cut by the failure that ends the connection; what is still held
    back comes after. *)
Theorem relay_integrity ins c w o w' :
  relay ins c w = (o, w') → ∃ l, log w' = log w ++ l ∧ integral ins c o l.
Proof. apply emits_run, relay_integral. Qed.

(** C3. Transparency: as long as no scenario has fired, every frame of the client
    has gone to the server, and every frame of the server to the client or behind
    the gate, byte for byte and in order, for every interleaving of the two. *)
Theorem relay_transparent ins c w c' w' :
  relay ins c w = (Ret (Go c'), w') →
  ∃ l, log w' = log w ++ l ∧
    ((∀ e s, TraceLine (Fault e s) ∉ l) →
     sent Side.Upstream l = concat (client_frames ins) ∧
     sent Side.Frontend l ++ concat (held c') = concat (held c) ++ concat (server_frames ins)).
Proof.
  intros Hr. destruct (emits_run _ _ _ _ _ (relay_transparent_ind ins c) Hr) as (l & Hl & Ht).
  exists l. split; [done|]. intros Hno. apply (Ht c' eq_refl). apply elem_of_nil_inv.
  intros [e s]. rewrite elem_of_faults. apply Hno.
Qed.

(** C34. Pass-through: without scenarios and on a working network the relay never
    stops of itself before a Terminate or the end of a stream, holds nothing back,
    and both sides have received exactly what the other sent. *)
Theorem passthrough ins i m w :
  Forall plain ins → works w →
  ∃ c' w' l, relay ins (conn_new i m []) w = (Ret (Go c'), w') ∧ log w' = log w ++ l ∧ held c' = [] ∧
    sent Side.Upstream l = concat (client_frames ins) ∧
    sent Side.Frontend l = concat (server_frames ins).
Proof.
  intros Hins Hw. assert (Hc : idle_conn (conn_new i m [])) by done.
  destruct (idle_total ins _ Hins Hc w Hw) as [_ Hk].
  destruct (relay ins (conn_new i m []) w) as [o w'] eqn:Hr. cbn [fst snd] in Hk.
  destruct o as [k|e|]; [|done..]. destruct Hk as (c' & -> & Hc').
  destruct (emits_run _ _ _ _ _ (emits_and _ _ _ (relay_transparent_ind ins _) (idle_faults ins _)) Hr) as (l & Hl & Ht & Hf).
  destruct (Ht c' eq_refl (Hf Hins Hc)) as [HU HF]. destruct Hc' as (_ & Hh & _). rewrite Hh in HF.
  exists c', w', l. split_and!; try done. by rewrite app_nil_r in HF.
Qed.

(** C8. Truncation delivers exactly [n] rows: with [n] rows left to deliver and
    every scenario fired, a result of at least that many rows (and at least one)
    ends with the client having received its first [n] rows and nothing else, and
    the connection over, on every working network. *)
Theorem truncation_exact ds c n w :
  Forall (λ f, tag f = "D"%byte) ds → held c = [] → truncate c = Some n →
  Forall (λ m, fired m = true) (matchers c) → runnable (matchers c) →
  (0 ≤ n)%Z → (1 ≤ zlen ds)%Z → (n ≤ zlen ds)%Z → works w →
  ∃ w' l, relay (rows_of ds) c w = (Ret Stop, w') ∧ log w' = log w ++ l ∧
    sent Side.Frontend l = concat (raw <$> take (Z.to_nat n) ds).
Proof.
  intros HD Hh Htr Hms Hr Hge H1 Hn Hw.
  destruct (rows_total ds c n HD Hh Htr Hms Hr w Hw) as [_ Hk].
  destruct (relay (rows_of ds) c w) as [o w'] eqn:Hrun. cbn [fst snd] in Hk.
  destruct o as [k|e|]; [|done..].
  destruct (emits_run _ _ _ _ _ (rows_truncated ds c n HD Hh Htr Hms Hge H1 Hn) Hrun) as (l & Hl & Ho).
  destruct (Ho k eq_refl) as [-> Hs]. by exists w', l.
Qed.

(** C5. Refinement: the trace of a run is a run of the observer.  The loop shows
    the observer each frame it takes once, in the order taken, and a forwarded
    query once more; the semantic records are the events of that run and the
    fault records the firings of the matchers on them, in order (all of them
    while the loop goes on, an initial part if it ends); the loop never panics. *)
Theorem relay_refines_observer ins c w o w' :
  relay ins c w = (o, w') →
  ∃ l k os, log w' = log w ++ l ∧ observes (take k ins) os ∧ follows os c o l ∧
    (∀ c', o = Ret (Go c') → k = length ins).
Proof.
  intros Hr. destruct (emits_run _ _ _ _ _ (relay_follows ins c) Hr) as (l & Hl & k & os & ? & ? & ?).
  by exists l, k, os.
Qed.

(** Once per connection: over a whole connection each scenario fires at most
    once, and only on an event that it selects. *)
Theorem faults_once scenarios i m ins w o w' :
  relay ins (conn_new i m scenarios) w = (o, w') →
  ∃ l, log w' = log w ++ l ∧ snd <$> faults l ⊆+ scenarios ∧
    Forall (λ p, hit p.2 p.1 = true) (faults l).
Proof.
  intros Hr. destruct (emits_run _ _ _ _ _ (relay_follows ins _) Hr) as (l & Hl & k & os & _ & (_ & Hf & _) & _).
  set (es := (run os _).1) in *. set (ms := matchers _) in *. exists l. split; [done|]. split.
  - destruct Hf as [tl Hf]. etrans; [apply submseteq_inserts_r; reflexivity|].
    rewrite <-fmap_app, <-Hf. etrans; [apply submseteq_inserts_r; reflexivity|].
    rewrite fired_all_waiting. unfold ms. cbn [conn_new matchers]. by rewrite waiting_new.
  - apply Forall_forall. intros [e s] Hin. destruct (fired_all_armed e s es ms) as (_ & ? & _); [|done].
    destruct Hf as [tl ->]. apply elem_of_app. by left.
Qed.

(** C31. When a scenario fires: over a whole connection a scenario fires exactly at
    the event that is the target-th of those it selects.  While the relay goes on,
    the fault records are these firings for the recorded events, in order and
    without one missing or more; when it ends, an initial part of those for the
    events it had observed. *)
Theorem faults_exact scenarios i m ins w o w' :
  relay ins (conn_new i m scenarios) w = (o, w') → Forall (λ s, (0 < target s)%Z) scenarios →
  ∃ l es, log w' = log w ++ l ∧ semantics l `prefix_of` es ∧
    ((zlen es < 2 ^ 64)%Z → faults l `prefix_of` firings [] es scenarios) ∧
    ∀ c', o = Ret (Go c') → (zlen (semantics l) < 2 ^ 64)%Z →
      faults l = firings [] (semantics l) scenarios.
Proof.
  intros Hr Hs. destruct (emits_run _ _ _ _ _ (relay_follows ins _) Hr) as (l & Hl & k & os & _ & (He & Hf & Ho) & _).
  set (es := (run os _).1) in *.
  assert (E : matchers (conn_new i m scenarios) = matcher_at [] <$> scenarios).
  { cbn [conn_new matchers]. apply list_fmap_ext. intros _ s Hin%list_elem_of_lookup_2.
    rewrite Forall_forall in Hs. specialize (Hs s Hin). unfold matcher_at, matcher_new, hits, zlen. simpl.
    rewrite Z.min_l, bool_decide_eq_false_2 by lia. done. }
  rewrite E in *. exists l, es. split_and!; [done..| |].
  - intros Hlen. by rewrite fired_all_exact in Hf.
  - intros c' -> Hlen. destruct Ho as (Hes & -> & _). rewrite Hes in *. by apply fired_all_exact.
Qed.

(** C32. The gate is bounded: at every turn of a connection that goes on, the
    bytes held back are exactly the counted ones and at most 1 MiB. *)
Theorem gate_bounded ins i m scenarios w c' w' :
  relay ins (conn_new i m scenarios) w = (Ret (Go c'), w') → small_frames ins →
  held_size c' = zlen (concat (held c')) ∧ (held_size c' ≤ 1048576)%Z.
Proof.
  intros Hr Hs. destruct (emits_run _ _ _ _ _ (relay_gate_ok ins _) Hr) as (l & _ & Hok).
  by apply (Hok ltac:(done) Hs c' eq_refl).
Qed.

(** C33. Scenarios that [validate] accepts never make a connection fail: when
    every effect succeeds, the relay of any frames returns, and the only errors it
    can end with are the bound of the gate and what reading a stream returned; it
    never panics. *)
Theorem valid_scenarios_never_fail scenarios i m ins w :
  Forall (λ s, validate s = Ret tt) scenarios → works w →
  match (relay ins (conn_new i m scenarios) w).1 with
  | Ret _ => True
  | Fail e => e = Bail "completion gate exceeded 1 MiB; unsupported pipelined completion" ∨ ReadError e ∈ ins
  | Panic _ => False
  end.
Proof.
  intros Hs Hw.
  destruct (relay_total ins (conn_new i m scenarios) (λ e, e = gate_error ∨ ReadError e ∈ ins)
    (valid_runnable _ Hs) (or_introl eq_refl) (λ e, @or_intror _ _) w Hw) as [_ Hk]. exact Hk.
Qed.
End props.

(** ** Witnesses *)

#[local] Existing Instance no_sha.

(** A stand-in for [humantime]: every duration is a millisecond. *)
#[local] Instance millisecond : Humantime := λ _, inr 1000000%Z.

Definition network : World := mk_world [] 0 (λ _, Done).

(** A scenario that loses the acknowledgement of the first commit. *)
Definition lose_commit : Scenario :=
  mk_scenario 1 "lose commit" Selector.default (When.mk "transaction.commit.completed" None [] None)
    (Action.mk (Some (mk_suppress true)) None None None).
(** A scenario that truncates the first result after two rows. *)
Definition two_rows : Scenario :=
  mk_scenario 1 "two rows" Selector.default (When.mk "result.started" None [] None)
    (Action.mk None None None (Some (mk_truncate 2))).

Definition row (b : byte) : Frame := msg "D"%byte [b].
Definition notice : Frame := msg "N"%byte [].

Definition lost : list input :=
  [Client (Some (p_frame "s" "select 1")); Server (Some notice)].
Definition committing_conn : Conn := mk_conn committing [matcher_new lose_commit] [] 0 None.
Definition lost_run : outcome flow * World :=
  relay (Server (Some commit_complete) :: lost ++ [Server (Some ready_idle)]) committing_conn network.
Definition lost_fault : Event * Scenario :=
  default (sample_event 0, lose_commit) (head (faults (log lost_run.2))).

Lemma commit_ack_withheld_witness :
  faults (log lost_run.2) = [lost_fault] ∧ event_name lost_fault.1 = "transaction.commit.completed"%string ∧
  sent Side.Frontend (log lost_run.2) = [].
Proof.
  assert (Hf : faults (log lost_run.2) = [lost_fault]) by by vm_compute.
  split_and!; [done|by vm_compute|].
  destruct (commit_ack_withheld committing_conn network commit_complete lost ready_idle
    "transaction.commit.completed" lost_run.1 lost_run.2) as (l & Hl & Hw);
    [by left|done|reflexivity|by repeat constructor|unfold lost_run; apply surjective_pairing|].
  cbn [log network app] in Hl. rewrite Hl in *.
  apply (Hw lost_fault.1 lost_fault.2); [|by vm_compute|by vm_compute|].
  - rewrite <-elem_of_faults, Hf. rewrite <-surjective_pairing. by apply list_elem_of_singleton.
  - intros e' s'. rewrite <-elem_of_faults, Hf. intros E%list_elem_of_singleton _.
    change e' with (e', s').1. rewrite E. by vm_compute.
Defined.

Definition busy : list input :=
  [Client (Some (q_frame "select 1")); Server (Some (row x01)); Client (Some sync); Server (Some notice)].
Definition busy_conn : Conn := conn_new 1 StartupMetadata_default [two_rows].

Lemma relay_integrity_witness :
  ∃ l, log (relay busy busy_conn (mk_world [] 0 (λ n, Broken Elapsed n))).2 = [] ++ l ∧
    integral busy busy_conn (relay busy busy_conn (mk_world [] 0 (λ n, Broken Elapsed n))).1 l.
Proof. apply (relay_integrity busy busy_conn (mk_world [] 0 (λ n, Broken Elapsed n)) _ _ (surjective_pairing _)). Defined.

Definition flow_conn (o : outcome flow) : Conn :=
  match o with Ret (Go c) => c | _ => busy_conn end.

Lemma relay_transparent_witness :
  sent Side.Upstream (log (relay busy busy_conn network).2) = concat (client_frames busy).
Proof.
  destruct (relay_transparent busy busy_conn network (flow_conn (relay busy busy_conn network).1)
    (relay busy busy_conn network).2) as (l & Hl & Ht); [by vm_compute|].
  cbn [log network app] in Hl. rewrite Hl. apply Ht. intros e s. rewrite <-elem_of_faults, <-Hl.
  replace (faults _) with ([] : list (Event * Scenario)) by by vm_compute. by apply not_elem_of_nil.
Defined.

Lemma passthrough_witness :
  ∃ c' w' l, relay busy (conn_new 1 StartupMetadata_default []) network = (Ret (Go c'), w') ∧
    log w' = [] ++ l ∧ held c' = [] ∧ sent Side.Upstream l = concat (client_frames busy) ∧
    sent Side.Frontend l = concat (server_frames busy).
Proof. apply (passthrough busy 1 StartupMetadata_default network); [by repeat constructor|done]. Defined.

(** The result has started, and the scenario has fired on it. *)
Definition started_conn : Conn :=
  flow_conn (relay [Client (Some (q_frame "select 1")); Server (Some (server "T"%byte))] busy_conn network).1.

Lemma truncation_exact_witness :
  ∃ w' l, relay (rows_of [row x01; row x02; row x03]) started_conn network = (Ret Stop, w') ∧
    log w' = [] ++ l ∧ sent Side.Frontend l = raw (row x01) ++ raw (row x02).
Proof.
  apply (truncation_exact [row x01; row x02; row x03] started_conn 2 network);
    [by repeat constructor|by vm_compute..| | |by vm_compute|by vm_compute|by vm_compute|done].
  - assert (E : fired <$> matchers started_conn = [true]) by by vm_compute.
    change (Forall (λ m, fired m = true) (matchers started_conn)).
    destruct (matchers started_conn) as [|m [|]]; simplify_eq/=. by repeat constructor.
  - apply Forall_forall. intros m _ d _. by eexists.
Defined.

Lemma relay_refines_observer_witness :
  ∃ l k os, log (relay busy busy_conn network).2 = [] ++ l ∧ observes (take k busy) os ∧
    follows os busy_conn (relay busy busy_conn network).1 l ∧
    (∀ c', (relay busy busy_conn network).1 = Ret (Go c') → k = length busy).
Proof. apply (relay_refines_observer busy busy_conn network _ _ (surjective_pairing _)). Defined.

Lemma faults_once_witness :
  ∃ l, log (relay busy busy_conn network).2 = [] ++ l ∧ snd <$> faults l ⊆+ [two_rows] ∧
    Forall (λ p, hit p.2 p.1 = true) (faults l).
Proof. apply (faults_once [two_rows] 1 StartupMetadata_default busy network _ _ (surjective_pairing _)). Defined.

Definition result : list input :=
  [Client (Some (q_frame "select 1")); Server (Some (server "T"%byte)); Server (Some (row x01))].

(** The result starts, which fires [two_rows], and nothing else fires. *)
Lemma faults_exact_witness :
  let l := log (relay result busy_conn network).2 in
  length (faults l) = 1 ∧ faults l = firings [] (semantics l) [two_rows].
Proof.
  intros l. split; [by vm_compute|].
  destruct (faults_exact [two_rows] 1 StartupMetadata_default result network _ _ (surjective_pairing _))
    as (l' & es & Hl & _ & _ & Hf); [by repeat constructor|]. cbn [log network app] in Hl.
  assert (E : l = l') by exact Hl. rewrite E.
  apply (Hf (flow_conn (relay result busy_conn network).1)); [by vm_compute|]. rewrite <-E. by vm_compute.
Defined.

Lemma gate_bounded_witness :
  let c' := flow_conn (relay busy busy_conn network).1 in
  held_size c' = zlen (concat (held c')) ∧ (held_size c' ≤ 1048576)%Z.
Proof.
  apply (gate_bounded busy 1 StartupMetadata_default [two_rows] network _ (relay busy busy_conn network).2);
    [by vm_compute|by repeat constructor].
Defined.

Lemma valid_scenarios_never_fail_witness :
  match (relay busy (conn_new 1 StartupMetadata_default [lose_commit; two_rows]) network).1 with
  | Ret _ => True
  | Fail e => e = Bail "completion gate exceeded 1 MiB; unsupported pipelined completion" ∨ ReadError e ∈ busy
  | Panic _ => False
  end.
Proof.
  apply (valid_scenarios_never_fail [lose_commit; two_rows] 1 StartupMetadata_default busy network); [|done].
  by repeat constructor.
Defined.
