(* ===== verification/Session.v ===== *)
(** * The relay on byte streams

    [crates/pgfault-proxy/src/lib.rs], the loop of [connection] with its two
    [FrameReader]s: each turn one branch of the [select!] takes a frame off the
    bytes of its socket, and the reader of the other branch is cancelled, which
    [Wire.next_cancel_safe] shows to lose nothing.  The framing of [Wire] and the
    relay of [Proxy] compose to a transparency theorem about bytes. *)

From S2P Require Import Prelude Utf8 Wire Events Scenario State StateLemmas StateEvents StateTx Trace.
From S2P Require Import Proxy ProxyLemmas RelayLemmas Delivery RelayTotal ProxyProps.

(** ** The loop *)

Section session.
Context `{Sha256} `{Humantime}.

(** The variables of the loop with the readers' buffers, and what the two sockets
    have yet to deliver. *)
Record Session := mk_session {
  client_buffer : bytes;
  client_reads : list read;
  server_buffer : bytes;
  server_reads : list read;
  conn : Conn
}.

(** [client_reader.next(&mut frontend)] has completed: the branch it takes. *)
Definition taken (side : option Frame → input) (o : outcome (option Frame)) (c : Conn) : IO flow :=
  match o with
  | Ret frame => relay_step (side frame) c
  | Fail e => relay_step (ReadError e) c
  | Panic s => lift (Panic s)
  end.

(** One turn of the loop: the branch of [sd] completes; [None] if its socket has
    nothing more to deliver. *)
Definition turn_on (sd : Side.t) (s : Session) : option (IO flow * (Conn → Session)) :=
  match sd with
  | Side.Frontend =>
    let '(o, b, rs) := next (client_buffer s) (client_reads s) in
    o ← o; Some (taken Client o (conn s), mk_session b rs (server_buffer s) (server_reads s))
  | Side.Upstream =>
    let '(o, b, rs) := next (server_buffer s) (server_reads s) in
    o ← o; Some (taken Server o (conn s), mk_session (client_buffer s) (client_reads s) b rs)
  end.

(** The loop over the branches that complete; it waits for ever at a branch whose
    socket is silent. *)
Fixpoint session (schedule : list Side.t) (s : Session) : IO (option Session) :=
  match schedule with
  | [] => mret (Some s)
  | sd :: schedule =>
    match turn_on sd s with
    | None => mret (Some s)
    | Some (step, resume) =>
      k ← step;
      match k with Go c => session schedule (resume c) | Stop => mret None end
    end
  end.

(** ** Bytes *)

Definition read_bytes (rs : list read) : bytes :=
  concat ((λ r, match r with RdBytes s => s | RdErr _ => [] end) <$> rs).

Lemma read_bytes_app rs rs' : read_bytes (rs ++ rs') = read_bytes rs ++ read_bytes rs'.
Proof. unfold read_bytes. by rewrite fmap_app, concat_app. Qed.

(** A frame is cut off the front of the buffer and what has been read. *)
Lemma next_consumes b rs o b' rs' :
  next b rs = (o, b', rs') →
  ∃ used, rs = used ++ rs' ∧
    match o with
    | Some (Ret (Some f)) => b ++ read_bytes used = raw f ++ b'
    | None => rs' = [] ∧ b ++ read_bytes used = b'
    | Some (Panic _) => False
    | _ => True
    end.
Proof.
  revert b. induction rs as [|r rs IH]; intros b; simpl.
  - destruct (decode b) as [[[f|] b1]|e|m] eqn:E; intros [= <- <- <-]; exists []; split; try done.
    + rewrite app_nil_r. by apply decode_split.
    + rewrite app_nil_r. split; [done|]. symmetry. by apply decode_none.
    + by apply decode_no_panic in E.
  - destruct (decode b) as [[[f|] b1]|e|m] eqn:E.
    + intros [= <- <- <-]. exists []. split; [done|]. rewrite app_nil_r. by apply decode_split.
    + apply decode_none in E as ->. destruct r as [[|x s]|e].
      * intros [= <- <- <-]. exists [RdBytes []]. by case_bool_decide.
      * intros Hn. destruct (IH _ Hn) as (used & -> & Ho). exists (RdBytes (x :: s) :: used).
        split; [done|]. change (read_bytes (RdBytes (x :: s) :: used)) with ((x :: s) ++ read_bytes used).
        by rewrite app_assoc.
      * intros [= <- <- <-]. by exists [RdErr e].
    + intros [= <- <- <-]. by exists [].
    + by apply decode_no_panic in E.
Qed.

(** ** Transparency *)

(** What a run from [s] has moved when it goes on. *)
Definition moved (s : Session) (o : outcome (option Session)) (l : list effect) : Prop :=
  is_panic o = false ∧
  ∀ s', o = Ret (Some s') → ∃ ur us,
    client_reads s = ur ++ client_reads s' ∧ server_reads s = us ++ server_reads s' ∧
    (faults l = [] →
      client_buffer s ++ read_bytes ur = sent Side.Upstream l ++ client_buffer s' ∧
      concat (held (conn s)) ++ server_buffer s ++ read_bytes us =
        sent Side.Frontend l ++ concat (held (conn s')) ++ server_buffer s').

Lemma moved_refl s : moved s (Ret (Some s)) [].
Proof. split; [done|]. intros s' [= <-]. exists [], []. split_and!; [done..|]. by rewrite !app_nil_r. Qed.

Lemma moved_trans s s1 o l l' :
  moved s (Ret (Some s1)) l → moved s1 o l' → moved s o (l ++ l').
Proof.
  intros [_ H1] [Hp H2]. split; [done|]. intros s' ->.
  destruct (H1 s1 eq_refl) as (ur & us & -> & -> & Hm). destruct (H2 s' eq_refl) as (ur' & us' & -> & -> & Hm').
  exists (ur ++ ur'), (us ++ us'). rewrite !app_assoc. split_and!; [done..|].
  rewrite faults_app, !read_bytes_app, !sent_app. intros [Hl Hl']%app_eq_nil.
  destruct (Hm Hl) as [HC HS]. destruct (Hm' Hl') as [HC' HS']. split.
  - by rewrite app_assoc, HC, <-!app_assoc, HC'.
  - rewrite !app_assoc in HS |- *. rewrite HS, <-!app_assoc. by rewrite HS'.
Qed.

(** A branch that completes goes on only with a frame, which it moves. *)
Lemma taken_moves side o c :
  (side = Client ∨ side = Server) → (∀ m, o ≠ Panic m) →
  emits (taken side o c) (λ out l, is_panic out = false ∧
    ∀ c', out = Ret (Go c') → ∃ f, o = Ret (Some f) ∧ transparent [side (Some f)] c out l).
Proof.
  intros Hside Ho. assert (Hstep : ∀ i, emits (relay_step i c) (λ out l, is_panic out = false ∧
    transparent [i] c out l ∧ (is_frame i = false → ∀ c', out ≠ Ret (Go c')))).
  { intros i. eapply emits_mono; [apply relay_step_turn|]. intros out l Ht.
    split_and!; [|by apply turn_transparent|].
    - destruct (turn_follows _ _ _ _ Ht) as (k & os & _ & (_ & _ & Hf) & _). by destruct out.
    - intros Hi c' ->. destruct i as [[f|]|[f|]|e]; [done| |done|..]; by destruct Ht as (_ & _ & _ & [?|[? ?]]). }
  destruct o as [[f|]|e|m]; [| | |by destruct (Ho m)]; cbn [taken].
  - eapply emits_mono; [apply Hstep|]. intros out l (? & ? & _). split; [done|]. eauto.
  - eapply emits_mono; [apply Hstep|]. intros out l (? & _ & Hn). split; [done|].
    intros c' ->. destruct (Hn ltac:(by destruct Hside as [-> | ->]) c' eq_refl).
  - eapply emits_mono; [apply Hstep|]. intros out l (? & _ & Hn). split; [done|].
    intros c' ->. destruct (Hn eq_refl c' eq_refl).
Qed.

(** A turn moves one frame from a reader's buffer to the other side. *)
Lemma turn_on_moved sd s step resume :
  turn_on sd s = Some (step, resume) →
  emits step (λ o l, is_panic o = false ∧ ∀ c, o = Ret (Go c) → moved s (Ret (Some (resume c))) l).
Proof.
  intros Ht. destruct sd; cbn [turn_on] in Ht.
  - destruct (next (client_buffer s) (client_reads s)) as [[[o|] b] rs] eqn:En; [|done]. injection Ht as <- <-.
    apply next_consumes in En as (used & Hused & Ho).
    eapply emits_mono; [apply taken_moves; [by left|by destruct o]|]. intros out l [Hp Hgo]. split; [done|].
    intros c ->. destruct (Hgo c eq_refl) as (f & -> & Htr). split; [done|]. intros s' [= <-].
    exists used, []. split_and!; [done..|]. intros Hf. destruct (Htr c eq_refl Hf) as [HU HF]. cbn in HU, HF |- *.
    rewrite app_nil_r in HU, HF. by rewrite HU, Ho, app_nil_r, app_assoc, HF.
  - destruct (next (server_buffer s) (server_reads s)) as [[[o|] b] rs] eqn:En; [|done]. injection Ht as <- <-.
    apply next_consumes in En as (used & Hused & Ho).
    eapply emits_mono; [apply taken_moves; [by right|by destruct o]|]. intros out l [Hp Hgo]. split; [done|].
    intros c ->. destruct (Hgo c eq_refl) as (f & -> & Htr). split; [done|]. intros s' [= <-].
    exists [], used. split_and!; [done..|]. intros Hf. destruct (Htr c eq_refl Hf) as [HU HF]. cbn in HU, HF |- *.
    rewrite app_nil_r in HF. rewrite HU, Ho, app_nil_r. split; [done|]. by rewrite !app_assoc, HF.
Qed.

Lemma session_moved schedule s : emits (session schedule s) (moved s).
Proof.
  revert s. induction schedule as [|sd schedule IH]; intros s; cbn [session]; [apply emits_ret, moved_refl|].
  destruct (turn_on sd s) as [[step resume]|] eqn:Et; [|apply emits_ret, moved_refl].
  eapply emits_bind; [by eapply turn_on_moved| |by intros ? ? [? _]..].
  intros [c|] l [_ Hgo]; [|by apply emits_ret].
  eapply emits_mono; [apply IH|]. intros o l'. apply moved_trans. by apply Hgo.
Qed.

(** ** The frames of a session *)

(** The branch that completes next, and the readers after it, whatever the relay makes of it. *)
Definition input_on (sd : Side.t) (s : Session) : option (input * Session) :=
  let pick (side : option Frame → input) (o : option (outcome (option Frame))) (s : Session) :=
    match o with
    | Some (Ret frame) => Some (side frame, s)
    | Some (Fail e) => Some (ReadError e, s)
    | _ => None
    end in
  match sd with
  | Side.Frontend =>
    let '(o, b, rs) := next (client_buffer s) (client_reads s) in
    pick Client o (mk_session b rs (server_buffer s) (server_reads s) (conn s))
  | Side.Upstream =>
    let '(o, b, rs) := next (server_buffer s) (server_reads s) in
    pick Server o (mk_session (client_buffer s) (client_reads s) b rs (conn s))
  end.

(** The inputs the loop takes off its readers for a schedule. *)
Fixpoint inputs (schedule : list Side.t) (s : Session) : list input :=
  match schedule with
  | [] => []
  | sd :: schedule =>
    match input_on sd s with
    | Some (i, s') => i :: if is_frame i then inputs schedule s' else []
    | None => []
    end
  end.

Definition with_conn (c : Conn) (s : Session) : Session :=
  mk_session (client_buffer s) (client_reads s) (server_buffer s) (server_reads s) c.

(** Where the loop is left, in terms of [relay]. *)
Definition leaves (k : option Session) : flow := match k with Some s => Go (conn s) | None => Stop end.

Lemma inputs_with_conn schedule c s : inputs schedule (with_conn c s) = inputs schedule s.
Proof.
  revert s. induction schedule as [|sd schedule IH]; intros s; [done|]. cbn [inputs].
  assert (Hi : input_on sd (with_conn c s) = (λ p, (p.1, with_conn c p.2)) <$> input_on sd s).
  { destruct sd; cbn [input_on with_conn client_buffer client_reads server_buffer server_reads conn];
      destruct (next _ _) as [[[[fr|e|m]|] b] rs]; done. }
  rewrite Hi. destruct (input_on sd s) as [[i s']|]; [|done]. cbn. by rewrite IH.
Qed.

(** A turn of the loop is a turn of the relay on the input taken. *)
Lemma turn_on_input sd s :
  turn_on sd s = '(i, s') ← input_on sd s; Some (relay_step i (conn s), λ c, with_conn c s').
Proof.
  destruct sd; cbn [turn_on input_on].
  - destruct (next (client_buffer s) (client_reads s)) as [[[[fr|e|m]|] b] rs] eqn:En; try done.
    by apply next_consumes in En as (used & _ & ?).
  - destruct (next (server_buffer s) (server_reads s)) as [[[[fr|e|m]|] b] rs] eqn:En; try done.
    by apply next_consumes in En as (used & _ & ?).
Qed.

(** The end of a stream and a read error end the relay. *)
Lemma relay_step_ends i c ins : is_frame i = false →
  relay (i :: ins) c ≈ relay [i] c.
Proof.
  intros Hi w. cbn [relay]. unfold mbind, io_bind.
  destruct i as [[f|]|[f|]|e]; try done; cbn [relay_step on_client on_server]; unfold mbind, io_bind;
    by destruct (perform _ w) as [[[]|e|m] w'].
Qed.

(** The session is the relay of the inputs its readers yield. *)
Lemma session_relay schedule s :
  (k ← session schedule s; mret (leaves k)) ≈ relay (inputs schedule s) (conn s).
Proof.
  revert s. induction schedule as [|sd schedule IH]; intros s; [done|].
  cbn [session inputs]. rewrite turn_on_input. destruct (input_on sd s) as [[i s']|]; [|done].
  cbn [mbind option_bind]. rewrite io_bind_assoc.
  assert (Hgo : (k ← relay_step i (conn s);
      match k with Go c => (k ← session schedule (with_conn c s'); mret (leaves k)) | Stop => mret Stop end)
    ≈ relay (i :: inputs schedule s') (conn s)).
  { cbn [relay]. apply io_bind_proper; [|done]. intros [c|]; [|done]. rewrite IH.
    cbn [with_conn conn]. by rewrite inputs_with_conn. }
  transitivity (relay (i :: inputs schedule s') (conn s)).
  - rewrite <-Hgo. apply io_bind_proper; [|done]. by intros [c|].
  - destruct (is_frame i) eqn:Hi; [done|]. by apply relay_step_ends.
Qed.

(** Each side's frames are the first bytes of what its socket delivers. *)
Lemma inputs_bytes schedule s :
  concat (client_frames (inputs schedule s)) `prefix_of` client_buffer s ++ read_bytes (client_reads s) ∧
  concat (server_frames (inputs schedule s)) `prefix_of` server_buffer s ++ read_bytes (server_reads s).
Proof.
  revert s. induction schedule as [|sd schedule IH]; intros s; cbn [inputs]; [split; apply prefix_nil|].
  assert (Hs : ∀ i s', input_on sd s = Some (i, s') → is_frame i = true →
    client_buffer s ++ read_bytes (client_reads s) =
      concat (client_frames [i]) ++ client_buffer s' ++ read_bytes (client_reads s') ∧
    server_buffer s ++ read_bytes (server_reads s) =
      concat (server_frames [i]) ++ server_buffer s' ++ read_bytes (server_reads s')).
  { intros i s'. destruct sd; cbn [input_on].
    - destruct (next (client_buffer s) (client_reads s)) as [[[[[f|]|e|m]|] b] rs] eqn:En; intros [= <- <-] Hi; try done.
      apply next_consumes in En as (used & -> & Ho). cbn. rewrite app_nil_r, read_bytes_app, app_assoc, Ho.
      by rewrite <-app_assoc.
    - destruct (next (server_buffer s) (server_reads s)) as [[[[[f|]|e|m]|] b] rs] eqn:En; intros [= <- <-] Hi; try done.
      apply next_consumes in En as (used & -> & Ho). cbn. rewrite app_nil_r, read_bytes_app, app_assoc, Ho.
      by rewrite <-app_assoc. }
  destruct (input_on sd s) as [[i s']|]; [|split; apply prefix_nil]. destruct (is_frame i) eqn:Hi.
  - destruct (Hs i s' eq_refl Hi) as [HC HS]. destruct (IH s') as [IC IS].
    change (i :: inputs schedule s') with ([i] ++ inputs schedule s').
    unfold client_frames, server_frames in *. rewrite !omap_app, !concat_app, HC, HS.
    split; by apply prefix_app.
  - destruct i as [[f|]|[f|]|e]; try done; split; apply prefix_nil.
Qed.

(** The frames are ones that [decode] has cut off: [tag] and [body] do not panic on them. *)
Definition readable (i : input) : Prop :=
  match i with
  | Client (Some f) | Server (Some f) => frame_tag f = Ret (tag f) ∧ frame_body f = Ret (body f)
  | _ => True
  end.

Lemma next_wf b rs f b' rs' : next b rs = (Some (Ret (Some f)), b', rs') → wf_frame f.
Proof.
  revert b. induction rs as [|r rs IH]; intros b; cbn [next];
    destruct (decode b) as [[[g|] b1]|e|m] eqn:E; try done; try (intros [= <- _ _]; by eapply decode_wf).
  destruct r as [[|x s]|e]; [by case_bool_decide|apply IH|done].
Qed.

Lemma wf_readable f : wf_frame f → frame_tag f = Ret (tag f) ∧ frame_body f = Ret (body f).
Proof. auto with pg. Qed.

Lemma inputs_readable schedule s : Forall readable (inputs schedule s).
Proof.
  revert s. induction schedule as [|sd schedule IH]; intros s; cbn [inputs]; [constructor|].
  assert (Hi : ∀ i s', input_on sd s = Some (i, s') → readable i).
  { intros i s'. destruct sd; cbn [input_on].
    - destruct (next (client_buffer s) (client_reads s)) as [[[[[f|]|e|m]|] b] rs] eqn:En; intros [= <- <-]; try done.
      by eapply wf_readable, next_wf.
    - destruct (next (server_buffer s) (server_reads s)) as [[[[[f|]|e|m]|] b] rs] eqn:En; intros [= <- <-]; try done.
      by eapply wf_readable, next_wf. }
  destruct (input_on sd s) as [[i s']|]; [|constructor]. constructor; [by eapply Hi|]. by destruct (is_frame i).
Qed.

(** ** Property *)

(** C4. Byte transparency: however the bytes of both sockets are cut into reads
    and whichever branch completes at each turn, the code never panics, and every
    frame it takes is one whose tag and body can be read; while no scenario has
    fired, what the server has received together with what the client's reader
    still buffers is exactly what the client's socket has delivered; likewise for
    the client, with the frames behind the gate. *)
Theorem bytes_transparent schedule c cs ss w o w' :
  session schedule (mk_session [] cs [] ss c) w = (o, w') →
  is_panic o = false ∧ Forall readable (inputs schedule (mk_session [] cs [] ss c)) ∧
  ∃ l, log w' = log w ++ l ∧ ∀ s', o = Ret (Some s') → ∃ ur us,
    cs = ur ++ client_reads s' ∧ ss = us ++ server_reads s' ∧
    ((∀ e s, TraceLine (Fault e s) ∉ l) →
     read_bytes ur = sent Side.Upstream l ++ client_buffer s' ∧
     concat (held c) ++ read_bytes us = sent Side.Frontend l ++ concat (held (conn s')) ++ server_buffer s').
Proof.
  intros Hs. destruct (emits_run _ _ _ _ _ (session_moved schedule _) Hs) as (l & Hl & Hp & Hm).
  split; [done|]. split; [apply inputs_readable|]. exists l. split; [done|]. intros s' ->. destruct (Hm s' eq_refl) as (ur & us & ? & ? & Hf).
  exists ur, us. split_and!; [done..|]. intros Hno. apply Hf. apply elem_of_nil_inv.
  intros [e s]. rewrite elem_of_faults. apply Hno.
Qed.
End session.

(** ** Witness *)

#[local] Existing Instance no_sha.
#[local] Instance no_delay : Humantime := λ _, inl Elapsed.

(** A query cut inside its header, and the first bytes of the next frame. *)
Definition query : bytes := raw (frame "Q"%byte (bs "select 1" ++ [x00])).
Definition cut_reads : list read := [RdBytes (take 3 query); RdBytes (drop 3 query ++ bs "Q")].
Definition answer_reads : list read := [RdBytes (raw (frame "N"%byte [x00]))].
Definition plain_conn : Conn := conn_new 1 StartupMetadata_default [].
Definition cut_run : outcome (option Session) * World :=
  session [Side.Upstream; Side.Frontend; Side.Frontend] (mk_session [] cut_reads [] answer_reads plain_conn) network.

Definition cut_end : Session :=
  match cut_run.1 with Ret (Some s) => s | _ => mk_session [] [] [] [] plain_conn end.

Lemma bytes_transparent_witness :
  read_bytes cut_reads = sent Side.Upstream (log cut_run.2) ++ bs "Q".
Proof.
  destruct (bytes_transparent [Side.Upstream; Side.Frontend; Side.Frontend] plain_conn cut_reads answer_reads network
    cut_run.1 cut_run.2) as (_ & _ & l & Hl & Hgo); [unfold cut_run; apply surjective_pairing|].
  cbn [log network app] in Hl. rewrite Hl.
  destruct (Hgo cut_end) as (ur & us & Hur & _ & Hb); [by vm_compute|].
  replace (client_reads cut_end) with ([] : list read) in Hur by by vm_compute.
  rewrite app_nil_r in Hur. subst ur.
  replace (bs "Q") with (client_buffer cut_end) by by vm_compute. apply Hb.
  intros e s. rewrite <-elem_of_faults, <-Hl.
  replace (faults _) with ([] : list (Event * Scenario)) by by vm_compute. by apply not_elem_of_nil.
Defined.
