(* ===== verification/Startup.v ===== *)
(** * Opening a connection

    [crates/pgfault-proxy/src/lib.rs], [metadata] and [connection], with the
    [Stream] of [crates/pgfault-proxy/src/tls.rs]: the client's negotiation
    requests, the startup packet and its parameters, a cancellation request, the
    upstream connection and its TLS, and the relay that follows.  The TLS
    handshakes themselves are the crate [rustls]'s. *)

From stdpp Require Import pretty.
From S2P Require Import Prelude Utf8 Wire Events Scenario State Trace Proxy Session.

(** ** [metadata] *)

(** One parameter of the startup packet. *)
Definition assign (key : bytes) (value : string) (m : StartupMetadata) : StartupMetadata :=
  if bool_decide (key = bs "user") then mk_startup (Some value) (database m) (application_name m)
  else if bool_decide (key = bs "database") then mk_startup (user m) (Some value) (application_name m)
  else if bool_decide (key = bs "application_name") then mk_startup (user m) (database m) (Some value)
  else m.

Fixpoint parameters (fuel : nat) (rest : bytes) (m : StartupMetadata) : outcome StartupMetadata :=
  match fuel with
  | 0 => out_of_fuel
  | S fuel =>
    '(key, rest) ← ok_or "invalid startup parameter" (cstr rest);
    match key with
    | [] => if bool_decide (rest ≠ []) then bail "trailing startup data" else Ret m
    | _ :: _ =>
      '(value, rest) ← ok_or "invalid startup value" (cstr rest);
      parameters fuel rest (assign key (from_utf8_lossy value) m)
    end
  end.

(** A turn takes at least one byte of the packet. *)
Definition metadata (packet : bytes) : outcome StartupMetadata :=
  rest ← slice_from packet 8;
  parameters (S (length packet)) rest StartupMetadata_default.

(** ** Streams *)

(** [enum Stream]: the kind of a connection. *)
Inductive stream := Plain | Tls.

(** [Stream::into_plain] *)
Definition into_plain (st : stream) : outcome unit :=
  match st with
  | Plain => Ret tt
  | Tls => Panic "SSLRequest after TLS already established"
  end.

(** The handshakes: from the bytes of the client after its request, what it sends
    inside TLS; whether a host can be a server name; the handshake with it. *)
Class TlsStack := {
  acceptor_accept : bytes → error + bytes;
  is_server_name : string → bool;
  connector_connect : string → error + unit
}.

Record Config := mk_config {
  upstream : string;
  scenarios : list Scenario;
  tls_frontend : bool;
  tls_upstream : bool
}.

(** How the bytes of the client end: the stream is closed, it stalls, or reading it fails. *)
Inductive ending_of := Closed | Stalled | Failing (err : error).

(** [tokio::time::timeout(Duration::from_secs(30), startup(&mut frontend)).await??] *)
Definition timed_startup (e : ending_of) (s : bytes) : outcome (bytes * bytes) :=
  match startup s, e with
  | Fail (Io UnexpectedEof _), Stalled => Fail Elapsed
  | Fail (Io UnexpectedEof _), Failing err => Fail err
  | o, _ => o
  end.

(** ** The negotiation *)

Inductive negotiated :=
  | Started (packet : bytes) (st : stream) (rest : bytes)
  | Cancelled (packet : bytes).

Definition request_code (packet : bytes) : Z := u32_from_be_bytes (take 4 (drop 4 packet)).

Section startup.
Context `{Sha256} `{Humantime} `{TlsStack}.

(** [tls::accept] and [tls::connect] *)
Definition tls_accept (s : bytes) : outcome bytes :=
  context "TLS handshake with client failed" (of_result (acceptor_accept s)).
Definition tls_connect (name : string) : outcome unit :=
  context "TLS handshake with upstream failed" (of_result (connector_connect name)).

(** [let packet = loop { .. }], from the bytes the client sends on [st]. *)
Fixpoint negotiate (fuel : nat) (cfg : Config) (e : ending_of) (st : stream) (s : bytes) : IO negotiated :=
  match fuel with
  | 0 => lift out_of_fuel
  | S fuel =>
    '(packet, rest) ← lift (timed_startup e s);
    let code := request_code packet in
    if Z.eqb code SSL_REQUEST then
      if negb (Z.eqb (zlen packet) 8) then lift (bail "invalid negotiation request")
      else if tls_frontend cfg then
        _ ← perform (WriteTo Side.Frontend (bs "S"));
        _ ← lift (into_plain st);
        inner ← lift (tls_accept rest);
        negotiate fuel cfg e Tls inner
      else
        _ ← perform (WriteTo Side.Frontend (bs "N"));
        negotiate fuel cfg e st rest
    else if Z.eqb code GSS_REQUEST then
      if negb (Z.eqb (zlen packet) 8) then lift (bail "invalid negotiation request")
      else _ ← perform (WriteTo Side.Frontend (bs "N")); negotiate fuel cfg e st rest
    else if Z.eqb code CANCEL_REQUEST then
      if negb (Z.eqb (zlen packet) 16) then lift (bail "invalid cancellation request")
      else mret (Cancelled packet)
    else if Z.eqb code PROTOCOL_V3 then mret (Started packet st rest)
    else lift (bail ("unsupported startup protocol " +:+ pretty code +:+
                     "; use PostgreSQL protocol 3.0 and sslmode=disable"))
  end.

(** [config.upstream.rsplit_once(':').map_or(.., |(h, _)| h)] *)
Definition upstream_host (address : string) : string :=
  match before_last ":"%byte (bs address) with Some h => String.string_of_list_byte h | None => address end.

(** [tls::server_name] *)
Definition server_name (host : string) : outcome string :=
  if is_server_name host then Ret host else bail ("invalid upstream host for TLS SNI: " +:+ host).

(** [.context("...")] on an effect. *)
Definition contextual {A} (msg : string) (m : IO A) : IO A := λ w,
  match m w with (o, w') => (context msg o, w') end.

Definition ssl_request : bytes := u32_to_be_bytes 8 ++ u32_to_be_bytes SSL_REQUEST.

(** The TLS of the upstream connection; [reply] is the server's first byte. *)
Definition secure_upstream (cfg : Config) (reply : option byte) : IO unit :=
  if tls_upstream cfg then
    _ ← perform (WriteTo Side.Upstream ssl_request);
    b ← lift (context "reading upstream SSLRequest reply"
                match reply with Some b => Ret b | None => Fail (Io UnexpectedEof "early eof") end);
    if negb (Byte.eqb b "S"%byte) then lift (bail "upstream does not support TLS (--upstream-tls was set)")
    else
      name ← lift (server_name (upstream_host (upstream cfg)));
      lift (tls_connect name)
  else mret tt.

(** The upstream connection for a client that has started. *)
Definition open_upstream (cfg : Config) (i : Z) (packet : bytes) (reply : option byte) : IO unit :=
  _ ← contextual "connecting upstream" (perform Connect);
  _ ← perform (Nodelay Side.Upstream);
  _ ← secure_upstream cfg reply;
  _ ← perform (WriteTo Side.Upstream packet);
  perform (TraceLine (Lifecycle i "startup" "")).

(** How the two streams reach the relay: which of its branches completes at each
    turn, the lengths (less one) of the reads into which the client's bytes are cut,
    and what the reads of the server's socket yield. *)
Record Traffic := mk_traffic {
  schedule : list Side.t;
  sizes : list nat;
  server_sends : list read
}.

Fixpoint cut_into (sizes : list nat) (s : bytes) : list read :=
  match s, sizes with
  | [], _ => []
  | _, [] => [RdBytes s]
  | _, n :: sizes => RdBytes (take (S n) s) :: cut_into sizes (drop (S n) s)
  end.

(** The reads of the client's bytes behind the startup packet. *)
Definition delivered_reads (sizes : list nat) (e : ending_of) (rest : bytes) : list read :=
  cut_into sizes rest ++
  match e with Closed => [RdBytes []] | Stalled => [] | Failing err => [RdErr err] end.

(** The loop of [connection], from its variables before the first turn. *)
Definition relaying (t : Traffic) (e : ending_of) (rest : bytes) (c : Conn) : Session :=
  mk_session [] (delivered_reads (sizes t) e rest) [] (server_sends t) c.

(** [connection]: the client's bytes [s] and their end, the reply to the proxy's
    SSLRequest, and the traffic once the relay runs. *)
Definition connection (fuel : nat) (cfg : Config) (i : Z) (e : ending_of) (s : bytes)
    (reply : option byte) (t : Traffic) : IO flow :=
  _ ← perform (Nodelay Side.Frontend);
  n ← negotiate fuel cfg e Plain s;
  match n with
  | Cancelled packet =>
    _ ← perform Connect;
    _ ← perform (WriteTo Side.Upstream packet);
    _ ← perform (Shutdown Side.Upstream);
    _ ← perform (TraceLine (Lifecycle i "cancel.forwarded" ""));
    mret Stop
  | Started packet st rest =>
    meta ← lift (metadata packet);
    _ ← open_upstream cfg i packet reply;
    k ← session (schedule t) (relaying t e rest (conn_new i meta (scenarios cfg)));
    mret (leaves k)
  end.
End startup.
