(* ===== verification/Negotiation.v ===== *)
(** * The negotiation of a connection, with TLS for clients

    The loop that opens a connection ([negotiate] of [Startup]), against a relation
    that says what a client may say: requests that are refused with [N], at most
    one request for TLS that is accepted with [S] and continued inside the
    handshake, and a startup packet or a cancellation.  The loop computes exactly
    this relation, and panics exactly on a second request for TLS. *)

From S2P Require Import Prelude Utf8 Wire Events Scenario State StateLemmas StateEvents Trace Proxy ProxyLemmas RelayTotal Startup.

(** ** The dialogue *)

Section dialogue.
Context `{Sha256} `{Humantime} `{TlsStack}.
Variable cfg : Config.

Definition gss_request : bytes := u32_to_be_bytes 8 ++ u32_to_be_bytes GSS_REQUEST.

(** A request of eight bytes that is refused, and one for TLS that is not. *)
Definition refused (q : bytes) : Prop :=
  zlen q = 8%Z ∧ (request_code q = GSS_REQUEST ∨ request_code q = SSL_REQUEST ∧ tls_frontend cfg = false).
Definition accepted (q : bytes) : Prop :=
  zlen q = 8%Z ∧ request_code q = SSL_REQUEST ∧ tls_frontend cfg = true.

(** A packet that ends the negotiation. *)
Inductive finishes (st : stream) (p rest : bytes) : negotiated → Prop :=
  | finishes_startup : request_code p = PROTOCOL_V3 → finishes st p rest (Started p st rest)
  | finishes_cancel : request_code p = CANCEL_REQUEST → zlen p = 16%Z → finishes st p rest (Cancelled p).

(** What a client that sends these bytes on a stream is answered, and what it asks for. *)
Inductive dialogue : stream → bytes → bytes → negotiated → Prop :=
  | dialogue_done st s p rest n :
      startup s = Ret (p, rest) → finishes st p rest n → dialogue st s [] n
  | dialogue_refused st s q rest answers n :
      startup s = Ret (q, rest) → refused q → dialogue st rest answers n →
      dialogue st s ("N"%byte :: answers) n
  | dialogue_tls s q rest inner answers n :
      startup s = Ret (q, rest) → accepted q → acceptor_accept rest = inr inner →
      dialogue Tls inner answers n → dialogue Plain s ("S"%byte :: answers) n.

(** A client that asks for TLS once more inside TLS. *)
Inductive insists : stream → bytes → Prop :=
  | insists_again s q rest : startup s = Ret (q, rest) → accepted q → insists Tls s
  | insists_refused st s q rest :
      startup s = Ret (q, rest) → refused q → insists st rest → insists st s
  | insists_tls s q rest inner :
      startup s = Ret (q, rest) → accepted q → acceptor_accept rest = inr inner →
      insists Tls inner → insists Plain s.

(** Enough turns for the bytes, whatever the TLS handshake makes of them. *)
Definition enough (fuel : nat) (st : stream) (s : bytes) : Prop :=
  length s < fuel ∧
  (st = Plain → tls_frontend cfg = true → ∀ t inner, t `suffix_of` s → acceptor_accept t = inr inner → length s + length inner < fuel).

(** ** One turn of the loop *)

Lemma timed_startup_Ret e s p rest : timed_startup e s = Ret (p, rest) ↔ startup s = Ret (p, rest).
Proof. unfold timed_startup. destruct (startup s) as [x|[[]| | |]|], e; done. Qed.

Lemma timed_startup_cases e s :
  (∃ p rest, timed_startup e s = Ret (p, rest) ∧ s = p ++ rest ∧ (8 ≤ zlen p)%Z) ∨
  (∃ err, timed_startup e s = Fail err).
Proof.
  unfold timed_startup. destruct (startup s) as [[p rest]|err|m] eqn:E.
  - left. apply startup_inv in E as (-> & _ & [? _]). exists p, rest. by split_and!.
  - right. destruct err as [[]| | |], e; eauto.
  - exfalso. unfold startup in E. by repeat case_match.
Qed.

(** Separates the codes of the packets. *)
Lemma codes_differ :
  SSL_REQUEST ≠ GSS_REQUEST ∧ SSL_REQUEST ≠ CANCEL_REQUEST ∧ SSL_REQUEST ≠ PROTOCOL_V3 ∧
  GSS_REQUEST ≠ CANCEL_REQUEST ∧ GSS_REQUEST ≠ PROTOCOL_V3 ∧ CANCEL_REQUEST ≠ PROTOCOL_V3.
Proof. done. Qed.

(** How a packet is answered: exactly one of these. *)
Inductive turn_of (fuel : nat) (e : ending_of) (st : stream) (p rest : bytes) : IO negotiated → Prop :=
  | turn_finishes n : finishes st p rest n → turn_of fuel e st p rest (mret n)
  | turn_refused : refused p →
      turn_of fuel e st p rest (_ ← perform (WriteTo Side.Frontend (bs "N")); negotiate fuel cfg e st rest)
  | turn_accepted : accepted p →
      turn_of fuel e st p rest
        (_ ← perform (WriteTo Side.Frontend (bs "S")); _ ← lift (into_plain st);
         inner ← lift (tls_accept rest); negotiate fuel cfg e Tls inner)
  | turn_rejected err : ¬ refused p → ¬ accepted p → (∀ n, ¬ finishes st p rest n) →
      turn_of fuel e st p rest (lift (Fail err)).

Lemma negotiate_turn fuel e st s p rest :
  startup s = Ret (p, rest) → ∃ m, negotiate (S fuel) cfg e st s = m ∧ turn_of fuel e st p rest m.
Proof.
  intros Hs. eexists. split; [reflexivity|]. cbn [negotiate].
  apply (timed_startup_Ret e) in Hs as ->. pose proof codes_differ as Hc.
  change (turn_of fuel e st p rest (lift (Ret (p, rest)) ≫= ?k)) with (turn_of fuel e st p rest (k (p, rest))).
  cbv beta iota. destruct (Z.eqb_spec (request_code p) SSL_REQUEST) as [HS|HS].
  { destruct (Z.eqb_spec (zlen p) 8); cbn [negb]; [destruct (tls_frontend cfg) eqn:Ht|].
    - by constructor.
    - constructor; split; auto.
    - constructor; [intros [? ?]; done|intros [? ?]; done|]. intros n' [|]; naive_solver congruence. }
  destruct (Z.eqb_spec (request_code p) GSS_REQUEST) as [HG|HG].
  { destruct (Z.eqb_spec (zlen p) 8); cbn [negb]; [constructor; split; auto|].
    constructor; [intros [? ?]; done|intros [? ?]; done|]. intros n' [|]; naive_solver congruence. }
  assert (Hr : ¬ refused p) by (intros [_ [?|[? _]]]; done).
  assert (Ha : ¬ accepted p) by (intros (_ & ? & _); done).
  destruct (Z.eqb_spec (request_code p) CANCEL_REQUEST) as [HC|HC].
  { destruct (Z.eqb_spec (zlen p) 16); cbn [negb]; [by constructor; constructor|].
    constructor; [done..|]. intros n' [|]; naive_solver congruence. }
  destruct (Z.eqb_spec (request_code p) PROTOCOL_V3) as [HV|HV]; [by constructor; constructor|].
  constructor; [done..|]. by intros n' [|].
Qed.

(** A packet is answered in one way only. *)
Lemma finishes_not_refused st p rest n : finishes st p rest n → ¬ refused p.
Proof. intros Hn [_ [H8|[H8 _]]]; destruct Hn as [HV|HC _]; by rewrite H8 in *. Qed.

Lemma finishes_not_accepted st p rest n : finishes st p rest n → ¬ accepted p.
Proof. intros Hn (_ & HS & _); destruct Hn as [HV|HC _]; by rewrite HS in *. Qed.

Lemma refused_not_accepted p : refused p → ¬ accepted p.
Proof. intros [_ [HG|[_ Ht]]] (_ & HS & Ht'); [by rewrite HG in HS|congruence]. Qed.

Lemma finishes_det st p rest n n' : finishes st p rest n → finishes st p rest n' → n = n'.
Proof. intros [HV|HC _] [HV'|HC' _]; try done; exfalso; [by rewrite HV in HC'|by rewrite HC in HV']. Qed.

Lemma negotiate_finishes fuel e st s p rest n :
  startup s = Ret (p, rest) → finishes st p rest n → negotiate (S fuel) cfg e st s = mret n.
Proof.
  intros Hs Hn. destruct (negotiate_turn fuel e st s p rest Hs) as (m & -> & [n' Hn'|Hr|Ha|err Hr Ha Hf]).
  - by rewrite (finishes_det st p rest n n').
  - by destruct (finishes_not_refused st p rest n).
  - by destruct (finishes_not_accepted st p rest n).
  - by destruct (Hf n).
Qed.

Lemma negotiate_refused fuel e st s q rest :
  startup s = Ret (q, rest) → refused q →
  negotiate (S fuel) cfg e st s = (_ ← perform (WriteTo Side.Frontend (bs "N")); negotiate fuel cfg e st rest).
Proof.
  intros Hs Hq. destruct (negotiate_turn fuel e st s q rest Hs) as (m & -> & [n Hn|Hr|Ha|err Hr _ _]); try done.
  - by destruct (finishes_not_refused st q rest n).
  - by destruct (refused_not_accepted q).
Qed.

Lemma negotiate_accepted fuel e st s q rest :
  startup s = Ret (q, rest) → accepted q →
  negotiate (S fuel) cfg e st s =
    (_ ← perform (WriteTo Side.Frontend (bs "S")); _ ← lift (into_plain st);
     inner ← lift (tls_accept rest); negotiate fuel cfg e Tls inner).
Proof.
  intros Hs Hq. destruct (negotiate_turn fuel e st s q rest Hs) as (m & -> & [n Hn|Hr|Ha|err _ Ha _]); try done.
  - by destruct (finishes_not_accepted st q rest n).
  - by destruct (refused_not_accepted q).
Qed.

(** ** Fuel *)

Lemma enough_refused fuel st s q rest :
  enough (S fuel) st s → startup s = Ret (q, rest) → enough fuel st rest.
Proof.
  intros [Hl Hi] (-> & _ & Hq)%startup_inv. unfold zlen in Hq. rewrite length_app in *. split; [lia|].
  intros Hst Htls t inner Ht Ha. specialize (Hi Hst Htls t inner ltac:(by apply suffix_app_r) Ha). lia.
Qed.

Lemma enough_tls fuel s q rest inner :
  enough (S fuel) Plain s → startup s = Ret (q, rest) → accepted q → acceptor_accept rest = inr inner →
  enough fuel Tls inner.
Proof.
  intros [_ Hi] (-> & _ & Hq)%startup_inv (_ & _ & Htls) Ha. unfold zlen in Hq. rewrite length_app in *.
  specialize (Hi eq_refl Htls rest inner ltac:(by apply suffix_app_r) Ha). split; [lia|done].
Qed.

Lemma enough_zero st s : ¬ enough 0 st s.
Proof. intros [? _]. lia. Qed.

(** Some fuel is always enough. *)
Lemma enough_exists st s : ∃ fuel, enough fuel st s.
Proof.
  assert (Hb : ∃ b, ∀ t inner, t `suffix_of` s → acceptor_accept t = inr inner → length inner < b).
  { induction s as [|x s (b & Hb)].
    - exists (match acceptor_accept [] with inr inner => S (length inner) | inl _ => 0 end).
      intros t inner ->%suffix_nil_inv ->. lia.
    - exists (b + match acceptor_accept (x :: s) with inr inner => S (length inner) | inl _ => 0 end).
      intros t inner [[|y k] Hk] Ha; simplify_eq/=; [rewrite Ha; lia|].
      specialize (Hb t inner ltac:(by exists k) Ha). lia. }
  destruct Hb as (b & Hb). exists (S (length s) + b). split; [lia|]. intros _ _ t inner Ht Ha.
  specialize (Hb t inner Ht Ha). lia.
Qed.

(** ** What the loop computes *)

(** The world after these effects have succeeded. *)
Definition did (effs : list effect) (w : World) : World :=
  mk_world (log w ++ effs) (clock w + length effs) (oracle w).

Lemma perform_works eff w : works w → perform eff w = (Ret tt, did [eff] w).
Proof. intros Hw. unfold perform, did. rewrite Hw. simpl. by rewrite Nat.add_1_r. Qed.

Lemma lift_bind {A B} (a : A) (k : A → IO B) w : (lift (Ret a) ≫= k) w = k a w.
Proof. done. Qed.

Lemma perform_bind {B} eff (k : unit → IO B) w : works w → (perform eff ≫= k) w = k tt (did [eff] w).
Proof. intros Hw. unfold mbind, io_bind. by rewrite perform_works. Qed.

Lemma did_works effs w : works w → works (did effs w).
Proof. done. Qed.

Lemma did_did a b w : did b (did a w) = did (a ++ b) w.
Proof. unfold did. simpl. rewrite app_assoc, length_app. f_equal. lia. Qed.

Lemma did_nil w : did [] w = w.
Proof. destruct w. unfold did. simpl. by rewrite app_nil_r, Nat.add_0_r. Qed.

Definition answering (answers : bytes) : list effect := (λ b, WriteTo Side.Frontend [b]) <$> answers.

(** The loop on a network that may fail: it writes nothing to the server, leaves no
    record, and has answered as the dialogue says. *)
Definition negotiating (st : stream) (s : bytes) (o : outcome negotiated) (l : list effect) : Prop :=
  sent Side.Upstream l = [] ∧ semantics l = [] ∧ faults l = [] ∧
  match o with
  | Ret n => dialogue st s (sent Side.Frontend l) n
  | Fail _ => True
  | Panic _ => insists st s
  end.

(** After one answer. *)
Lemma negotiating_answer st s st' s' b (m : IO negotiated) :
  emits m (negotiating st' s') →
  (∀ answers n, dialogue st' s' answers n → dialogue st s (b :: answers) n) →
  (insists st' s' → insists st s) →
  emits (_ ← perform (WriteTo Side.Frontend [b]); m) (negotiating st s).
Proof.
  intros Hm Hd Hi. eapply emits_bind.
  - apply (emits_perform _ (λ o l, match o with Ret _ => l = [WriteTo Side.Frontend [b]]
      | Fail _ => ∃ n, l = partial (WriteTo Side.Frontend [b]) n | Panic _ => False end)); [done|by eauto].
  - intros [] l ->. eapply emits_mono; [exact Hm|]. intros o l (G1 & G2 & G3 & G4).
    unfold negotiating. cbn [app]. rewrite sent_other, sent_same by done. split_and!; [done..|].
    destruct o as [n|err|]; [by apply Hd|done|by apply Hi].
  - intros err l [n ->]. by split_and!.
  - done.
Qed.

(** When the loop ends after an answer. *)
Lemma negotiating_end st s b o :
  (∀ n, o ≠ Ret n) → (is_panic o = true → insists st s) →
  emits (_ ← perform (WriteTo Side.Frontend [b]); lift o) (negotiating st s).
Proof.
  intros Hr Hp. eapply (emits_bind _ _ (λ o l, sent Side.Upstream l = [] ∧ semantics l = [] ∧ faults l = [] ∧ is_panic o = false)).
  - apply emits_perform; [done|]. intros; by split_and!.
  - intros [] l (? & ? & ? & _). apply emits_lift. unfold negotiating. rewrite app_nil_r.
    split_and!; try done. destruct o as [n|err|]; [by destruct (Hr n)|done|by apply Hp].
  - intros err l (? & ? & ? & _). by split_and!.
  - by intros err l (? & ? & ? & ?).
Qed.

Lemma negotiate_negotiating fuel e st s :
  enough fuel st s → emits (negotiate fuel cfg e st s) (negotiating st s).
Proof.
  revert st s. induction fuel as [|fuel IH]; intros st s Hf; [by apply enough_zero in Hf|].
  destruct (timed_startup_cases e s) as [(p & rest & Hs & _)|[err Hs]].
  2: { cbn [negotiate]. rewrite Hs. by apply emits_lift. }
  apply timed_startup_Ret in Hs. destruct (negotiate_turn fuel e st s p rest Hs) as (m & -> & Hm).
  destruct Hm as [n Hn|Hr|Ha|err _ _ _].
  - apply emits_ret. split_and!; [done..|]. by eapply dialogue_done.
  - eapply negotiating_answer; [apply IH; by eapply enough_refused|..];
      intros; [by eapply dialogue_refused|by eapply insists_refused].
  - destruct st.
    + destruct (acceptor_accept rest) as [err|inner] eqn:Hacc; unfold tls_accept; rewrite Hacc.
      * by apply (negotiating_end Plain s "S"%byte (context _ (Fail err))).
      * apply (negotiating_answer Plain s Tls inner); [apply IH; by eapply enough_tls|..];
          intros; [by eapply dialogue_tls|by eapply insists_tls].
    + apply (negotiating_end Tls s "S"%byte (Panic _)); [done|]. intros _. by eapply insists_again.
  - by apply emits_lift.
Qed.

(** On a network that works, the loop follows every dialogue, and panics on every
    client that insists. *)
Lemma dialogue_negotiates fuel e st s answers n w :
  dialogue st s answers n → enough fuel st s → works w →
  negotiate fuel cfg e st s w = (Ret n, did (answering answers) w).
Proof.
  intros Hd. revert fuel w.
  induction Hd as [st s p rest n Hs Hn|st s q rest answers n Hs Hq Hd IH|s q rest inner answers n Hs Hq Ha Hd IH];
    intros [|fuel] w Hf Hw; try by apply enough_zero in Hf.
  - erewrite negotiate_finishes by done. by rewrite did_nil.
  - erewrite negotiate_refused by done.
    rewrite perform_bind, IH by (done || by eapply enough_refused). by rewrite did_did.
  - erewrite negotiate_accepted by done.
    rewrite perform_bind by done. cbn [into_plain]. rewrite lift_bind. unfold tls_accept. rewrite Ha.
    cbn [of_result context]. rewrite lift_bind, IH by (done || by eapply enough_tls). by rewrite did_did.
Qed.

Lemma insists_panics fuel e st s w :
  insists st s → enough fuel st s → works w → is_panic (negotiate fuel cfg e st s w).1 = true.
Proof.
  intros Hi. revert fuel w.
  induction Hi as [s q rest Hs Hq|st s q rest Hs Hq Hi IH|s q rest inner Hs Hq Ha Hi IH];
    intros [|fuel] w Hf Hw; try by apply enough_zero in Hf.
  - erewrite negotiate_accepted by done. by rewrite perform_bind.
  - erewrite negotiate_refused by done.
    rewrite perform_bind by done. by apply IH; [eapply enough_refused|].
  - erewrite negotiate_accepted by done.
    rewrite perform_bind by done. cbn [into_plain]. rewrite lift_bind. unfold tls_accept. rewrite Ha.
    cbn [of_result context]. rewrite lift_bind. by apply IH; [eapply enough_tls|].
Qed.

(** *** Without TLS for clients *)

Lemma enough_plain fuel st s : tls_frontend cfg = false → length s < fuel → enough fuel st s.
Proof. intros Htls ?. split; [done|]. by rewrite Htls. Qed.

Lemma insists_needs_tls st s : insists st s → tls_frontend cfg = true.
Proof. induction 1 as [? ? ? ? (_ & _ & ?)| |]; done. Qed.

Lemma dialogue_plain st s answers n :
  tls_frontend cfg = false → dialogue st s answers n →
  ∃ reqs p rest, s = concat reqs ++ p ++ rest ∧
    Forall (λ q, zlen q = 8%Z ∧ (request_code q = SSL_REQUEST ∨ request_code q = GSS_REQUEST)) reqs ∧
    answers = replicate (length reqs) "N"%byte ∧ (8 ≤ zlen p)%Z ∧ finishes st p rest n.
Proof.
  intros Htls. induction 1 as [st s p rest n Hs Hn|st s q rest answers n Hs Hq Hd IH|? ? ? ? ? ? ? (_ & _ & ?)]; [..|congruence].
  - apply startup_inv in Hs as (-> & _ & [? _]). by exists [], p, rest.
  - apply startup_inv in Hs as (-> & _ & _). destruct IH as (reqs & p & rest' & -> & Hreqs & -> & H8 & Hn).
    exists (q :: reqs), p, rest'. split_and!; try done.
    + cbn [concat]. by rewrite <-!app_assoc.
    + constructor; [|done]. destruct Hq as [? [?|[? _]]]; auto.
Qed.

Lemma dialogue_started_length st s answers p st' rest :
  dialogue st s answers (Started p st' rest) → (8 ≤ zlen p)%Z.
Proof.
  remember (Started p st' rest) as n eqn:En. induction 1 as [? ? ? ? ? Hs Hn| |]; auto.
  subst. apply startup_inv in Hs as (_ & _ & [? _]). by inversion Hn; subst.
Qed.

(** ** Property *)

(** C40. The negotiation, with TLS for clients or without, on a network that works:
    given enough fuel, which exists for all bytes, the loop hands on a startup
    packet or a cancellation exactly if the client's bytes are such a dialogue, and
    has then written its answers and done nothing else; it panics exactly on a
    client that asks for TLS a second time inside TLS; everything else is an error. *)
Theorem negotiation_spec fuel e st s w :
  enough fuel st s → works w →
  (∀ n w', negotiate fuel cfg e st s w = (Ret n, w') ↔
    ∃ answers, dialogue st s answers n ∧ w' = did (answering answers) w) ∧
  (is_panic (negotiate fuel cfg e st s w).1 = true ↔ insists st s).
Proof.
  intros Hf Hw. pose proof (negotiate_negotiating fuel e st s Hf w) as (l & _ & _ & Hn). split.
  - intros n w'. split; [|by intros (answers & Hd & ->); apply dialogue_negotiates].
    intros Hr. rewrite Hr in Hn. destruct Hn as (_ & _ & _ & Hd). exists (sent Side.Frontend l).
    split; [exact Hd|]. rewrite (dialogue_negotiates fuel e st s _ n w Hd Hf Hw) in Hr. by injection Hr.
  - split; [|by intros Hi; apply insists_panics].
    intros Hp. destruct (negotiate fuel cfg e st s w) as [o w']. cbn [fst] in *.
    destruct Hn as (_ & _ & _ & Hn). by destruct o.
Qed.
End dialogue.

(** ** Witness *)

#[local] Existing Instance no_sha.
#[local] Instance no_delays : Humantime := λ _, inl Elapsed.

(** A client that starts inside TLS, and queries. *)
Definition first_query : bytes := raw (frame "Q"%byte (bs "select 1" ++ [x00])).
#[local] Instance starting_tls : TlsStack := {|
  acceptor_accept s := inr (sample_startup ++ first_query);
  is_server_name _ := true;
  connector_connect _ := inr tt
|}.

Definition tls_client : bytes := gss_request ++ ssl_request ++ bs "hello".
Definition tls_only : Config := mk_config "db:5432" [] true false.

Lemma negotiation_spec_witness :
  ∃ answers, dialogue tls_only Plain tls_client answers (Started sample_startup Tls first_query) ∧
    (negotiate 100 tls_only Closed Plain tls_client (mk_world [] 0 (λ _, Done))).2
      = did (answering answers) (mk_world [] 0 (λ _, Done)).
Proof.
  set (w := mk_world [] 0 (λ _, Done)).
  destruct (negotiation_spec tls_only 100 Closed Plain tls_client w) as [Hn _].
  - split; [by apply Nat.ltb_lt; vm_compute|]. intros _ _ t inner _ [= <-]. by apply Nat.ltb_lt; vm_compute.
  - done.
  - apply Hn. by vm_compute.
Defined.
