(* ===== verification/StartupProps.v ===== *)
(** * Properties of opening a connection

    The parameters of a startup packet, the answers to negotiation requests, the
    cancellation request, and the bytes of a whole connection.  The last theorem
    is the panic of a second SSLRequest. *)

From S2P Require Import Prelude Utf8 Wire Events Scenario State StateLemmas StateEvents StateTx Trace.
From S2P Require Import Proxy ProxyLemmas RelayLemmas Delivery Window RelayTotal Session Startup Negotiation.

(** ** Parameters *)

Definition parameter (p : bytes * bytes) : bytes := p.1 ++ x00 :: p.2 ++ [x00].
Definition parameter_ok (p : bytes * bytes) : Prop := p.1 ≠ [] ∧ x00 ∉ p.1 ∧ x00 ∉ p.2.
Definition assigned (ps : list (bytes * bytes)) (m : StartupMetadata) : StartupMetadata :=
  foldl (λ m p, assign p.1 (from_utf8_lossy p.2) m) m ps.

Lemma parameters_ok fuel ps m :
  Forall parameter_ok ps → length (concat (parameter <$> ps)) < fuel →
  parameters fuel (concat (parameter <$> ps) ++ [x00]) m = Ret (assigned ps m).
Proof.
  intros Hps. revert fuel m. induction Hps as [|[k v] ps (Hne & Hk & Hv) _ IH]; intros [|fuel] m Hf; try (simpl in Hf; lia).
  - done.
  - rewrite fmap_cons in *. cbn [concat] in *. unfold parameter at 1. unfold parameter in Hf at 1. cbn [fst snd] in *.
    repeat (rewrite <-app_assoc; cbn [app]). cbn [parameters]. rewrite cstr_app by done. cbn [ok_or]. run_ret.
    destruct k as [|b k]; [done|]. rewrite cstr_app by done. cbn [ok_or]. run_ret.
    apply IH. rewrite !length_app in Hf. simpl in Hf. lia.
Qed.

Lemma parameters_inv fuel rest m o :
  length rest < fuel → parameters fuel rest m = o →
  match o with
  | Ret m' => ∃ ps, Forall parameter_ok ps ∧ rest = concat (parameter <$> ps) ++ [x00] ∧ m' = assigned ps m
  | Fail _ => True
  | Panic _ => False
  end.
Proof.
  intros Hf <-. revert rest m Hf. induction fuel as [|fuel IH]; intros rest m Hf; [lia|]. cbn [parameters].
  destruct (cstr rest) as [[k t]|] eqn:Ek; [|done]. apply cstr_Some in Ek as [-> Hk]. cbn [ok_or]. run_ret.
  rewrite length_app in Hf. simpl in Hf. destruct k as [|b k].
  { case_bool_decide as Ht; [done|]. subst t. by exists []. }
  destruct (cstr t) as [[v t']|] eqn:Ev; [|done]. apply cstr_Some in Ev as [-> Hv]. cbn [ok_or]. run_ret.
  rewrite length_app in Hf. simpl in Hf. specialize (IH t' (assign (b :: k) (from_utf8_lossy v) m) ltac:(lia)).
  destruct (parameters _ _ _) as [m'|e|s]; [|done..].
  destruct IH as (ps & Hps & -> & ->). exists ((b :: k, v) :: ps). split_and!; [by constructor| |done].
  rewrite fmap_cons. cbn [concat]. unfold parameter at 2. cbn [fst snd]. by repeat (rewrite <-app_assoc; cbn [app]).
Qed.

(** What a client asks for with these parameters: the value of the last one of the
    name, if there is one. *)
Definition requested (key : bytes) (ps : list (bytes * bytes)) : option string :=
  from_utf8_lossy ∘ snd <$> list.last (filter (λ p, p.1 = key) ps).

Lemma requested_snoc key ps p :
  requested key (ps ++ [p]) = if bool_decide (p.1 = key) then Some (from_utf8_lossy p.2) else requested key ps.
Proof.
  unfold requested. rewrite filter_app, filter_cons, filter_nil. case_bool_decide.
  - by rewrite decide_True, last_snoc by done.
  - by rewrite decide_False, app_nil_r by done.
Qed.

Lemma assigned_requested ps :
  assigned ps StartupMetadata_default =
    mk_startup (requested (bs "user") ps) (requested (bs "database") ps) (requested (bs "application_name") ps).
Proof.
  induction ps as [|p ps IH] using rev_ind; [done|].
  assert (Hkeys : bs "user" ≠ bs "database" ∧ bs "user" ≠ bs "application_name" ∧ bs "database" ≠ bs "application_name")
    by done. destruct Hkeys as (H1 & H2 & H3).
  unfold assigned in *. rewrite foldl_app. cbn [foldl]. rewrite IH, !requested_snoc. unfold assign.
  repeat case_bool_decide; try done; congruence.
Qed.

(** C22. The startup parameters: the code reads a packet of at least eight bytes
    without ever panicking, and accepts it exactly when its body is a list of
    parameters, each a name and a value ended by a NUL, followed by one NUL and
    nothing else; user, database and application name are then the values of the
    last parameter of each of these names, and absent without one. *)
Theorem metadata_spec packet o :
  8 ≤ length packet → metadata packet = o →
  match o with
  | Ret m => ∃ ps, Forall parameter_ok ps ∧ drop 8 packet = concat (parameter <$> ps) ++ [x00] ∧
      user m = requested (bs "user") ps ∧ database m = requested (bs "database") ps ∧
      application_name m = requested (bs "application_name") ps
  | Fail _ => ∀ ps, Forall parameter_ok ps → drop 8 packet ≠ concat (parameter <$> ps) ++ [x00]
  | Panic _ => False
  end.
Proof.
  intros H8 <-. unfold metadata. rewrite slice_from_ok by done. run_ret.
  assert (Hl : length (drop 8 packet) < S (length packet)) by (rewrite length_drop; lia).
  pose proof (parameters_inv _ _ StartupMetadata_default _ Hl eq_refl) as Ho.
  destruct (parameters _ _ _) as [m|e|s] eqn:Ep; [| |done].
  - destruct Ho as (ps & Hps & Hd & ->). exists ps. by rewrite assigned_requested.
  - intros ps Hps Hd. rewrite Hd in Ep. rewrite parameters_ok in Ep; [done|done|].
    rewrite Hd, length_app in Hl. lia.
Qed.

(** A packet that names the user twice, and the database between. *)
Definition repeating : list (bytes * bytes) :=
  [(bs "user", bs "alice"); (bs "database", bs "db"); (bs "other", bs "x"); (bs "user", bs "bob")].
Definition repeating_packet : bytes :=
  u32_to_be_bytes 49 ++ u32_to_be_bytes PROTOCOL_V3 ++ concat (parameter <$> repeating) ++ [x00].

Lemma metadata_spec_witness :
  metadata repeating_packet = Ret (mk_startup (Some "bob") (Some "db") None)%string ∧
  ∃ ps, drop 8 repeating_packet = concat (parameter <$> ps) ++ [x00] ∧
    Some "bob"%string = requested (bs "user") ps ∧ Some "db"%string = requested (bs "database") ps ∧
    None = requested (bs "application_name") ps.
Proof.
  split; [by vm_compute|].
  destruct (metadata_spec repeating_packet (Ret (mk_startup (Some "bob") (Some "db") None))%string)
    as (ps & _ & ? & ? & ? & ?); [vm_compute; lia|by vm_compute|]. by exists ps.
Defined.

(** ** Negotiation *)

Section negotiation.
Context `{Sha256} `{Humantime} `{TlsStack}.

(** *** The upstream side *)

(** A program that only writes these bytes to the server. *)
Definition puts {A} (b : bytes) (o : outcome A) (l : list effect) : Prop :=
  semantics l = [] ∧ faults l = [] ∧ sent Side.Frontend l = [] ∧
  match o with Ret _ => sent Side.Upstream l = b | Fail _ => True | Panic _ => False end.

Lemma puts_bind {A B} (m : IO A) (k : A → IO B) b b' :
  emits m (puts b) → (∀ a, emits (k a) (puts b')) → emits (m ≫= k) (puts (b ++ b')).
Proof.
  intros Hm Hk. eapply emits_bind; [exact Hm| |..].
  - intros a l (G1 & G2 & G3 & G4). eapply emits_mono; [apply Hk|].
    intros o l' (G5 & G6 & G7 & G8). unfold puts.
    rewrite semantics_app, faults_app, !sent_app, G1, G2, G3, G4, G5, G6, G7.
    split_and!; try done. destruct o; try done. by rewrite G8.
  - by intros e l (G1 & G2 & G3 & _).
  - by intros e l (_ & _ & _ & ?).
Qed.

Lemma puts_quiet eff :
  is_write eff = false → semantics [eff] = [] → faults [eff] = [] → emits (perform eff) (puts []).
Proof.
  intros Hw Hs Hf. assert (Hsd : ∀ sd, sent sd [eff] = []) by (intros sd; by destruct eff).
  apply emits_perform; [unfold puts; by rewrite Hs, Hf, !Hsd|intros e n; destruct eff; by split_and!].
Qed.

Lemma puts_write b : emits (perform (WriteTo Side.Upstream b)) (puts b).
Proof.
  apply emits_perform.
  - unfold puts. rewrite sent_same, sent_other by done. simpl. by rewrite app_nil_r.
  - intros e n. by split_and!.
Qed.

Lemma puts_lift {A} (o : outcome A) : is_panic o = false → emits (lift o) (puts []).
Proof. intros Ho. apply emits_lift. by destruct o. Qed.

Lemma puts_contextual {A} msg (m : IO A) b : emits m (puts b) → emits (contextual msg m) (puts b).
Proof.
  intros Hm w. destruct (Hm w) as (l & Hl & Hor & HP). unfold contextual. destruct (m w) as [o w'].
  exists l. split_and!; [done|done|]. by destruct o.
Qed.

(** What the server receives before the first frame. *)
Definition preamble (cfg : Config) (packet : bytes) : bytes :=
  (if tls_upstream cfg then ssl_request else []) ++ packet.

Lemma open_upstream_puts cfg i packet reply :
  emits (open_upstream cfg i packet reply) (puts (preamble cfg packet)).
Proof.
  unfold open_upstream. rewrite <-(app_nil_l (preamble _ _)).
  apply puts_bind; [by apply puts_contextual, puts_quiet|intros _].
  rewrite <-(app_nil_l (preamble _ _)). apply puts_bind; [by apply puts_quiet|intros _].
  unfold preamble. apply puts_bind.
  - unfold secure_upstream. destruct (tls_upstream cfg); [|by apply emits_ret].
    rewrite <-(app_nil_r ssl_request). apply puts_bind; [apply puts_write|intros _].
    rewrite <-(app_nil_l []). apply puts_bind; [apply puts_lift; by destruct reply|intros b].
    destruct (negb _); [by apply puts_lift|].
    rewrite <-(app_nil_l []). apply puts_bind; [apply puts_lift; unfold server_name; by case_match|intros name].
    apply puts_lift. unfold tls_connect. by destruct (connector_connect name).
  - intros _. eapply emits_mono; [apply (puts_bind _ _ packet []); [apply puts_write|intros _; by apply puts_quiet]|].
    intros o l. by rewrite app_nil_r.
Qed.

Lemma metadata_no_panic p : (8 ≤ zlen p)%Z → is_panic (metadata p) = false.
Proof.
  intros Hp. unfold metadata, zlen in *. rewrite slice_from_ok by lia. run_ret.
  pose proof (parameters_inv (S (length p)) (drop 8 p) StartupMetadata_default _ ltac:(rewrite length_drop; lia) eq_refl) as Ho.
  by destruct (parameters _ _ _).
Qed.

(** *** A whole connection *)

Lemma read_bytes_cut sizes s : read_bytes (cut_into sizes s) = s.
Proof.
  revert s. induction sizes as [|n sizes IH]; intros [|b s]; try done.
  - unfold read_bytes. simpl. by rewrite app_nil_r.
  - change (read_bytes (cut_into (n :: sizes) (b :: s)))
      with (take (S n) (b :: s) ++ read_bytes (cut_into sizes (drop (S n) (b :: s)))).
    by rewrite IH, take_drop.
Qed.

Lemma read_bytes_delivered sizes e rest : read_bytes (delivered_reads sizes e rest) = rest.
Proof.
  unfold delivered_reads. rewrite read_bytes_app, read_bytes_cut.
  destruct e; unfold read_bytes; simpl; by rewrite app_nil_r.
Qed.

(** The frames the relay takes off the two streams, with the client's bytes behind
    its startup packet. *)
Definition taken_off (t : Traffic) (e : ending_of) (rest : bytes) : list input :=
  inputs (schedule t) (relaying t e rest (conn_new 0 StartupMetadata_default [])).

Lemma relaying_relay t e rest c :
  (k ← session (schedule t) (relaying t e rest c); mret (leaves k)) ≈ relay (taken_off t e rest) c.
Proof.
  rewrite session_relay. unfold taken_off.
  by rewrite <-(inputs_with_conn (schedule t) c (relaying t e rest (conn_new 0 StartupMetadata_default []))).
Qed.

Lemma taken_off_bytes t e rest :
  concat (client_frames (taken_off t e rest)) `prefix_of` rest ∧
  concat (server_frames (taken_off t e rest)) `prefix_of` read_bytes (server_sends t).
Proof.
  pose proof (inputs_bytes (schedule t) (relaying t e rest (conn_new 0 StartupMetadata_default []))) as Hp.
  cbn [relaying client_buffer client_reads server_buffer server_reads app] in Hp.
  by rewrite read_bytes_delivered in Hp.
Qed.

(** The relayed part of a connection, and what both sides have received: the packet
    of the client's dialogue and its answers come first; then the frames that its
    further bytes and the server's hold, in order from the first. *)
Definition opened (cfg : Config) (e : ending_of) (s : bytes) (t : Traffic) (o : outcome flow) (l : list effect) : Prop :=
  ∀ c', o = Ret (Go c') →
    ∃ answers p st rest, dialogue cfg Plain s answers (Started p st rest) ∧
      let ins := taken_off t e rest in
      concat (client_frames ins) `prefix_of` rest ∧
      concat (server_frames ins) `prefix_of` read_bytes (server_sends t) ∧
      (faults l = [] →
        sent Side.Upstream l = preamble cfg p ++ concat (client_frames ins) ∧
        sent Side.Frontend l ++ concat (held c') = answers ++ concat (server_frames ins)).

Lemma cancel_stops i p :
  emits (_ ← perform Connect; _ ← perform (WriteTo Side.Upstream p); _ ← perform (Shutdown Side.Upstream);
    _ ← perform (TraceLine (Lifecycle i "cancel.forwarded" "")); mret Stop)
    (λ o _, o = Ret Stop ∨ ∃ e, o = Fail e).
Proof.
  repeat (eapply emits_bind; [apply (emits_perform _ (λ o _, o = Ret tt ∨ ∃ e, o = Fail e)); eauto| |
    by intros ? ? [?|[? [= ->]]]; eauto|by intros ? ? [?|[? ?]]]; intros _ _ _).
  apply emits_ret. auto.
Qed.

(** Once the client has started. *)
Definition run_started (cfg : Config) (i : Z) (p : bytes) (reply : option byte) (t : Traffic) (e : ending_of) (rest : bytes)
    : IO flow :=
  meta ← lift (metadata p);
  _ ← open_upstream cfg i p reply;
  k ← session (schedule t) (relaying t e rest (conn_new i meta (scenarios cfg)));
  mret (leaves k).

Lemma started_relayed cfg i p reply t e rest :
  (8 ≤ zlen p)%Z →
  emits (run_started cfg i p reply t e rest)
    (λ o l, is_panic o = false ∧ ∀ c', o = Ret (Go c') → faults l = [] →
      sent Side.Upstream l = preamble cfg p ++ concat (client_frames (taken_off t e rest)) ∧
      sent Side.Frontend l ++ concat (held c') = concat (server_frames (taken_off t e rest))).
Proof.
  intros H8. eapply emits_bind.
  { apply (emits_lift (metadata p) (λ o l, o = metadata p ∧ l = [])). done. }
  2: { by intros err l [? ->]; split. }
  2: { intros err l [Hp ->]. pose proof (metadata_no_panic p H8) as Hm. by rewrite <-Hp in Hm. }
  intros meta l2 [_ ->].
  eapply emits_bind; [apply open_upstream_puts| |by intros ? l _; split|by intros ? ? (_ & _ & _ & ?)].
  intros _ l3 (C1 & C2 & C3 & C4). rewrite relaying_relay.
  eapply emits_mono; [apply emits_and; [apply relay_transparent_ind|apply relay_follows]|].
  intros o l4 [Ht (k & os & _ & (_ & _ & Hfol) & _)]. split; [by destruct o|].
  intros c' ->. cbn [app]. rewrite faults_app, C2. cbn [app]. intros Hnf.
  destruct (Ht c' eq_refl Hnf) as [HU HF]. rewrite !sent_app, C3, C4, HU. split; [done|exact HF].
Qed.

Lemma connection_opened fuel cfg i e s reply t :
  enough cfg fuel Plain s →
  emits (connection fuel cfg i e s reply t)
    (λ o l, opened cfg e s t o l ∧ (is_panic o = true → insists cfg Plain s)).
Proof.
  intros Hf. unfold connection. eapply emits_bind; [by apply puts_quiet| |by intros ? l _; split|by intros ? ? (_ & _ & _ & ?)].
  intros _ l0 (A1 & A2 & A3 & A4).
  eapply emits_bind; [by apply negotiate_negotiating| |by intros ? l _; split|by intros ? ? (_ & _ & _ & ?); split].
  intros [p st rest|p] l1 (B1 & B2 & B3 & Hd).
  - eapply emits_mono; [apply (started_relayed cfg i p reply t e rest); by eapply dialogue_started_length|].
    intros o l2 [Hp Ho]. split; [|by rewrite Hp]. intros c' ->.
    exists (sent Side.Frontend l1), p, st, rest. destruct (taken_off_bytes t e rest) as [HC HS].
    split; [done|]. cbv zeta. split_and!; [done..|]. rewrite !faults_app, A2, B3. cbn [app]. intros Hnf.
    destruct (Ho c' eq_refl Hnf) as [HU HF]. rewrite !sent_app, A3, A4, B1. cbn [app].
    split; [exact HU|]. by rewrite <-app_assoc, HF.
  - eapply emits_mono; [apply cancel_stops|]. intros o l2 [->|[err ->]]; by split.
Qed.

(** Without TLS for clients the dialogue is a list of requests and a packet. *)
Definition relayed (cfg : Config) (e : ending_of) (s : bytes) (t : Traffic) (o : outcome flow) (l : list effect) : Prop :=
  ∀ c', o = Ret (Go c') →
    ∃ reqs p rest, s = concat reqs ++ p ++ rest ∧
      Forall (λ q, zlen q = 8%Z ∧ (request_code q = SSL_REQUEST ∨ request_code q = GSS_REQUEST)) reqs ∧
      request_code p = PROTOCOL_V3 ∧
      let ins := taken_off t e rest in
      concat (client_frames ins) `prefix_of` rest ∧
      (faults l = [] →
        sent Side.Upstream l = preamble cfg p ++ concat (client_frames ins) ∧
        sent Side.Frontend l ++ concat (held c') = replicate (length reqs) "N"%byte ++ concat (server_frames ins)).

(** *** On a working network *)

Definition well_framed (p : bytes) : Prop :=
  u32_from_be_bytes p = zlen p ∧ (8 ≤ zlen p ≤ 1024 * 1024)%Z.
Definition request (q : bytes) : Prop :=
  well_framed q ∧ zlen q = 8%Z ∧ (request_code q = SSL_REQUEST ∨ request_code q = GSS_REQUEST).

Lemma startup_framed p r : well_framed p → startup (p ++ r) = Ret (p, r).
Proof.
  intros [Hu Hp]. unfold startup, zlen in *. rewrite length_app.
  destruct (Z.ltb_spec (Z.of_nat (length p + length r)) 4) as [?|_]; [lia|].
  assert (Ht : take 4 (p ++ r) = take 4 p) by (apply take_app_le; lia).
  assert (Hu' : u32_from_be_bytes (take 4 p) = Z.of_nat (length p)).
  { rewrite <-Hu. unfold u32_from_be_bytes. by rewrite take_take. }
  rewrite Ht, Hu'. destruct (Z.leb_spec 8 (Z.of_nat (length p))); [|lia].
  destruct (Z.leb_spec (Z.of_nat (length p)) (1024 * 1024)); [|lia]. cbn [andb negb].
  rewrite length_drop, length_app.
  destruct (Z.ltb_spec (Z.of_nat (length p + length r - 4)) (Z.of_nat (length p) - 4)) as [?|_]; [lia|].
  assert (Hd : drop 4 (p ++ r) = drop 4 p ++ r) by (apply drop_app_le; lia). rewrite Hd.
  replace (Z.to_nat (Z.of_nat (length p) - 4)) with (length (drop 4 p)) by (rewrite length_drop; lia).
  rewrite take_app_length, drop_app_length.
  rewrite <-Hu', u32_to_from_be by (rewrite length_take; lia). by rewrite take_drop.
Qed.

Lemma timed_framed e p r : well_framed p → timed_startup e (p ++ r) = Ret (p, r).
Proof. intros Hp. unfold timed_startup. by rewrite startup_framed. Qed.

Lemma negotiate_requests fuel cfg e reqs t w :
  tls_frontend cfg = false → Forall request reqs → works w →
  negotiate (length reqs + fuel) cfg e Plain (concat reqs ++ t) w =
    negotiate fuel cfg e Plain t (did (replicate (length reqs) (WriteTo Side.Frontend (bs "N"))) w).
Proof.
  intros Htls Hreqs. revert w. induction Hreqs as [|q reqs (Hq & H8 & Hc) _ IH]; intros w Hw.
  { cbn [length replicate plus concat app]. unfold did. rewrite app_nil_r, Nat.add_0_r. by destruct w. }
  cbn [length plus concat]. rewrite <-app_assoc. cbn [negotiate].
  rewrite timed_framed, lift_bind by done. cbv beta iota zeta. rewrite H8, Htls, Z.eqb_refl. cbn [negb].
  assert (Hrest : (_ ← perform (WriteTo Side.Frontend (bs "N")); negotiate (length reqs + fuel) cfg e Plain (concat reqs ++ t)) w =
    negotiate fuel cfg e Plain t (did (replicate (S (length reqs)) (WriteTo Side.Frontend (bs "N"))) w)).
  { rewrite perform_bind, IH by done. by rewrite did_did. }
  destruct Hc as [-> | ->]; [rewrite Z.eqb_refl; exact Hrest|].
  change (GSS_REQUEST =? SSL_REQUEST)%Z with false. rewrite Z.eqb_refl. exact Hrest.
Qed.

(** ** Properties *)

(** C21. A whole connection, with TLS for clients or without, on the bytes of both
    streams, however they are cut into reads and scheduled: whatever the client
    sends, the code panics only on a second request for TLS inside TLS; while it
    relays, the client's bytes were a dialogue that ends with a protocol 3.0
    startup packet, in the clear or inside TLS, and then the frames taken off from
    the first on; and unless a scenario has fired the server has received exactly
    that packet (after the proxy's own SSLRequest if it asks for TLS) and those
    frames, the client the answers of the dialogue and every frame taken off the
    server's bytes that is not behind the gate. *)
Theorem connection_delivers fuel cfg i e s reply t w o w' :
  enough cfg fuel Plain s → connection fuel cfg i e s reply t w = (o, w') →
  ∃ l, log w' = log w ++ l ∧ opened cfg e s t o l ∧ (is_panic o = true → insists cfg Plain s).
Proof. intros Hf Hc. exact (emits_run _ _ _ _ _ (connection_opened fuel cfg i e s reply t Hf) Hc). Qed.

(** Without client TLS the code never panics, and the dialogue was negotiation
    requests of eight bytes, each answered by one [N], then one startup packet. *)
Theorem connection_transparent fuel cfg i e s reply t w o w' :
  tls_frontend cfg = false → length s < fuel →
  connection fuel cfg i e s reply t w = (o, w') →
  ∃ l, log w' = log w ++ l ∧ is_panic o = false ∧ relayed cfg e s t o l.
Proof.
  intros Htls Hf Hc.
  destruct (emits_run _ _ _ _ _ (connection_opened fuel cfg i e s reply t (enough_plain cfg _ _ _ Htls Hf)) Hc)
    as (l & Hl & Ho & Hp).
  exists l. split_and!; [done| |].
  - destruct (is_panic o); [|done]. specialize (Hp eq_refl). apply insists_needs_tls in Hp. congruence.
  - intros c' ->. destruct (Ho c' eq_refl) as (answers & p & st & rest & Hd & HC & _ & Hsent).
    destruct (dialogue_plain cfg _ _ _ _ Htls Hd) as (reqs & p' & rest' & -> & Hreqs & -> & _ & Hn).
    inversion Hn; subst. by exists reqs, p, rest.
Qed.

(** C39. A cancellation request is forwarded untouched: after any number of
    negotiation requests, the code connects upstream, writes exactly the sixteen
    bytes, closes the connection and records it; nothing else is sent to either
    side and no frame is relayed. *)
Theorem cancel_forwarded fuel cfg i e reqs p rest reply t w :
  tls_frontend cfg = false → Forall request reqs → well_framed p → zlen p = 16%Z →
  request_code p = CANCEL_REQUEST → works w →
  connection (length reqs + S fuel) cfg i e (concat reqs ++ p ++ rest) reply t w =
    (Ret Stop, did ([Nodelay Side.Frontend] ++ replicate (length reqs) (WriteTo Side.Frontend (bs "N")) ++
      [Connect; WriteTo Side.Upstream p; Shutdown Side.Upstream; TraceLine (Lifecycle i "cancel.forwarded" "")]) w).
Proof.
  intros Htls Hreqs Hp H16 Hc Hw. unfold connection. rewrite perform_bind by done.
  unfold mbind at 1, io_bind at 1. rewrite negotiate_requests by done.
  cbn [negotiate]. rewrite timed_framed, lift_bind by done. cbv beta iota zeta. rewrite Hc, H16.
  change (CANCEL_REQUEST =? SSL_REQUEST)%Z with false. change (CANCEL_REQUEST =? GSS_REQUEST)%Z with false.
  rewrite !Z.eqb_refl. cbn [negb]. unfold mret at 1, io_ret at 1. rewrite !perform_bind by done.
  unfold mret, io_ret. rewrite !did_did. done.
Qed.

(** A second SSLRequest, inside the TLS connection that the first one opened,
    makes the code panic in [into_plain], whatever else is configured. *)
Theorem second_ssl_request_panics fuel cfg i e rest more reply t w :
  tls_frontend cfg = true → acceptor_accept rest = inr (ssl_request ++ more) → works w →
  is_panic (connection (S (S fuel)) cfg i e (ssl_request ++ rest) reply t w).1 = true.
Proof.
  intros Htls Hacc Hw.
  assert (Hs : well_framed ssl_request) by by vm_compute.
  assert (Hc : request_code ssl_request = SSL_REQUEST) by by vm_compute.
  assert (H8 : zlen ssl_request = 8%Z) by by vm_compute.
  unfold connection. rewrite perform_bind by done. unfold mbind at 1, io_bind at 1.
  cbn [negotiate]. rewrite timed_framed, lift_bind by done. cbv beta iota zeta.
  rewrite Hc, H8, Htls, !Z.eqb_refl. cbn [negb]. rewrite perform_bind by done. cbn [into_plain].
  rewrite lift_bind. unfold tls_accept. rewrite Hacc. cbn [of_result context]. rewrite lift_bind.
  rewrite timed_framed, lift_bind by done. cbv beta iota zeta. rewrite Hc, H8, !Z.eqb_refl. cbn [negb].
  by rewrite perform_bind.
Qed.
End negotiation.

(** ** Witnesses *)

#[local] Existing Instance no_sha.
#[local] Instance no_delays : Humantime := λ _, inl Elapsed.

(** A client that asks for TLS again inside TLS. *)
#[local] Instance eager_tls : TlsStack := {|
  acceptor_accept s := inr (ssl_request ++ sample_startup);
  is_server_name _ := true;
  connector_connect _ := inr tt
|}.

Definition working : World := mk_world [] 0 (λ _, Done).
Definition plain_config : Config := mk_config "db:5432" [] false false.
Definition tls_config : Config := mk_config "db:5432" [] true false.

Definition cancel_packet : bytes :=
  u32_to_be_bytes 16 ++ u32_to_be_bytes CANCEL_REQUEST ++ u32_to_be_bytes 7 ++ u32_to_be_bytes 99.

(** A client that asks for TLS, for GSS, and starts without either. *)
Definition plain_client : bytes := ssl_request ++ gss_request ++ sample_startup ++ first_query.
(** The first bytes of the query arrive alone; then the server answers. *)
Definition traffic : Traffic := mk_traffic [Side.Frontend; Side.Upstream] [2] [RdBytes (raw (frame "N"%byte [x00]))].
Definition silence : Traffic := mk_traffic [] [] [].
Definition plain_run : outcome flow * World :=
  connection 100 plain_config 1 Stalled plain_client None traffic working.

Lemma connection_transparent_witness :
  sent Side.Upstream (log plain_run.2) = sample_startup ++ first_query ∧
  ∃ reqs p rest, plain_client = concat reqs ++ p ++ rest ∧
    sent Side.Upstream (log plain_run.2) = p ++ concat (client_frames (taken_off traffic Stalled rest)).
Proof.
  split; [by vm_compute|].
  destruct (connection_transparent 100 plain_config 1 Stalled plain_client None traffic working plain_run.1 plain_run.2)
    as (l & Hl & _ & Hr); [done|by apply Nat.ltb_lt; vm_compute|unfold plain_run; apply surjective_pairing|].
  cbn [working log app] in Hl. rewrite Hl.
  destruct plain_run.1 as [[c'|]|e|m] eqn:E; try by vm_compute in E.
  destruct (Hr c' eq_refl) as (reqs & p & rest & Hs & _ & _ & _ & Hsent). exists reqs, p, rest. split; [done|].
  destruct Hsent as [HU _]; [rewrite <-Hl; by vm_compute|]. by rewrite HU.
Defined.

(** A client that starts and asks inside TLS, with the same traffic. *)
Section inside_tls.
#[local] Existing Instance starting_tls.

Definition tls_run : outcome flow * World :=
  connection 100 tls_only 1 Stalled tls_client None traffic working.

Lemma connection_delivers_witness :
  sent Side.Upstream (log tls_run.2) = sample_startup ++ first_query ∧
  ∃ answers p st rest, dialogue tls_only Plain tls_client answers (Started p st rest) ∧
    sent Side.Upstream (log tls_run.2) = p ++ concat (client_frames (taken_off traffic Stalled rest)) ∧
    sent Side.Frontend (log tls_run.2) = answers ++ concat (server_frames (taken_off traffic Stalled rest)).
Proof.
  split; [by vm_compute|].
  destruct (connection_delivers 100 tls_only 1 Stalled tls_client None traffic working tls_run.1 tls_run.2)
    as (l & Hl & Hr & _); [|unfold tls_run; apply surjective_pairing|].
  { split; [by apply Nat.ltb_lt; vm_compute|]. intros _ _ t inner _ [= <-]. by apply Nat.ltb_lt; vm_compute. }
  cbn [working log app] in Hl. rewrite Hl.
  destruct tls_run.1 as [[c'|]|e|m] eqn:E; try by vm_compute in E.
  destruct (Hr c' eq_refl) as (answers & p & st & rest & Hs & _ & _ & Hsent). exists answers, p, st, rest. split; [done|].
  destruct Hsent as [HU HF]; [rewrite <-Hl; by vm_compute|]. rewrite HU. split; [done|].
  assert (Hh : held c' = []).
  { change (held (match Ret (Go c') with Ret (Go c) => c | _ => c' end) = []). rewrite <-E. by vm_compute. }
  rewrite Hh, app_nil_r in HF. by rewrite HF.
Defined.
End inside_tls.

Lemma cancel_forwarded_witness :
  sent Side.Upstream (log (connection 3 plain_config 1 Closed (concat [ssl_request; gss_request] ++ cancel_packet ++ [])
      None silence working).2) = cancel_packet.
Proof.
  assert (Hr : ∀ q, q = ssl_request ∨ q = gss_request → request q).
  { intros q [-> | ->]; split_and!; try by vm_compute; auto. }
  rewrite (cancel_forwarded 0 plain_config 1 Closed [ssl_request; gss_request] cancel_packet [] None silence working);
    [by vm_compute|done|by repeat (constructor; [apply Hr; auto|])|by vm_compute|done|by vm_compute|done].
Defined.

Lemma second_ssl_request_panics_witness :
  is_panic (connection 2 tls_config 1 Closed (ssl_request ++ bs "hello") None silence working).1 = true.
Proof. apply (second_ssl_request_panics 0 tls_config 1 Closed (bs "hello") sample_startup None silence working); done. Defined.
