(* ===== verification/Serve.v ===== *)
(** * The accept loop

    [crates/pgfault-proxy/src/lib.rs], [serve]: connections are numbered as they
    are accepted and each runs in a task of its own; the tasks interleave, effect
    by effect, and share the trace file.  The loop ends on shutdown, when accepting
    fails, or when a task has panicked; after a shutdown it drains its tasks. *)

From S2P Require Import Prelude Utf8 Wire Events Scenario State Trace Proxy Startup.

(** ** Tasks *)

(** A task runs, has ended and waits for [join_next], or is gone: joined, or aborted
    with what had got through of the write it was in. *)
Inductive phase := Running | Ended (panicked : bool) | Gone (cut : list effect).

#[global] Instance phase_eq_dec : EqDecision phase.
Proof. solve_decision. Defined.

(** A task with the effects it has performed, those its connection has yet to
    perform and what the connection returns then, and its closing record.  What
    the peers and the network will do to a connection is drawn when it is
    accepted: nothing in the task depends on the other tasks. *)
Record Task := mk_task {
  performed : list effect;
  ahead : list effect;
  ending : outcome flow;
  closing : list TraceRecord;
  status : phase
}.

Inductive serving := Serving | Draining | Stopped (o : outcome unit).

(** The loop's variables, the tasks it has spawned in order, and the trace file. *)
Record Server := mk_server {
  next_id : Z;
  tasks : list Task;
  trace : list TraceRecord;
  stat : serving
}.

Definition server_new : Server := mk_server 0 [] [] Serving.

(** [let mut next_id = 0; .. next_id += 1; let id = next_id]: the number of the
    [n]-th connection. *)
Definition number (n : nat) : Z := (Z.of_nat n + 1) mod 2 ^ 64.

(** [e.to_string()]: the outermost message of an [anyhow::Error]. *)
Definition display (e : error) : string :=
  match e with
  | Io _ msg | Bail msg | Ctx msg _ => msg
  | Elapsed => "deadline has elapsed"
  end.

(** [&result.err().map(|e| e.to_string()).unwrap_or_default()] *)
Definition detail (o : outcome flow) : string :=
  match o with Fail e => display e | _ => "" end.

Definition trace_lines (l : list effect) : list TraceRecord :=
  omap (λ e, match e with TraceLine r => Some r | _ => None end) l.

Definition set_task (n : nat) (t : Task) (s : Server) : Server :=
  mk_server (next_id s) (<[n := t]> (tasks s)) (trace s) (stat s).
Definition append (rs : list TraceRecord) (s : Server) : Server :=
  mk_server (next_id s) (tasks s) (trace s ++ rs) (stat s).
Definition set_stat (k : serving) (s : Server) : Server :=
  mk_server (next_id s) (tasks s) (trace s) k.

Section serve.
Context `{Sha256} `{Humantime} `{TlsStack}.

(** A run of [connection]: what it performs and how it ends, for some client,
    upstream and network. *)
Definition connection_run (cfg : Config) (i : Z) (l : list effect) (o : outcome flow) : Prop :=
  ∃ fuel e s reply t orc w,
    connection fuel cfg i e s reply t (mk_world [] 0 orc) = (o, w) ∧ log w = l ∧ o ≠ out_of_fuel.

(** ** Steps *)

(** The task performs its next effect. *)
Definition advance (eff : effect) (rest : list effect) (t : Task) : Task :=
  mk_task (performed t ++ [eff]) rest (ending t) (closing t) (status t).

(** [let _ = config.trace.lifecycle(id, "connection.closed", ..)]: recorded, or
    not if that fails. *)
Definition close (i : Z) (recorded : bool) (t : Task) : Task :=
  mk_task (performed t) [] (ending t)
    (if recorded then [Lifecycle i "connection.closed" (detail (ending t))] else []) (Ended false).

Definition with_status (p : phase) (t : Task) : Task :=
  mk_task (performed t) (ahead t) (ending t) (closing t) p.

(** The task has reached the end of its connection, which has returned. *)
Definition returned (t : Task) : Prop :=
  status t = Running ∧ ahead t = [] ∧ is_panic (ending t) = false ∧ ∀ c, ending t ≠ Ret (Go c).

(** Where a task can be aborted: between its effects, or inside a write to a socket;
    a write to the trace file does not wait, nor do the others. *)
Definition interrupted (t : Task) (cut : list effect) : Prop :=
  cut = [] ∨ ∃ sd s rest n, ahead t = WriteTo sd s :: rest ∧ cut = partial (WriteTo sd s) n.

Definition gone (t : Task) : Prop := ∃ cut, status t = Gone cut.
#[export] Instance gone_dec t : Decision (gone t).
Proof. destruct (status t) eqn:E; [right..|left]; unfold gone; rewrite E; naive_solver. Defined.

Variable cfg : Config.

Inductive step : Server → Server → Prop :=
  | step_accept s l o :
      stat s = Serving → connection_run cfg (u64_add (next_id s) 1) l o →
      step s (mk_server (u64_add (next_id s) 1) (tasks s ++ [mk_task [] l o [] Running]) (trace s) Serving)
  | step_accept_error s e :
      stat s = Serving → step s (set_stat (Stopped (Fail e)) s)
  | step_effect s n t eff rest :
      tasks s !! n = Some t → status t = Running → ahead t = eff :: rest →
      step s (append (trace_lines [eff]) (set_task n (advance eff rest t) s))
  | step_close s n t recorded :
      tasks s !! n = Some t → returned t →
      step s (append (closing (close (number n) recorded t)) (set_task n (close (number n) recorded t) s))
  | step_panic s n t :
      tasks s !! n = Some t → status t = Running → ahead t = [] → is_panic (ending t) = true →
      step s (set_task n (with_status (Ended true) t) s)
  | step_join s n t :
      stat s = Serving ∨ stat s = Draining → tasks s !! n = Some t → status t = Ended false →
      step s (set_task n (with_status (Gone []) t) s)
  | step_join_panicked s n t e :
      stat s = Serving → tasks s !! n = Some t → status t = Ended true →
      step s (set_stat (Stopped (Fail e)) (set_task n (with_status (Gone []) t) s))
  | step_drain_panicked s n t :
      stat s = Draining → tasks s !! n = Some t → status t = Ended true →
      step s (set_task n (with_status (Gone []) t) s)
  | step_shutdown s :
      stat s = Serving → step s (set_stat Draining s)
  | step_abort s n t cut :
      stat s ≠ Serving → tasks s !! n = Some t → status t = Running → interrupted t cut →
      step s (set_task n (with_status (Gone cut) t) s)
  | step_drained s :
      stat s = Draining → Forall gone (tasks s) →
      step s (set_stat (Stopped (Ret tt)) s).

Definition reachable (s : Server) : Prop := rtc step server_new s.
End serve.
