(* ===== verification/ServeProps.v ===== *)
(** * Properties of the accept loop

    The tasks share nothing but the trace file: projected on a connection, the
    file is the records of that connection, which are the events its observer
    made of its frames.  A shutdown ends; a panic ends every connection. *)

From stdpp Require Import list_numbers.
From S2P Require Import Prelude Utf8 Wire Events Scenario State StateLemmas StateEvents StateTx Trace.
From S2P Require Import Proxy ProxyLemmas RelayLemmas Delivery Window RelayTotal Session Startup Negotiation StartupProps Serve.

(** ** What a connection records *)

Definition record_id (r : TraceRecord) : Z :=
  match r with Semantic e | Fault e _ => connection_id e | Lifecycle i _ _ => i end.

(** Every record of these effects is about this connection. *)
Definition concerns (i : Z) (l : list effect) : Prop := Forall (λ r, record_id r = i) (trace_lines l).

Lemma trace_lines_app l l' : trace_lines (l ++ l') = trace_lines l ++ trace_lines l'.
Proof. apply omap_app. Qed.

Lemma concerns_app i l l' : concerns i (l ++ l') ↔ concerns i l ∧ concerns i l'.
Proof. unfold concerns. by rewrite trace_lines_app, Forall_app. Qed.

(** A program whose records are about [i] and whose value satisfies [R]. *)
Definition about {A} (i : Z) (R : A → Prop) (m : IO A) : Prop :=
  emits m (λ o l, concerns i l ∧ ∀ a, o = Ret a → R a).

Lemma about_ret {A} i (R : A → Prop) a : R a → about i R (mret a).
Proof. intros Ha. apply emits_ret. split; [constructor|]. by intros ? [= <-]. Qed.

Lemma about_lift {A} i (R : A → Prop) o : (∀ a, o = Ret a → R a) → about i R (lift o).
Proof. intros Ha. apply emits_lift. split; [constructor|done]. Qed.

Lemma about_perform i (R : unit → Prop) eff :
  (∀ r, eff = TraceLine r → record_id r = i) → R tt → about i R (perform eff).
Proof.
  intros Hr Ht. apply emits_perform.
  - split; [|by intros []]. unfold concerns. destruct eff; constructor; [by apply Hr|constructor].
  - intros e n. split; [|done]. destruct eff; constructor.
Qed.

Lemma about_bind {A B} i (R : A → Prop) (R' : B → Prop) (m : IO A) (k : A → IO B) :
  about i R m → (∀ a, R a → about i R' (k a)) → about i R' (m ≫= k).
Proof.
  intros Hm Hk. eapply emits_bind; [exact Hm| |..].
  - intros a l [Hl Ha]. eapply emits_mono; [apply (Hk a), Ha; done|].
    intros o l' [Hl' Ho]. split; [|done]. by apply concerns_app.
  - by intros e l [? _].
  - by intros e l [? _].
Qed.

(** The steps of a program that records nothing. *)
Create HintDb records.
Ltac about_step :=
  lazymatch goal with
  | |- about _ _ (mret _) => apply about_ret
  | |- about _ _ (lift _) => apply about_lift
  | |- about _ _ (perform _) => apply about_perform; [by intros ? ?; repeat case_match; simplify_eq|]
  | |- about ?i _ (mbind _ _) => eapply (about_bind i (λ _, True)); [|intros ? _]
  | |- about _ _ (if ?b then _ else _) => destruct b
  | |- about _ _ (match ?x with _ => _ end) => destruct x
  end.
Ltac about_steps := repeat (about_step; try done; eauto with records).

(** ** Events are about their connection *)

Section records.
Context `{Sha256} `{Humantime}.

Lemma frontend_about f s : Forall (λ e, connection_id e = id s) (frontend f s).1.
Proof.
  unfold frontend. pose proof (frontend_update_keeps f s) as Hu.
  destruct (frontend_update f s) as [ns s1]. simpl in Hu. destruct Hu as (_ & _ & _ & Hi & _).
  eapply Forall_impl; [apply events_snapshot|]. intros e [-> _]. rewrite <-Hi.
  unfold allocate_epoch, map_front. by repeat case_match.
Qed.

Lemma map_front_id g s : id (map_front g s) = id s.
Proof. unfold map_front. by destruct (cycles s). Qed.

Lemma retire_cycle_id new s : id (retire_cycle new s) = id s.
Proof. unfold retire_cycle. cbv zeta. by repeat case_bool_decide. Qed.

Lemma backend_id f s : id (backend f s).2 = id s.
Proof.
  unfold backend, on_parameter_status, on_confirm, on_error, on_ready. cbv zeta.
  repeat (case_match; split_events); rewrite ?map_front_id, ?retire_cycle_id; cbn; rewrite ?map_front_id; done.
Qed.

Lemma backend_about f s : Forall (λ e, connection_id e = id s) (backend f s).1.
Proof. eapply Forall_impl; [apply backend_attributed|]. by intros e [? _]. Qed.

(** *** The relay *)

Lemma apply_about i es ms tr :
  Forall (λ e, connection_id e = i) es → about i (λ _, True) (apply es ms tr).
Proof.
  unfold apply. generalize (mk_disposition false false). revert ms tr.
  induction es as [|e es IH]; intros ms tr d Hes; [by apply about_ret|].
  apply Forall_cons in Hes as [He Hes]. cbn [apply_events].
  eapply (about_bind i (λ _, True)); [by apply about_perform; [intros ? [= <-]|]|intros _ _].
  eapply (about_bind i (λ _, True)); [|intros [[ms' d'] tr'] _; by apply IH].
  clear IH. revert d tr. induction ms as [|m ms IH]; intros d tr; [by apply about_ret|].
  cbn [apply_matchers]. destruct (observe m e) as [fires m1].
  eapply (about_bind i (λ _, True)).
  - destruct fires; [|by apply about_ret].
    eapply (about_bind i (λ _, True)); [by apply about_perform; [intros ? [= <-]|]|intros _ _].
    unfold run_action. cbv zeta. about_steps.
  - intros [d' tr'] _. eapply (about_bind i (λ _, True)); [apply IH|].
    intros [[ms' d''] tr''] _. by apply about_ret.
Qed.

(** A turn leaves a connection that is still the one numbered [i]. *)
Definition still (i : Z) (k : flow) : Prop := ∀ c, k = Go c → id (state c) = i.

Lemma on_client_about i fr c : id (state c) = i → about i (still i) (on_client fr c).
Proof.
  intros Hi. destruct fr as [f|]; cbn [on_client].
  2: { about_step; [about_steps|]. by apply about_ret. }
  pose proof (frontend_about f (state c)) as Hes. pose proof (frontend_keeps f (state c)) as (_ & _ & _ & Hk).
  destruct (frontend f (state c)) as [es st]. cbn [fst snd] in *. rewrite Hi in *.
  eapply (about_bind i (λ _, True)); [by apply apply_about|]. intros [[ms d] tr] _.
  destruct (disconnect d); [by apply about_ret|].
  eapply (about_bind i (still i)).
  - destruct (suppress d); [apply about_ret; by intros ? [= <-]|].
    about_step; [about_steps|]. destruct (_ || _); [|apply about_ret; by intros ? [= <-]].
    unfold forwarded, event. eapply (about_bind i (λ _, True)); [by apply apply_about; repeat constructor|].
    intros [[ms' d'] tr'] _. destruct (disconnect d'); apply about_ret; [done|]. by intros ? [= <-].
  - intros k Hk'. by destruct (Byte.eqb (tag f) "X"%byte); apply about_ret.
Qed.

Lemma write_all_held_about i hs : about i (λ _, True) (write_all_held hs).
Proof. induction hs as [|h hs IH]; cbn [write_all_held]; [by apply about_ret|]. about_step; [about_steps|done]. Qed.

Lemma truncated_about i c : id c = i → about i (still i) (truncated c).
Proof.
  intros <-. unfold truncated. about_step; [about_steps|]. about_step; [|by apply about_ret].
  by apply about_perform; [intros ? [= <-]|].
Qed.

Lemma on_server_about i fr c : id (state c) = i → about i (still i) (on_server fr c).
Proof.
  intros Hi. destruct fr as [f|]; cbn [on_server]; cbv zeta.
  2: { about_step; [about_steps|]. by apply about_ret. }
  pose proof (backend_about f (state c)) as Hes. pose proof (backend_id f (state c)) as Hk.
  destruct (backend f (state c)) as [es st]. cbn [fst snd] in *. rewrite Hi in *.
  eapply (about_bind i (λ _, True)); [by apply apply_about|]. intros [[ms d] tr] _.
  destruct (disconnect d); [by apply about_ret|]. destruct (cut_row f tr) as [cut tr1].
  destruct cut; [by apply truncated_about|].
  eapply (about_bind i (λ c', id (state c') = i)).
  - destruct (Byte.eqb (tag f) "Z"%byte).
    { about_step; [|by apply about_ret]. destruct (suppress d); [by apply about_ret|].
      about_step; [apply write_all_held_about|about_steps]. }
    destruct (suppress d); [by apply about_ret|]. destruct (_ || _).
    + destruct (_ <? _)%Z; [by apply about_lift|by apply about_ret].
    + about_step; [about_steps|]. by apply about_ret.
  - intros c' Hc'. destruct (_ && _); [by apply truncated_about|]. apply about_ret. by intros ? [= <-].
Qed.

Lemma relay_about i ins c : id (state c) = i → about i (still i) (relay ins c).
Proof.
  revert c. induction ins as [|x ins IH]; intros c Hi; cbn [relay]; [apply about_ret; by intros ? [= <-]|].
  eapply (about_bind i (still i)).
  - destruct x; [by apply on_client_about|by apply on_server_about|by apply about_lift].
  - intros [c'|] Hk; [by apply IH, Hk|by apply about_ret].
Qed.
End records.

(** *** A whole connection *)

Section connections.
Context `{Sha256} `{Humantime} `{TlsStack}.

Lemma negotiate_about i fuel cfg e st s : about i (λ _, True) (negotiate fuel cfg e st s).
Proof.
  revert st s. induction fuel as [|fuel IH]; intros st s; cbn [negotiate]; [by apply about_lift|].
  about_step; [by apply about_lift|]. cbv zeta.
  repeat first [done | apply IH | about_step].
Qed.

Lemma about_contextual {A} i (R : A → Prop) msg m : about i R m → about i R (contextual msg m).
Proof.
  intros Hm w. destruct (Hm w) as (l & Hl & Ho & Hc & Ha). unfold contextual.
  destruct (m w) as [o w']. exists l. split_and!; [done|done|done|]. by destruct o.
Qed.

Lemma open_upstream_about i cfg packet reply : about i (λ _, True) (open_upstream cfg i packet reply).
Proof.
  unfold open_upstream, secure_upstream. about_step; [apply about_contextual; about_steps|].
  about_step; [about_steps|]. about_step; [repeat first [done | about_step]|].
  about_step; [about_steps|]. by apply about_perform; [intros ? [= <-]|].
Qed.

Lemma connection_about i fuel cfg e s reply t : about i (still i) (connection fuel cfg i e s reply t).
Proof.
  unfold connection. about_step; [about_steps|].
  eapply (about_bind i (λ _, True)); [apply negotiate_about|intros [packet st rest|packet] _].
  - about_step; [by apply about_lift|]. about_step; [apply open_upstream_about|].
    unfold about. rewrite relaying_relay. by apply relay_about.
  - do 3 (about_step; [about_steps|]). about_step; [by apply about_perform; [intros ? [= <-]|]|]. by apply about_ret.
Qed.

(** The events a connection records are those of one run of its observer, and the
    faults the firings of the configured scenarios on them. *)
Definition observed (cfg : Config) (i : Z) (l : list effect) : Prop :=
  ∃ meta os, let es := (run os (new i meta)).1 in
    semantics l `prefix_of` es ∧ faults l `prefix_of` fired_all es (matcher_new <$> scenarios cfg).

Definition silent {A} (m : IO A) : Prop := emits m (λ _ l, semantics l = [] ∧ faults l = []).

Lemma silent_bind {A B} (m : IO A) (k : A → IO B) :
  silent m → (∀ a, silent (k a)) → silent (m ≫= k).
Proof.
  intros Hm Hk. eapply emits_bind; [exact Hm| |done..].
  intros a l [Hs Hf]. eapply emits_mono; [apply Hk|]. intros o l' [Hs' Hf'].
  by rewrite semantics_app, faults_app, Hs, Hf, Hs', Hf'.
Qed.

Lemma silent_lift {A} (o : outcome A) : silent (lift o).
Proof. by apply emits_lift. Qed.

Lemma silent_ret {A} (a : A) : silent (mret a).
Proof. by apply emits_ret. Qed.

Lemma silent_perform eff : semantics [eff] = [] → faults [eff] = [] → silent (perform eff).
Proof. intros Hs Hf. apply emits_perform; [done|]. intros e n. by destruct eff. Qed.

Lemma silent_contextual {A} msg (m : IO A) : silent m → silent (contextual msg m).
Proof.
  intros Hm w. destruct (Hm w) as (l & Hl & Ho & Hs). unfold contextual. destruct (m w) as [o w']. by exists l.
Qed.

(** The steps of a program that records no event. *)
Ltac silent_step :=
  lazymatch goal with
  | |- silent (mret _) => apply silent_ret
  | |- silent (lift _) => apply silent_lift
  | |- silent (perform _) => by apply silent_perform
  | |- silent (contextual _ _) => apply silent_contextual
  | |- silent (mbind _ _) => apply silent_bind; [|intros ?]
  | |- silent (if ?b then _ else _) => destruct b
  | |- silent (match ?x with _ => _ end) => destruct x
  end.

Lemma negotiate_silent fuel cfg e st s : silent (negotiate fuel cfg e st s).
Proof.
  revert st s. induction fuel as [|fuel IH]; intros st s; cbn [negotiate]; cbv zeta; repeat first [apply IH | silent_step].
Qed.

Lemma connection_observed fuel cfg i e s reply t :
  emits (connection fuel cfg i e s reply t) (λ _ l, observed cfg i l).
Proof.
  assert (Hlater : ∀ A (m : IO A) (k : A → IO flow), silent m →
    (∀ a, emits (k a) (λ _ l, observed cfg i l)) → emits (m ≫= k) (λ _ l, observed cfg i l)).
  { intros A m k Hm Hk. eapply emits_bind; [exact Hm| |..].
    - intros a l [Hs Hf]. eapply emits_mono; [apply Hk|]. unfold observed. intros o l'.
      by rewrite semantics_app, faults_app, Hs, Hf.
    - intros err l [Hs Hf]. exists StartupMetadata_default, []. by rewrite Hs, Hf.
    - intros err l [Hs Hf]. exists StartupMetadata_default, []. by rewrite Hs, Hf. }
  assert (Hnil : ∀ (m : IO flow), silent m → emits m (λ _ l, observed cfg i l)).
  { intros m Hm. eapply emits_mono; [exact Hm|]. intros _ l [Hs Hf]. exists StartupMetadata_default, []. by rewrite Hs, Hf. }
  unfold connection. apply Hlater; [silent_step|intros _]. apply Hlater; [apply negotiate_silent|].
  intros [packet st rest|packet]; [|apply Hnil; repeat silent_step].
  apply Hlater; [silent_step|intros meta]. apply Hlater.
  { unfold open_upstream, secure_upstream. repeat silent_step. }
  intros _. rewrite relaying_relay. eapply emits_mono; [apply relay_follows|]. intros o l (k & os & _ & (Hs & Hf & _) & _).
  by exists meta, os.
Qed.

Lemma connection_run_inv cfg i l o : connection_run cfg i l o → concerns i l ∧ observed cfg i l.
Proof.
  intros (fuel & e & s & reply & t & orc & w & Hc & <- & _).
  destruct (emits_run _ _ _ _ _ (connection_about i fuel cfg e s reply t) Hc) as (l & Hl & Hi & _).
  destruct (emits_run _ _ _ _ _ (connection_observed fuel cfg i e s reply t) Hc) as (l' & Hl' & Ho).
  cbn [log app] in Hl, Hl'. by rewrite Hl in Hl' |- *; subst l'.
Qed.

(** ** The invariant of the loop *)

Context (cfg : Config).

(** A task is on its way through a run of its connection. *)
Definition task_ok (n : nat) (t : Task) : Prop :=
  connection_run cfg (number n) (performed t ++ ahead t) (ending t) ∧
  (closing t = [] ∨ closing t = [Lifecycle (number n) "connection.closed" (detail (ending t))] ∧ ahead t = []) ∧
  (status t = Running → closing t = []).

(** The part of the trace file a task has written. *)
Definition written (t : Task) : list TraceRecord := trace_lines (performed t) ++ closing t.
Definition records_of (i : Z) (rs : list TraceRecord) : list TraceRecord := filter (λ r, record_id r = i) rs.

Definition server_ok (s : Server) : Prop :=
  next_id s = (Z.of_nat (length (tasks s)) mod 2 ^ 64)%Z ∧
  (∀ n t, tasks s !! n = Some t → task_ok n t) ∧
  ((Z.of_nat (length (tasks s)) < 2 ^ 64)%Z → ∀ n, (Z.of_nat n + 1 < 2 ^ 64)%Z →
    records_of (number n) (trace s) = default [] (written <$> tasks s !! n)) ∧
  Forall (λ r, ∃ n, n < length (tasks s) ∧ record_id r = number n) (trace s).

Lemma records_of_all i rs : Forall (λ r, record_id r = i) rs → records_of i rs = rs.
Proof. induction 1 as [|r rs Hr _ IH]; [done|]. unfold records_of in *. rewrite filter_cons_True by done. by rewrite IH. Qed.

Lemma records_of_none i rs : Forall (λ r, record_id r ≠ i) rs → records_of i rs = [].
Proof. induction 1 as [|r rs Hr _ IH]; [done|]. unfold records_of in *. by rewrite filter_cons_False. Qed.

Lemma number_small n : (Z.of_nat n + 1 < 2 ^ 64)%Z → number n = (Z.of_nat n + 1)%Z.
Proof. intros. unfold number. apply Z.mod_small. lia. Qed.

Lemma server_new_ok : server_ok server_new.
Proof. split_and!; [done|done|done|constructor]. Qed.

(** A step of one task, which appends records about its connection. *)
Lemma server_ok_task s n t t' rs k :
  server_ok s → tasks s !! n = Some t → task_ok n t' →
  written t' = written t ++ rs → Forall (λ r, record_id r = number n) rs →
  server_ok (set_stat k (append rs (set_task n t' s))).
Proof.
  intros (Hid & Hok & Htr & Hall) Ht Ht' Hw Hrs. unfold server_ok. cbn [set_stat append set_task next_id tasks trace].
  rewrite length_insert. pose proof (lookup_lt_Some _ _ _ Ht) as Hn. split_and!; [done|..].
  - intros m u. destruct (decide (m = n)) as [->|Hne].
    + rewrite list_lookup_insert_eq by done. by intros [= <-].
    + rewrite list_lookup_insert_ne by done. apply Hok.
  - intros Hb m Hm. unfold records_of. rewrite filter_app. fold (records_of (number m) (trace s)). rewrite Htr by done.
    destruct (decide (m = n)) as [->|Hne].
    + rewrite list_lookup_insert_eq, Ht by done. cbn. rewrite Hw. f_equal. by apply records_of_all.
    + rewrite list_lookup_insert_ne by done. fold (records_of (number m) rs).
      rewrite records_of_none, app_nil_r; [done|]. eapply Forall_impl; [exact Hrs|]. intros r -> E.
      rewrite !number_small in E by lia. apply Hne. lia.
  - rewrite Forall_app. split; [done|]. eapply Forall_impl; [exact Hrs|]. eauto.
Qed.

Lemma server_ok_phase s n t p k :
  server_ok s → tasks s !! n = Some t → (p = Running → status t = Running) →
  server_ok (set_stat k (set_task n (with_status p t) s)).
Proof.
  intros Hs Ht Hp. replace (set_task n (with_status p t) s) with (append [] (set_task n (with_status p t) s))
    by (unfold append; rewrite app_nil_r; by destruct s).
  destruct (Hs) as (_ & Hok & _). destruct (Hok _ _ Ht) as (Hrun & Hc & Hr).
  eapply server_ok_task; [done|exact Ht| |by unfold written; rewrite app_nil_r|constructor].
  split_and!; [done|done|]. intros E. apply Hr, Hp, E.
Qed.

Lemma server_ok_stat s k : server_ok s → server_ok (set_stat k s).
Proof. by intros (? & ? & ? & ?). Qed.

Lemma step_ok s s' : step cfg s s' → server_ok s → server_ok s'.
Proof.
  intros Hstep Hs. pose proof Hs as (Hid & Hok & Htr & Hall).
  assert (Hstat : ∀ s, s = set_stat (stat s) s) by by intros [].
  destruct Hstep as [s l o Hst Hrun|s e Hst|s n t eff rest Ht Hr Ha|s n t b Ht (Hr & Ha & Hp & Hgo)|
    s n t Ht Hr Ha Hp|s n t Hst Ht Hr|s n t e Hst Ht Hr|s n t Hst Ht Hr|s Hst|s n t cut Hst Ht Hr Hcut|s Hst Hall'].
  - assert (Hi : u64_add (next_id s) 1 = number (length (tasks s))).
    { unfold u64_add, number. rewrite Hid. by rewrite Zplus_mod_idemp_l. }
    unfold server_ok. cbn [next_id tasks trace]. rewrite length_app. cbn [length]. rewrite Hi in *. split_and!.
    + unfold number. f_equal. lia.
    + intros n t. rewrite lookup_app_Some. intros [?|[Hn E]]; [by apply Hok|].
      apply list_lookup_singleton_Some in E as [E <-]. replace n with (length (tasks s)) by lia.
      split_and!; [done|by left|done].
    + intros Hb n Hn. rewrite Htr by lia. destruct (decide (n < length (tasks s))) as [Hlt|Hge].
      { by rewrite lookup_app_l. }
      rewrite lookup_app_r, lookup_ge_None_2 by lia. by destruct (n - length (tasks s)) as [|[]].
    + eapply Forall_impl; [exact Hall|]. intros r (n & ? & ?). exists n. split; [lia|done].
  - by apply server_ok_stat.
  - rewrite (Hstat (append _ _)). destruct (Hok _ _ Ht) as (Hrun & Hc & Hcl). rewrite Ha in *.
    apply server_ok_task with t; [done|done|..].
    + split_and!; [by cbn; rewrite <-app_assoc|left; by apply Hcl|done].
    + unfold written. cbn. rewrite (Hcl Hr), !app_nil_r. by rewrite trace_lines_app.
    + apply connection_run_inv in Hrun as [Hco _]. apply concerns_app in Hco as [_ Hco].
      change (eff :: rest) with ([eff] ++ rest) in Hco. by apply concerns_app in Hco as [? _].
  - rewrite (Hstat (append _ _)). destruct (Hok _ _ Ht) as (Hrun & Hc & Hcl). rewrite Ha in *.
    apply server_ok_task with t; [done|done|..].
    + split_and!; [done| |done]. cbn. destruct b; [by right|by left].
    + unfold written. cbn. by rewrite (Hcl Hr), app_nil_r.
    + cbn. destruct b; by repeat constructor.
  - rewrite (Hstat (set_task _ _ _)). by apply server_ok_phase.
  - rewrite (Hstat (set_task _ _ _)). by apply server_ok_phase.
  - by apply server_ok_phase.
  - rewrite (Hstat (set_task _ _ _)). by apply server_ok_phase.
  - by apply server_ok_stat.
  - rewrite (Hstat (set_task _ _ _)). by apply server_ok_phase.
  - by apply server_ok_stat.
Qed.

Lemma reachable_ok s : reachable cfg s → server_ok s.
Proof.
  unfold reachable. intros Hs. assert (Hnew := server_new_ok). revert Hnew.
  induction Hs as [|s1 s2 s3 Hstep _ IH]; [done|]. intros Hok. by eapply IH, step_ok.
Qed.

(** ** Termination *)

(** What is left of a task: its effects, its end, and its join. *)
Definition task_weight (t : Task) : nat :=
  match status t with Running => 2 + length (ahead t) | Ended _ => 1 | Gone _ => 0 end.
Definition weight (s : Server) : nat :=
  sum_list_with task_weight (tasks s) + match stat s with Stopped _ => 0 | _ => 1 end.

Lemma sum_insert (n : nat) (t t' : Task) (ts : list Task) :
  ts !! n = Some t → task_weight t' < task_weight t →
  sum_list_with task_weight (<[n := t']> ts) < sum_list_with task_weight ts.
Proof.
  intros Ht Hw. revert n Ht. induction ts as [|u ts IH]; intros [|n] Ht; simplify_eq/=; [lia|].
  specialize (IH _ Ht). lia.
Qed.

(** Once the loop has ended, every step uses something up. *)
Lemma step_weight s s' : step cfg s s' → stat s ≠ Serving → stat s' ≠ Serving ∧ weight s' < weight s.
Proof.
  intros Hstep Hst. unfold weight.
  destruct Hstep as [? ? ? E|? ? E|s n t eff rest Ht Hr Ha|s n t b Ht (Hr & Ha & _)|s n t Ht Hr Ha|
    s n t _ Ht Hr|? ? ? ? E|s n t _ Ht Hr|? E|s n t cut _ Ht Hr _|s E Hall]; try done; cbn [append set_task set_stat tasks stat];
    (split; [done|]).
  1-6: apply Nat.add_lt_mono_r, (sum_insert n t); [done|]; unfold task_weight; cbn; rewrite Hr; try rewrite Ha; simpl; lia.
  rewrite E. lia.
Qed.

(** Until then, a loop that drains has a step to take. *)
Lemma drain_progress s : stat s = Draining → ∃ s', step cfg s s'.
Proof.
  intros Hst. destruct (decide (Forall gone (tasks s))) as [Hall|Hall].
  { eexists. by apply step_drained. }
  apply not_Forall_Exists in Hall; [|intros ?; apply _]. apply Exists_exists in Hall as (t & Ht & Hg).
  apply list_elem_of_lookup in Ht as [n Ht]. destruct (status t) as [|[]|cut] eqn:E; [..|by destruct Hg; exists cut].
  - eexists. eapply step_abort; [by rewrite Hst|done|done|by left].
  - eexists. by eapply step_drain_panicked.
  - eexists. eapply step_join; [by right|done|done].
Qed.

Lemma steps_stopped s s' o : rtc (step cfg) s s' → stat s = Stopped o → stat s' = Stopped o ∧ length (tasks s') = length (tasks s).
Proof.
  induction 1 as [s|s1 s2 s3 Hstep _ IH]; intros Hst; [done|].
  assert (stat s2 = Stopped o ∧ length (tasks s2) = length (tasks s1)) as [Hst2 Hl].
  { destruct Hstep; cbn in *; rewrite ?length_insert; try done; by destruct_or?; congruence. }
  destruct (IH Hst2). split; [done|congruence].
Qed.

Lemma steps_draining s s' :
  rtc (step cfg) s s' → stat s = Draining → stat s' = Draining ∨ stat s' = Stopped (Ret tt).
Proof.
  induction 1 as [s|s1 s2 s3 Hstep Hrest IH]; intros Hst; [by left|].
  assert (stat s2 = Draining ∨ stat s2 = Stopped (Ret tt)) as [Hst2|Hst2].
  { destruct Hstep; cbn in *; try congruence; auto. }
  - by apply IH.
  - right. by eapply steps_stopped.
Qed.

(** ** Properties *)

(** Numbering of connections: however clients arrive and their connections
    end, the [n]-th connection accepted (from 0) runs as the connection numbered
    [n + 1], the counter holds the number of connections accepted, and below its
    width no two connections share a number. *)
Theorem connections_numbered_once s :
  reachable cfg s →
  next_id s = (Z.of_nat (length (tasks s)) mod 2 ^ 64)%Z ∧
  (∀ n t, tasks s !! n = Some t → connection_run cfg (number n) (performed t ++ ahead t) (ending t)) ∧
  ((Z.of_nat (length (tasks s)) < 2 ^ 64)%Z →
    number <$> seq 0 (length (tasks s)) = seqZ 1 (Z.of_nat (length (tasks s)))).
Proof.
  intros (Hid & Hok & _)%reachable_ok. split_and!; [done|by intros n t Ht; apply Hok in Ht as [? _]|].
  intros Hb. apply list_eq. intros n. rewrite list_lookup_fmap.
  destruct (decide (n < length (tasks s))) as [Hn|Hn].
  - rewrite lookup_seq_lt, lookup_seqZ_lt by lia. cbn. rewrite number_small by lia. f_equal. lia.
  - rewrite lookup_seq_ge, lookup_seqZ_ge by lia. done.
Qed.

(** The semantic and fault records of a trace. *)
Definition events_of (rs : list TraceRecord) : list Event :=
  omap (λ r, match r with Semantic e => Some e | _ => None end) rs.
Definition faults_of (rs : list TraceRecord) : list (Event * Scenario) :=
  omap (λ r, match r with Fault e s => Some (e, s) | _ => None end) rs.

Lemma written_reads t : (closing t = [] ∨ ∃ i n d, closing t = [Lifecycle i n d]) →
  events_of (written t) = semantics (performed t) ∧ faults_of (written t) = faults (performed t).
Proof.
  intros Hc. unfold written, events_of, faults_of. rewrite !omap_app.
  assert (omap (λ r, match r with Semantic e => Some e | _ => None end) (closing t) = [] ∧
    omap (λ r, match r with Fault e s => Some (e, s) | _ => None end) (closing t) = []) as [-> ->].
  { by destruct Hc as [->|(? & ? & ? & ->)]. }
  rewrite !app_nil_r. generalize (performed t). intros l. unfold semantics, faults, trace_lines.
  split; (induction l as [|[| | | | | |[]|] l IH]; [done|first [exact IH | exact (f_equal (cons _) IH)]..]).
Qed.

(** C6. The trace file: every record of the file is about a connection that was
    accepted; and whatever the interleaving of the connections, the records about
    one of them are exactly what it has recorded so far, in its order, closed by
    [connection.closed] if at all: the events among them are an initial part of
    the events that one observer makes of the frames of this connection, and the
    faults an initial part of the firings of the configured scenarios on them. *)
Theorem trace_file_faithful s n t :
  reachable cfg s → (Z.of_nat (length (tasks s)) < 2 ^ 64)%Z → tasks s !! n = Some t →
  let rs := records_of (number n) (trace s) in
  rs = trace_lines (performed t) ++ closing t ∧
  Forall (λ r, record_id r ∈ number <$> seq 0 (length (tasks s))) (trace s) ∧
  ∃ meta os, let es := (run os (new (number n) meta)).1 in
    events_of rs `prefix_of` es ∧ faults_of rs `prefix_of` fired_all es (matcher_new <$> scenarios cfg).
Proof.
  intros (_ & Hok & Htr & Hall)%reachable_ok Hb Ht rs. pose proof (lookup_lt_Some _ _ _ Ht) as Hn.
  destruct (Hok _ _ Ht) as (Hrun & Hc & _).
  assert (rs = written t) as ->. { unfold rs. rewrite Htr by lia. by rewrite Ht. }
  split_and!; [done| |].
  - eapply Forall_impl; [exact Hall|]. intros r (m & Hm & ->). apply list_elem_of_fmap_2, elem_of_seq. lia.
  - apply connection_run_inv in Hrun as [_ (meta & os & Hs & Hf)]. exists meta, os.
    destruct (written_reads t) as [-> ->]; [destruct Hc as [->|[-> _]]; [by left|by right; eauto]|].
    rewrite semantics_app in Hs. rewrite faults_app in Hf.
    split; (etrans; [by apply prefix_app_r|done]).
Qed.

(** C12. Shutdown terminates: once the loop drains, every sequence of steps is
    finite, whatever the connections still do, and a state with no step left is
    the one in which [serve] has returned [Ok(())]. *)
Theorem shutdown_terminates s :
  stat s = Draining →
  Acc (λ s2 s1, step cfg s1 s2) s ∧
  ∀ s', rtc (step cfg) s s' → (∀ s'', ¬ step cfg s' s'') → stat s' = Stopped (Ret tt).
Proof.
  intros Hst. split.
  - assert (stat s ≠ Serving) as Hne by by rewrite Hst. clear Hst. revert Hne.
    induction s as [s IH] using (well_founded_ind (well_founded_ltof _ weight)). intros Hne.
    constructor. intros s' Hstep. destruct (step_weight _ _ Hstep Hne). by apply IH.
  - intros s' Hs Hstuck. destruct (steps_draining _ _ Hs Hst) as [Hst'|]; [|done].
    destruct (drain_progress _ Hst') as [s'' Hs'']. by destruct (Hstuck s'').
Qed.

(** Isolation and its limit: a connection that ends with a value or an error
    leaves the loop serving and every other connection as it was; a connection
    that panics (as on a second SSLRequest inside TLS) ends the loop with an error,
    for good, with every other connection. *)
Theorem one_panic_stops_all s n t :
  stat s = Serving → tasks s !! n = Some t →
  (returned t → ∀ recorded, ∃ s' t', rtc (step cfg) s s' ∧ stat s' = Serving ∧ tasks s' = <[n := t']> (tasks s) ∧
     gone t' ∧ trace s' = trace s ++ closing t' ∧
     closing t' = if recorded : bool then [Lifecycle (number n) "connection.closed" (detail (ending t))] else []) ∧
  (status t = Running → ahead t = [] → is_panic (ending t) = true → ∀ e, ∃ s',
     rtc (step cfg) s s' ∧ trace s' = trace s ∧
     ∀ s'', rtc (step cfg) s' s'' → stat s'' = Stopped (Fail e) ∧ length (tasks s'') = length (tasks s)).
Proof.
  intros Hst Ht. pose proof (lookup_lt_Some _ _ _ Ht) as Hn. split.
  - intros Hr b. do 2 eexists. split.
    + eapply rtc_l; [by apply (step_close cfg s n t b)|]. apply rtc_once, step_join; [by left| |].
      * by apply list_lookup_insert_eq.
      * done.
    + cbn. split_and!; [done|by rewrite list_insert_insert_eq|by exists []|done|done].
  - intros Hr Ha Hp e. eexists. split_and!.
    + eapply rtc_l; [by apply (step_panic cfg s n t)|]. apply rtc_once, step_join_panicked; [done| |].
      * by apply list_lookup_insert_eq.
      * done.
    + done.
    + intros s'' Hs. apply (steps_stopped _ _ (Fail e)) in Hs as [? Hl]; [|done]. split; [done|].
      rewrite Hl. cbn. by rewrite !length_insert.
Qed.
End connections.

(** ** Witnesses *)

#[local] Existing Instances no_sha no_delays eager_tls.

(** A task performs any part of what it has ahead. *)
Lemma advance_all cfg s n t l rest :
  tasks s !! n = Some t → status t = Running → ahead t = l ++ rest →
  rtc (step cfg) s (append (trace_lines l)
    (set_task n (mk_task (performed t ++ l) rest (ending t) (closing t) (status t)) s)).
Proof.
  revert s t. induction l as [|eff l IH]; intros s t Ht Hr Ha.
  - cbn in Ha. subst rest. rewrite app_nil_r. replace (mk_task _ _ _ _ _) with t by by destruct t.
    unfold append, set_task. cbn. rewrite list_insert_id, app_nil_r by done. by destruct s.
  - change (eff :: l) with ([eff] ++ l). rewrite trace_lines_app.
    eapply rtc_l; [by apply (step_effect cfg s n t eff (l ++ rest))|].
    assert (Hn : n < length (tasks s)) by by eapply lookup_lt_Some.
    set (s1 := append _ _). assert (Ht1 : tasks s1 !! n = Some (advance eff (l ++ rest) t)) by by apply list_lookup_insert_eq.
    specialize (IH s1 (advance eff (l ++ rest) t) Ht1 Hr eq_refl).
    unfold s1, append, set_task in IH |- *. cbn [next_id tasks trace stat performed ahead ending closing status advance] in IH |- *.
    rewrite list_insert_insert_eq, <-!app_assoc in IH. exact IH.
Qed.

(** Two cancellations, accepted one after the other; the second is done first. *)
Definition cancelling (i : Z) : list effect :=
  log (connection 3 plain_config i Closed cancel_packet None silence working).2.
Definition cancel_task (i : Z) : Task := mk_task [] (cancelling i) (Ret Stop) [] Running.
Definition cancelled_task (i : Z) : Task := mk_task (cancelling i) [] (Ret Stop) [] Running.

Lemma cancelling_run i : i = 1%Z ∨ i = 2%Z → connection_run plain_config i (cancelling i) (Ret Stop).
Proof.
  intros Hi. exists 3, Closed, cancel_packet, None, silence, (λ _, Done).
  exists (connection 3 plain_config i Closed cancel_packet None silence working).2.
  by destruct Hi as [-> | ->]; vm_compute.
Qed.

Definition accepted_server : Server := mk_server 2 [cancel_task 1; cancel_task 2] [] Serving.
Definition cancelled_server : Server :=
  mk_server 2 [cancelled_task 1; cancelled_task 2]
    [Lifecycle 2 "cancel.forwarded" ""; Lifecycle 1 "cancel.forwarded" ""] Serving.

Lemma accepted_reachable : reachable plain_config accepted_server.
Proof.
  apply (rtc_l _ _ (mk_server 1 [cancel_task 1] [] Serving)).
  { apply (step_accept plain_config server_new (cancelling 1) (Ret Stop)); [done|]. apply cancelling_run. by left. }
  apply rtc_once.
  apply (step_accept plain_config (mk_server 1 [cancel_task 1] [] Serving) (cancelling 2) (Ret Stop)); [done|].
  apply cancelling_run. by right.
Qed.

Lemma cancelled_reachable : reachable plain_config cancelled_server.
Proof.
  unfold reachable. etrans; [apply accepted_reachable|].
  etrans; [apply (advance_all _ _ 1 (cancel_task 2) (cancelling 2) []); by rewrite ?app_nil_r|].
  etrans; [eapply (advance_all _ _ 0 (cancel_task 1) (cancelling 1) []); by rewrite ?app_nil_r|]. reflexivity.
Qed.

Lemma connections_numbered_once_witness : number <$> seq 0 2 = seqZ 1 2.
Proof. by apply (connections_numbered_once plain_config accepted_server accepted_reachable). Defined.

Lemma trace_file_faithful_witness :
  records_of 1 (trace cancelled_server) = [Lifecycle 1 "cancel.forwarded" ""].
Proof. by destruct (trace_file_faithful plain_config cancelled_server 0 (cancelled_task 1) cancelled_reachable) as [H _]. Defined.

Lemma shutdown_terminates_witness :
  Acc (λ s2 s1, step plain_config s1 s2) (set_stat Draining accepted_server).
Proof. by apply (shutdown_terminates plain_config (set_stat Draining accepted_server)). Defined.

Lemma one_panic_stops_all_witness :
  ∃ s', rtc (step plain_config) (mk_server 1 [mk_task [] [] (Panic "unreachable") [] Running] [] Serving) s' ∧
    stat s' = Stopped (Fail Elapsed).
Proof.
  destruct (one_panic_stops_all plain_config (mk_server 1 [mk_task [] [] (Panic "unreachable") [] Running] [] Serving) 0
    (mk_task [] [] (Panic "unreachable") [] Running)) as [_ Hp]; [done..|].
  destruct (Hp eq_refl eq_refl eq_refl Elapsed) as (s' & Hs & _ & Hstop). exists s'. split; [done|].
  by destruct (Hstop s' (rtc_refl _ _)).
Defined.
