(* ===== verification/System.v ===== *)
(** * Calls to the operating system

    What the command line and the setup of a proxy ask of the system: files,
    sockets, processes, the clock, the terminal.  A program of [Sys] makes calls,
    which an environment answers with a value or an error; the calls made are
    logged in order.  Paths are [std::path]'s, as their components. *)

From S2P Require Import Prelude Utf8 Wire Events Scenario State Trace Proxy Startup.

(** ** Paths *)

(** A path as [Path::components] reads it, on Unix. *)
Record Path := mk_path { absolute : bool; components : list bytes }.

#[global] Instance Path_eq_dec : EqDecision Path.
Proof. solve_decision. Defined.

Fixpoint split_on (c : byte) (acc s : bytes) : list bytes :=
  match s with
  | [] => [acc]
  | b :: r => if Byte.eqb b c then acc :: split_on c [] r else split_on c (acc ++ [b]) r
  end.

(** Empty components are dropped, and [.] except at the front of a relative path. *)
Definition is_component (p : bytes) : bool := negb (bool_decide (p = []) || bool_decide (p = bs ".")).
Definition path (s : string) : Path :=
  match bs s with
  | "/"%byte :: r => mk_path true (filter is_component (split_on "/"%byte [] r))
  | r =>
    match split_on "/"%byte [] r with
    | p :: ps => mk_path false ((if bool_decide (p = []) then [] else [p]) ++ filter is_component ps)
    | [] => mk_path false []
    end
  end.

(** [Path::parent] and [as_os_str().is_empty()] *)
Definition parent (p : Path) : option Path :=
  match components p with [] => None | cs => Some (mk_path (absolute p) (removelast cs)) end.
Definition is_empty (p : Path) : bool := negb (absolute p) && bool_decide (components p = []).

(** ** Calls *)

(** [std::process::Output] and [tokio_postgres::SimpleQueryMessage] *)
Record Output := mk_output { code : option Z; stdout : bytes; stderr : bytes }.
Inductive Message := Row (columns : list (option string)) | OtherMessage.

Inductive call :=
  | ReadToString (p : string)                        (* [std::fs::read_to_string] *)
  | ReadFile (p : string)                            (* [std::fs::read] *)
  | OpenRead (p : string)                            (* [File::open] and the reads of [lines] *)
  | CreateDirAll (p : Path)                          (* [std::fs::create_dir_all] *)
  | CreateNew (p : string)                           (* [OpenOptions::create_new(true).write(true).open] *)
  | Listen (address : string)                        (* [TcpListener::bind] *)
  | LocalAddr                                        (* [listener.local_addr()], the port *)
  | Now                                              (* nanoseconds since [UNIX_EPOCH] *)
  | Pid                                              (* [std::process::id] *)
  | Serve (cfg : Config) (trace : string)            (* [serve], awaited *)
  | SpawnServe (cfg : Config) (trace : string)       (* [tokio::spawn(serve(..))] *)
  | Run (program : string) (args : list string)      (* [Command::new(program).args(args).output()] *)
  | SendShutdown                                     (* [shutdown_tx.send(())] *)
  | JoinServer                                       (* [server.await??] *)
  | Query (dsn sql : string)                         (* [connect] and [simple_query] *)
  | Print (line : string).                           (* [println!] *)

Definition answer (c : call) : Type :=
  match c with
  | ReadToString _ => string
  | ReadFile _ => bytes
  | OpenRead _ => bytes * option error
  | LocalAddr | Now | Pid => Z
  | Run _ _ => Output
  | Query _ _ => list Message
  | _ => unit
  end.

(** The answers of the environment, which may depend on when it is asked. *)
Definition Env : Type := ∀ c : call, nat → error + answer c.

(** ** Programs *)

(** The environment and the calls made so far. *)
Definition Sys (A : Type) : Type := Env → list call → outcome A * list call.

#[global] Instance sys_ret : MRet Sys := λ A a env l, (Ret a, l).
#[global] Instance sys_bind : MBind Sys := λ A B f m env l,
  match m env l with
  | (Ret a, l') => f a env l'
  | (Fail e, l') => (Fail e, l')
  | (Panic s, l') => (Panic s, l')
  end.

Definition sys (c : call) : Sys (answer c) := λ env l,
  (of_result (env c (length l)), l ++ [c]).
Definition pure {A} (o : outcome A) : Sys A := λ env l, (o, l).

(** [.with_context(..)] *)
Definition sys_context {A} (msg : string) (m : Sys A) : Sys A := λ env l,
  match m env l with (o, l') => (context msg o, l') end.

(** [.unwrap()] and the [println!] macro: an error is a panic. *)
Definition unwrap {A} (m : Sys A) : Sys A := λ env l,
  match m env l with (Fail _, l') => (Panic "called `Result::unwrap()` on an `Err` value", l') | r => r end.

(** [let _ = ..]: an error is dropped. *)
Definition ignore {A} (m : Sys A) : Sys unit := λ env l,
  match m env l with (Panic s, l') => (Panic s, l') | (_, l') => (Ret tt, l') end.

(** [iter().map(f).collect::<Result<Vec<_>>>()]: the first error ends it. *)
Fixpoint collect {A B} (f : A → Sys B) (l : list A) : Sys (list B) :=
  match l with
  | [] => mret []
  | a :: l => b ← f a; bs ← collect f l; mret (b :: bs)
  end.

(** ** Reasoning on calls *)

(** What a program returns once [n] calls have been made, with the calls it adds. *)
Definition calls {A} (m : Sys A) (env : Env) (n : nat) (P : outcome A → list call → Prop) : Prop :=
  ∀ l, length l = n → ∃ k, (m env l).2 = l ++ k ∧ P (m env l).1 k.

Section calls.
Context (env : Env) (n : nat).

Lemma calls_mono {A} (m : Sys A) P Q : calls m env n P → (∀ o k, P o k → Q o k) → calls m env n Q.
Proof. intros Hm HPQ l Hl. destruct (Hm l Hl) as (k & ? & ?). eauto. Qed.

Lemma calls_and {A} (m : Sys A) P Q : calls m env n P → calls m env n Q → calls m env n (λ o k, P o k ∧ Q o k).
Proof.
  intros HP HQ l Hl. destruct (HP l Hl) as (k & Hk & ?), (HQ l Hl) as (k' & Hk' & ?).
  rewrite Hk in Hk'. apply app_inv_head in Hk' as <-. eauto.
Qed.

Lemma calls_ret {A} (a : A) (P : outcome A → list call → Prop) : P (Ret a) [] → calls (mret a) env n P.
Proof. intros HP l _. exists []. by rewrite app_nil_r. Qed.

Lemma calls_pure {A} (o : outcome A) (P : outcome A → list call → Prop) : P o [] → calls (pure o) env n P.
Proof. intros HP l _. exists []. by rewrite app_nil_r. Qed.

Lemma calls_sys c (P : outcome (answer c) → list call → Prop) :
  P (of_result (env c n)) [c] → calls (sys c) env n P.
Proof. intros HP l <-. by exists [c]. Qed.

Lemma calls_bind {A B} (m : Sys A) (f : A → Sys B) Q P :
  calls m env n Q → (∀ a k, Q (Ret a) k → calls (f a) env (n + length k) (λ o k', P o (k ++ k'))) →
  (∀ e k, Q (Fail e) k → P (Fail e) k) → (∀ s k, Q (Panic s) k → P (Panic s) k) →
  calls (m ≫= f) env n P.
Proof.
  intros Hm Hf He Hp l Hl. destruct (Hm l Hl) as (k & Hk & HQ). unfold mbind, sys_bind.
  destruct (m env l) as [[a|e|s] l1]; cbn in *; subst l1.
  - destruct (Hf a k HQ (l ++ k)) as (k' & Hk' & HP); [by rewrite length_app, Hl|].
    exists (k ++ k'). by rewrite Hk', app_assoc.
  - eauto.
  - eauto.
Qed.

Lemma calls_context {A} msg (m : Sys A) (P Q : outcome A → list call → Prop) :
  calls m env n P → (∀ o k, P o k → Q (context msg o) k) → calls (sys_context msg m) env n Q.
Proof.
  intros Hm HPQ l Hl. destruct (Hm l Hl) as (k & Hk & HP). exists k. unfold sys_context.
  destruct (m env l) as [o l']. split; [done|by apply HPQ].
Qed.

Lemma calls_unwrap {A} (m : Sys A) (P Q : outcome A → list call → Prop) :
  calls m env n P → (∀ o k, P o k → Q o k) → (∀ s k, Q (Panic s) k) → calls (unwrap m) env n Q.
Proof.
  intros Hm HPQ Hp l Hl. destruct (Hm l Hl) as (k & Hk & HP). exists k. unfold unwrap.
  destruct (m env l) as [[a|e|s] l']; cbn in *; auto.
Qed.

Lemma calls_ignore_sys c : calls (ignore (sys c)) env n (λ o k, k = [c] ∧ o = Ret tt).
Proof. intros l <-. exists [c]. unfold ignore, sys. by destruct (env c (length l)). Qed.
End calls.

Lemma calls_run {A} (m : Sys A) env P o k : calls m env 0 P → m env [] = (o, k) → P o k.
Proof.
  intros Hm Hr. destruct (Hm [] eq_refl) as (k' & Hk & HP). rewrite Hr in *. cbn in *. by subst k'.
Qed.
