(* ===== verification/Tls.v ===== *)
(** * TLS streams and configuration

    [crates/pgfault-proxy/src/tls.rs]: streams over raw descriptors and the reset
    beneath their TLS layer, the certificates, keys and verifiers of both sides.
    PEM, certificates and the configurations themselves are the crates [rustls]'s
    and [rustls_pemfile]'s; a plain socket and a TLS session are given by what
    polling them does. *)

From S2P Require Import Prelude Utf8 Wire Events Scenario State Trace Proxy Startup System.

(** ** Streams *)

(** [AsyncRead] and [AsyncWrite]: polling either waits ([None]) or is ready. *)
Class AsyncIo (T : Type) := {
  poll_read : T → nat → option (error + bytes);
  poll_write : T → bytes → option (error + nat);
  poll_flush : T → option (error + unit);
  poll_shutdown : T → option (error + unit)
}.

Definition RawFd := Z.

(** [TcpStream] and [Box<dyn Io>]: a socket by its descriptor and its session. *)
Class Sockets := {
  TcpStream : Type;
  as_raw_fd : TcpStream → RawFd;
  tcp_io :: AsyncIo TcpStream;
  DynIo : Type;
  dyn_io :: AsyncIo DynIo
}.

Section streams.
Context `{Sockets}.

Inductive Stream :=
  | PlainStream (t : TcpStream)
  | TlsStream (t : DynIo) (fd : RawFd).

Definition plain (tcp : TcpStream) : Stream := PlainStream tcp.

(** [Stream::fd] *)
Definition fd (s : Stream) : RawFd :=
  match s with PlainStream t => as_raw_fd t | TlsStream _ fd => fd end.

(** [Stream::reset]: the socket whose [SO_LINGER] is set to zero, by [set_linger]. *)
Definition reset (set_linger : RawFd → error + unit) (s : Stream) : outcome unit := of_result (set_linger (fd s)).

(** [Stream::into_plain] on streams. *)
Definition take_plain (s : Stream) : outcome TcpStream :=
  match s with
  | PlainStream t => Ret t
  | TlsStream _ _ => Panic "SSLRequest after TLS already established"
  end.

(** [impl AsyncRead for Stream] and [impl AsyncWrite for Stream] *)
Definition stream_io : AsyncIo Stream := {|
  poll_read s n := match s with PlainStream t => poll_read t n | TlsStream t _ => poll_read t n end;
  poll_write s b := match s with PlainStream t => poll_write t b | TlsStream t _ => poll_write t b end;
  poll_flush s := match s with PlainStream t => poll_flush t | TlsStream t _ => poll_flush t end;
  poll_shutdown s := match s with PlainStream t => poll_shutdown t | TlsStream t _ => poll_shutdown t end
|}.

#[export] Existing Instance stream_io.

(** [accept] and [connect]: the descriptor is taken before the handshake, which
    consumes the socket and returns the session. *)
Definition accept (acceptor : TcpStream → error + DynIo) (tcp : TcpStream) : outcome Stream :=
  let fd := as_raw_fd tcp in
  tls ← context "TLS handshake with client failed" (of_result (acceptor tcp));
  Ret (TlsStream tls fd).
Definition connect (connector : string → TcpStream → error + DynIo) (tcp : TcpStream) (name : string) : outcome Stream :=
  let fd := as_raw_fd tcp in
  tls ← context "TLS handshake with upstream failed" (of_result (connector name tcp));
  Ret (TlsStream tls fd).

(** What [Startup] keeps of a stream. *)
Definition kind (s : Stream) : stream := match s with PlainStream _ => Plain | TlsStream _ _ => Tls end.

(** [Startup.into_plain] is [take_plain] on the kind of a stream. *)
Lemma into_plain_kind s : into_plain (kind s) = (λ _, tt) <$> take_plain s.
Proof. by destruct s. Qed.

(** A handshake leaves the descriptor as it was: what [reset] acts on after any
    number of upgrades is the socket that was accepted or connected. *)
Lemma accept_upgrades acceptor s s' :
  (tcp ← take_plain s; accept acceptor tcp) = Ret s' → kind s' = Tls ∧ fd s' = fd s.
Proof.
  destruct s as [t|t f]; [|done]. cbn [take_plain]. run_ret. unfold accept.
  destruct (acceptor t); [done|]. cbn [of_result context]. run_ret. by intros [= <-].
Qed.

Lemma connect_upgrades connector tcp name s' :
  connect connector tcp name = Ret s' → kind s' = Tls ∧ fd s' = fd (plain tcp).
Proof. unfold connect. destruct (connector name tcp); [done|]. cbn [of_result context]. run_ret. by intros [= <-]. Qed.
End streams.

(** ** Certificates and configurations *)

(** The crates [rustls], [rustls_pemfile] and [webpki_roots]. *)
Class Rustls := {
  CertificateDer : Type;
  PrivateKeyDer : Type;
  TrustAnchor : Type;
  pem_certs : bytes → list (error + CertificateDer);
  pem_private_key : bytes → error + option PrivateKeyDer;
  TlsAcceptor : Type;
  server_config : list CertificateDer → PrivateKeyDer → error + TlsAcceptor;
  TLS_SERVER_ROOTS : list TrustAnchor;
  trust_anchor : CertificateDer → error + TrustAnchor
}.

(** [.collect::<Result<_, _>>()]: the first error ends it. *)
Fixpoint results {A} (l : list (error + A)) : outcome (list A) :=
  match l with
  | [] => Ret []
  | inl e :: _ => Fail e
  | inr a :: l => l ← results l; Ret (a :: l)
  end.

Section configuration.
Context `{Rustls}.

(** [dyn ServerCertVerifier]: what is checked of the server's certificate chain and
    its handshake signature. *)
Inductive Verifier :=
  | NoVerify
  | RootCertStore (roots : list TrustAnchor).

(** [ServerCertVerifier] for [NoVerify]; [webpki] checks against the roots. *)
Class Webpki := {
  webpki_verifies : list TrustAnchor → list CertificateDer → string → bool;
  webpki_signed : bytes → CertificateDer → bytes → bool
}.
Definition verify_server_cert `{Webpki} (v : Verifier) (chain : list CertificateDer) (name : string) : bool :=
  match v with NoVerify => true | RootCertStore roots => webpki_verifies roots chain name end.

(** [verify_tls12_signature] and [verify_tls13_signature] *)
Definition verify_tls_signature `{Webpki} (v : Verifier) (message : bytes) (cert : CertificateDer) (dss : bytes) : bool :=
  match v with NoVerify => true | RootCertStore _ => webpki_signed message cert dss end.

Record TlsConfig := mk_tls { frontend_tls : option TlsAcceptor; upstream_tls : option Verifier }.

Definition load_certs (p : string) : Sys (list CertificateDer) :=
  data ← sys_context ("reading " +:+ p) (sys (ReadFile p) : Sys bytes);
  pure (context ("parsing certificates in " +:+ p) (results (pem_certs data))).

Definition load_key (p : string) : Sys PrivateKeyDer :=
  data ← sys_context ("reading " +:+ p) (sys (ReadFile p) : Sys bytes);
  key ← pure (context ("parsing private key in " +:+ p) (of_result (pem_private_key data)));
  pure (ok_or "no private key found" key).

Definition frontend_acceptor (cert key : string) : Sys TlsAcceptor :=
  certs ← load_certs cert;
  key ← load_key key;
  pure (context "building TLS server config" (of_result (server_config certs key))).

(** [for cert in load_certs(ca)? { roots.add(cert)?; }] *)
Fixpoint add_roots (roots : list TrustAnchor) (certs : list CertificateDer) : outcome (list TrustAnchor) :=
  match certs with
  | [] => Ret roots
  | c :: certs =>
    a ← context "adding upstream CA certificate" (of_result (trust_anchor c));
    add_roots (roots ++ [a]) certs
  end.

Definition upstream_connector (insecure : bool) (extra_ca : option string) : Sys Verifier :=
  if insecure then mret NoVerify
  else
    roots ← match extra_ca with
            | Some ca => certs ← load_certs ca; pure (add_roots TLS_SERVER_ROOTS certs)
            | None => mret TLS_SERVER_ROOTS
            end;
    mret (RootCertStore roots).
End configuration.
