(* ===== verification/Cli.v ===== *)
(** * pgfault-cli: the command line

    [crates/pgfault-cli/src/main.rs], with the functions it reaches the file
    system through: [Scenario::load], [Recorder::create], the opening of a trace in
    [replay], and [bind].  [clap] turns the arguments into a [Command]; [requires]
    states what its attributes guarantee of one.  The log messages of [tracing]
    are left out. *)

From stdpp Require Import pretty.
From S2P Require Import Prelude Utf8 Wire Events Scenario State Trace Proxy Startup System Tls.

(** ** Files and sockets *)

(** [serde_yaml::from_str], of the crate [serde_yaml]. *)
Class Yaml := yaml_scenario : string → error + Scenario.

Section files.
Context `{Humantime} `{Yaml} `{Json}.

(** [Scenario::load] *)
Definition load (p : string) : Sys Scenario :=
  text ← sys_context ("reading " +:+ p) (sys (ReadToString p) : Sys string);
  s ← pure (of_result (yaml_scenario text));
  _ ← pure (validate s);
  mret s.

(** [Recorder::create] *)
Definition create (p : string) : Sys unit :=
  _ ← match parent (path p) with
      | Some d => if is_empty d then mret tt else (sys (CreateDirAll d) : Sys unit)
      | None => mret tt
      end;
  (sys (CreateNew p) : Sys unit).

(** [replay] from the path of a trace.  When reading fails after some bytes, the
    complete lines among them have been handled before the error. *)
Definition complete (content : bytes) : bytes :=
  match before_last x0a content with Some h => h ++ [x0a] | None => [] end.
Definition replay_file (p : string) : Sys (list Scenario) :=
  content ← (sys (OpenRead p) : Sys (bytes * option error));
  match content with
  | (content, None) => pure (replay content)
  | (content, Some e) =>
    _ ← pure (replay_lines 0 (lines (complete content)) ∅ []);
    pure (Fail e)
  end.

(** [bind] *)
Definition bind (address : string) : Sys unit := (sys (Listen address) : Sys unit).
End files.

(** ** Arguments *)

Record TlsArgs := mk_tls_args {
  tls_cert : option string;
  tls_key : option string;
  upstream_tls_flag : bool;
  upstream_tls_insecure : bool;
  upstream_ca : option string
}.

Record ProbeArgs := mk_probe {
  p_listen : string;
  p_upstream : string;
  p_scenario : list string;
  p_trace : option string;
  p_tls : TlsArgs;
  verify_sql : option string;
  verify_dsn : option string;
  command : list string
}.

Inductive Command :=
  | CmdRun (listen upstream : string) (scenario : list string) (trace : option string) (tls : TlsArgs)
  | CmdReplay (trace listen upstream : string) (output_trace : option string) (tls : TlsArgs)
  | CmdValidate (scenario : string)
  | CmdProbe (args : ProbeArgs).

(** The [requires] and [required] attributes, which [clap] enforces. *)
Definition tls_requires (a : TlsArgs) : bool :=
  bool_decide (is_Some (tls_cert a) ↔ is_Some (tls_key a))
  && (upstream_tls_flag a || negb (upstream_tls_insecure a) && bool_decide (upstream_ca a = None)).
Definition requires (c : Command) : bool :=
  match c with
  | CmdRun _ _ _ _ tls | CmdReplay _ _ _ _ tls => tls_requires tls
  | CmdValidate _ => true
  | CmdProbe a =>
    tls_requires (p_tls a) && bool_decide (is_Some (verify_sql a) ↔ is_Some (verify_dsn a))
    && bool_decide (command a ≠ [])
  end.

(** ** Helpers *)

(** [str::replace] with a pattern that is not empty: leftmost matches, which do
    not overlap; [skip] bytes of a match are still to be passed over. *)
Fixpoint replace_from (skip : nat) (pat rep s : bytes) : bytes :=
  match s with
  | [] => []
  | b :: r =>
    match skip with
    | S k => replace_from k pat rep r
    | 0 =>
      if starts_with s pat then rep ++ replace_from (pred (length pat)) pat rep r
      else b :: replace_from 0 pat rep r
    end
  end.
Definition replace (pat rep s : bytes) : bytes := replace_from 0 pat rep s.

Definition placeholder : bytes := bs "{{PGFAULT_PORT}}".

(** [a.replace("{{PGFAULT_PORT}}", &port.to_string())] *)
Definition substitute (port : Z) (a : string) : string :=
  String.string_of_list_byte (replace placeholder (bs (pretty port)) (bs a)).

(** [.join(sep)] *)
Fixpoint join (sep : string) (l : list string) : string :=
  match l with [] => "" | [s] => s | s :: l => s +:+ sep +:+ join sep l end.

(** [format!("{e:#}")]: the chain of an error. *)
Fixpoint display_chain (e : error) : string :=
  match e with
  | Io _ msg | Bail msg => msg
  | Elapsed => "deadline has elapsed"
  | Ctx msg e => msg +:+ ": " +:+ display_chain e
  end.

(** The rows of [verify_query], a line each. *)
Definition row_line (columns : list (option string)) : string := join " | " (default "NULL" <$> columns)%string.
Definition rows_of_messages (ms : list Message) : list string :=
  omap (λ m, match m with Row columns => Some (row_line columns) | OtherMessage => None end) ms.

(** The filter of [tracing], which [main] takes from the environment: is [info!] enabled? *)
Class Logging := info_enabled : bool.

Section cli.
Context `{Sha256} `{Humantime} `{Yaml} `{Json} `{Rustls} `{Logging}.

(** [TlsArgs::into_config] *)
Definition into_config (a : TlsArgs) : Sys TlsConfig :=
  frontend ← match tls_cert a, tls_key a with
             | Some cert, Some key => acc ← frontend_acceptor cert key; mret (Some acc)
             | _, _ => mret None
             end;
  upstream ← (if upstream_tls_flag a then
                c ← upstream_connector (upstream_tls_insecure a) (upstream_ca a); mret (Some c)
              else mret None);
  mret (mk_tls frontend upstream).

(** [Config { upstream, scenarios, trace, tls }], as the proxy reads it. *)
Definition config (upstream : string) (scenarios : list Scenario) (tls : TlsConfig) : Config :=
  mk_config upstream scenarios (bool_decide (is_Some (frontend_tls tls))) (bool_decide (is_Some (Tls.upstream_tls tls))).

(** [default_trace_path] *)
Definition default_trace_path : Sys string :=
  now ← unwrap (sys Now : Sys Z);
  pid ← (sys Pid : Sys Z);
  mret (".pgfault/traces/" +:+ pretty now +:+ "-" +:+ pretty pid +:+ ".jsonl").

Definition trace_path (trace : option string) : Sys string :=
  match trace with Some p => mret p | None => default_trace_path end.

(** [println!] *)
Definition println (line : string) : Sys unit := unwrap (sys (Print line) : Sys unit).

Fixpoint println_all (ls : list string) : Sys unit :=
  match ls with [] => mret tt | l :: ls => _ ← println l; println_all ls end.

(** [verify_query] and what [probe] prints of it. *)
Definition verify_query (dsn sql : string) : Sys (error + list string) := λ env l,
  match (sys (Query dsn sql) : Sys (list Message)) env l with
  | (Ret ms, l) => (Ret (inr (rows_of_messages ms)), l)
  | (Fail e, l) => (Ret (inl e), l)
  | (Panic s, l) => (Panic s, l)
  end.
Definition verify (sql dsn : option string) : Sys unit :=
  match sql, dsn with
  | Some sql, Some dsn =>
    _ ← println ("=== ground truth: " +:+ sql +:+ " ===");
    r ← verify_query dsn sql;
    match r with
    | inr [] => println "(no rows)"
    | inr rows => println_all rows
    | inl e => println ("verify query failed: " +:+ display_chain e)
    end
  | _, _ => mret tt
  end.

(** What [probe] prints of the command it ran. *)
Definition report (substituted : list string) (o : Output) : Sys unit :=
  _ ← println ("$ " +:+ join " " substituted);
  _ ← println ("exit code: " +:+ match code o with Some c => pretty c | None => "signaled" end);
  _ ← (if bool_decide (stdout o ≠ []) then println ("--- stdout ---
" +:+ from_utf8_lossy (stdout o)) else mret tt);
  if bool_decide (stderr o ≠ []) then println ("--- stderr ---
" +:+ from_utf8_lossy (stderr o)) else mret tt.

(** [probe] once the proxy runs: the command, the end of the proxy, the report. *)
Definition probe_command (a : ProbeArgs) (port : Z) : Sys Z :=
  let substituted := substitute port <$> command a in
  match substituted with
  | [] => pure (bail "empty command")
  | program :: args =>
    output ← sys_context ("running " +:+ program) (sys (Run program args) : Sys Output);
    _ ← ignore (sys SendShutdown : Sys unit);
    _ ← (sys JoinServer : Sys unit);
    _ ← report substituted output;
    _ ← verify (verify_sql a) (verify_dsn a);
    mret (default 1 (code output))%Z
  end.

(** [tracing::info!(listen=%listener.local_addr()?, ..)]: the address is asked for
    if the level is enabled, and an error then returns. *)
Definition info_listening : Sys unit :=
  if info_enabled then _ ← (sys LocalAddr : Sys Z); mret tt else mret tt.

(** [probe] *)
Definition probe (a : ProbeArgs) : Sys Z :=
  scenarios ← collect load (p_scenario a);
  tls ← into_config (p_tls a);
  path ← trace_path (p_trace a);
  _ ← create path;
  _ ← bind (p_listen a);
  port ← (sys LocalAddr : Sys Z);
  _ ← info_listening;
  _ ← ignore (sys (SpawnServe (config (p_upstream a) scenarios tls) path) : Sys unit);
  probe_command a port.

(** [main] from the parsed command: the exit code, or the error it reports. *)
Definition serve_until_signal (listen upstream : string) (scenarios : list Scenario) (trace : option string)
    (tls : TlsArgs) : Sys Z :=
  tls ← into_config tls;
  path ← trace_path trace;
  _ ← create path;
  _ ← bind listen;
  _ ← info_listening;
  _ ← (sys (Serve (config upstream scenarios tls) path) : Sys unit);
  mret 0%Z.

Definition main (c : Command) : Sys Z :=
  match c with
  | CmdValidate p =>
    s ← load p;
    _ ← println ("valid: " +:+ name s);
    mret 0%Z
  | CmdProbe a => probe a
  | CmdRun listen upstream scenario trace tls =>
    scenarios ← collect load scenario;
    serve_until_signal listen upstream scenarios trace tls
  | CmdReplay trace listen upstream output_trace tls =>
    scenarios ← replay_file trace;
    serve_until_signal listen upstream scenarios output_trace tls
  end.
End cli.
