(* ===== verification/CliProps.v ===== *)
(** * Properties of the command line

    The proxy serves only validated scenarios, with a new trace file and a bound
    listener; [probe] runs its command against the proxy, stops the proxy, and
    only then looks at the truth; the TLS configuration is what the arguments ask
    for; the placeholder is replaced everywhere. *)

From stdpp Require Import pretty.
From S2P Require Import Prelude Utf8 Wire Events Scenario State Trace TraceProps Proxy Startup System Tls Cli.

(** ** Programs that make only some calls *)

Definition only {A} (Q : call → Prop) (m : Sys A) : Prop := ∀ env n, calls m env n (λ _ k, Forall Q k).

Section only.
Context (Q : call → Prop).

Lemma only_ret {A} (a : A) : only Q (mret a).
Proof. intros env n. by apply calls_ret. Qed.

Lemma only_pure {A} (o : outcome A) : only Q (pure o).
Proof. intros env n. by apply calls_pure. Qed.

Lemma only_sys c : Q c → only Q (sys c).
Proof. intros Hc env n. by apply calls_sys; repeat constructor. Qed.

Lemma only_bind {A B} (m : Sys A) (f : A → Sys B) : only Q m → (∀ a, only Q (f a)) → only Q (m ≫= f).
Proof.
  intros Hm Hf env n. eapply calls_bind; [apply Hm| |done..].
  intros a k Hk. eapply calls_mono; [apply Hf|]. intros o k' Hk'. by apply Forall_app.
Qed.

Lemma only_context {A} msg (m : Sys A) : only Q m → only Q (sys_context msg m).
Proof. intros Hm env n. by eapply calls_context; [apply Hm|]. Qed.

Lemma only_unwrap {A} (m : Sys A) : only Q m → only Q (unwrap m).
Proof.
  intros Hm env n l Hl. destruct (Hm env n l Hl) as (k & Hk & HQ). exists k. unfold unwrap. destruct (m env l) as [[] l']; auto.
Qed.

Lemma only_collect {A B} (f : A → Sys B) l : (∀ a, only Q (f a)) → only Q (collect f l).
Proof.
  intros Hf. induction l as [|a l IH]; cbn [collect]; [apply only_ret|].
  apply only_bind; [apply Hf|intros b]. apply only_bind; [exact IH|intros bs]. apply only_ret.
Qed.
End only.

Lemma only_mono {A} (Q Q' : call → Prop) (m : Sys A) : only Q m → (∀ c, Q c → Q' c) → only Q' m.
Proof. intros Hm HQ env n. eapply calls_mono; [apply Hm|]. intros o k Hk. eapply Forall_impl; [exact Hk|done]. Qed.

Ltac only_step :=
  lazymatch goal with
  | |- only _ (mret _) => apply only_ret
  | |- only _ (pure _) => apply only_pure
  | |- only _ (sys _) => by apply only_sys
  | |- only _ (sys_context _ _) => apply only_context
  | |- only _ (unwrap _) => apply only_unwrap
  | |- only _ (collect _ _) => apply only_collect; intros ?
  | |- only _ (mbind _ _) => apply only_bind; [|intros ?]
  | |- only _ (if ?b then _ else _) => destruct b
  | |- only _ (match ?x with _ => _ end) => destruct x
  end.

(** ** Setting up *)

Section setup.
Context `{Sha256} `{Humantime} `{Yaml} `{Json} `{Rustls} `{Logging}.

(** The calls that only read or make directories. *)
Definition setup (c : call) : Prop :=
  match c with ReadToString _ | ReadFile _ | OpenRead _ | Now | Pid | CreateDirAll _ => True | _ => False end.
(** The calls that serve, and those made once everything is set up. *)
Definition serves (c : call) : Prop := match c with Serve _ _ | SpawnServe _ _ => True | _ => False end.
Definition live (c : call) : Prop :=
  match c with
  | Serve _ _ | SpawnServe _ _ | Run _ _ | SendShutdown | JoinServer | Query _ _ | Print _ => True
  | _ => False
  end.

Lemma load_setup p : only setup (load p).
Proof. unfold load. repeat only_step. Qed.

Lemma load_certs_setup p : only setup (load_certs p).
Proof. unfold load_certs. repeat only_step. Qed.

Lemma into_config_setup a : only setup (into_config a).
Proof.
  unfold into_config, frontend_acceptor, load_key, upstream_connector.
  repeat first [apply load_certs_setup | only_step].
Qed.

Lemma trace_path_setup t : only setup (trace_path t).
Proof. unfold trace_path, default_trace_path. repeat only_step. Qed.

Lemma replay_file_setup p : only setup (replay_file p).
Proof. unfold replay_file. repeat only_step. Qed.

Ltac quiet := repeat (apply Forall_cons; split; [by intros []|]); try apply Forall_nil_2.

Lemma quiet_setup k : Forall setup k → Forall (λ c, ¬ live c) k.
Proof. intros Hk. eapply Forall_impl; [exact Hk|]. by intros [] ? ?. Qed.

Lemma quiet_serves k : Forall (λ c, ¬ live c) k → Forall (λ c, ¬ serves c) k.
Proof. intros Hk. eapply Forall_impl; [exact Hk|]. by intros [] ? ?. Qed.

(** Creating the trace file is the last call of [create]. *)
Lemma create_calls p env n :
  calls (create p) env n (λ o k, Forall (λ c, ¬ live c) k ∧
    (is_ret o = true → ∃ k1, Forall setup k1 ∧ k = k1 ++ [CreateNew p])).
Proof.
  unfold create. eapply (calls_bind env _ _ _ (λ _ k, Forall setup k)).
  - assert (Hm : only setup match parent (path p) with
      | Some d => if is_empty d then mret tt else (sys (CreateDirAll d) : Sys unit) | None => mret tt end)
      by repeat only_step. apply Hm.
  - intros a k Hk. pose proof (quiet_setup _ Hk). apply calls_sys. split; [apply Forall_app; split; [done|by quiet]|].
    intros _. by exists k.
  - intros e k Hk. split; [by apply quiet_setup|done].
  - intros e k Hk. split; [by apply quiet_setup|done].
Qed.

(** What [run], [replay] and [probe] share: the proxy is set up, in this order. *)
Lemma boot_calls {A} env n a trace listen (K : TlsConfig → string → Sys A) (P : outcome A → list call → Prop) :
  (∀ o k, Forall (λ c, ¬ live c) k → is_ret o = false → P o k) →
  (∀ tls p k1, Forall setup k1 →
    calls (K tls p) env (n + length k1 + 2) (λ o k, P o (k1 ++ [CreateNew p; Listen listen] ++ k))) →
  calls (tls ← into_config a; p ← trace_path trace; _ ← create p; _ ← bind listen; K tls p) env n P.
Proof.
  intros Hstop HK.
  eapply calls_bind; [apply into_config_setup| |intros; by apply Hstop; [apply quiet_setup|]..].
  intros tls k Hk. eapply calls_bind; [apply trace_path_setup| |intros; apply Hstop; [apply Forall_app; split; by apply quiet_setup|done]..].
  intros p k' Hk'. assert (Hkk : Forall setup (k ++ k')) by by apply Forall_app.
  eapply (calls_mono _ _ _ (λ o l, P o ((k ++ k') ++ l))); [|intros o l; by rewrite app_assoc].
  rewrite <-Nat.add_assoc, <-length_app. revert Hkk. generalize (k ++ k'). clear k k' Hk Hk'. intros k Hk.
  eapply calls_bind; [apply create_calls| |intros ? ? [? _]; apply Hstop; [apply Forall_app; split; [by apply quiet_setup|done]|done]..].
  intros [] k' [Hq (k1 & Hk1 & ->)%(λ H, H eq_refl)].
  eapply (calls_bind _ _ _ _ (λ _ l, l = [Listen listen])); [by apply calls_sys| |..].
  - intros [] ? ->. replace (n + length k + length (k1 ++ [CreateNew p]) + length [Listen listen])
      with (n + length (k ++ k1) + 2) by (rewrite !length_app; cbn; lia).
    eapply calls_mono; [apply (HK tls p (k ++ k1)); by apply Forall_app|].
    intros o l. by rewrite <-!app_assoc.
  - intros e ? ->. apply Hstop; [|done]. rewrite !Forall_app in *. split_and!; [by apply quiet_setup|by destruct Hq..|].
    by quiet.
  - intros e ? ->. apply Hstop; [|done]. rewrite !Forall_app in *. split_and!; [by apply quiet_setup|by destruct Hq..|].
    by quiet.
Qed.

(** ** Serving *)

Definition validated (s : Scenario) : Prop := validate s = Ret tt.

Lemma load_valid p env n : calls (load p) env n (λ o _, ∀ s, o = Ret s → validated s).
Proof.
  unfold load. eapply (calls_bind _ _ _ _ (λ _ _, True)); [|intros text ? _|done..].
  { eapply calls_context; [by apply (calls_sys _ _ _ (λ _ _, True))|done]. }
  eapply (calls_bind _ _ _ _ (λ _ _, True)); [by apply calls_pure|intros s ? _|done..].
  eapply (calls_bind _ _ _ _ (λ o _, o = validate s)); [by apply calls_pure|intros [] ? Hs|done..].
  apply calls_ret. by intros ? [= <-].
Qed.

Lemma collect_valid ps env n : calls (collect load ps) env n (λ o _, ∀ ss, o = Ret ss → Forall validated ss).
Proof.
  revert n. induction ps as [|p ps IH]; intros n; cbn [collect]; [apply calls_ret; by intros ? [= <-]|].
  eapply calls_bind; [apply load_valid|intros s ? Hs|done..].
  eapply calls_bind; [apply IH|intros ss ? Hss|done..].
  apply calls_ret. intros ? [= <-]. constructor; auto.
Qed.

Lemma replay_lines_valid i ls unique out ss :
  Forall validated out → replay_lines i ls unique out = Ret ss → Forall validated ss.
Proof.
  revert i unique out. induction ls as [|l ls IH]; intros i unique out Hout; cbn [replay_lines]; [by intros [= <-]|].
  destruct (utf8_line l) as [l'| |]; [|done..]. run_ret.
  destruct (context _ _) as [[e|e s|]| |]; try done; run_ret; [by apply IH| |by apply IH].
  destruct (validate (relocate e s)) as [[]| |] eqn:Hv; [|done..]. run_ret.
  destruct (of_result _) as [key| |]; [|done..]. run_ret.
  case_bool_decide; apply IH; [done|]. apply Forall_app. by repeat constructor.
Qed.

Lemma replay_file_valid p env n : calls (replay_file p) env n (λ o _, ∀ ss, o = Ret ss → Forall validated ss).
Proof.
  unfold replay_file. eapply (calls_bind _ _ _ _ (λ _ _, True)); [by apply calls_sys|intros [content [e|]] ? _|done..].
  - eapply (calls_bind _ _ _ _ (λ _ _, True)); [by apply calls_pure|intros ? ? _|done..]. by apply calls_pure.
  - apply calls_pure. intros ss. unfold replay. destruct (replay_lines _ _ _ _) as [ss'| |] eqn:E; [|done..].
    run_ret. case_bool_decide; [done|]. intros [= <-]. by eapply replay_lines_valid, E.
Qed.

(** The calls of an [info!] that logs the address. *)
Definition logged : list call := if info_enabled then [LocalAddr] else [].

Lemma info_listening_calls env n : calls info_listening env n (λ o k, k = logged ∧ is_panic o = false).
Proof.
  unfold info_listening, logged. destruct info_enabled; [|by apply calls_ret].
  eapply (calls_bind _ _ _ _ (λ o k, k = [LocalAddr] ∧ is_panic o = false)).
  - apply calls_sys. split; [done|]. by destruct (env LocalAddr n).
  - intros port k [-> _]. by apply calls_ret.
  - by intros e k [-> _].
  - by intros e k [_ ?].
Qed.

Lemma logged_quiet : Forall (λ c, ¬ live c) logged.
Proof. unfold logged. destruct info_enabled; by quiet. Qed.

(** A run that serves: everything is in place before. *)
Definition served (scs : list Scenario → Prop) (listen upstream : string) (k : list call) : Prop :=
  ∃ k1 p cfg mid sv k2, k = k1 ++ [CreateNew p; Listen listen] ++ mid ++ [sv] ++ k2 ∧
    Forall setup k1 ∧ (mid = logged ∧ sv = Serve cfg p ∨ mid = LocalAddr :: logged ∧ sv = SpawnServe cfg p) ∧
    Forall (λ c, ¬ serves c) k2 ∧ Startup.upstream cfg = upstream ∧ scs (scenarios cfg).

Lemma served_app scs listen upstream k k' :
  Forall setup k → Forall (λ c, ¬ serves c) k' ∨ served scs listen upstream k' →
  Forall (λ c, ¬ serves c) (k ++ k') ∨ served scs listen upstream (k ++ k').
Proof.
  intros Hk [Hk'|(k1 & p & cfg & mid & sv & k2 & -> & ? & ? & ? & ? & ?)].
  - left. apply Forall_app. split; [by apply quiet_serves, quiet_setup|done].
  - right. exists (k ++ k1), p, cfg, mid, sv, k2. rewrite Forall_app, <-app_assoc. by split_and!.
Qed.

Lemma serve_until_signal_calls listen upstream ss trace tls env n :
  calls (serve_until_signal listen upstream ss trace tls) env n
    (λ _ k, Forall (λ c, ¬ serves c) k ∨ served (eq ss) listen upstream k).
Proof.
  unfold serve_until_signal. apply boot_calls; [by intros ? ? ?%quiet_serves; left|]. intros tls' p k1 Hk1.
  assert (Hs : served (eq ss) listen upstream
    (k1 ++ [CreateNew p; Listen listen] ++ logged ++ [Serve (config upstream ss tls') p])).
  { exists k1, p, (config upstream ss tls'), logged, (Serve (config upstream ss tls') p), []. split_and!; try done. by left. }
  assert (Hpre : Forall (λ c, ¬ serves c) (k1 ++ [CreateNew p; Listen listen] ++ logged)).
  { rewrite !Forall_app. split_and!; [by apply quiet_serves, quiet_setup|by quiet|apply quiet_serves, logged_quiet]. }
  eapply calls_bind; [apply info_listening_calls|intros [] ? [-> _]|intros ? ? [-> _]; by left..].
  eapply (calls_bind _ _ _ _ (λ _ k, k = [Serve (config upstream ss tls') p])); [by apply calls_sys| |..].
  - intros ? ? ->. apply calls_ret. by right.
  - intros ? ? ->. by right.
  - intros ? ? ->. by right.
Qed.

(** ** [probe] *)

(** What is printed and asked once the proxy has ended. *)
Definition reports (a : ProbeArgs) (c : call) : Prop :=
  match c with
  | Print _ => True
  | Query dsn sql => verify_dsn a = Some dsn ∧ verify_sql a = Some sql
  | _ => False
  end.

Lemma println_reports a line : only (reports a) (println line).
Proof. unfold println. repeat only_step. Qed.

Lemma println_all_reports a ls : only (reports a) (println_all ls).
Proof.
  induction ls as [|l ls IH]; cbn [println_all]; [apply only_ret|]. apply only_bind; [apply println_reports|by intros []].
Qed.

Lemma report_reports a ws out : only (reports a) (report ws out).
Proof. unfold report. repeat first [apply println_reports | only_step]. Qed.

Lemma verify_reports a : only (reports a) (verify (verify_sql a) (verify_dsn a)).
Proof.
  unfold verify. destruct (verify_sql a) as [sql|] eqn:Es; [|apply only_ret].
  destruct (verify_dsn a) as [dsn|] eqn:Ed; [|apply only_ret].
  apply only_bind; [apply println_reports|intros []]. apply only_bind.
  - intros env n l Hl. exists [Query dsn sql]. unfold verify_query. cbn.
    by destruct (env _ _); (split; [done|]); repeat constructor.
  - intros [e|[|r rs]]; repeat first [apply println_reports | apply println_all_reports].
Qed.

(** From the command on, [base] calls having been made: the command runs, the
    proxy is told to stop and has ended before anything is printed or asked; the
    exit code is the command's. *)
Definition finale (a : ProbeArgs) (port : Z) (env : Env) (base : nat) (o : outcome Z) (k : list call) : Prop :=
  k = [] ∧ command a = [] ∧ is_ret o = false ∨
  ∃ program args, program :: args = substitute port <$> command a ∧
    (k = [Run program args] ∧ is_ret o = false ∨
     ∃ (out : Output) ends, env (Run program args) base = inr out ∧
       k = [Run program args; SendShutdown; JoinServer] ++ ends ∧ Forall (reports a) ends ∧
       ∀ n, o = Ret n → n = default 1%Z (code out)).

(** What follows a command that has run. *)
Definition probe_rest (a : ProbeArgs) (ws : list string) (out : Output) : Sys Z :=
  _ ← ignore (sys SendShutdown : Sys unit);
  _ ← (sys JoinServer : Sys unit);
  _ ← report ws out;
  _ ← verify (verify_sql a) (verify_dsn a);
  mret (default 1%Z (code out)).

Lemma probe_command_eq a port env l program args :
  substitute port <$> command a = program :: args →
  probe_command a port env l =
    match env (Run program args) (length l) with
    | inl e => (Fail (Ctx ("running " +:+ program) e), l ++ [Run program args])
    | inr out => probe_rest a (program :: args) out env (l ++ [Run program args])
    end.
Proof.
  intros Ec. unfold probe_command. rewrite Ec. cbv beta zeta iota. unfold mbind at 1, sys_bind at 1.
  unfold sys_context, sys at 1. by destruct (env (Run program args) (length l)).
Qed.

Lemma probe_rest_calls a ws out env n :
  calls (probe_rest a ws out) env n (λ o k,
    ∃ ends, (k = [SendShutdown; JoinServer] ++ ends) ∧ Forall (reports a) ends ∧ ∀ n, o = Ret n → n = default 1%Z (code out)).
Proof.
  unfold probe_rest.
  eapply calls_bind; [apply (calls_ignore_sys _ _ SendShutdown)|intros [] ? [-> _]|by intros ? ? [_ ?]..].
  eapply (calls_bind _ _ _ _ (λ _ k, k = [JoinServer])); [by apply calls_sys|intros [] ? ->| |]; [|by intros ? ? ->; exists []..].
  eapply calls_bind; [apply (report_reports a)|intros [] k Hk|by intros ? k Hk; exists k..].
  eapply calls_bind; [apply (verify_reports a)|intros [] k' Hk'|intros ? k' Hk'; exists (k ++ k'); split_and!; [done|by apply Forall_app|done]..].
  apply calls_ret. exists (k ++ k'). rewrite app_nil_r. split_and!; [done|by apply Forall_app|by intros ? [= <-]].
Qed.

Lemma probe_command_finale a port env n :
  calls (probe_command a port) env n (finale a port env n).
Proof.
  intros l Hl. destruct (substitute port <$> command a) as [|program args] eqn:Ec.
  { exists []. unfold probe_command. rewrite Ec, app_nil_r. split; [done|]. left. apply fmap_nil_inv in Ec. by split_and!. }
  rewrite (probe_command_eq _ _ _ _ _ _ Ec), Hl. destruct (env (Run program args) n) as [e|out] eqn:Eo.
  { exists [Run program args]. split; [done|]. right. exists program, args. split; [done|]. by left. }
  destruct (probe_rest_calls a (program :: args) out env (S n) (l ++ [Run program args])) as (k & Hk & ends & -> & Hends & Ho).
  { rewrite length_app. cbn. lia. }
  exists ([Run program args; SendShutdown; JoinServer] ++ ends). rewrite Hk. split; [by rewrite <-app_assoc|].
  right. exists program, args. split; [done|]. right. exists out, ends. by split_and!.
Qed.

Lemma finale_serves a port env n o k : finale a port env n o k → Forall (λ c, ¬ serves c) k.
Proof.
  intros [(-> & _)|(program & args & _ & [[-> _]|(out & ends & _ & -> & Hends & _)])]; [done|by quiet|].
  cbn [app]. do 3 (apply Forall_cons; split; [by intros []|]). eapply Forall_impl; [exact Hends|]. by intros [] ? ?.
Qed.

(** A run of [probe]: it stops before the proxy runs, or goes through all the steps. *)
Definition probed (a : ProbeArgs) (env : Env) (n : nat) (o : outcome Z) (k : list call) : Prop :=
  Forall (λ c, ¬ live c) k ∧ is_ret o = false ∨
  ∃ k1 p cfg port k2,
    k = k1 ++ [CreateNew p; Listen (p_listen a); LocalAddr] ++ logged ++ [SpawnServe cfg p] ++ k2 ∧ Forall setup k1 ∧
    Startup.upstream cfg = p_upstream a ∧ Forall validated (scenarios cfg) ∧
    env LocalAddr (n + length k1 + 2) = inr port ∧ finale a port env (n + length k1 + 4 + length logged) o k2.

Lemma probe_probed a env n : calls (probe a) env n (probed a env n).
Proof.
  unfold probe. eapply calls_bind.
  { apply calls_and; [apply (only_collect setup); intros p; apply load_setup|apply collect_valid]. }
  2-3: by intros e k [Hk _]; left; (split; [by apply quiet_setup|done]).
  intros ss k [Hk Hss]. specialize (Hss ss eq_refl). apply boot_calls.
  { intros o k' Hk' Ho. left. split; [|done]. apply Forall_app. split; [by apply quiet_setup|done]. }
  intros tls p k1 Hk1. assert (Hkk : Forall setup (k ++ k1)) by by apply Forall_app.
  assert (Hpre : Forall (λ c, ¬ live c) (k ++ k1 ++ [CreateNew p; Listen (p_listen a); LocalAddr])).
  { rewrite app_assoc. apply Forall_app. split; [by apply quiet_setup|by quiet]. }
  assert (Hpre' : Forall (λ c, ¬ live c) (k ++ k1 ++ [CreateNew p; Listen (p_listen a); LocalAddr] ++ logged)).
  { rewrite !app_assoc, <-(app_assoc k). apply Forall_app. split; [done|apply logged_quiet]. }
  set (base := n + length k + length k1 + 2).
  eapply (calls_bind _ _ _ _ (λ o l, l = [LocalAddr] ∧ o = of_result (env LocalAddr base))); [by apply calls_sys|..].
  2-3: by intros ? ? [-> _]; left.
  intros port ? [-> Hport]. destruct (env LocalAddr base) as [e|port'] eqn:Ep; [done|]. injection Hport as [= ->].
  eapply calls_bind; [apply info_listening_calls| |intros ? ? [-> ?]; by left|by intros ? ? [_ ?]].
  intros [] ? [-> _].
  eapply calls_bind; [apply (calls_ignore_sys _ _ (SpawnServe _ _))| |by intros ? ? [_ ?]..].
  intros [] ? [-> _]. eapply calls_mono; [apply probe_command_finale|]. intros o k2 Hfin. right.
  exists (k ++ k1), p, (config (p_upstream a) ss tls), port', k2. unfold base in *. rewrite length_app, <-!app_assoc.
  split_and!; try done; [by replace (n + (length k + length k1) + 2) with (n + length k + length k1 + 2) by lia|].
  replace (n + (length k + length k1) + 4 + length logged)
    with (n + length k + length k1 + 2 + length [LocalAddr] + length logged + 1); [done|cbn; lia].
Qed.

Lemma probed_served a env n o k :
  probed a env n o k → Forall (λ c, ¬ serves c) k ∨ served (Forall validated) (p_listen a) (p_upstream a) k.
Proof.
  intros [[? _]|(k1 & p & cfg & port & k2 & -> & Hk1 & ? & ? & _ & Hf%finale_serves)]; [left; by apply quiet_serves|].
  right. exists k1, p, cfg, (LocalAddr :: logged), (SpawnServe cfg p), k2. split_and!; try done. by right.
Qed.

(** ** Properties *)

(** The addresses a command serves on and to. *)
Definition addresses (c : Command) : option (string * string) :=
  match c with
  | CmdRun listen upstream _ _ _ | CmdReplay _ listen upstream _ _ => Some (listen, upstream)
  | CmdProbe a => Some (p_listen a, p_upstream a)
  | CmdValidate _ => None
  end.

(** C13. What is served: for every command line and whatever the system answers,
    the proxy runs at most once, on the addresses asked for, with scenarios that
    all pass [validate], and only once a new trace file has been created and then
    the listener bound, nothing but its address being asked for in between; [validate] never
    serves. *)
Theorem serves_validated_scenarios c env o k :
  main c env [] = (o, k) →
  Forall (λ c, ¬ serves c) k ∨
  ∃ listen upstream, addresses c = Some (listen, upstream) ∧ served (Forall validated) listen upstream k.
Proof.
  intros Hm. assert (calls (main c) env 0 (λ _ k, Forall (λ c, ¬ serves c) k ∨
    ∃ listen upstream, addresses c = Some (listen, upstream) ∧ served (Forall validated) listen upstream k)) as Hc.
  { assert (Hload : ∀ listen upstream trace tls (get : Sys (list Scenario)),
      only setup get → (∀ n, calls get env n (λ o _, ∀ ss, o = Ret ss → Forall validated ss)) →
      calls (ss ← get; serve_until_signal listen upstream ss trace tls) env 0
        (λ _ k, Forall (λ c, ¬ serves c) k ∨ served (Forall validated) listen upstream k)).
    { intros listen up trace tls get Hs Hv. eapply calls_bind; [apply calls_and; [apply Hs|apply Hv]|..].
      2-3: by intros ? l [? _]; left; apply quiet_serves, quiet_setup.
      intros ss l [Hl Hss]. eapply calls_mono; [apply serve_until_signal_calls|]. intros ? l' Hl'.
      apply served_app; [done|]. destruct Hl' as [?|(k1 & p & cfg & mid & sv & k2 & ? & ? & ? & ? & ? & Heq)]; [by left|right].
      exists k1, p, cfg, mid, sv, k2. split_and!; try done. rewrite <-Heq. by apply Hss. }
    destruct c as [listen up scs trace tls|tr listen up trace tls|p|a]; cbn [main addresses].
    - eapply calls_mono; [apply Hload; [apply only_collect, load_setup|apply collect_valid]|]. intros ? l [?|?]; eauto.
    - eapply calls_mono; [apply Hload; [apply replay_file_setup|apply replay_file_valid]|]. intros ? l [?|?]; eauto.
    - eapply calls_bind; [apply load_setup|..]. 2-3: by intros ? l ?; left; apply quiet_serves, quiet_setup.
      intros s l Hl. assert (Hp : only (λ c, ¬ serves c) (_ ← println ("valid: " +:+ name s); mret 0%Z)).
      { unfold println. repeat first [apply only_sys; by intros [] | only_step]. }
      eapply calls_mono; [apply Hp|]. intros ? l' Hl'. left. apply Forall_app. split; [by apply quiet_serves, quiet_setup|done].
    - eapply calls_mono; [apply probe_probed|]. intros ? l [?|?]%probed_served; eauto. }
  exact (calls_run _ _ _ _ _ Hc Hm).
Qed.

(** C24. The order of [probe]: it either stops before the proxy runs, without a
    result, or creates a new trace file, binds, asks for the port (and once more if
    it logs the address), starts the proxy
    with validated scenarios and then runs the command with this port in place of
    the placeholder; only when the command has run and the proxy has been told to
    stop and has ended does it print anything or ask for the ground truth, with the
    query and the address given; its result is the exit code of the command, 1
    if the command was killed.  With a command line that [clap] accepts, the empty
    command is not an issue. *)
Theorem probe_order a env o k :
  requires (CmdProbe a) = true → probe a env [] = (o, k) →
  Forall (λ c, ¬ live c) k ∧ is_ret o = false ∨
  ∃ k1 p cfg port program args k2,
    k = k1 ++ [CreateNew p; Listen (p_listen a); LocalAddr] ++ logged ++ [SpawnServe cfg p; Run program args] ++ k2 ∧
    Forall setup k1 ∧ Startup.upstream cfg = p_upstream a ∧ Forall validated (scenarios cfg) ∧
    env LocalAddr (length k1 + 2) = inr port ∧ program :: args = substitute port <$> command a ∧
    (k2 = [] ∧ is_ret o = false ∨
     ∃ (out : Output) ends, env (Run program args) (length k1 + 4 + length logged) = inr out ∧
       k2 = [SendShutdown; JoinServer] ++ ends ∧ Forall (reports a) ends ∧
       ∀ n, o = Ret n → n = default 1%Z (code out)).
Proof.
  intros Hreq Hp. destruct (calls_run _ _ _ _ _ (probe_probed a env 0) Hp) as [?|Hr]; [by left|right].
  destruct Hr as (k1 & p & cfg & port & k2 & -> & Hk1 & Hup & Hss & Hport & Hfin). cbn in Hreq.
  destruct Hfin as [(_ & Hc & _)|(program & args & Hargs & Hend)].
  { apply andb_true_iff in Hreq as [_ Hne%bool_decide_eq_true]. by destruct (Hne Hc). }
  destruct Hend as [[-> Ho]|(out & ends & Hout & -> & Hends & Ho)].
  - exists k1, p, cfg, port, program, args, []. split_and!; try done. by left.
  - exists k1, p, cfg, port, program, args, ([SendShutdown; JoinServer] ++ ends). split_and!; try done.
    right. exists out, ends. by split_and!.
Qed.

(** *** TLS *)

Lemma load_certs_ret p env n :
  calls (load_certs p) env n (λ o _, is_ret o = true → ∃ data : bytes, env (ReadFile p) n = inr data ∧
    o = results (pem_certs data)).
Proof.
  unfold load_certs. eapply (calls_bind _ _ _ _ (λ o _, ∀ data, o = Ret data → env (ReadFile p) n = inr data)).
  - eapply calls_context; [by apply (calls_sys _ _ _ (λ o _, o = of_result (env (ReadFile p) n)))|].
    intros o k -> data. destruct (env (ReadFile p) n); [done|]. by intros [= ->].
  - intros data k Hd. apply calls_pure. intros Hr. exists data. split; [by apply Hd|].
    by destruct (results (pem_certs data)).
  - done.
  - done.
Qed.

Lemma add_roots_app roots certs out :
  add_roots roots certs = Ret out → ∃ more, out = roots ++ more ∧ Forall2 (λ c a, trust_anchor c = inr a) certs more.
Proof.
  revert roots. induction certs as [|c certs IH]; intros roots; cbn [add_roots].
  { intros [= <-]. exists []. by rewrite app_nil_r. }
  destruct (trust_anchor c) as [e|a] eqn:E; [done|]. cbn [of_result context]. run_ret.
  intros (more & -> & Hm)%IH. exists (a :: more). rewrite <-app_assoc. split; [done|]. by constructor.
Qed.

(** The verifier the arguments ask for. *)
Definition verifier_ok (env : Env) (a : TlsArgs) (v : option Verifier) : Prop :=
  match v with
  | None => upstream_tls_flag a = false
  | Some NoVerify => upstream_tls_flag a = true ∧ upstream_tls_insecure a = true
  | Some (RootCertStore roots) =>
    upstream_tls_flag a = true ∧ upstream_tls_insecure a = false ∧
    ∃ more, roots = TLS_SERVER_ROOTS ++ more ∧
      match upstream_ca a with
      | None => more = []
      | Some ca => ∃ m (data : bytes) certs, env (ReadFile ca) m = inr data ∧ results (pem_certs data) = Ret certs ∧
          Forall2 (λ c a, trust_anchor c = inr a) certs more
      end
  end.

Lemma upstream_connector_ok a env n :
  upstream_tls_flag a = true →
  calls (upstream_connector (upstream_tls_insecure a) (upstream_ca a)) env n
    (λ o _, ∀ v, o = Ret v → verifier_ok env a (Some v)).
Proof.
  intros Hflag. unfold upstream_connector. destruct (upstream_tls_insecure a) eqn:Ei; [apply calls_ret; by intros ? [= <-]|].
  eapply (calls_bind _ _ _ _ (λ o _, ∀ roots, o = Ret roots → verifier_ok env a (Some (RootCertStore roots)))); [| |done..].
  2: { intros roots k Hr. apply calls_ret. intros ? [= <-]. by apply Hr. }
  unfold verifier_ok. destruct (upstream_ca a) as [ca|].
  - eapply calls_bind; [apply load_certs_ret| |done..]. intros certs k (data & Hdata & Hcerts)%(λ H, H eq_refl).
    apply calls_pure. intros roots (more & -> & Hm)%add_roots_app. split_and!; [done..|].
    exists more. split; [done|]. by exists n, data, certs.
  - apply calls_ret. intros ? [= <-]. split_and!; [done..|]. exists []. by rewrite app_nil_r.
Qed.

Lemma into_config_ok a env n :
  calls (into_config a) env n (λ o _, ∀ cfg, o = Ret cfg →
    (is_Some (frontend_tls cfg) ↔ is_Some (tls_cert a) ∧ is_Some (tls_key a)) ∧ verifier_ok env a (Tls.upstream_tls cfg)).
Proof.
  unfold into_config.
  eapply (calls_bind _ _ _ _ (λ o _, ∀ f, o = Ret f → is_Some f ↔ is_Some (tls_cert a) ∧ is_Some (tls_key a))); [| |done..].
  { destruct (tls_cert a) as [cert|], (tls_key a) as [key|].
    2-4: apply calls_ret; intros ? [= <-]; by split; [intros [? ?]|intros [[? ?] [? ?]]].
    eapply (calls_bind _ _ _ _ (λ _ _, True)); [|intros acc ? _; apply calls_ret; intros ? [= <-]; split; eauto|done..].
    assert (Ha : only setup (frontend_acceptor cert key)).
    { unfold frontend_acceptor, load_key. repeat first [apply load_certs_setup | only_step]. }
    eapply calls_mono; [apply Ha|done]. }
  intros f k Hf. specialize (Hf f eq_refl).
  eapply (calls_bind _ _ _ _ (λ o _, ∀ v, o = Ret v → verifier_ok env a v)); [| |done..].
  2: { intros v k' Hv. apply calls_ret. intros ? [= <-]. split; [done|by apply Hv]. }
  destruct (upstream_tls_flag a) eqn:Eu; [|apply calls_ret; by intros ? [= <-]].
  eapply calls_bind; [by apply upstream_connector_ok| |done..].
  intros v k' Hv. apply calls_ret. intros ? [= <-]. by apply Hv.
Qed.

(** C25. TLS as asked for: a configuration made of arguments that [clap] accepts
    terminates the TLS of clients exactly if a certificate is given; it uses TLS to
    the server exactly if asked, accepts any server certificate exactly if told
    that this is insecure, and otherwise trusts the public roots, and with
    [--upstream-ca] one more root for each certificate of that file, nothing else. *)
Theorem tls_as_asked `{!Webpki} a env cfg k :
  tls_requires a = true → into_config a env [] = (Ret cfg, k) →
  (is_Some (frontend_tls cfg) ↔ is_Some (tls_cert a)) ∧
  (is_Some (Tls.upstream_tls cfg) ↔ upstream_tls_flag a = true) ∧
  (∀ v, Tls.upstream_tls cfg = Some v → verifier_ok env a (Some v) ∧
    (upstream_tls_insecure a = true → ∀ chain name message cert dss,
      verify_server_cert v chain name = true ∧ verify_tls_signature v message cert dss = true)) ∧
  (upstream_tls_insecure a = true → Tls.upstream_tls cfg = Some NoVerify).
Proof.
  intros Hreq Hc. destruct (calls_run _ _ _ _ _ (into_config_ok a env 0) Hc cfg eq_refl) as [Hf Hv].
  apply andb_true_iff in Hreq as [Hk%bool_decide_eq_true Hu].
  split_and!.
  - rewrite Hf, <-Hk. tauto.
  - unfold verifier_ok in Hv. destruct (Tls.upstream_tls cfg) as [[|roots]|].
    + destruct Hv as [-> _]. by split; eauto.
    + destruct Hv as (-> & _). by split; eauto.
    + rewrite Hv. by split; [intros [? ?]|].
  - intros v Ev. rewrite Ev in Hv. split; [done|]. intros Hi chain nm msg cert dss.
    destruct v as [|roots]; [done|]. destruct Hv as (_ & Hi' & _). by rewrite Hi in Hi'.
  - intros Hi. rewrite Hi in Hu. cbn in Hu. rewrite orb_false_r in Hu. unfold verifier_ok in Hv.
    destruct (Tls.upstream_tls cfg) as [[|roots]|]; [done| |by rewrite Hu in Hv].
    destruct Hv as (_ & Hi' & _). by rewrite Hi in Hi'.
Qed.
End setup.

(** ** The placeholder *)

Lemma replace_from_drop k pat rep s : replace_from k pat rep s = replace_from 0 pat rep (drop k s).
Proof. revert k. induction s as [|b s IH]; intros [|k]; cbn [replace_from drop]; [done..|]. apply IH. Qed.

Lemma replace_match pat rep s : pat ≠ [] → replace pat rep (pat ++ s) = rep ++ replace pat rep s.
Proof.
  intros Hne. unfold replace. destruct pat as [|p pat]; [done|]. cbn [app replace_from].
  replace (starts_with _ _) with true by (symmetry; apply (starts_with_app s (p :: pat))).
  rewrite replace_from_drop. cbn [length pred]. by rewrite drop_app_length.
Qed.

Lemma replace_other pat rep b s : starts_with (b :: s) pat = false → replace pat rep (b :: s) = b :: replace pat rep s.
Proof. intros Hb. unfold replace. cbn [replace_from]. by rewrite Hb. Qed.

(** Text without the first byte of the pattern is kept. *)
Lemma replace_plain p pat rep w s : p ∉ w → replace (p :: pat) rep (w ++ s) = w ++ replace (p :: pat) rep s.
Proof.
  intros Hw. induction w as [|b w IH]; [done|]. apply not_elem_of_cons in Hw as [Hb Hw].
  cbn [app]. rewrite replace_other, IH by (try done; cbn [starts_with]; by rewrite byte_eqb_ne). done.
Qed.

(** What the output starts with, as long as it is not made of the replacement, the
    input starts with. *)
Lemma replace_starts pat rep q s :
  pat ≠ [] → rep ≠ [] → Forall (λ b, b ∉ rep) q → starts_with (replace pat rep s) q = true → starts_with s q = true.
Proof.
  intros Hne Hr Hq. revert s. induction Hq as [|y q Hy Hq IH]; intros s; [by destruct s|].
  destruct s as [|b s]; [done|]. destruct (starts_with (b :: s) pat) eqn:E.
  - apply starts_with_true in E. rewrite <-(take_drop (length pat) (b :: s)), E, replace_match by done.
    destruct rep as [|r rep]; [done|]. cbn [app starts_with].
    destruct (byte_eqb_spec r y) as [->|]; [|done]. by destruct Hy; left.
  - rewrite replace_other by done. cbn [starts_with]. intros [-> Hs]%andb_true_iff. by rewrite IH.
Qed.

(** An occurrence of the pattern. *)
Definition occurs (pat s : bytes) : Prop := ∃ a b, s = a ++ pat ++ b.

Lemma occurs_cons pat b s : occurs pat (b :: s) ↔ starts_with (b :: s) pat = true ∨ occurs pat s.
Proof.
  split.
  - intros ([|x a] & t & E).
    + left. cbn [app] in E. rewrite E. apply starts_with_app.
    + right. injection E as [= _ ->]. by exists a, t.
  - intros [Hs|(a & t & ->)]; [|by exists (b :: a), t].
    apply starts_with_true in Hs. exists [], (drop (length pat) (b :: s)). by rewrite <-Hs at 1; rewrite take_drop.
Qed.

Lemma occurs_app_disjoint pat rep s :
  pat ≠ [] → Forall (λ b, b ∉ rep) pat → occurs pat (rep ++ s) → occurs pat s.
Proof.
  intros Hne Hd. destruct pat as [|p pat]; [done|]. apply Forall_cons in Hd as [Hp _].
  induction rep as [|r rep IH]; [done|]. cbn [app]. rewrite occurs_cons. intros [Hs|Ho].
  - cbn [starts_with] in Hs. apply andb_true_iff in Hs as [Hs _]. apply Byte.byte_dec_bl in Hs. destruct Hp. subst. left.
  - apply IH; [|done]. intros Hin. destruct Hp. by right.
Qed.

Lemma replace_no_occurrence pat rep s :
  pat ≠ [] → rep ≠ [] → Forall (λ b, b ∉ rep) pat → ¬ occurs pat (replace pat rep s).
Proof.
  intros Hne Hr Hd. induction s as [s IH] using (well_founded_ind (well_founded_ltof _ (@length byte))).
  destruct s as [|b s]; [intros (a & t & E); apply eq_sym, app_eq_nil in E as [_ [E _]%app_eq_nil]; done|].
  destruct (starts_with (b :: s) pat) eqn:E.
  - pose proof (proj1 (starts_with_true _ _) E) as Et.
    rewrite <-(take_drop (length pat) (b :: s)), Et, replace_match by done.
    intros Ho%occurs_app_disjoint; [|done..]. revert Ho. apply IH. unfold ltof. rewrite length_drop.
    destruct pat; [done|]. cbn [length]. lia.
  - rewrite replace_other by done. rewrite occurs_cons. intros [Hs|Ho].
    + rewrite <-(replace_other pat rep b s E) in Hs. apply replace_starts in Hs; [congruence|done..].
    + revert Ho. apply IH. unfold ltof. cbn. lia.
Qed.

(** *** Decimal numbers *)

Definition digits (s : string) : Prop := Forall (λ b, is_ascii_digit b = true) (bs s).

Lemma digits_cons c s : digits (String c s) ↔ is_ascii_digit (Ascii.byte_of_ascii c) = true ∧ digits s.
Proof. apply (Forall_cons (λ b, is_ascii_digit b = true)). Qed.

Lemma pretty_N_char_digit x : is_ascii_digit (Ascii.byte_of_ascii (pretty_N_char x)) = true.
Proof. unfold pretty_N_char. by repeat case_match. Qed.

Lemma pretty_N_go_digits x s : digits s → digits (pretty_N_go x s) ∧ (x ≠ 0%N ∨ s ≠ "" → pretty_N_go x s ≠ "").
Proof.
  revert s. induction (N.lt_wf_0 x) as [x _ IH]; intros s Hs.
  destruct (decide (0 < x)%N) as [Hx|Hx].
  - rewrite pretty_N_go_step by done.
    destruct (IH (x `div` 10)%N (N.div_lt x 10 Hx eq_refl) (String (pretty_N_char (x `mod` 10)) s)) as [Hd Hn].
    { apply digits_cons. split; [apply pretty_N_char_digit|done]. }
    split; [done|]. intros _. by apply Hn; right.
  - assert (x = 0%N) as -> by lia. rewrite pretty_N_go_0. split; [done|]. by intros [?|?].
Qed.

(** A number that is not negative prints as digits, at least one. *)
Lemma pretty_digits z : (0 ≤ z)%Z → digits (pretty z) ∧ pretty z ≠ ""%string.
Proof.
  intros Hz. destruct z as [|p|p]; [by split; [repeat constructor|]| |lia].
  change (pretty (Z.pos p)) with (pretty (N.pos p)). unfold pretty, pretty_N.
  destruct (decide _) as [|Hp]; [done|]. destruct (pretty_N_go_digits (N.pos p) "") as [? Hn]; [constructor|].
  split; [done|]. by apply Hn; left.
Qed.

(** The text of an argument between placeholders. *)
Definition plain_text (w : string) : Prop := "{"%byte ∉ bs w.

(** C26. The placeholder: for a port number, an argument made of texts without
    braces around placeholders becomes the same texts around the number; and
    whatever the argument is, no placeholder is left in what the command gets. *)
Theorem substitute_spec port :
  (0 ≤ port < 65536)%Z →
  (∀ w ws, plain_text w → Forall plain_text ws →
    bs (substitute port (String.string_of_list_byte (bs w ++ concat ((λ w, placeholder ++ bs w) <$> ws)))) =
    bs w ++ concat ((λ w, bs (pretty port) ++ bs w) <$> ws)) ∧
  (∀ a, ¬ occurs placeholder (bs (substitute port a))).
Proof.
  intros Hport. destruct (pretty_digits port) as [Hd Hne]; [lia|]. unfold substitute. split.
  - intros w ws Hw Hws. rewrite !bs_of_byte_string. change placeholder with ("{"%byte :: bs "{PGFAULT_PORT}}").
    rewrite replace_plain by done. f_equal. clear w Hw. induction Hws as [|w ws Hw _ IH]; [done|].
    rewrite !fmap_cons. cbn [concat]. rewrite <-!app_assoc, replace_match, replace_plain by done. by rewrite IH.
  - intros a. rewrite bs_of_byte_string. apply replace_no_occurrence; [done| |].
    + intros E. apply Hne. by rewrite <-(string_of_bs (pretty port)), E.
    + unfold placeholder. assert (Hno : ∀ b, is_ascii_digit b = false → b ∉ bs (pretty port)).
      { intros b Hb Hin. unfold digits in Hd. rewrite Forall_forall in Hd. specialize (Hd b Hin). congruence. }
      repeat (apply Forall_cons; split; [by apply Hno|]). constructor.
Qed.

(** ** Witnesses *)

(** A scenario file that always reads as the same scenario, and a stand-in for
    each crate. *)
Definition sample_scenario : Scenario :=
  mk_scenario 1 "lose commit" Selector.default (When.mk "transaction.commit.completed" None [] None)
    (Action.mk (Some (mk_suppress true)) None None None).
#[local] Instance sample_yaml : Yaml := λ _, inr sample_scenario.
#[local] Instance no_delays : Humantime := λ _, inl Elapsed.
(** [info!] logs. *)
#[local] Instance logging : Logging := true.
#[local] Instance no_json : Json := {|
  to_vec _ := inl Elapsed; from_str _ := inl Elapsed; scenario_to_string _ := inl Elapsed
|}.
#[local] Instance sample_rustls : Rustls := {|
  CertificateDer := unit; PrivateKeyDer := unit; TrustAnchor := nat;
  pem_certs _ := [inr tt]; pem_private_key _ := inr (Some tt);
  TlsAcceptor := unit; server_config _ _ := inr tt;
  TLS_SERVER_ROOTS := [1; 2]; trust_anchor _ := inr 3
|}.
#[local] Instance sample_webpki : Webpki := {| webpki_verifies _ _ _ := false; webpki_signed _ _ _ := false |}.

(** A system on which every call succeeds. *)
Definition sample_env : Env := λ c _,
  match c return error + answer c with
  | ReadToString _ => inr "version: 1"%string
  | ReadFile _ => inr []
  | OpenRead _ => inr ([], None)
  | LocalAddr => inr 54321%Z
  | Now | Pid => inr 7%Z
  | Run _ _ => inr (mk_output (Some 3%Z) [] [])
  | Query _ _ => inr [Row [Some "1"%string; None]]
  | _ => inr tt
  end.

Definition no_tls : TlsArgs := mk_tls_args None None false false None.
Definition sample_run : Command :=
  CmdRun "127.0.0.1:15432" "127.0.0.1:5432" ["s.yaml"] (Some "traces/t.jsonl") no_tls.
Definition sample_probe : ProbeArgs :=
  mk_probe "127.0.0.1:0" "127.0.0.1:5432" ["s.yaml"] None no_tls (Some "select 1") (Some "dsn")
    ["psql"; "port={{PGFAULT_PORT}}"].

Lemma serves_validated_scenarios_witness :
  ∃ k1 p cfg, (main sample_run sample_env []).2 = k1 ++ [CreateNew p; Listen "127.0.0.1:15432"; LocalAddr; Serve cfg p] ∧
    Forall validated (scenarios cfg).
Proof.
  assert (Hk : (main sample_run sample_env []).2 =
    [ReadToString "s.yaml"; CreateDirAll (path "traces"); CreateNew "traces/t.jsonl"; Listen "127.0.0.1:15432"; LocalAddr;
     Serve (config "127.0.0.1:5432" [sample_scenario] (mk_tls None None)) "traces/t.jsonl"]) by by vm_compute.
  destruct (serves_validated_scenarios sample_run sample_env _ _ (surjective_pairing (main sample_run sample_env [])))
    as [Hno|(listen & upstream & Ha & k1 & p & cfg & mid & sv & k2 & Hs & _ & Hsv & Hk2 & _ & Hv)].
  - exfalso. rewrite Hk in Hno. do 5 apply Forall_inv_tail in Hno. by apply Forall_inv in Hno; apply Hno.
  - exists k1, p, cfg. split; [|done]. injection Ha as [= <- <-]. rewrite Hs.
    destruct Hsv as [[-> ->]|[-> ->]].
    + f_equal. cbn. repeat f_equal. destruct k2 as [|x k2]; [done|]. exfalso.
      rewrite Hk in Hs. apply (f_equal (@length call)) in Hs as Hl. cbn in Hl. rewrite length_app in Hl. cbn in Hl.
      destruct k1 as [|? [|? k1]]; cbn in Hl; [..|lia]; simplify_eq/=.
    + exfalso. rewrite Hk in Hs. apply (f_equal (λ l, existsb (λ c, match c with SpawnServe _ _ => true | _ => false end) l)) in Hs.
      rewrite !existsb_app in Hs. cbn in Hs. by rewrite orb_true_r in Hs.
Defined.

Lemma probe_order_witness :
  ∃ k1 p cfg args k2, (probe sample_probe sample_env []).2 =
    k1 ++ [CreateNew p; Listen "127.0.0.1:0"; LocalAddr; LocalAddr; SpawnServe cfg p; Run "psql" args] ++ k2 ∧ args = ["port=54321"%string].
Proof.
  destruct (probe_order sample_probe sample_env _ _ eq_refl (surjective_pairing (probe sample_probe sample_env [])))
    as [[_ Hr]|(k1 & p & cfg & port & program & args & k2 & Hs & _ & _ & _ & Hport & Hargs & _)].
  - exfalso. by vm_compute in Hr.
  - cbn in Hport. injection Hport as [= <-]. vm_compute in Hargs. injection Hargs as [= -> ->].
    by exists k1, p, cfg, ["port=54321"%string], k2.
Defined.

Definition ca_args : TlsArgs := mk_tls_args None None true false (Some "ca.pem"%string).

Definition ca_roots : list TrustAnchor := ([1; 2; 3] : list nat).

Lemma tls_as_asked_witness :
  ∃ cfg, (into_config ca_args sample_env []).1 = Ret cfg ∧ is_Some (Tls.upstream_tls cfg).
Proof.
  exists (mk_tls None (Some (RootCertStore ca_roots))). split; [by vm_compute|].
  by apply (tls_as_asked ca_args sample_env (mk_tls None (Some (RootCertStore ca_roots))) [ReadFile "ca.pem"]).
Defined.

Lemma substitute_spec_witness : ¬ occurs placeholder (bs (substitute 5432 "{{PGFAULT_{{PGFAULT_PORT}}PORT}}")).
Proof. apply (substitute_spec 5432); lia. Defined.
